(** * OpenAPI editor: document graph, editor store, importer, exporter, validator

    A shallow embedding of the core of the OpenAPI editor
    (src/lib/openapi/types.ts, store.ts, parser, serializer, validator)
    together with the properties stated about it.

    Conventions of the embedding
    - a JS [Map] is an insertion-ordered association list ([JsMap.t]);
    - an optional field [f?: T] is an [option T]; [undefined] is [None];
    - a JS [number] is a [Z] (only integral values occur in the model);
    - a value of type [unknown] is a [JValue], the tree a YAML or JSON
      decoder produces;
    - identifiers come from [crypto.randomUUID()]; the importer takes the
      stream of identifiers it will draw as a parameter [uuid];
    - [Date.now()] is a parameter [now] of every store action. *)

From Stdlib Require Import String Ascii List ZArith Bool Lia Arith DecimalString DecimalNat.
Import ListNotations.
Open Scope string_scope.
Open Scope list_scope.
Set Warnings "-register-all".
Set Implicit Arguments.

(* ================================================================== *)
(** ** JavaScript values and containers *)

Definition NodeId := string.

(** The decoded form of a YAML/JSON text. The entries of [JObj] are listed
    in the order [Object.entries] enumerates them. *)
Inductive JValue : Type :=
| JNull
| JBool (b : bool)
| JNum (z : Z)
| JStr (s : string)
| JArr (items : list JValue)
| JObj (entries : list (string * JValue)).

(** Insertion-ordered maps with string keys ([Map<string, V>]). *)
Module JsMap.
Definition t (V : Type) := list (string * V).

Definition empty {V} : t V := [].

Fixpoint get {V} (k : string) (m : t V) : option V :=
  match m with
  | [] => None
  | (k', v) :: rest => if String.eqb k k' then Some v else get k rest
  end.

Definition has {V} (k : string) (m : t V) : bool :=
  match get k m with Some _ => true | None => false end.

(** [m.set(k, v)]: an existing key keeps its position. *)
Fixpoint set {V} (k : string) (v : V) (m : t V) : t V :=
  match m with
  | [] => [(k, v)]
  | (k', v') :: rest =>
      if String.eqb k k' then (k, v) :: rest else (k', v') :: set k v rest
  end.

(** [m.delete(k)]. *)
Fixpoint delete {V} (k : string) (m : t V) : t V :=
  match m with
  | [] => []
  | (k', v') :: rest =>
      if String.eqb k k' then delete k rest else (k', v') :: delete k rest
  end.

Definition values {V} (m : t V) : list V := map snd m.
Definition keys {V} (m : t V) : list string := map fst m.
Definition size {V} (m : t V) : nat := length m.

(** [new Map(entries)]: later entries override earlier ones. *)
Definition of_entries {V} (es : list (string * V)) : t V :=
  fold_left (fun m kv => set (fst kv) (snd kv) m) es empty.

(** [const x = m.get(k)!] followed by assignments to the fields of [x]:
    the object the map holds under [k] is changed where it is. *)
Fixpoint modify {V} (k : string) (f : V -> V) (m : t V) : t V :=
  match m with
  | [] => []
  | (k', v') :: rest =>
      if String.eqb k k' then (k', f v') :: rest else (k', v') :: modify k f rest
  end.

(** [new Map(m)] for a map [m]: the entries of [m], in its order. *)
Definition copy {V} (m : t V) : t V := map (fun kv => kv) m.
End JsMap.

(** [{...old, ...updates}] on one field: a key present in [updates] wins. *)
Definition spread {A} (old : A) (upd : option A) : A :=
  match upd with Some x => x | None => old end.

(** [xs.includes(x)] on an array of strings. *)
Definition includes (xs : list string) (x : string) : bool :=
  existsb (String.eqb x) xs.

(** [xs.indexOf(x)]: [None] stands for [-1]. *)
Fixpoint indexOf (xs : list string) (x : string) : option nat :=
  match xs with
  | [] => None
  | y :: rest =>
      if String.eqb y x then Some 0
      else match indexOf rest x with Some i => Some (S i) | None => None end
  end.

(** [xs[i] = v] for an index in range. *)
Fixpoint assign_at {A} (xs : list A) (i : nat) (v : A) : list A :=
  match xs, i with
  | [], _ => []
  | _ :: rest, O => v :: rest
  | y :: rest, S j => y :: assign_at rest j v
  end.

(** [xs.splice(i, 1)]. *)
Fixpoint splice1 {A} (xs : list A) (i : nat) : list A :=
  match xs, i with
  | [], _ => []
  | _ :: rest, O => rest
  | y :: rest, S j => y :: splice1 rest j
  end.

(** [xs.slice(0, e)]: a negative [e] counts from the end. *)
Definition slice0 {A} (xs : list A) (e : Z) : list A :=
  if (e <? 0)%Z
  then firstn (Z.to_nat (Z.max (Z.of_nat (length xs) + e) 0)) xs
  else firstn (Z.to_nat e) xs.

(** [xs[i]]: [undefined] outside the array. *)
Definition index {A} (xs : list A) (i : Z) : option A :=
  if (i <? 0)%Z then None else nth_error xs (Z.to_nat i).

(** [xs.shift()]: the array without its first element. *)
Definition shift {A} (xs : list A) : list A := tl xs.

(** The double-quote character, for the messages that quote a name. *)
Definition quote : string := String (ascii_of_nat 34) EmptyString.

(** Truthiness of a string. *)
Definition nonempty (s : string) : bool := negb (String.eqb s "").

(** Truthiness of an optional string ([if (x.description)]). *)
Definition truthy_str (s : option string) : bool :=
  match s with Some x => nonempty x | None => false end.

(* ================================================================== *)
(** ** Core types (types.ts) *)

Inductive SchemaType :=
| TObject | TArray | TString | TNumber | TInteger | TBoolean
| TEnum | TOneOf | TAnyOf | TAllOf.

Definition SchemaType_eqb (a b : SchemaType) : bool :=
  match a, b with
  | TObject, TObject | TArray, TArray | TString, TString
  | TNumber, TNumber | TInteger, TInteger | TBoolean, TBoolean
  | TEnum, TEnum | TOneOf, TOneOf | TAnyOf, TAnyOf | TAllOf, TAllOf => true
  | _, _ => false
  end.

(** The typed edge: [SchemaRef | InlineSchema], over the node type. *)
Inductive EdgeOf (S : Type) : Type :=
| SRef (targetId : NodeId)
| SInline (schema : S).
Arguments SRef {S} targetId.
Arguments SInline {S} schema.

Record PropertyOf (E : Type) : Type := mkPropertyDef {
  pd_name : string;
  pd_schema : E;
  pd_required : bool;
  pd_description : option string
}.

Record Discriminator := mkDiscriminator {
  propertyName : string;
  mapping : option (list (string * string))
}.

Inductive SchemaNode : Type := mkSchemaNode {
  s_id : NodeId;
  s_name : option string;
  s_type : SchemaType;
  s_description : option string;
  s_properties : option (JsMap.t (PropertyOf (EdgeOf SchemaNode)));
  s_items : option (EdgeOf SchemaNode);
  s_variants : option (list (EdgeOf SchemaNode));
  s_enumValues : option (list string);
  s_required : option (list string);
  s_format : option string;
  s_example : option JValue;
  s_default : option JValue;
  s_minimum : option Z;
  s_maximum : option Z;
  s_minLength : option Z;
  s_maxLength : option Z;
  s_pattern : option string;
  s_discriminator : option Discriminator
}.

Definition SchemaOrRef := EdgeOf SchemaNode.
Definition PropertyDef := PropertyOf SchemaOrRef.

Inductive ParamLocation := InPath | InQuery | InHeader | InCookie.

Record ParameterDef := mkParameterDef {
  p_id : NodeId;
  p_name : string;
  p_in : ParamLocation;
  p_required : bool;
  p_schema : SchemaOrRef;
  p_description : option string;
  p_example : option JValue
}.

Record MediaType := mkMediaType {
  mt_schema : SchemaOrRef;
  mt_example : option JValue
}.

Record RequestBody := mkRequestBody {
  rb_id : NodeId;
  rb_description : option string;
  rb_required : bool;
  rb_content : JsMap.t MediaType
}.

Record ResponseDef := mkResponseDef {
  resp_id : NodeId;
  resp_description : string;
  resp_content : option (JsMap.t MediaType);
  resp_headers : option (JsMap.t ParameterDef)
}.

Inductive SecuritySchemeType := ApiKey | Http | OAuth2 | OpenIdConnect.
Inductive ApiKeyLocation := KeyInQuery | KeyInHeader | KeyInCookie.

Record OAuthFlow := mkOAuthFlow {
  authorizationUrl : option string;
  tokenUrl : option string;
  refreshUrl : option string;
  scopes : list (string * string)
}.

Record OAuthFlows := mkOAuthFlows {
  implicit : option OAuthFlow;
  password : option OAuthFlow;
  clientCredentials : option OAuthFlow;
  authorizationCode : option OAuthFlow
}.

Record SecurityScheme := mkSecurityScheme {
  ss_id : NodeId;
  ss_name : string;
  ss_type : SecuritySchemeType;
  ss_description : option string;
  ss_in : option ApiKeyLocation;
  ss_paramName : option string;
  ss_scheme : option string;
  ss_bearerFormat : option string;
  ss_flows : option OAuthFlows;
  ss_openIdConnectUrl : option string
}.

Record SecurityRequirement := mkSecurityRequirement {
  schemeId : NodeId;
  req_scopes : list string
}.

Record Tag := mkTag {
  tag_name : string;
  tag_description : option string
}.

Record ServerVariable := mkServerVariable {
  sv_default : string;
  sv_enum : option (list string);
  sv_description : option string
}.

Record Server := mkServer {
  url : string;
  srv_description : option string;
  variables : option (list (string * ServerVariable))
}.

Record Contact := mkContact {
  contact_name : option string;
  contact_url : option string;
  contact_email : option string
}.

Record License := mkLicense {
  license_name : string;
  license_url : option string
}.

Record InfoObject := mkInfoObject {
  title : string;
  version : string;
  info_description : option string;
  termsOfService : option string;
  contact : option Contact;
  license : option License
}.

(** [Route.method] is declared [HttpMethod]; the importer stores the key of
    the path item as it is written, so the field is a string here and
    [isHttpMethod] is the test the importer applies. *)
Record Route := mkRoute {
  r_id : NodeId;
  r_path : string;
  r_method : string;
  r_summary : option string;
  r_description : option string;
  r_operationId : option string;
  r_tags : list string;
  r_parameters : list ParameterDef;
  r_requestBody : option RequestBody;
  r_responses : JsMap.t ResponseDef;
  r_security : option (list SecurityRequirement);
  r_deprecated : option bool
}.

Record ApiDocument := mkApiDocument {
  doc_id : NodeId;
  info : InfoObject;
  servers : list Server;
  routes : JsMap.t Route;
  schemas : JsMap.t SchemaNode;
  securitySchemes : JsMap.t SecurityScheme;
  tags : list Tag
}.

Inductive ValidationSeverity := SevError | SevWarning | SevInfo.

Record Location := mkLocation {
  loc_nodeId : option NodeId;
  loc_path : option (list string);
  loc_field : option string
}.

Record ValidationError := mkValidationError {
  code : string;
  message : string;
  severity : ValidationSeverity;
  location : Location
}.

Definition no_location : Location := mkLocation None None None.
Definition at_path (p : list string) : Location := mkLocation None (Some p) None.

(** A schema with only its mandatory fields and a name. *)
Definition bare_schema (id : NodeId) (name : option string) (type : SchemaType)
  : SchemaNode :=
  mkSchemaNode id name type None None None None None None None None None
               None None None None None None.

(** [createEmptyDocument()], given the identifier it draws. *)
Definition createEmptyDocument (id : NodeId) : ApiDocument :=
  mkApiDocument id
    (mkInfoObject "New API" "1.0.0" (Some "") None None None)
    [] JsMap.empty JsMap.empty JsMap.empty [].

(** [createSchema(type, name)]: [id] is the node's identifier and [itemId]
    the identifier of the inline string item an array node receives. *)
Definition createSchema (id itemId : NodeId) (type : SchemaType)
           (name : option string) : SchemaNode :=
  let schema := bare_schema id name type in
  match type with
  | TObject =>
      mkSchemaNode id name type None (Some JsMap.empty) None None None (Some [])
                   None None None None None None None None None
  | TArray =>
      mkSchemaNode id name type None None
                   (Some (SInline (bare_schema itemId None TString)))
                   None None None None None None None None None None None None
  | TEnum =>
      mkSchemaNode id name type None None None None (Some []) None
                   None None None None None None None None None
  | TOneOf | TAnyOf | TAllOf =>
      mkSchemaNode id name type None None None (Some []) None None
                   None None None None None None None None None
  | _ => schema
  end.

(** [createRoute(path, method)]: [id] and [respId] are the two identifiers
    drawn, for the route and for its default response. *)
Definition createRoute (id respId : NodeId) (path : string) (method : string)
  : Route :=
  mkRoute id path method None None None [] [] None
          (JsMap.of_entries
             [("200", mkResponseDef respId "Successful response" None None)])
          None None.

(* ================================================================== *)
(** ** The editor store (store.ts) *)

Module Store.

(** [Partial<T>]: one optional entry per field of [T]. A field that is
    itself optional in [T] may be present in the update with the value
    [undefined], hence the nested options. *)
Record PartialInfo := mkPartialInfo {
  u_title : option string;
  u_version : option string;
  u_info_description : option (option string);
  u_termsOfService : option (option string);
  u_contact : option (option Contact);
  u_license : option (option License)
}.

Record PartialSchema := mkPartialSchema {
  u_s_id : option NodeId;
  u_s_name : option (option string);
  u_s_type : option SchemaType;
  u_s_description : option (option string);
  u_s_properties : option (option (JsMap.t PropertyDef));
  u_s_items : option (option SchemaOrRef);
  u_s_variants : option (option (list SchemaOrRef));
  u_s_enumValues : option (option (list string));
  u_s_required : option (option (list string));
  u_s_format : option (option string);
  u_s_example : option (option JValue);
  u_s_default : option (option JValue);
  u_s_minimum : option (option Z);
  u_s_maximum : option (option Z);
  u_s_minLength : option (option Z);
  u_s_maxLength : option (option Z);
  u_s_pattern : option (option string);
  u_s_discriminator : option (option Discriminator)
}.

Record PartialProperty := mkPartialProperty {
  u_pd_name : option string;
  u_pd_schema : option SchemaOrRef;
  u_pd_required : option bool;
  u_pd_description : option (option string)
}.

Record PartialRoute := mkPartialRoute {
  u_r_id : option NodeId;
  u_r_path : option string;
  u_r_method : option string;
  u_r_summary : option (option string);
  u_r_description : option (option string);
  u_r_operationId : option (option string);
  u_r_tags : option (list string);
  u_r_parameters : option (list ParameterDef);
  u_r_requestBody : option (option RequestBody);
  u_r_responses : option (JsMap.t ResponseDef);
  u_r_security : option (option (list SecurityRequirement));
  u_r_deprecated : option (option bool)
}.

Record PartialParameter := mkPartialParameter {
  u_p_id : option NodeId;
  u_p_name : option string;
  u_p_in : option ParamLocation;
  u_p_required : option bool;
  u_p_schema : option SchemaOrRef;
  u_p_description : option (option string);
  u_p_example : option (option JValue)
}.

Record PartialResponse := mkPartialResponse {
  u_resp_id : option NodeId;
  u_resp_description : option string;
  u_resp_content : option (option (JsMap.t MediaType));
  u_resp_headers : option (option (JsMap.t ParameterDef))
}.

Record PartialSecurityScheme := mkPartialSecurityScheme {
  u_ss_id : option NodeId;
  u_ss_name : option string;
  u_ss_type : option SecuritySchemeType;
  u_ss_description : option (option string);
  u_ss_in : option (option ApiKeyLocation);
  u_ss_paramName : option (option string);
  u_ss_scheme : option (option string);
  u_ss_bearerFormat : option (option string);
  u_ss_flows : option (option OAuthFlows);
  u_ss_openIdConnectUrl : option (option string)
}.

(** [{ ...info, ...updates }] and its siblings. *)
Definition spreadInfo (i : InfoObject) (u : PartialInfo) : InfoObject :=
  mkInfoObject (spread (title i) (u_title u))
               (spread (version i) (u_version u))
               (spread (info_description i) (u_info_description u))
               (spread (termsOfService i) (u_termsOfService u))
               (spread (contact i) (u_contact u))
               (spread (license i) (u_license u)).

Definition spreadSchema (s : SchemaNode) (u : PartialSchema) : SchemaNode :=
  mkSchemaNode (spread (s_id s) (u_s_id u))
               (spread (s_name s) (u_s_name u))
               (spread (s_type s) (u_s_type u))
               (spread (s_description s) (u_s_description u))
               (spread (s_properties s) (u_s_properties u))
               (spread (s_items s) (u_s_items u))
               (spread (s_variants s) (u_s_variants u))
               (spread (s_enumValues s) (u_s_enumValues u))
               (spread (s_required s) (u_s_required u))
               (spread (s_format s) (u_s_format u))
               (spread (s_example s) (u_s_example u))
               (spread (s_default s) (u_s_default u))
               (spread (s_minimum s) (u_s_minimum u))
               (spread (s_maximum s) (u_s_maximum u))
               (spread (s_minLength s) (u_s_minLength u))
               (spread (s_maxLength s) (u_s_maxLength u))
               (spread (s_pattern s) (u_s_pattern u))
               (spread (s_discriminator s) (u_s_discriminator u)).

Definition spreadProperty (p : PropertyDef) (u : PartialProperty) : PropertyDef :=
  mkPropertyDef (spread (pd_name p) (u_pd_name u))
                (spread (pd_schema p) (u_pd_schema u))
                (spread (pd_required p) (u_pd_required u))
                (spread (pd_description p) (u_pd_description u)).

Definition spreadRoute (r : Route) (u : PartialRoute) : Route :=
  mkRoute (spread (r_id r) (u_r_id u))
          (spread (r_path r) (u_r_path u))
          (spread (r_method r) (u_r_method u))
          (spread (r_summary r) (u_r_summary u))
          (spread (r_description r) (u_r_description u))
          (spread (r_operationId r) (u_r_operationId u))
          (spread (r_tags r) (u_r_tags u))
          (spread (r_parameters r) (u_r_parameters u))
          (spread (r_requestBody r) (u_r_requestBody u))
          (spread (r_responses r) (u_r_responses u))
          (spread (r_security r) (u_r_security u))
          (spread (r_deprecated r) (u_r_deprecated u)).

Definition spreadParameter (p : ParameterDef) (u : PartialParameter) : ParameterDef :=
  mkParameterDef (spread (p_id p) (u_p_id u))
                 (spread (p_name p) (u_p_name u))
                 (spread (p_in p) (u_p_in u))
                 (spread (p_required p) (u_p_required u))
                 (spread (p_schema p) (u_p_schema u))
                 (spread (p_description p) (u_p_description u))
                 (spread (p_example p) (u_p_example u)).

Definition spreadResponse (r : ResponseDef) (u : PartialResponse) : ResponseDef :=
  mkResponseDef (spread (resp_id r) (u_resp_id u))
                (spread (resp_description r) (u_resp_description u))
                (spread (resp_content r) (u_resp_content u))
                (spread (resp_headers r) (u_resp_headers u)).

Definition spreadSecurityScheme (s : SecurityScheme) (u : PartialSecurityScheme)
  : SecurityScheme :=
  mkSecurityScheme (spread (ss_id s) (u_ss_id u))
                   (spread (ss_name s) (u_ss_name u))
                   (spread (ss_type s) (u_ss_type u))
                   (spread (ss_description s) (u_ss_description u))
                   (spread (ss_in s) (u_ss_in u))
                   (spread (ss_paramName s) (u_ss_paramName u))
                   (spread (ss_scheme s) (u_ss_scheme u))
                   (spread (ss_bearerFormat s) (u_ss_bearerFormat u))
                   (spread (ss_flows s) (u_ss_flows u))
                   (spread (ss_openIdConnectUrl s) (u_ss_openIdConnectUrl u)).

(** The actions of the store that edit the document, with their arguments. *)
Inductive Mutation :=
| SetDocument (doc : ApiDocument)
| UpdateInfo (updates : PartialInfo)
| AddSchema (schema : SchemaNode)
| UpdateSchema (id : NodeId) (updates : PartialSchema)
| DeleteSchema (id : NodeId)
| AddFieldToSchema (schemaId : NodeId) (field : PropertyDef)
| UpdateField (schemaId : NodeId) (fieldName : string) (updates : PartialProperty)
| DeleteField (schemaId : NodeId) (fieldName : string)
| AddRoute (route : Route)
| UpdateRoute (id : NodeId) (updates : PartialRoute)
| DeleteRoute (id : NodeId)
| AddParameter (routeId : NodeId) (param : ParameterDef)
| UpdateParameter (routeId paramId : NodeId) (updates : PartialParameter)
| DeleteParameter (routeId paramId : NodeId)
| SetRequestBody (routeId : NodeId) (body : option RequestBody)
| AddResponse (routeId : NodeId) (statusCode : string) (response : ResponseDef)
| UpdateResponse (routeId : NodeId) (statusCode : string) (updates : PartialResponse)
| DeleteResponse (routeId : NodeId) (statusCode : string)
| AddServer (server : Server)
| UpdateServer (idx : Z) (server : Server)
| DeleteServer (idx : Z)
| AddSecurityScheme (scheme : SecurityScheme)
| UpdateSecurityScheme (id : NodeId) (updates : PartialSecurityScheme)
| DeleteSecurityScheme (id : NodeId)
| AddTag (tag : Tag)
| DeleteTag (name : string).

Inductive CommandType :=
| ADD_SCHEMA | UPDATE_SCHEMA | DELETE_SCHEMA
| ADD_FIELD | UPDATE_FIELD | DELETE_FIELD
| ADD_ROUTE | UPDATE_ROUTE | DELETE_ROUTE
| ADD_PARAMETER | UPDATE_PARAMETER | DELETE_PARAMETER
| ADD_RESPONSE | UPDATE_RESPONSE | DELETE_RESPONSE
| SET_REQUEST_BODY | UPDATE_INFO
| ADD_SERVER | UPDATE_SERVER | DELETE_SERVER
| ADD_SECURITY_SCHEME | UPDATE_SECURITY_SCHEME | DELETE_SECURITY_SCHEME
| ADD_TAG | DELETE_TAG | IMPORT_DOCUMENT.

(** A command-log record. The payload of a record is the argument tuple of
    the action that wrote it ([None] is the [null] of IMPORT_DOCUMENT). *)
Record Command := mkCommand {
  cmd_type : CommandType;
  payload : option Mutation;
  timestamp : Z
}.

Inductive Tab := TabRoutes | TabSchemas | TabSettings.

Record EditorState := mkEditorState {
  document : ApiDocument;
  documentVersion : Z;
  selectedSchemaId : option NodeId;
  selectedRouteId : option NodeId;
  history : list ApiDocument;
  historyIndex : Z;
  maxHistorySize : Z;
  commandLog : list Command;
  activeTab : Tab;
  yamlPreviewOpen : bool
}.

(** [cloneDocument]: rebuilds the maps and arrays of a document. *)
Definition cloneRoute (v : Route) : Route :=
  mkRoute (r_id v) (r_path v) (r_method v) (r_summary v) (r_description v)
          (r_operationId v) (map (fun t => t) (r_tags v))
          (map (fun p => p) (r_parameters v)) (r_requestBody v)
          (JsMap.copy (r_responses v)) (r_security v) (r_deprecated v).

Definition cloneSchema (v : SchemaNode) : SchemaNode :=
  mkSchemaNode (s_id v) (s_name v) (s_type v) (s_description v)
               (option_map (fun m => JsMap.copy m) (s_properties v))
               (s_items v)
               (option_map (map (fun x => x)) (s_variants v))
               (option_map (map (fun x => x)) (s_enumValues v))
               (option_map (map (fun x => x)) (s_required v))
               (s_format v) (s_example v) (s_default v) (s_minimum v)
               (s_maximum v) (s_minLength v) (s_maxLength v) (s_pattern v)
               (s_discriminator v).

Definition cloneDocument (doc : ApiDocument) : ApiDocument :=
  mkApiDocument (doc_id doc) (info doc)
    (map (fun s => s) (servers doc))
    (map (fun kv => (fst kv, cloneRoute (snd kv))) (routes doc))
    (map (fun kv => (fst kv, cloneSchema (snd kv))) (schemas doc))
    (JsMap.copy (securitySchemes doc))
    (map (fun t => t) (tags doc)).

(** The initial state of the store, given the identifier of its empty
    document. *)
Definition initialState (docId : NodeId) : EditorState :=
  mkEditorState (createEmptyDocument docId) 0 None None [] (-1) 50 []
                TabRoutes false.

(** [[...state.history.slice(0, state.historyIndex + 1),
     cloneDocument(state.document)]] *)
Definition pushHistory (state : EditorState) : list ApiDocument :=
  slice0 (history state) (historyIndex state + 1) ++ [cloneDocument (document state)].

(** The [set({ document, history, historyIndex, documentVersion,
    commandLog })] that ends every editing action. *)
Definition commit (state : EditorState) (newDoc : ApiDocument)
           (newHistory : list ApiDocument) (cmd : Command) : EditorState :=
  mkEditorState newDoc (documentVersion state + 1)
                (selectedSchemaId state) (selectedRouteId state)
                newHistory (Z.of_nat (length newHistory) - 1)
                (maxHistorySize state) (commandLog state ++ [cmd])
                (activeTab state) (yamlPreviewOpen state).

Definition withSelectedSchema (sel : option NodeId) (s : EditorState) : EditorState :=
  mkEditorState (document s) (documentVersion s) sel (selectedRouteId s)
                (history s) (historyIndex s) (maxHistorySize s) (commandLog s)
                (activeTab s) (yamlPreviewOpen s).

Definition withSelectedRoute (sel : option NodeId) (s : EditorState) : EditorState :=
  mkEditorState (document s) (documentVersion s) (selectedSchemaId s) sel
                (history s) (historyIndex s) (maxHistorySize s) (commandLog s)
                (activeTab s) (yamlPreviewOpen s).

(** Setters on a cloned document. *)
Definition withInfo (d : ApiDocument) (i : InfoObject) : ApiDocument :=
  mkApiDocument (doc_id d) i (servers d) (routes d) (schemas d)
                (securitySchemes d) (tags d).
Definition withServers (d : ApiDocument) (s : list Server) : ApiDocument :=
  mkApiDocument (doc_id d) (info d) s (routes d) (schemas d)
                (securitySchemes d) (tags d).
Definition withRoutes (d : ApiDocument) (r : JsMap.t Route) : ApiDocument :=
  mkApiDocument (doc_id d) (info d) (servers d) r (schemas d)
                (securitySchemes d) (tags d).
Definition withSchemas (d : ApiDocument) (s : JsMap.t SchemaNode) : ApiDocument :=
  mkApiDocument (doc_id d) (info d) (servers d) (routes d) s
                (securitySchemes d) (tags d).
Definition withSecuritySchemes (d : ApiDocument) (s : JsMap.t SecurityScheme)
  : ApiDocument :=
  mkApiDocument (doc_id d) (info d) (servers d) (routes d) (schemas d) s (tags d).
Definition withTags (d : ApiDocument) (t : list Tag) : ApiDocument :=
  mkApiDocument (doc_id d) (info d) (servers d) (routes d) (schemas d)
                (securitySchemes d) t.

Definition withProperties (s : SchemaNode) (p : option (JsMap.t PropertyDef))
  : SchemaNode :=
  mkSchemaNode (s_id s) (s_name s) (s_type s) (s_description s) p (s_items s)
               (s_variants s) (s_enumValues s) (s_required s) (s_format s)
               (s_example s) (s_default s) (s_minimum s) (s_maximum s)
               (s_minLength s) (s_maxLength s) (s_pattern s) (s_discriminator s).
Definition withRequired (s : SchemaNode) (r : option (list string)) : SchemaNode :=
  mkSchemaNode (s_id s) (s_name s) (s_type s) (s_description s) (s_properties s)
               (s_items s) (s_variants s) (s_enumValues s) r (s_format s)
               (s_example s) (s_default s) (s_minimum s) (s_maximum s)
               (s_minLength s) (s_maxLength s) (s_pattern s) (s_discriminator s).

Definition withParameters (r : Route) (ps : list ParameterDef) : Route :=
  mkRoute (r_id r) (r_path r) (r_method r) (r_summary r) (r_description r)
          (r_operationId r) (r_tags r) ps (r_requestBody r) (r_responses r)
          (r_security r) (r_deprecated r).
Definition withRequestBody (r : Route) (b : option RequestBody) : Route :=
  mkRoute (r_id r) (r_path r) (r_method r) (r_summary r) (r_description r)
          (r_operationId r) (r_tags r) (r_parameters r) b (r_responses r)
          (r_security r) (r_deprecated r).
Definition withResponses (r : Route) (rs : JsMap.t ResponseDef) : Route :=
  mkRoute (r_id r) (r_path r) (r_method r) (r_summary r) (r_description r)
          (r_operationId r) (r_tags r) (r_parameters r) (r_requestBody r) rs
          (r_security r) (r_deprecated r).

(** [selected === id ? null : selected] *)
Definition deselect (sel : option NodeId) (id : NodeId) : option NodeId :=
  match sel with
  | Some x => if String.eqb x id then None else Some x
  | None => None
  end.

(** *** Document and schema actions *)

Definition setDocument (now : Z) (doc : ApiDocument) (state : EditorState)
  : EditorState :=
  let newHistory := pushHistory state in
  let newHistory :=
    if (maxHistorySize state <? Z.of_nat (length newHistory))%Z
    then shift newHistory else newHistory in
  commit state doc newHistory (mkCommand IMPORT_DOCUMENT None now).

Definition updateInfo (now : Z) (updates : PartialInfo) (state : EditorState)
  : EditorState :=
  let newDoc := cloneDocument (document state) in
  let newDoc := withInfo newDoc (spreadInfo (info newDoc) updates) in
  commit state newDoc (pushHistory state)
         (mkCommand UPDATE_INFO (Some (UpdateInfo updates)) now).

Definition addSchema (now : Z) (schema : SchemaNode) (state : EditorState)
  : EditorState :=
  let newDoc := cloneDocument (document state) in
  let newDoc := withSchemas newDoc (JsMap.set (s_id schema) schema (schemas newDoc)) in
  withSelectedSchema (Some (s_id schema))
    (commit state newDoc (pushHistory state)
            (mkCommand ADD_SCHEMA (Some (AddSchema schema)) now)).

Definition updateSchema (now : Z) (id : NodeId) (updates : PartialSchema)
           (state : EditorState) : EditorState :=
  match JsMap.get id (schemas (document state)) with
  | None => state
  | Some schema =>
      let newDoc := cloneDocument (document state) in
      let updatedSchema := spreadSchema schema updates in
      let updatedSchema :=
        match u_s_properties updates with
        | Some (Some props) => withProperties updatedSchema (Some (JsMap.copy props))
        | _ => updatedSchema
        end in
      let newDoc := withSchemas newDoc (JsMap.set id updatedSchema (schemas newDoc)) in
      commit state newDoc (pushHistory state)
             (mkCommand UPDATE_SCHEMA (Some (UpdateSchema id updates)) now)
  end.

Definition deleteSchema (now : Z) (id : NodeId) (state : EditorState)
  : EditorState :=
  let newDoc := cloneDocument (document state) in
  let newDoc := withSchemas newDoc (JsMap.delete id (schemas newDoc)) in
  withSelectedSchema (deselect (selectedSchemaId state) id)
    (commit state newDoc (pushHistory state)
            (mkCommand DELETE_SCHEMA (Some (DeleteSchema id)) now)).

Definition addFieldToSchema (now : Z) (schemaId : NodeId) (field : PropertyDef)
           (state : EditorState) : EditorState :=
  match JsMap.get schemaId (schemas (document state)) with
  | None => state
  | Some schema =>
      if negb (SchemaType_eqb (s_type schema) TObject) then state else
      let newDoc := cloneDocument (document state) in
      let edit (updatedSchema : SchemaNode) :=
        let props := match s_properties updatedSchema with
                     | Some m => m | None => JsMap.empty end in
        let updatedSchema :=
          withProperties updatedSchema
                         (Some (JsMap.set (pd_name field) field props)) in
        if pd_required field then
          let required := match s_required updatedSchema with
                          | Some r => r | None => [] end in
          withRequired updatedSchema
            (Some (if includes required (pd_name field) then required
                   else required ++ [pd_name field]))
        else updatedSchema in
      let newDoc := withSchemas newDoc (JsMap.modify schemaId edit (schemas newDoc)) in
      commit state newDoc (pushHistory state)
             (mkCommand ADD_FIELD (Some (AddFieldToSchema schemaId field)) now)
  end.

Definition updateField (now : Z) (schemaId : NodeId) (fieldName : string)
           (updates : PartialProperty) (state : EditorState) : EditorState :=
  match JsMap.get schemaId (schemas (document state)) with
  | None => state
  | Some schema =>
      match s_properties schema with
      | None => state
      | Some properties =>
          match JsMap.get fieldName properties with
          | None => state
          | Some field =>
              let newDoc := cloneDocument (document state) in
              let updatedField := spreadProperty field updates in
              let renamed :=
                match u_pd_name updates with
                | Some n => nonempty n && negb (String.eqb n fieldName)
                | None => false
                end in
              let edit (updatedSchema : SchemaNode) :=
                (* Handle field rename *)
                let updatedSchema :=
                  if renamed then
                    let n := spread fieldName (u_pd_name updates) in
                    let updatedSchema :=
                      withProperties updatedSchema
                        (option_map
                           (fun m => JsMap.set n updatedField (JsMap.delete fieldName m))
                           (s_properties updatedSchema)) in
                    match s_required updatedSchema with
                    | Some required =>
                        match indexOf required fieldName with
                        | Some idx =>
                            withRequired updatedSchema (Some (assign_at required idx n))
                        | None => updatedSchema
                        end
                    | None => updatedSchema
                    end
                  else
                    withProperties updatedSchema
                      (option_map (JsMap.set fieldName updatedField)
                                  (s_properties updatedSchema)) in
                (* Handle required change *)
                match u_pd_required updates with
                | None => updatedSchema
                | Some req =>
                    let required := match s_required updatedSchema with
                                    | Some r => r | None => [] end in
                    let name := match u_pd_name updates with
                                | Some n => if nonempty n then n else fieldName
                                | None => fieldName
                                end in
                    match req, indexOf required name with
                    | true, None => withRequired updatedSchema (Some (required ++ [name]))
                    | false, Some idx =>
                        withRequired updatedSchema (Some (splice1 required idx))
                    | _, _ => withRequired updatedSchema (Some required)
                    end
                end in
              let newDoc :=
                withSchemas newDoc (JsMap.modify schemaId edit (schemas newDoc)) in
              commit state newDoc (pushHistory state)
                     (mkCommand UPDATE_FIELD
                                (Some (UpdateField schemaId fieldName updates)) now)
          end
      end
  end.

Definition deleteField (now : Z) (schemaId : NodeId) (fieldName : string)
           (state : EditorState) : EditorState :=
  match JsMap.get schemaId (schemas (document state)) with
  | None => state
  | Some schema =>
      match s_properties schema with
      | None => state
      | Some _ =>
          let newDoc := cloneDocument (document state) in
          let edit (updatedSchema : SchemaNode) :=
            let updatedSchema :=
              withProperties updatedSchema
                (option_map (JsMap.delete fieldName) (s_properties updatedSchema)) in
            match s_required updatedSchema with
            | Some required =>
                match indexOf required fieldName with
                | Some idx => withRequired updatedSchema (Some (splice1 required idx))
                | None => updatedSchema
                end
            | None => updatedSchema
            end in
          let newDoc :=
            withSchemas newDoc (JsMap.modify schemaId edit (schemas newDoc)) in
          commit state newDoc (pushHistory state)
                 (mkCommand DELETE_FIELD (Some (DeleteField schemaId fieldName)) now)
      end
  end.

(** *** Route actions *)

Definition addRoute (now : Z) (route : Route) (state : EditorState) : EditorState :=
  let newDoc := cloneDocument (document state) in
  let newDoc := withRoutes newDoc (JsMap.set (r_id route) route (routes newDoc)) in
  withSelectedRoute (Some (r_id route))
    (commit state newDoc (pushHistory state)
            (mkCommand ADD_ROUTE (Some (AddRoute route)) now)).

Definition updateRoute (now : Z) (id : NodeId) (updates : PartialRoute)
           (state : EditorState) : EditorState :=
  match JsMap.get id (routes (document state)) with
  | None => state
  | Some route =>
      let newDoc := cloneDocument (document state) in
      let newDoc :=
        withRoutes newDoc (JsMap.set id (spreadRoute route updates) (routes newDoc)) in
      commit state newDoc (pushHistory state)
             (mkCommand UPDATE_ROUTE (Some (UpdateRoute id updates)) now)
  end.

Definition deleteRoute (now : Z) (id : NodeId) (state : EditorState) : EditorState :=
  let newDoc := cloneDocument (document state) in
  let newDoc := withRoutes newDoc (JsMap.delete id (routes newDoc)) in
  withSelectedRoute (deselect (selectedRouteId state) id)
    (commit state newDoc (pushHistory state)
            (mkCommand DELETE_ROUTE (Some (DeleteRoute id)) now)).

(** The shape shared by the actions that edit one route of the clone:
    [if (!route) return; ... updatedRoute = newDoc.routes.get(routeId)!;
    (edit updatedRoute); set({...})]. *)
Definition editRoute (routeId : NodeId) (edit : Route -> Route) (cmd : Command)
           (state : EditorState) : EditorState :=
  match JsMap.get routeId (routes (document state)) with
  | None => state
  | Some _ =>
      let newDoc := cloneDocument (document state) in
      let newDoc := withRoutes newDoc (JsMap.modify routeId edit (routes newDoc)) in
      commit state newDoc (pushHistory state) cmd
  end.

Definition addParameter (now : Z) (routeId : NodeId) (param : ParameterDef)
  : EditorState -> EditorState :=
  editRoute routeId
    (fun updatedRoute => withParameters updatedRoute (r_parameters updatedRoute ++ [param]))
    (mkCommand ADD_PARAMETER (Some (AddParameter routeId param)) now).

Definition updateParameter (now : Z) (routeId paramId : NodeId)
           (updates : PartialParameter) : EditorState -> EditorState :=
  editRoute routeId
    (fun updatedRoute =>
       withParameters updatedRoute
         (map (fun p => if String.eqb (p_id p) paramId
                        then spreadParameter p updates else p)
              (r_parameters updatedRoute)))
    (mkCommand UPDATE_PARAMETER (Some (UpdateParameter routeId paramId updates)) now).

Definition deleteParameter (now : Z) (routeId paramId : NodeId)
  : EditorState -> EditorState :=
  editRoute routeId
    (fun updatedRoute =>
       withParameters updatedRoute
         (filter (fun p => negb (String.eqb (p_id p) paramId))
                 (r_parameters updatedRoute)))
    (mkCommand DELETE_PARAMETER (Some (DeleteParameter routeId paramId)) now).

Definition setRequestBody (now : Z) (routeId : NodeId) (body : option RequestBody)
  : EditorState -> EditorState :=
  editRoute routeId
    (fun updatedRoute => withRequestBody updatedRoute body)
    (mkCommand SET_REQUEST_BODY (Some (SetRequestBody routeId body)) now).

Definition addResponse (now : Z) (routeId : NodeId) (statusCode : string)
           (response : ResponseDef) : EditorState -> EditorState :=
  editRoute routeId
    (fun updatedRoute =>
       withResponses updatedRoute
         (JsMap.set statusCode response (r_responses updatedRoute)))
    (mkCommand ADD_RESPONSE (Some (AddResponse routeId statusCode response)) now).

Definition updateResponse (now : Z) (routeId : NodeId) (statusCode : string)
           (updates : PartialResponse) (state : EditorState) : EditorState :=
  match JsMap.get routeId (routes (document state)) with
  | None => state
  | Some route =>
      match JsMap.get statusCode (r_responses route) with
      | None => state
      | Some response =>
          editRoute routeId
            (fun updatedRoute =>
               withResponses updatedRoute
                 (JsMap.set statusCode (spreadResponse response updates)
                            (r_responses updatedRoute)))
            (mkCommand UPDATE_RESPONSE
                       (Some (UpdateResponse routeId statusCode updates)) now)
            state
      end
  end.

Definition deleteResponse (now : Z) (routeId : NodeId) (statusCode : string)
  : EditorState -> EditorState :=
  editRoute routeId
    (fun updatedRoute =>
       withResponses updatedRoute (JsMap.delete statusCode (r_responses updatedRoute)))
    (mkCommand DELETE_RESPONSE (Some (DeleteResponse routeId statusCode)) now).

(** *** Server, security-scheme and tag actions *)

Definition addServer (now : Z) (server : Server) (state : EditorState) : EditorState :=
  let newDoc := cloneDocument (document state) in
  let newDoc := withServers newDoc (servers newDoc ++ [server]) in
  commit state newDoc (pushHistory state)
         (mkCommand ADD_SERVER (Some (AddServer server)) now).

(** [newDoc.servers[index] = server]. An index in range replaces the entry,
    the index just past the end appends. Any other index leaves an array
    with a hole or with a property that is not an element, which the type
    [Server[]] does not describe: the result is [None]. *)
Definition updateServer (now : Z) (idx : Z) (server : Server) (state : EditorState)
  : option EditorState :=
  let newDoc := cloneDocument (document state) in
  let len := Z.of_nat (length (servers newDoc)) in
  if ((0 <=? idx) && (idx <=? len))%Z then
    let servers' :=
      if (idx =? len)%Z then servers newDoc ++ [server]
      else assign_at (servers newDoc) (Z.to_nat idx) server in
    Some (commit state (withServers newDoc servers') (pushHistory state)
                 (mkCommand UPDATE_SERVER (Some (UpdateServer idx server)) now))
  else None.

(** [newDoc.servers.splice(index, 1)]: a negative index counts from the end. *)
Definition deleteServer (now : Z) (idx : Z) (state : EditorState) : EditorState :=
  let newDoc := cloneDocument (document state) in
  let len := Z.of_nat (length (servers newDoc)) in
  let start := if (idx <? 0)%Z then Z.max (len + idx) 0 else idx in
  let newDoc := withServers newDoc (splice1 (servers newDoc) (Z.to_nat start)) in
  commit state newDoc (pushHistory state)
         (mkCommand DELETE_SERVER (Some (DeleteServer idx)) now).

Definition addSecurityScheme (now : Z) (scheme : SecurityScheme)
           (state : EditorState) : EditorState :=
  let newDoc := cloneDocument (document state) in
  let newDoc :=
    withSecuritySchemes newDoc
      (JsMap.set (ss_id scheme) scheme (securitySchemes newDoc)) in
  commit state newDoc (pushHistory state)
         (mkCommand ADD_SECURITY_SCHEME (Some (AddSecurityScheme scheme)) now).

Definition updateSecurityScheme (now : Z) (id : NodeId)
           (updates : PartialSecurityScheme) (state : EditorState) : EditorState :=
  match JsMap.get id (securitySchemes (document state)) with
  | None => state
  | Some scheme =>
      let newDoc := cloneDocument (document state) in
      let newDoc :=
        withSecuritySchemes newDoc
          (JsMap.set id (spreadSecurityScheme scheme updates)
                     (securitySchemes newDoc)) in
      commit state newDoc (pushHistory state)
             (mkCommand UPDATE_SECURITY_SCHEME
                        (Some (UpdateSecurityScheme id updates)) now)
  end.

Definition deleteSecurityScheme (now : Z) (id : NodeId) (state : EditorState)
  : EditorState :=
  let newDoc := cloneDocument (document state) in
  let newDoc :=
    withSecuritySchemes newDoc (JsMap.delete id (securitySchemes newDoc)) in
  commit state newDoc (pushHistory state)
         (mkCommand DELETE_SECURITY_SCHEME (Some (DeleteSecurityScheme id)) now).

Definition addTag (now : Z) (tag : Tag) (state : EditorState) : EditorState :=
  let newDoc := cloneDocument (document state) in
  let newDoc :=
    if negb (existsb (fun t => String.eqb (tag_name t) (tag_name tag)) (tags newDoc))
    then withTags newDoc (tags newDoc ++ [tag]) else newDoc in
  commit state newDoc (pushHistory state)
         (mkCommand ADD_TAG (Some (AddTag tag)) now).

Definition deleteTag (now : Z) (name : string) (state : EditorState) : EditorState :=
  let newDoc := cloneDocument (document state) in
  let newDoc :=
    withTags newDoc
      (filter (fun t => negb (String.eqb (tag_name t) name)) (tags newDoc)) in
  commit state newDoc (pushHistory state)
         (mkCommand DELETE_TAG (Some (DeleteTag name)) now).

(** *** History actions *)

Definition withDocumentAt (d : ApiDocument) (i : Z) (s : EditorState) : EditorState :=
  mkEditorState d (documentVersion s + 1) (selectedSchemaId s) (selectedRouteId s)
                (history s) i (maxHistorySize s) (commandLog s)
                (activeTab s) (yamlPreviewOpen s).

(** [undo]. The read [state.history[state.historyIndex]] is not checked by
    the action; when it falls outside the array the store would hold
    [undefined] as its document, which [EditorState] does not describe:
    the result is [None] ([undo_defined] shows no reachable state gets
    there). *)
Definition undo (state : EditorState) : option EditorState :=
  if (historyIndex state <? 0)%Z then Some state
  else match index (history state) (historyIndex state) with
       | Some previousDoc =>
           Some (withDocumentAt previousDoc (historyIndex state - 1) state)
       | None => None
       end.

Definition redo (state : EditorState) : EditorState :=
  if (Z.of_nat (length (history state)) - 1 <=? historyIndex state)%Z then state
  else match index (history state) (historyIndex state + 2) with
       | Some nextDoc => withDocumentAt nextDoc (historyIndex state + 1) state
       | None => state
       end.

Definition canUndo (state : EditorState) : bool := (0 <=? historyIndex state)%Z.
Definition canRedo (state : EditorState) : bool :=
  (historyIndex state <? Z.of_nat (length (history state)) - 1)%Z.

(** [initializeDocument]: loads a document without a history entry. *)
Definition initializeDocument (doc : ApiDocument) (state : EditorState)
  : EditorState :=
  mkEditorState doc 0 None None [] (-1) (maxHistorySize state) []
                (activeTab state) (yamlPreviewOpen state).

(** *** Helper queries *)

Definition getSchemaById (id : NodeId) (state : EditorState) : option SchemaNode :=
  JsMap.get id (schemas (document state)).

Definition getRouteById (id : NodeId) (state : EditorState) : option Route :=
  JsMap.get id (routes (document state)).

(** [e.kind === 'ref' && e.targetId === id] *)
Definition refersTo (id : NodeId) (e : SchemaOrRef) : bool :=
  match e with
  | SRef targetId => String.eqb targetId id
  | SInline _ => false
  end.

(** [if (e.kind === 'ref' && e.targetId === id) count++] *)
Definition countRef (id : NodeId) (count : nat) (e : SchemaOrRef) : nat :=
  if refersTo id e then S count else count.

Definition getSchemaUsageCount (id : NodeId) (state : EditorState) : nat :=
  let count := 0 in
  (* Check routes for references *)
  let count :=
    fold_left
      (fun count route =>
         (* Check parameters *)
         let count :=
           fold_left (fun count param => countRef id count (p_schema param))
                     (r_parameters route) count in
         (* Check request body *)
         let count :=
           match r_requestBody route with
           | Some body =>
               fold_left (fun count media => countRef id count (mt_schema media))
                         (JsMap.values (rb_content body)) count
           | None => count
           end in
         (* Check responses *)
         fold_left
           (fun count response =>
              match resp_content response with
              | Some content =>
                  fold_left (fun count media => countRef id count (mt_schema media))
                            (JsMap.values content) count
              | None => count
              end)
           (JsMap.values (r_responses route)) count)
      (JsMap.values (routes (document state))) count in
  (* Check other schemas for references *)
  fold_left
    (fun count schema =>
       if String.eqb (s_id schema) id then count
       else
         (* Check properties *)
         let count :=
           match s_properties schema with
           | Some properties =>
               fold_left (fun count prop => countRef id count (pd_schema prop))
                         (JsMap.values properties) count
           | None => count
           end in
         (* Check array items *)
         let count :=
           match s_items schema with
           | Some items => countRef id count items
           | None => count
           end in
         (* Check variants *)
         match s_variants schema with
         | Some variants =>
             fold_left (fun count variant => countRef id count variant)
                       variants count
         | None => count
         end)
    (JsMap.values (schemas (document state))) count.

(** One editing action, dispatched on its name. *)
Definition apply (now : Z) (m : Mutation) (state : EditorState)
  : option EditorState :=
  match m with
  | SetDocument doc => Some (setDocument now doc state)
  | UpdateInfo u => Some (updateInfo now u state)
  | AddSchema s => Some (addSchema now s state)
  | UpdateSchema id u => Some (updateSchema now id u state)
  | DeleteSchema id => Some (deleteSchema now id state)
  | AddFieldToSchema sid f => Some (addFieldToSchema now sid f state)
  | UpdateField sid fname u => Some (updateField now sid fname u state)
  | DeleteField sid fname => Some (deleteField now sid fname state)
  | AddRoute r => Some (addRoute now r state)
  | UpdateRoute id u => Some (updateRoute now id u state)
  | DeleteRoute id => Some (deleteRoute now id state)
  | AddParameter rid p => Some (addParameter now rid p state)
  | UpdateParameter rid pid u => Some (updateParameter now rid pid u state)
  | DeleteParameter rid pid => Some (deleteParameter now rid pid state)
  | SetRequestBody rid b => Some (setRequestBody now rid b state)
  | AddResponse rid c r => Some (addResponse now rid c r state)
  | UpdateResponse rid c u => Some (updateResponse now rid c u state)
  | DeleteResponse rid c => Some (deleteResponse now rid c state)
  | AddServer s => Some (addServer now s state)
  | UpdateServer i s => updateServer now i s state
  | DeleteServer i => Some (deleteServer now i state)
  | AddSecurityScheme s => Some (addSecurityScheme now s state)
  | UpdateSecurityScheme id u => Some (updateSecurityScheme now id u state)
  | DeleteSecurityScheme id => Some (deleteSecurityScheme now id state)
  | AddTag t => Some (addTag now t state)
  | DeleteTag n => Some (deleteTag now n state)
  end.

(** A sequence of editing actions, each with the clock reading of its call. *)
Fixpoint run (ms : list (Z * Mutation)) (state : EditorState) : option EditorState :=
  match ms with
  | [] => Some state
  | (now, m) :: rest =>
      match apply now m state with
      | Some state' => run rest state'
      | None => None
      end
  end.

(** [n] calls of [undo]; [n] calls of [redo]. *)
Fixpoint undos (n : nat) (state : EditorState) : option EditorState :=
  match n with
  | O => Some state
  | S k => match undo state with Some s => undos k s | None => None end
  end.

Fixpoint redos (n : nat) (state : EditorState) : EditorState :=
  match n with
  | O => state
  | S k => redos k (redo state)
  end.

End Store.

(* ================================================================== *)
(** ** Vocabulary of the statements about the store *)

Module StoreSpec.
Import Store.

(** The undo stack proper: the history entries up to the cursor. *)
Definition undoStack (state : EditorState) : list ApiDocument :=
  slice0 (history state) (historyIndex state + 1).

(** The document the stack bottoms out in. *)
Definition oldest (state : EditorState) : ApiDocument :=
  hd (document state) (undoStack state).

(** The cursor points into the history, or just before its first entry. *)
Definition cursor_ok (state : EditorState) : Prop :=
  (-1 <= historyIndex state < Z.of_nat (length (history state)))%Z.

(** An action evicts when it runs the capacity check of [setDocument] and
    the check fires. *)
Definition evicts (m : Mutation) (state : EditorState) : bool :=
  match m with
  | SetDocument _ =>
      (maxHistorySize state <? Z.of_nat (length (pushHistory state)))%Z
  | _ => false
  end.

Fixpoint never_evicts (ms : list (Z * Mutation)) (state : EditorState) : bool :=
  match ms with
  | [] => true
  | (now, m) :: rest =>
      negb (evicts m state) &&
      match apply now m state with
      | Some state' => never_evicts rest state'
      | None => true
      end
  end.

(** What the final [set] of an editing action leaves behind. *)
Definition committed (m : Mutation) (st st' : EditorState) : Prop :=
  history st' = (if evicts m st then shift (pushHistory st) else pushHistory st) /\
  historyIndex st' = (Z.of_nat (length (history st')) - 1)%Z /\
  maxHistorySize st' = maxHistorySize st /\
  length (commandLog st') = S (length (commandLog st)).

(** The undo/redo law as the specification words it, for one initial
    document, one store and one sequence of actions. *)
Definition undo_redo_law (d0 : ApiDocument) (s0 : EditorState)
           (ms : list (Z * Mutation)) : Prop :=
  forall st, run ms (initializeDocument d0 s0) = Some st ->
  exists su, undos (length ms) st = Some su /\
             document su = d0 /\
             document (redos (length ms) su) = document st.

(** Every route of a document has at least one response. *)
Definition has_response (r : Route) : Prop := r_responses r <> [].

Definition routes_have_responses (d : ApiDocument) : Prop :=
  Forall (fun kv => has_response (snd kv)) (routes d).

(** The same for the current document and every snapshot of the history. *)
Definition store_has_responses (state : EditorState) : Prop :=
  routes_have_responses (document state) /\
  Forall routes_have_responses (history state).

(** What an action brings into the store from outside satisfies it too. *)
Definition payload_has_responses (m : Mutation) : Prop :=
  match m with
  | SetDocument doc => routes_have_responses doc
  | AddRoute r => has_response r
  | UpdateRoute _ u =>
      match u_r_responses u with Some rs => rs <> [] | None => True end
  | _ => True
  end.

Definition is_deleteResponse (m : Mutation) : bool :=
  match m with DeleteResponse _ _ => true | _ => false end.

End StoreSpec.

(** Concrete inputs used to exercise the store. *)
Module StoreExamples.
Import Store.

Definition doc0 : ApiDocument := createEmptyDocument "doc-0".
Definition doc1 : ApiDocument := createEmptyDocument "doc-1".
Definition store0 : EditorState := initialState "doc-0".

Definition retitle (t : string) : PartialInfo :=
  mkPartialInfo (Some t) None None None None None.

Definition petSchema : SchemaNode := createSchema "schema-pet" "" TObject (Some "Pet").

Definition listPets : Route := createRoute "route-1" "resp-1" "/pets" "get".

(** One edit; two edits; fifty-one imports; fifty-one retitlings. *)
Definition oneEdit : list (Z * Mutation) := [(1%Z, UpdateInfo (retitle "Pets"))].
Definition twoEdits : list (Z * Mutation) :=
  [(1%Z, AddSchema petSchema); (2%Z, UpdateInfo (retitle "Pets"))].
Definition manyImports : list (Z * Mutation) := repeat (0%Z, SetDocument doc1) 51.
Definition manyEdits : list (Z * Mutation) := repeat (0%Z, UpdateInfo (retitle "Pets")) 51.

End StoreExamples.

Module StoreSpec2.
Import Store.

(** The actions that test for their target before they do anything, and
    what it means for that target to be missing from the document. *)
Definition target_absent (m : Mutation) (state : EditorState) : Prop :=
  match m with
  | UpdateSchema id _ | AddFieldToSchema id _ | UpdateField id _ _
  | DeleteField id _ =>
      JsMap.get id (schemas (document state)) = None
  | UpdateRoute id _ | AddParameter id _ | UpdateParameter id _ _
  | DeleteParameter id _ | SetRequestBody id _ | AddResponse id _ _
  | UpdateResponse id _ _ | DeleteResponse id _ =>
      JsMap.get id (routes (document state)) = None
  | UpdateSecurityScheme id _ =>
      JsMap.get id (securitySchemes (document state)) = None
  | _ => False
  end.

End StoreSpec2.

(* ================================================================== *)
(** ** JavaScript operations on decoded values *)

Module Js.

(** [!!v] *)
Definition truthy (v : JValue) : bool :=
  match v with
  | JNull => false
  | JBool b => b
  | JNum z => negb (z =? 0)%Z
  | JStr s => nonempty s
  | JArr _ | JObj _ => true
  end.

(** [!!v] for a value that may be [undefined]. *)
Definition truthy_opt (v : option JValue) : bool :=
  match v with Some x => truthy x | None => false end.

(** [typeof v === 'object'] *)
Definition is_object (v : JValue) : bool :=
  match v with JNull | JArr _ | JObj _ => true | _ => false end.

Definition nat_to_string (n : nat) : string := NilZero.string_of_uint (Nat.to_uint n).
Definition Z_to_string (z : Z) : string := NilZero.string_of_int (Z.to_int z).

(** The pairs [[String(i), xs[i]]] of an array. *)
Fixpoint indexed {A} (i : nat) (xs : list A) : list (string * A) :=
  match xs with
  | [] => []
  | x :: rest => (nat_to_string i, x) :: indexed (S i) rest
  end.

Definition chars (s : string) : list JValue :=
  map (fun c => JStr (String c EmptyString)) (list_ascii_of_string s).

(** [Object.entries(v)] for a value that is not [null]: the entries of an
    object, the indexed elements of an array, the indexed characters of a
    string, nothing for a number or a boolean. *)
Definition object_entries (v : JValue) : list (string * JValue) :=
  match v with
  | JObj es => es
  | JArr xs => indexed 0 xs
  | JStr s => indexed 0 (chars s)
  | _ => []
  end.

(** [String(v)] as a template literal computes it; [undefined] is [None]. *)
Fixpoint to_string (v : JValue) : string :=
  match v with
  | JNull => "null"
  | JBool true => "true"
  | JBool false => "false"
  | JNum z => Z_to_string z
  | JStr s => s
  | JArr xs =>
      String.concat ","
        (map (fun x => match x with JNull => "" | _ => to_string x end) xs)
  | JObj _ => "[object Object]"
  end.

Definition template (v : option JValue) : string :=
  match v with Some x => to_string x | None => "undefined" end.

(** [s.toLowerCase()] on the letters A to Z. *)
Definition lower (c : ascii) : ascii :=
  let n := nat_of_ascii c in
  if ((65 <=? n) && (n <=? 90))%nat then ascii_of_nat (n + 32) else c.

Definition toLowerCase (s : string) : string :=
  string_of_list_ascii (map lower (list_ascii_of_string s)).

(** [s.startsWith(p)] *)
Definition startsWith (s p : string) : bool := String.prefix p s.

(** The line terminators [.] does not match, among the characters of the
    model. *)
Definition is_line_terminator (c : ascii) : bool :=
  ((nat_of_ascii c =? 10) || (nat_of_ascii c =? 13))%nat.

End Js.

(* ================================================================== *)
(** ** The importer (parser.ts) *)

Module Parser.
Import Js.

(** How a call of the importer ends. [Ret]: it returns. [Throws]: it
    throws (the importer catches nothing after the YAML decoder).
    [Untyped]: it goes on with a value that is not of the type the source
    declares for it (a cast [as T] that does not hold), which the typed
    model cannot follow. [OutOfFuel]: the recursion bound of the model was
    too small. *)
Inductive Outcome (A : Type) : Type :=
| Ret (a : A)
| Throws (err : string)
| Untyped (what : string)
| OutOfFuel.
Arguments Ret {A} a.
Arguments Throws {A} err.
Arguments Untyped {A} what.
Arguments OutOfFuel {A}.

(** What a call of [parseYaml] changes as it goes: the [errors] array, the
    module-level map [schemaNameToId], and the identifiers drawn so far. *)
Record PState := mkPState {
  errors : list ValidationError;
  nextId : nat;
  schemaNameToId : JsMap.t NodeId
}.

Definition M (A : Type) : Type := PState -> Outcome (A * PState).

Definition ret {A} (a : A) : M A := fun st => Ret (a, st).

Definition bind {A B} (m : M A) (k : A -> M B) : M B :=
  fun st =>
    match m st with
    | Ret (a, st') => k a st'
    | Throws e => Throws e
    | Untyped w => Untyped w
    | OutOfFuel => OutOfFuel
    end.

Notation "x <- m ;; k" := (bind m (fun x => k))
  (at level 61, m at next level, right associativity).
Notation "m ;;; k" := (bind m (fun _ => k))
  (at level 61, right associativity).

Definition throw {A} (err : string) : M A := fun _ => Throws err.
Definition untyped {A} (what : string) : M A := fun _ => Untyped what.
Definition out_of_fuel {A} : M A := fun _ => OutOfFuel.

Definition when (b : bool) (m : M unit) : M unit := if b then m else ret tt.

Fixpoint mapM {A B} (f : A -> M B) (xs : list A) : M (list B) :=
  match xs with
  | [] => ret []
  | x :: rest => y <- f x ;; ys <- mapM f rest ;; ret (y :: ys)
  end.

(** [for (const x of xs) acc = body(acc, x)] *)
Fixpoint foldM {A B} (f : B -> A -> M B) (xs : list A) (acc : B) : M B :=
  match xs with
  | [] => ret acc
  | x :: rest => acc' <- f acc x ;; foldM f rest acc'
  end.

(** [errors.push(e)] *)
Definition pushError (e : ValidationError) : M unit :=
  fun st => Ret (tt, mkPState (errors st ++ [e]) (nextId st) (schemaNameToId st)).

Definition getName (name : string) : M (option NodeId) :=
  fun st => Ret (JsMap.get name (schemaNameToId st), st).

Definition setName (name : string) (id : NodeId) : M unit :=
  fun st => Ret (tt, mkPState (errors st) (nextId st)
                              (JsMap.set name id (schemaNameToId st))).

(** [v.k]: reading a property of [null] throws; a value that is not an
    object has none of the properties the importer asks for. *)
Definition field (k : string) (v : JValue) : option JValue :=
  match v with JObj es => JsMap.get k es | _ => None end.

Definition prop (k : string) (v : JValue) : M (option JValue) :=
  match v with
  | JNull => throw "TypeError: Cannot read properties of null"
  | _ => ret (field k v)
  end.

(** [v?.k] *)
Definition opt_prop (k : string) (v : option JValue) : M (option JValue) :=
  match v with
  | None | Some JNull => ret None
  | Some x => ret (field k x)
  end.

(** Casts. [x as string], [x as string | undefined], [x as string[]],
    [x as number], [x as boolean]. *)
Definition as_string (what : string) (v : option JValue) : M string :=
  match v with Some (JStr s) => ret s | _ => untyped what end.

Definition as_opt_string (what : string) (v : option JValue) : M (option string) :=
  match v with
  | None => ret None
  | Some (JStr s) => ret (Some s)
  | _ => untyped what
  end.

Fixpoint strings_of (xs : list JValue) : option (list string) :=
  match xs with
  | [] => Some []
  | JStr s :: rest => option_map (cons s) (strings_of rest)
  | _ => None
  end.

Definition as_string_array (what : string) (v : option JValue) : M (list string) :=
  match v with
  | Some (JArr xs) =>
      match strings_of xs with Some l => ret l | None => untyped what end
  | _ => untyped what
  end.

Definition as_number (what : string) (v : option JValue) : M Z :=
  match v with Some (JNum z) => ret z | _ => untyped what end.

(** [(x as string) || d] *)
Definition string_or (what : string) (v : option JValue) (d : string) : M string :=
  if truthy_opt v then as_string what v else ret d.

(** [if (x) target = x as string] *)
Definition string_if_truthy (what : string) (v : option JValue) : M (option string) :=
  if truthy_opt v then s <- as_string what v ;; ret (Some s) else ret None.

(** [if (x !== undefined) target = x as number] *)
Definition number_if_defined (what : string) (v : option JValue) : M (option Z) :=
  match v with
  | None => ret None
  | Some _ => z <- as_number what v ;; ret (Some z)
  end.

(** [(x as string[]) || []] *)
Definition string_array_or_empty (what : string) (v : option JValue)
  : M (list string) :=
  if truthy_opt v then as_string_array what v else ret [].

(** [refPath.match(/^#\/components\/schemas\/(.+)$/)]: the captured name. *)
Definition schemaRefPrefix : string := "#/components/schemas/".

Definition matchSchemaRef (refPath : string) : option string :=
  if startsWith refPath schemaRefPrefix then
    let name := substring (String.length schemaRefPrefix)
                          (String.length refPath - String.length schemaRefPrefix)
                          refPath in
    if nonempty name &&
       forallb (fun c => negb (is_line_terminator c)) (list_ascii_of_string name)
    then Some name else None
  else None.

Definition isHttpMethod (method : string) : bool :=
  includes ["get"; "post"; "put"; "delete"; "patch"; "options"; "head"]
           (toLowerCase method).

Record ParseResult := mkParseResult {
  pr_document : option ApiDocument;
  pr_errors : list ValidationError
}.

(** What the YAML decoder hands to the importer: it throws, or it returns
    the decoded value. *)
Inductive YamlResult :=
| YamlThrows (message : string)
| YamlValue (parsed : JValue).

Section Importer.

(** The identifiers [crypto.randomUUID()] returns, in the order drawn. *)
Variable uuid : nat -> NodeId.

Definition generateId : M NodeId :=
  fun st => Ret (uuid (nextId st),
                 mkPState (errors st) (S (nextId st)) (schemaNameToId st)).

Definition parseInfo (info : JValue) : M InfoObject :=
  titleV <- opt_prop "title" (Some info) ;;
  title <- string_or "info.title" titleV "Untitled API" ;;
  versionV <- opt_prop "version" (Some info) ;;
  version <- string_or "info.version" versionV "1.0.0" ;;
  when (negb (truthy_opt titleV))
       (pushError (mkValidationError "MISSING_TITLE"
                     ("Missing required " ++ quote ++ "info.title" ++ quote)%string SevWarning
                     (at_path ["info"; "title"]))) ;;;
  when (negb (truthy_opt versionV))
       (pushError (mkValidationError "MISSING_VERSION"
                     ("Missing required " ++ quote ++ "info.version" ++ quote)%string SevWarning
                     (at_path ["info"; "version"]))) ;;;
  descriptionV <- opt_prop "description" (Some info) ;;
  description <- string_if_truthy "info.description" descriptionV ;;
  termsV <- opt_prop "termsOfService" (Some info) ;;
  terms <- string_if_truthy "info.termsOfService" termsV ;;
  contactV <- opt_prop "contact" (Some info) ;;
  contact <-
    (if truthy_opt contactV then
       nameV <- opt_prop "name" contactV ;;
       name <- as_opt_string "info.contact.name" nameV ;;
       urlV <- opt_prop "url" contactV ;;
       url <- as_opt_string "info.contact.url" urlV ;;
       emailV <- opt_prop "email" contactV ;;
       email <- as_opt_string "info.contact.email" emailV ;;
       ret (Some (mkContact name url email))
     else ret None) ;;
  licenseV <- opt_prop "license" (Some info) ;;
  licenseNameV <- opt_prop "name" licenseV ;;
  license <-
    (if truthy_opt licenseNameV then
       name <- as_string "info.license.name" licenseNameV ;;
       urlV <- opt_prop "url" licenseV ;;
       url <- as_opt_string "info.license.url" urlV ;;
       ret (Some (mkLicense name url))
     else ret None) ;;
  ret (mkInfoObject title version description terms contact license).

(** [parseSchemaOrRef], over the [parseSchema] it calls. *)
Definition parseSchemaOrRef_with
           (parseSchema : JValue -> option string -> NodeId -> M SchemaNode)
           (data : JValue) : M SchemaOrRef :=
  refV <- prop "$ref" data ;;
  resolved <-
    match refV with
    | Some (JStr refPath) =>
        if nonempty refPath then
          match matchSchemaRef refPath with
          | Some refName =>
              targetId <- getName refName ;;
              match targetId with
              | Some t =>
                  if nonempty t then ret (Some t)
                  else
                    pushError (mkValidationError "UNRESOLVED_REF"
                                 ("Unresolved reference: " ++ refPath)%string
                                 SevWarning no_location) ;;;
                    ret None
              | None =>
                  pushError (mkValidationError "UNRESOLVED_REF"
                               ("Unresolved reference: " ++ refPath)%string
                               SevWarning no_location) ;;;
                  ret None
              end
          | None => ret None
          end
        else ret None
    | _ => ret None
    end ;;
  match resolved with
  | Some targetId => ret (SRef targetId)
  | None =>
      (* Inline schema *)
      inlineId <- generateId ;;
      schema <- parseSchema data None inlineId ;;
      ret (SInline schema)
  end.

(** The body of [parseSchema], over the [parseSchemaOrRef] it calls. *)
Definition parseSchema_body
           (parseSchemaOrRef : JValue -> M SchemaOrRef)
           (data : JValue) (name : option string) (id : NodeId) : M SchemaNode :=
  (* Determine schema type *)
  oneOfV <- prop "oneOf" data ;;
  anyOfV <- prop "anyOf" data ;;
  allOfV <- prop "allOf" data ;;
  enumV <- prop "enum" data ;;
  typeV <- prop "type" data ;;
  let type :=
    if truthy_opt oneOfV then TOneOf
    else if truthy_opt anyOfV then TAnyOf
    else if truthy_opt allOfV then TAllOf
    else if truthy_opt enumV then TEnum
    else match typeV with
         | Some (JStr "array") => TArray
         | Some (JStr "string") => TString
         | Some (JStr "number") => TNumber
         | Some (JStr "integer") => TInteger
         | Some (JStr "boolean") => TBoolean
         | _ => TObject
         end in
  descriptionV <- prop "description" data ;;
  description <- as_opt_string "schema.description" descriptionV ;;
  (* Parse based on type *)
  propertiesV <- prop "properties" data ;;
  objectPart <-
    (if SchemaType_eqb type TObject && truthy_opt propertiesV then
       requiredV <- prop "required" data ;;
       required <- string_array_or_empty "schema.required" requiredV ;;
       properties <-
         foldM (fun (m : JsMap.t PropertyDef) (entry : string * JValue) =>
                  let (propName, propData) := entry in
                  propSchema <- parseSchemaOrRef propData ;;
                  propDescV <- opt_prop "description" (Some propData) ;;
                  propDesc <- as_opt_string "property.description" propDescV ;;
                  ret (JsMap.set propName
                         (mkPropertyDef propName propSchema
                                        (includes required propName) propDesc)
                         m))
               (match propertiesV with
                | Some props => object_entries props
                | None => []
                end)
               JsMap.empty ;;
       ret (Some properties, Some required)
     else ret (None, None)) ;;
  itemsV <- prop "items" data ;;
  items <-
    match itemsV with
    | Some itemsData =>
        if SchemaType_eqb type TArray && truthy itemsData then
          e <- parseSchemaOrRef itemsData ;; ret (Some e)
        else ret None
    | None => ret None
    end ;;
  enumValues <-
    (if SchemaType_eqb type TEnum && truthy_opt enumV then
       vs <- as_string_array "schema.enum" enumV ;; ret (Some vs)
     else ret None) ;;
  compositionPart <-
    match type with
    | TOneOf | TAnyOf | TAllOf =>
        let variantsV := match type with
                         | TOneOf => oneOfV | TAnyOf => anyOfV | _ => allOfV
                         end in
        variants <-
          match variantsV with
          | Some (JArr vs) => es <- mapM parseSchemaOrRef vs ;; ret (Some es)
          | _ => ret None
          end ;;
        discV <- prop "discriminator" data ;;
        discriminator <-
          (if SchemaType_eqb type TOneOf && truthy_opt discV then
             pnV <- opt_prop "propertyName" discV ;;
             pn <- as_string "discriminator.propertyName" pnV ;;
             ret (Some (mkDiscriminator pn None))
           else ret None) ;;
        ret (variants, discriminator)
    | _ => ret (None, None)
    end ;;
  (* Primitive constraints *)
  formatV <- prop "format" data ;;
  format <- string_if_truthy "schema.format" formatV ;;
  minimumV <- prop "minimum" data ;;
  minimum <- number_if_defined "schema.minimum" minimumV ;;
  maximumV <- prop "maximum" data ;;
  maximum <- number_if_defined "schema.maximum" maximumV ;;
  minLengthV <- prop "minLength" data ;;
  minLength <- number_if_defined "schema.minLength" minLengthV ;;
  maxLengthV <- prop "maxLength" data ;;
  maxLength <- number_if_defined "schema.maxLength" maxLengthV ;;
  patternV <- prop "pattern" data ;;
  pattern <- string_if_truthy "schema.pattern" patternV ;;
  exampleV <- prop "example" data ;;
  defaultV <- prop "default" data ;;
  ret (mkSchemaNode id name type description
                    (fst objectPart) items (fst compositionPart) enumValues
                    (snd objectPart) format exampleV defaultV
                    minimum maximum minLength maxLength pattern
                    (snd compositionPart)).

(** [parseSchema]; [fuel] bounds the nesting of schemas inside schemas. *)
Fixpoint parseSchema (fuel : nat)
  : JValue -> option string -> NodeId -> M SchemaNode :=
  match fuel with
  | O => fun _ _ _ => out_of_fuel
  | S fuel' => parseSchema_body (parseSchemaOrRef_with (parseSchema fuel'))
  end.

Definition parseSchemaOrRef (fuel : nat) : JValue -> M SchemaOrRef :=
  parseSchemaOrRef_with (parseSchema fuel).

Definition parseSecurityScheme (name : string) (data : JValue) : M SecurityScheme :=
  id <- generateId ;;
  typeV <- prop "type" data ;;
  type <-
    (if truthy_opt typeV then
       match typeV with
       | Some (JStr "apiKey") => ret ApiKey
       | Some (JStr "http") => ret Http
       | Some (JStr "oauth2") => ret OAuth2
       | Some (JStr "openIdConnect") => ret OpenIdConnect
       | _ => untyped "securityScheme.type"
       end
     else ret Http) ;;
  descriptionV <- prop "description" data ;;
  description <- string_if_truthy "securityScheme.description" descriptionV ;;
  httpPart <-
    match type with
    | Http =>
        schemeV <- prop "scheme" data ;;
        scheme <- string_or "securityScheme.scheme" schemeV "bearer" ;;
        bearerV <- prop "bearerFormat" data ;;
        bearer <- string_if_truthy "securityScheme.bearerFormat" bearerV ;;
        ret (Some scheme, bearer)
    | _ => ret (None, None)
    end ;;
  apiKeyPart <-
    match type with
    | ApiKey =>
        inV <- prop "in" data ;;
        loc <-
          (if truthy_opt inV then
             match inV with
             | Some (JStr "header") => ret KeyInHeader
             | Some (JStr "query") => ret KeyInQuery
             | Some (JStr "cookie") => ret KeyInCookie
             | _ => untyped "securityScheme.in"
             end
           else ret KeyInHeader) ;;
        nameV <- prop "name" data ;;
        paramName <- string_or "securityScheme.name" nameV "api_key" ;;
        ret (Some loc, Some paramName)
    | _ => ret (None, None)
    end ;;
  openIdConnectUrl <-
    match type with
    | OpenIdConnect =>
        urlV <- prop "openIdConnectUrl" data ;;
        as_opt_string "securityScheme.openIdConnectUrl" urlV
    | _ => ret None
    end ;;
  ret (mkSecurityScheme id name type description
                        (fst apiKeyPart) (snd apiKeyPart)
                        (fst httpPart) (snd httpPart) None openIdConnectUrl).

Section WithFuel.
Variable fuel : nat.

(** [media.schema ? parseSchemaOrRef(media.schema, errors)
                  : { kind: 'inline', schema: { id: generateId(), type } }] *)
Definition schemaOrDefault (schemaV : option JValue) (type : SchemaType)
  : M SchemaOrRef :=
  match schemaV with
  | Some s =>
      if truthy s then parseSchemaOrRef fuel s
      else id <- generateId ;; ret (SInline (bare_schema id None type))
  | None => id <- generateId ;; ret (SInline (bare_schema id None type))
  end.

Definition parseParameter (data : JValue) : M ParameterDef :=
  id <- generateId ;;
  nameV <- prop "name" data ;;
  name <- string_or "parameter.name" nameV "param" ;;
  inV <- prop "in" data ;;
  loc <-
    (if truthy_opt inV then
       match inV with
       | Some (JStr "path") => ret InPath
       | Some (JStr "query") => ret InQuery
       | Some (JStr "header") => ret InHeader
       | Some (JStr "cookie") => ret InCookie
       | _ => untyped "parameter.in"
       end
     else ret InQuery) ;;
  requiredV <- prop "required" data ;;
  required <-
    (if truthy_opt requiredV then
       match requiredV with
       | Some (JBool b) => ret b
       | _ => untyped "parameter.required"
       end
     else ret false) ;;
  schemaV <- prop "schema" data ;;
  schema <- schemaOrDefault schemaV TString ;;
  descriptionV <- prop "description" data ;;
  description <- as_opt_string "parameter.description" descriptionV ;;
  exampleV <- prop "example" data ;;
  ret (mkParameterDef id name loc required schema description exampleV).

(** The loop over [Object.entries(data.content)] that the request-body and
    the response parsers share. *)
Definition parseContent (contentV : JValue) : M (JsMap.t MediaType) :=
  foldM (fun (content : JsMap.t MediaType) (entry : string * JValue) =>
           let (contentType, media) := entry in
           schemaV <- prop "schema" media ;;
           schema <- schemaOrDefault schemaV TObject ;;
           exampleV <- prop "example" media ;;
           ret (JsMap.set contentType (mkMediaType schema exampleV) content))
        (object_entries contentV) JsMap.empty.

Definition parseRequestBody (data : JValue) : M RequestBody :=
  contentV <- prop "content" data ;;
  content <-
    match contentV with
    | Some c => if truthy c && is_object c then parseContent c else ret JsMap.empty
    | None => ret JsMap.empty
    end ;;
  id <- generateId ;;
  descriptionV <- prop "description" data ;;
  description <- as_opt_string "requestBody.description" descriptionV ;;
  requiredV <- prop "required" data ;;
  required <-
    (if truthy_opt requiredV then
       match requiredV with
       | Some (JBool b) => ret b
       | _ => untyped "requestBody.required"
       end
     else ret false) ;;
  ret (mkRequestBody id description required content).

Definition parseResponse (data : JValue) : M ResponseDef :=
  id <- generateId ;;
  descriptionV <- prop "description" data ;;
  description <- string_or "response.description" descriptionV "Response" ;;
  contentV <- prop "content" data ;;
  content <-
    match contentV with
    | Some c =>
        if truthy c && is_object c
        then m <- parseContent c ;; ret (Some m)
        else ret None
    | None => ret None
    end ;;
  ret (mkResponseDef id description content None).

Definition parseOperation (path : string) (method : string) (data : JValue)
           (doc : ApiDocument) : M Route :=
  id <- generateId ;;
  tagsV <- prop "tags" data ;;
  tags <- string_array_or_empty "operation.tags" tagsV ;;
  summaryV <- prop "summary" data ;;
  summary <- string_if_truthy "operation.summary" summaryV ;;
  descriptionV <- prop "description" data ;;
  description <- string_if_truthy "operation.description" descriptionV ;;
  operationIdV <- prop "operationId" data ;;
  operationId <- string_if_truthy "operation.operationId" operationIdV ;;
  deprecatedV <- prop "deprecated" data ;;
  let deprecated := if truthy_opt deprecatedV then Some true else None in
  (* Parse parameters *)
  parametersV <- prop "parameters" data ;;
  parameters <-
    match parametersV with
    | Some (JArr ps) => mapM parseParameter ps
    | _ => ret []
    end ;;
  (* Parse request body *)
  requestBodyV <- prop "requestBody" data ;;
  requestBody <-
    match requestBodyV with
    | Some b => if truthy b then rb <- parseRequestBody b ;; ret (Some rb)
                else ret None
    | None => ret None
    end ;;
  (* Parse responses *)
  responsesV <- prop "responses" data ;;
  responses <-
    match responsesV with
    | Some rs =>
        if truthy rs && is_object rs then
          foldM (fun (m : JsMap.t ResponseDef) (entry : string * JValue) =>
                   let (statusCode, responseData) := entry in
                   response <- parseResponse responseData ;;
                   ret (JsMap.set statusCode response m))
                (object_entries rs) JsMap.empty
        else ret JsMap.empty
    | None => ret JsMap.empty
    end ;;
  (* Ensure at least one response *)
  responses <-
    (if (JsMap.size responses =? 0)%nat then
       respId <- generateId ;;
       ret (JsMap.set "200" (mkResponseDef respId "Successful response" None None)
                      responses)
     else ret responses) ;;
  ret (mkRoute id path method summary description operationId tags parameters
               requestBody responses None deprecated).

(** The body of [parseYaml] after the decoder returned an object. *)
Definition parseDocument (parsed : JValue) : M ApiDocument :=
  (* Validate OpenAPI version *)
  openapiV <- prop "openapi" parsed ;;
  match openapiV with
  | Some v =>
      if truthy v then
        match v with
        | JStr s =>
            when (negb (startsWith s "3."))
                 (pushError (mkValidationError "INVALID_VERSION"
                    ("Unsupported OpenAPI version: " ++ template openapiV ++
                     ". Only OpenAPI 3.x is supported.")%string
                    SevError (at_path ["openapi"])))
        | _ => throw "TypeError: parsed.openapi.startsWith is not a function"
        end
      else
        pushError (mkValidationError "INVALID_VERSION"
                     ("Unsupported OpenAPI version: " ++ template openapiV ++
                      ". Only OpenAPI 3.x is supported.")%string
                     SevError (at_path ["openapi"]))
  | None =>
      pushError (mkValidationError "INVALID_VERSION"
                   ("Unsupported OpenAPI version: " ++ template openapiV ++
                    ". Only OpenAPI 3.x is supported.")%string
                   SevError (at_path ["openapi"]))
  end ;;;
  (* Create document *)
  docId <- generateId ;;
  let doc := createEmptyDocument docId in
  (* Parse info *)
  infoV <- prop "info" parsed ;;
  info <-
    match infoV with
    | Some i =>
        if truthy i then parseInfo i
        else
          pushError (mkValidationError "MISSING_INFO"
                       ("Missing required " ++ quote ++ "info" ++ quote ++ " object")%string SevError
                       (at_path ["info"])) ;;;
          ret (info doc)
    | None =>
        pushError (mkValidationError "MISSING_INFO"
                     ("Missing required " ++ quote ++ "info" ++ quote ++ " object")%string SevError
                     (at_path ["info"])) ;;;
        ret (info doc)
    end ;;
  (* Parse servers *)
  serversV <- prop "servers" parsed ;;
  servers <-
    match serversV with
    | Some (JArr ss) =>
        mapM (fun s =>
                urlV <- prop "url" s ;;
                url <- as_string "server.url" urlV ;;
                descV <- prop "description" s ;;
                desc <- as_opt_string "server.description" descV ;;
                ret (mkServer url desc None))
             (filter (fun s => truthy s && truthy_opt (field "url" s)) ss)
    | _ => ret (servers doc)
    end ;;
  (* Parse tags *)
  tagsV <- prop "tags" parsed ;;
  tags <-
    match tagsV with
    | Some (JArr ts) =>
        mapM (fun t =>
                nameV <- prop "name" t ;;
                name <- as_string "tag.name" nameV ;;
                descV <- prop "description" t ;;
                desc <- as_opt_string "tag.description" descV ;;
                ret (mkTag name desc))
             (filter (fun t => truthy t && truthy_opt (field "name" t)) ts)
    | _ => ret (tags doc)
    end ;;
  componentsV <- prop "components" parsed ;;
  schemasV <- opt_prop "schemas" componentsV ;;
  (* First pass: register all schema names for $ref resolution *)
  match schemasV with
  | Some ss =>
      if truthy ss then
        foldM (fun (_ : unit) (entry : string * JValue) =>
                 id <- generateId ;; setName (fst entry) id)
              (object_entries ss) tt
      else ret tt
  | None => ret tt
  end ;;;
  (* Parse schemas *)
  schemas <-
    match schemasV with
    | Some ss =>
        if truthy ss then
          foldM (fun (m : JsMap.t SchemaNode) (entry : string * JValue) =>
                   let (name, schemaData) := entry in
                   idV <- getName name ;;
                   match idV with
                   | Some id =>
                       schema <- parseSchema fuel schemaData (Some name) id ;;
                       ret (JsMap.set id schema m)
                   | None => untyped "schemaNameToId.get(name)!"
                   end)
                (object_entries ss) (schemas doc)
        else ret (schemas doc)
    | None => ret (schemas doc)
    end ;;
  (* Parse security schemes *)
  securityV <- opt_prop "securitySchemes" componentsV ;;
  securitySchemes <-
    match securityV with
    | Some ss =>
        if truthy ss then
          foldM (fun (m : JsMap.t SecurityScheme) (entry : string * JValue) =>
                   let (name, schemeData) := entry in
                   scheme <- parseSecurityScheme name schemeData ;;
                   ret (JsMap.set (ss_id scheme) scheme m))
                (object_entries ss) (securitySchemes doc)
        else ret (securitySchemes doc)
    | None => ret (securitySchemes doc)
    end ;;
  (* Parse paths *)
  pathsV <- prop "paths" parsed ;;
  routes <-
    match pathsV with
    | Some ps =>
        if truthy ps then
          foldM (fun (m : JsMap.t Route) (pathEntry : string * JValue) =>
                   let (path, pathItem) := pathEntry in
                   if negb (truthy pathItem) || negb (is_object pathItem) then ret m
                   else
                     foldM (fun (m : JsMap.t Route) (opEntry : string * JValue) =>
                              let (method, operationData) := opEntry in
                              if negb (isHttpMethod method) then ret m
                              else if negb (truthy operationData)
                                      || negb (is_object operationData) then ret m
                              else
                                route <- parseOperation path method operationData doc ;;
                                ret (JsMap.set (r_id route) route m))
                           (object_entries pathItem) m)
                (object_entries ps) (routes doc)
        else ret (routes doc)
    | None => ret (routes doc)
    end ;;
  ret (mkApiDocument docId info servers routes schemas securitySchemes tags).

End WithFuel.

(** The nesting depth of a decoded value. *)
Fixpoint depth (v : JValue) : nat :=
  match v with
  | JArr xs => S (fold_right Nat.max 0 (map depth xs))
  | JObj es => S (fold_right Nat.max 0 (map (fun kv => depth (snd kv)) es))
  | _ => 0
  end.

(** [parseYaml]. The argument is what [YAML.parse(yamlContent)] did; the
    recursion bound is taken from the depth of the decoded value. *)
Definition parseYaml (decoded : YamlResult) : Outcome ParseResult :=
  match decoded with
  | YamlThrows message =>
      Ret (mkParseResult None
             [mkValidationError "YAML_PARSE_ERROR"
                ("Failed to parse YAML: " ++ message)%string SevError no_location])
  | YamlValue parsed =>
      if negb (truthy parsed) || negb (is_object parsed) then
        Ret (mkParseResult None
               [mkValidationError "INVALID_DOCUMENT" "Document is empty or invalid"
                                  SevError no_location])
      else
        match parseDocument (S (depth parsed)) parsed (mkPState [] 0 JsMap.empty) with
        | Ret (doc, st) => Ret (mkParseResult (Some doc) (errors st))
        | Throws e => Throws e
        | Untyped w => Untyped w
        | OutOfFuel => OutOfFuel
        end
  end.

End Importer.
End Parser.

(** Concrete inputs used to exercise the importer. *)
Module ImportExamples.
Import Parser.

(** The text of the degraded-import scenario, and the value a YAML 1.2
    decoder (the [yaml] package the importer calls) returns for it: the
    plain scalar [2.0] is a float, so [openapi] is the number 2. *)
Definition degradedText : string :=
  String.concat (String (ascii_of_nat 10) EmptyString)
                ["openapi: 2.0"; "info:"; "  title: X"; "paths: {}"].

Definition degradedDecoded : JValue :=
  JObj [("openapi", JNum 2);
        ("info", JObj [("title", JStr "X")]);
        ("paths", JObj [])].

(** The same document with the version written as the string ["2.0"]. *)
Definition degradedQuoted : JValue :=
  JObj [("openapi", JStr "2.0");
        ("info", JObj [("title", JStr "X")]);
        ("paths", JObj [])].

(** A reference to something that is not a schema component, and a
    reference of the right shape to a name nobody registered. *)
Definition foreignRef : JValue := JObj [("$ref", JStr "#/components/parameters/Limit")].
Definition danglingRef : JValue := JObj [("$ref", JStr "#/components/schemas/Ghost")].

Definition emptyState : PState := mkPState [] 0 JsMap.empty.

(** An operation object without responses. *)
Definition bareOperation : JValue := JObj [("summary", JStr "List pets")].

End ImportExamples.

(* ================================================================== *)
(** ** The exporter (serializer.ts) *)

Module Exporter.
Import Js.

(** Objects under construction. [Object.entries] lists the keys that are
    array indices first, in ascending numeric order, then the other keys
    in the order they were added; assigning to an existing key keeps its
    place. *)
Definition is_digit (c : ascii) : bool :=
  let n := nat_of_ascii c in ((48 <=? n) && (n <=? 57))%nat.

Definition digits_value (s : string) : N :=
  fold_left (fun acc c => (acc * 10 + N.of_nat (nat_of_ascii c - 48))%N)
            (list_ascii_of_string s) 0%N.

(** The numeric value of a key that is an array index: a canonical decimal
    numeral below 2^32 - 1. *)
Definition array_index (k : string) : option N :=
  match k with
  | EmptyString => None
  | String c rest =>
      if forallb is_digit (list_ascii_of_string k) &&
         (negb (Ascii.eqb c "0") || String.eqb rest "") &&
         (String.length k <=? 10)%nat &&
         (digits_value k <? 4294967295)%N
      then Some (digits_value k) else None
  end.

Fixpoint insert_index (n : N) (k : string) (v : JValue)
         (o : list (string * JValue)) : list (string * JValue) :=
  match o with
  | [] => [(k, v)]
  | (k', v') :: rest =>
      match array_index k' with
      | Some n' =>
          if (n <? n')%N then (k, v) :: o else (k', v') :: insert_index n k v rest
      | None => (k, v) :: o
      end
  end.

(** [o[k] = v] *)
Definition obj_set (k : string) (v : JValue) (o : list (string * JValue))
  : list (string * JValue) :=
  if JsMap.has k o then JsMap.set k v o
  else match array_index k with
       | Some n => insert_index n k v o
       | None => o ++ [(k, v)]
       end.

(** [if (x) o[k] = x] for an optional string. *)
Definition set_if_truthy (k : string) (x : option string)
           (o : list (string * JValue)) : list (string * JValue) :=
  match x with
  | Some s => if nonempty s then obj_set k (JStr s) o else o
  | None => o
  end.

(** [if (x !== undefined) o[k] = x] *)
Definition set_if_defined (k : string) (x : option JValue)
           (o : list (string * JValue)) : list (string * JValue) :=
  match x with
  | Some v => obj_set k v o
  | None => o
  end.

Definition strings (xs : list string) : JValue := JArr (map JStr xs).

Definition type_name (t : SchemaType) : string :=
  match t with
  | TObject => "object" | TArray => "array" | TString => "string"
  | TNumber => "number" | TInteger => "integer" | TBoolean => "boolean"
  | TEnum => "enum" | TOneOf => "oneOf" | TAnyOf => "anyOf" | TAllOf => "allOf"
  end.

Definition is_composition (t : SchemaType) : bool :=
  match t with TOneOf | TAnyOf | TAllOf => true | _ => false end.

(** [xs.map(f)] where [f] may fail to finish. *)
Fixpoint map_opt {A B} (f : A -> option B) (xs : list A) : option (list B) :=
  match xs with
  | [] => Some []
  | x :: rest =>
      match f x, map_opt f rest with
      | Some y, Some ys => Some (y :: ys)
      | _, _ => None
      end
  end.

(** [Record<string, unknown>]: the entries of an object being built. *)
Definition JRecord := list (string * JValue).

Definition refTo (name : string) : JRecord :=
  [("$ref", JStr ("#/components/schemas/" ++ name)%string)].

Definition objectPlaceholder : JRecord := [("type", JStr "object")].

(** The part of [serializeSchema] that does not depend on how edges are
    written: [edge] is [serializeSchemaOrRef(_, doc)]. *)
Definition serializeSchema_body (edge : SchemaOrRef -> option JRecord)
           (schema : SchemaNode) : option JRecord :=
  let result : JRecord := [] in
  if is_composition (s_type schema) then
    (* Handle composition types *)
    match
      match s_variants schema with
      | Some (v :: vs) =>
          option_map (fun es => obj_set (type_name (s_type schema))
                                        (JArr (map JObj es)) result)
                     (map_opt edge (v :: vs))
      | _ => Some result
      end
    with
    | None => None
    | Some result =>
        let result :=
          match s_type schema, s_discriminator schema with
          | TOneOf, Some d =>
              if nonempty (propertyName d)
              then obj_set "discriminator"
                           (JObj [("propertyName", JStr (propertyName d))]) result
              else result
          | _, _ => result
          end in
        Some (set_if_truthy "description" (s_description schema) result)
    end
  else match s_type schema with
  | TEnum =>
      (* Handle enum *)
      let result := obj_set "type" (JStr "string") result in
      let result :=
        match s_enumValues schema with
        | Some (v :: vs) => obj_set "enum" (strings (v :: vs)) result
        | _ => result
        end in
      Some (set_if_truthy "description" (s_description schema) result)
  | TArray =>
      (* Handle array *)
      let result := obj_set "type" (JStr "array") result in
      match
        match s_items schema with
        | Some items =>
            option_map (fun j => obj_set "items" (JObj j) result) (edge items)
        | None => Some result
        end
      with
      | None => None
      | Some result =>
          Some (set_if_truthy "description" (s_description schema) result)
      end
  | TObject =>
      (* Handle object *)
      let result := obj_set "type" (JStr "object") result in
      match
        match s_properties schema with
        | Some (p :: ps) =>
            option_map
              (fun props => obj_set "properties" (JObj props) result)
              (fold_left
                 (fun (acc : option JRecord) (entry : string * PropertyDef) =>
                    match acc, edge (pd_schema (snd entry)) with
                    | Some props, Some propSchema =>
                        Some (obj_set (fst entry)
                                (JObj (set_if_truthy "description"
                                         (pd_description (snd entry)) propSchema))
                                props)
                    | _, _ => None
                    end)
                 (p :: ps) (Some []))
        | _ => Some result
        end
      with
      | None => None
      | Some result =>
          let result :=
            match s_required schema with
            | Some (r :: rs) => obj_set "required" (strings (r :: rs)) result
            | _ => result
            end in
          Some (set_if_truthy "description" (s_description schema) result)
      end
  | _ =>
      (* Handle primitives *)
      let result := obj_set "type" (JStr (type_name (s_type schema))) result in
      let result := set_if_truthy "description" (s_description schema) result in
      let result := set_if_truthy "format" (s_format schema) result in
      let result := set_if_defined "minimum" (option_map JNum (s_minimum schema)) result in
      let result := set_if_defined "maximum" (option_map JNum (s_maximum schema)) result in
      let result := set_if_defined "minLength" (option_map JNum (s_minLength schema)) result in
      let result := set_if_defined "maxLength" (option_map JNum (s_maxLength schema)) result in
      let result := set_if_truthy "pattern" (s_pattern schema) result in
      let result := set_if_defined "example" (s_example schema) result in
      let result := set_if_defined "default" (s_default schema) result in
      Some result
  end.

(** How [serializeSchemaOrRef] writes an edge, over the two calls of
    [serializeSchema] it makes: [inlined] for the body of a target without
    a name, [nested] for an inline schema. *)
Definition serializeEdge (doc : ApiDocument)
           (inlined nested : SchemaNode -> option JRecord)
           (schemaOrRef : SchemaOrRef) : option JRecord :=
  match schemaOrRef with
  | SRef targetId =>
      match JsMap.get targetId (schemas doc) with
      | Some targetSchema =>
          match s_name targetSchema with
          | Some name =>
              if nonempty name then Some (refTo name)
              else inlined targetSchema  (* Fallback for anonymous schemas *)
          | None => inlined targetSchema
          end
      | None => Some objectPlaceholder  (* Fallback *)
      end
  | SInline schema => nested schema
  end.

(** [serializeSchema(schema, doc)]. The recursion into an inline schema
    follows the structure of the node; [fuel] bounds the number of times a
    reference to a target without a name is followed (a cycle of such
    references makes the source recurse without end). [None]: the bound
    was reached. *)
Fixpoint serializeSchema (fuel : nat) (doc : ApiDocument)
  : SchemaNode -> option JRecord :=
  fix nested (schema : SchemaNode) : option JRecord :=
    serializeSchema_body
      (serializeEdge doc
         (match fuel with
          | O => fun _ => None
          | S fuel' => serializeSchema fuel' doc
          end)
         nested)
      schema.

(** [serializeSchemaOrRef(schemaOrRef, doc)] *)
Definition serializeSchemaOrRef (fuel : nat) (doc : ApiDocument)
  : SchemaOrRef -> option JRecord :=
  serializeEdge doc
    (match fuel with
     | O => fun _ => None
     | S fuel' => serializeSchema fuel' doc
     end)
    (serializeSchema fuel doc).

Section WithDocument.
Variable fuel : nat.
Variable doc : ApiDocument.

Definition serializeParameter (param : ParameterDef) : option JRecord :=
  let result : JRecord :=
    [("name", JStr (p_name param));
     ("in", JStr (match p_in param with
                  | InPath => "path" | InQuery => "query"
                  | InHeader => "header" | InCookie => "cookie"
                  end))] in
  let result := if p_required param then obj_set "required" (JBool true) result
                else result in
  let result := set_if_truthy "description" (p_description param) result in
  match serializeSchemaOrRef fuel doc (p_schema param) with
  | Some schema =>
      let result := obj_set "schema" (JObj schema) result in
      Some (set_if_defined "example" (p_example param) result)
  | None => None
  end.

(** The loop over a [content] map that the request-body and the response
    serializers share. *)
Definition serializeContent (content : JsMap.t MediaType) : option JRecord :=
  fold_left
    (fun (acc : option JRecord) (entry : string * MediaType) =>
       match acc, serializeSchemaOrRef fuel doc (mt_schema (snd entry)) with
       | Some content, Some schema =>
           Some (obj_set (fst entry)
                   (JObj (set_if_defined "example" (mt_example (snd entry))
                                         [("schema", JObj schema)]))
                   content)
       | _, _ => None
       end)
    content (Some []).

Definition serializeRequestBody (body : RequestBody) : option JRecord :=
  let result : JRecord := [] in
  let result := set_if_truthy "description" (rb_description body) result in
  let result := if rb_required body then obj_set "required" (JBool true) result
                else result in
  option_map (fun content => obj_set "content" (JObj content) result)
             (serializeContent (rb_content body)).

Definition serializeResponse (response : ResponseDef) : option JRecord :=
  let result : JRecord := [("description", JStr (resp_description response))] in
  match resp_content response with
  | Some (c :: cs) =>
      option_map (fun content => obj_set "content" (JObj content) result)
                 (serializeContent (c :: cs))
  | _ => Some result
  end.

Definition serializeOperation (route : Route) : option JRecord :=
  let result : JRecord := [] in
  let result := set_if_truthy "summary" (r_summary route) result in
  let result := set_if_truthy "description" (r_description route) result in
  let result := set_if_truthy "operationId" (r_operationId route) result in
  let result := match r_tags route with
                | _ :: _ => obj_set "tags" (strings (r_tags route)) result
                | [] => result
                end in
  let result := match r_deprecated route with
                | Some true => obj_set "deprecated" (JBool true) result
                | _ => result
                end in
  (* Parameters *)
  match
    match r_parameters route with
    | _ :: _ =>
        option_map (fun ps => obj_set "parameters" (JArr (map JObj ps)) result)
                   (map_opt serializeParameter (r_parameters route))
    | [] => Some result
    end
  with
  | None => None
  | Some result =>
      (* Request body *)
      match
        match r_requestBody route with
        | Some body =>
            option_map (fun b => obj_set "requestBody" (JObj b) result)
                       (serializeRequestBody body)
        | None => Some result
        end
      with
      | None => None
      | Some result =>
          (* Responses *)
          match
            fold_left
              (fun (acc : option JRecord) (entry : string * ResponseDef) =>
                 match acc, serializeResponse (snd entry) with
                 | Some responses, Some r =>
                     Some (obj_set (fst entry) (JObj r) responses)
                 | _, _ => None
                 end)
              (r_responses route) (Some [])
          with
          | None => None
          | Some responses =>
              let result := obj_set "responses" (JObj responses) result in
              (* Security *)
              Some
                match r_security route with
                | Some (q :: qs) =>
                    obj_set "security"
                      (JArr (map (fun s =>
                                    match JsMap.get (schemeId s) (securitySchemes doc) with
                                    | Some scheme =>
                                        JObj (obj_set (ss_name scheme)
                                                      (strings (req_scopes s)) [])
                                    | None => JObj []
                                    end)
                                 (q :: qs)))
                      result
                | _ => result
                end
          end
      end
  end.

End WithDocument.

Definition flowToJson (f : OAuthFlow) : JValue :=
  JObj (set_if_defined "authorizationUrl" (option_map JStr (authorizationUrl f))
       (set_if_defined "tokenUrl" (option_map JStr (tokenUrl f))
       (set_if_defined "refreshUrl" (option_map JStr (refreshUrl f))
          [("scopes", JObj (map (fun kv => (fst kv, JStr (snd kv))) (scopes f)))]))).

(** [scheme.flows] as the value [result.flows] holds. The model keeps the
    keys that are set; their order is the declaration order of
    [OAuthFlows]. *)
Definition flowsToJson (f : OAuthFlows) : JValue :=
  JObj (concat
          [match implicit f with Some x => [("implicit", flowToJson x)] | None => [] end;
           match password f with Some x => [("password", flowToJson x)] | None => [] end;
           match clientCredentials f with
           | Some x => [("clientCredentials", flowToJson x)] | None => [] end;
           match authorizationCode f with
           | Some x => [("authorizationCode", flowToJson x)] | None => [] end]).

Definition serializeSecurityScheme (scheme : SecurityScheme) : JRecord :=
  let result : JRecord :=
    [("type", JStr (match ss_type scheme with
                    | ApiKey => "apiKey" | Http => "http"
                    | OAuth2 => "oauth2" | OpenIdConnect => "openIdConnect"
                    end))] in
  let result := set_if_truthy "description" (ss_description scheme) result in
  let result :=
    match ss_type scheme with
    | Http =>
        let result :=
          obj_set "scheme"
                  (JStr (if truthy_str (ss_scheme scheme)
                         then match ss_scheme scheme with Some x => x | None => "" end
                         else "bearer")) result in
        set_if_truthy "bearerFormat" (ss_bearerFormat scheme) result
    | _ => result
    end in
  let result :=
    match ss_type scheme with
    | ApiKey =>
        let result :=
          obj_set "in" (JStr (match ss_in scheme with
                              | Some KeyInQuery => "query"
                              | Some KeyInCookie => "cookie"
                              | Some KeyInHeader | None => "header"
                              end)) result in
        obj_set "name"
                (JStr (if truthy_str (ss_paramName scheme)
                       then match ss_paramName scheme with Some x => x | None => "" end
                       else "api_key")) result
    | _ => result
    end in
  let result :=
    match ss_type scheme, ss_flows scheme with
    | OAuth2, Some flows => obj_set "flows" (flowsToJson flows) result
    | _, _ => result
    end in
  match ss_type scheme with
  | OpenIdConnect => set_if_truthy "openIdConnectUrl" (ss_openIdConnectUrl scheme) result
  | _ => result
  end.

(** [Array.from(keys).sort()]: ascending in the order of character codes. *)
Fixpoint insert_sorted (x : string) (xs : list string) : list string :=
  match xs with
  | [] => [x]
  | y :: rest => if String.leb x y then x :: xs else y :: insert_sorted x rest
  end.

Definition sort (xs : list string) : list string :=
  fold_right insert_sorted [] xs.

(** [pathGroups]: the routes of a document grouped under their path, the
    paths in order of first appearance. *)
Definition groupByPath (rs : list Route) : JsMap.t (list Route) :=
  fold_left
    (fun (groups : JsMap.t (list Route)) (route : Route) =>
       let routes := match JsMap.get (r_path route) groups with
                     | Some l => l | None => [] end in
       JsMap.set (r_path route) (routes ++ [route]) groups)
    rs JsMap.empty.

Definition serializeDocument (fuel : nat) (doc : ApiDocument) : option JValue :=
  (* Info *)
  let info_ : JRecord :=
    [("title", JStr (title (info doc))); ("version", JStr (version (info doc)))] in
  let info_ := set_if_truthy "description" (info_description (info doc)) info_ in
  let info_ := set_if_truthy "termsOfService" (termsOfService (info doc)) info_ in
  let info_ :=
    match contact (info doc) with
    | Some c =>
        if truthy_str (contact_name c) || truthy_str (contact_email c)
           || truthy_str (contact_url c)
        then obj_set "contact"
               (JObj (set_if_truthy "url" (contact_url c)
                     (set_if_truthy "email" (contact_email c)
                     (set_if_truthy "name" (contact_name c) []))))
               info_
        else info_
    | None => info_
    end in
  let info_ :=
    match license (info doc) with
    | Some l =>
        if nonempty (license_name l)
        then obj_set "license"
               (JObj (set_if_truthy "url" (license_url l)
                        [("name", JStr (license_name l))]))
               info_
        else info_
    | None => info_
    end in
  let output : JRecord := [("openapi", JStr "3.0.3"); ("info", JObj info_)] in
  (* Servers *)
  let withServers (output : JRecord) :=
    match servers doc with
    | _ :: _ =>
        obj_set "servers"
          (JArr (map (fun s => JObj (set_if_truthy "description" (srv_description s)
                                                   [("url", JStr (url s))]))
                     (servers doc)))
          output
    | [] => output
    end in
  (* Tags *)
  let withTags (output : JRecord) :=
    match tags doc with
    | _ :: _ =>
        obj_set "tags"
          (JArr (map (fun t => JObj (set_if_truthy "description" (tag_description t)
                                                   [("name", JStr (tag_name t))]))
                     (tags doc)))
          output
    | [] => output
    end in
  (* Components: named schemas, security schemes *)
  match
    fold_left
      (fun (acc : option JRecord) (entry : NodeId * SchemaNode) =>
         match acc with
         | None => None
         | Some schemas_ =>
             match s_name (snd entry) with
             | Some name =>
                 if nonempty name then
                   option_map (fun s => obj_set name (JObj s) schemas_)
                              (serializeSchema fuel doc (snd entry))
                 else Some schemas_
             | None => Some schemas_
             end
         end)
      (schemas doc) (Some [])
  with
  | None => None
  | Some schemas_ =>
      let securitySchemes_ :=
        fold_left
          (fun (acc : JRecord) (entry : NodeId * SecurityScheme) =>
             obj_set (ss_name (snd entry))
                     (JObj (serializeSecurityScheme (snd entry))) acc)
          (securitySchemes doc) [] in
      let withComponents (output : JRecord) :=
        match schemas_, securitySchemes_ with
        | [], [] => output
        | _, _ =>
            let components : JRecord := [] in
            let components := match schemas_ with
                              | _ :: _ => obj_set "schemas" (JObj schemas_) components
                              | [] => components
                              end in
            let components := match securitySchemes_ with
                              | _ :: _ => obj_set "securitySchemes"
                                                  (JObj securitySchemes_) components
                              | [] => components
                              end in
            obj_set "components" (JObj components) output
        end in
      (* Paths - group routes by path, sorted *)
      let pathGroups := groupByPath (JsMap.values (routes doc)) in
      let sortedPaths := sort (JsMap.keys pathGroups) in
      match
        fold_left
          (fun (acc : option JRecord) (path : string) =>
             match acc with
             | None => None
             | Some paths =>
                 let routes := match JsMap.get path pathGroups with
                               | Some l => l | None => [] end in
                 option_map
                   (fun item => obj_set path (JObj item) paths)
                   (fold_left
                      (fun (acc : option JRecord) (route : Route) =>
                         match acc, serializeOperation fuel doc route with
                         | Some item, Some op =>
                             Some (obj_set (r_method route) (JObj op) item)
                         | _, _ => None
                         end)
                      routes (Some []))
             end)
          sortedPaths (Some [])
      with
      | None => None
      | Some paths =>
          (* the literal { openapi, info, paths }, then the keys assigned
             afterwards *)
          Some (JObj (withComponents
                        (withTags
                           (withServers (output ++ [("paths", JObj paths)])))))
      end
  end.

(** [serializeToYaml]: [stringify] is [YAML.stringify(_, { indent: 2,
    lineWidth: 0, minContentWidth: 0 })]. *)
Definition serializeToYaml (stringify : JValue -> string) (fuel : nat)
           (doc : ApiDocument) : option string :=
  option_map stringify (serializeDocument fuel doc).

End Exporter.

(* ================================================================== *)
(** ** The validator: orphan detection (validator.ts, validateReferences) *)

Module Validator.

(** [Set<NodeId>]: [add] keeps one copy of each identifier. *)
Definition set_add (x : NodeId) (s : list NodeId) : list NodeId :=
  if includes s x then s else s ++ [x].

Definition set_has (s : list NodeId) (x : NodeId) : bool := includes s x.

(** [markUsedInSchema] with [markUsed] as its local helper, threading the
    set [usedSchemaIds]. *)
Fixpoint markUsedInSchema (schema : SchemaNode) (used : list NodeId) : list NodeId :=
  let markUsed (used : list NodeId) (schemaOrRef : SchemaOrRef) : list NodeId :=
    match schemaOrRef with
    | SRef targetId => set_add targetId used
    | SInline s => markUsedInSchema s used
    end in
  let used :=
    match s_properties schema with
    | Some properties =>
        fold_left (fun used entry => markUsed used (pd_schema (snd entry)))
                  properties used
    | None => used
    end in
  let used :=
    match s_items schema with
    | Some items => markUsed used items
    | None => used
    end in
  match s_variants schema with
  | Some variants => fold_left markUsed variants used
  | None => used
  end.

Definition markUsed (used : list NodeId) (schemaOrRef : SchemaOrRef) : list NodeId :=
  match schemaOrRef with
  | SRef targetId => set_add targetId used
  | SInline s => markUsedInSchema s used
  end.

(** The set [usedSchemaIds] once routes and schemas have been walked. *)
Definition usedSchemaIds (doc : ApiDocument) : list NodeId :=
  let used : list NodeId := [] in
  (* Mark schemas used by routes *)
  let used :=
    fold_left
      (fun used route =>
         let used :=
           fold_left (fun used param => markUsed used (p_schema param))
                     (r_parameters route) used in
         let used :=
           match r_requestBody route with
           | Some body =>
               fold_left (fun used media => markUsed used (mt_schema media))
                         (JsMap.values (rb_content body)) used
           | None => used
           end in
         fold_left
           (fun used response =>
              match resp_content response with
              | Some content =>
                  fold_left (fun used media => markUsed used (mt_schema media))
                            (JsMap.values content) used
              | None => used
              end)
           (JsMap.values (r_responses route)) used)
      (JsMap.values (routes doc)) used in
  (* Mark schemas used by other schemas *)
  fold_left (fun used schema => markUsedInSchema schema used)
            (JsMap.values (schemas doc)) used.

(** The ORPHANED_SCHEMA diagnostics: one per key of the schema map that is
    not in [usedSchemaIds]. *)
Definition orphanWarnings (doc : ApiDocument) : list ValidationError :=
  let used := usedSchemaIds doc in
  flat_map
    (fun entry : NodeId * SchemaNode =>
       if negb (set_has used (fst entry)) then
         [mkValidationError "ORPHANED_SCHEMA"
            ("Schema " ++ quote ++
             (if truthy_str (s_name (snd entry))
              then match s_name (snd entry) with Some n => n | None => EmptyString end
              else "Anonymous") ++
             quote ++ " is not used anywhere")%string
            SevInfo (mkLocation (Some (fst entry)) None None)]
       else [])
    (schemas doc).

End Validator.

(** ** Vocabulary of the statement about usage counts *)

Module UsageSpec.
Import Store.

(** The edges that sit directly at a route: parameter schemas, request-body
    media types, response media types. *)
Definition routeEdges (r : Route) : list SchemaOrRef :=
  map p_schema (r_parameters r) ++
  match r_requestBody r with
  | Some body => map mt_schema (JsMap.values (rb_content body))
  | None => []
  end ++
  flat_map (fun response =>
              match resp_content response with
              | Some content => map mt_schema (JsMap.values content)
              | None => []
              end)
           (JsMap.values (r_responses r)).

(** The edges that sit directly at a top-level schema: properties, array
    items, composition variants. *)
Definition schemaEdges (s : SchemaNode) : list SchemaOrRef :=
  match s_properties s with
  | Some properties => map (@pd_schema SchemaOrRef) (JsMap.values properties)
  | None => []
  end ++
  match s_items s with Some items => [items] | None => [] end ++
  match s_variants s with Some variants => variants | None => [] end.

(** The direct edges of a document as seen from [id]: those of all routes,
    and those of the top-level schemas other than [id] itself. *)
Definition directEdges (doc : ApiDocument) (id : NodeId) : list SchemaOrRef :=
  flat_map routeEdges (JsMap.values (routes doc)) ++
  flat_map schemaEdges
           (filter (fun s => negb (String.eqb (s_id s) id))
                   (JsMap.values (schemas doc))).

Definition directRefCount (doc : ApiDocument) (id : NodeId) : nat :=
  length (filter (refersTo id) (directEdges doc id)).

(** Two documents. In the first, [Order] has an inline property whose own
    property refers to [Item]; in the second, [Node] refers to itself. *)
Definition itemSchema : SchemaNode := createSchema "s-item" "" TObject (Some "Item").

Definition lineSchema : SchemaNode :=
  mkSchemaNode "s-line" None TObject None
    (Some [("item", mkPropertyDef "item" (SRef "s-item") false None)])
    None None None (Some []) None None None None None None None None None.

Definition orderSchema : SchemaNode :=
  mkSchemaNode "s-order" (Some "Order") TObject None
    (Some [("line", mkPropertyDef "line" (SInline lineSchema) false None)])
    None None None (Some []) None None None None None None None None None.

Definition nodeSchema : SchemaNode :=
  mkSchemaNode "s-node" (Some "Node") TObject None
    (Some [("next", mkPropertyDef "next" (SRef "s-node") false None)])
    None None None (Some []) None None None None None None None None None.

Definition withSchemaMap (m : JsMap.t SchemaNode) : EditorState :=
  initializeDocument
    (withSchemas (createEmptyDocument "doc") m) (initialState "doc").

Definition nestedStore : EditorState :=
  withSchemaMap [("s-item", itemSchema); ("s-order", orderSchema)].

Definition selfStore : EditorState := withSchemaMap [("s-node", nodeSchema)].

End UsageSpec.

(* ================================================================== *)
(** ** The route list (RouteList, handleCreateRoute) *)

Module RouteList.
Import Store.

(** The white space [trim] removes, among the characters of the model. *)
Definition is_space (c : ascii) : bool :=
  let n := nat_of_ascii c in
  ((n =? 32) || ((9 <=? n) && (n <=? 13)))%nat.

Fixpoint trimStart (s : list ascii) : list ascii :=
  match s with
  | c :: rest => if is_space c then trimStart rest else s
  | [] => []
  end.

Definition trim (s : string) : string :=
  string_of_list_ascii
    (rev (trimStart (rev (trimStart (list_ascii_of_string s))))).

(** [path.match(/\{([^}]+)\}/g)]: the matches, left to right. A match
    starts at a [{], runs over every following character that is not [}]
    (at least one) and ends at the first [}]. [opened] holds, in reverse,
    what has been read since the [{] under consideration. *)
Fixpoint scanPlaceholders (s : list ascii) (opened : option (list ascii))
  : list string :=
  match s with
  | [] => []
  | c :: rest =>
      match opened with
      | None =>
          if Ascii.eqb c "{" then scanPlaceholders rest (Some [])
          else scanPlaceholders rest None
      | Some acc =>
          if Ascii.eqb c "}" then
            match acc with
            | [] => scanPlaceholders rest None
            | _ :: _ =>
                string_of_list_ascii ("{"%char :: rev acc ++ ["}"%char])
                :: scanPlaceholders rest None
            end
          else scanPlaceholders rest (Some (c :: acc))
      end
  end.

Definition matchPlaceholders (path : string) : list string :=
  scanPlaceholders (list_ascii_of_string path) None.

(** [param.slice(1, -1)] *)
Definition slice_1_m1 (s : string) : string :=
  substring 1 (String.length s - 2) s.

(** [xs.map((x, i) => f i x)] *)
Fixpoint mapi {A B} (f : nat -> A -> B) (i : nat) (xs : list A) : list B :=
  match xs with
  | [] => []
  | x :: rest => f i x :: mapi f (S i) rest
  end.

Definition withTags (r : Route) (t : list string) : Route :=
  mkRoute (r_id r) (r_path r) (r_method r) (r_summary r) (r_description r)
          (r_operationId r) t (r_parameters r) (r_requestBody r) (r_responses r)
          (r_security r) (r_deprecated r).

(** The route [handleCreateRoute] hands to [addRoute]. [uuid] lists the
    identifiers in the order they are drawn: two by [createRoute], then two
    for each placeholder (the parameter, its inline string schema). *)
Definition newRoute (uuid : nat -> NodeId) (path method : string)
           (newRouteTags : list string) : Route :=
  let route := createRoute (uuid 0) (uuid 1) path method in
  (* Set selected tags *)
  let route := withTags route newRouteTags in
  (* Auto-extract path parameters *)
  match matchPlaceholders path with
  | [] => route
  | pathParams =>
      withParameters route
        (mapi (fun i param =>
                 mkParameterDef (uuid (2 + 2 * i)) (slice_1_m1 param) InPath true
                                (SInline (createSchema (uuid (3 + 2 * i)) "" TString None))
                                None None)
              0 pathParams)
  end.

(** The path parameter [handleCreateRoute] makes for a placeholder. *)
Definition pathParameter (id schemaId : NodeId) (name : string) : ParameterDef :=
  mkParameterDef id name InPath true
                 (SInline (bare_schema schemaId None TString)) None None.

Definition handleCreateRoute (uuid : nat -> NodeId) (now : Z)
           (newRoutePath newRouteMethod : string) (newRouteTags : list string)
           (state : EditorState) : EditorState :=
  if negb (nonempty (trim newRoutePath)) then state
  else
    let path := trim newRoutePath in
    let path := if Js.startsWith path "/" then path else ("/" ++ path)%string in
    addRoute now (newRoute uuid path newRouteMethod newRouteTags) state.

End RouteList.

(** Concrete inputs used to exercise the exporter. *)
Module ExportExamples.
Import Store.

Definition anonymousSchema : SchemaNode := bare_schema "s-anon" None TString.

Definition exportDoc : ApiDocument :=
  withSchemas (createEmptyDocument "doc")
              [("s-item", UsageSpec.itemSchema); ("s-anon", anonymousSchema)].

End ExportExamples.

(* ================================================================== *)
(** ** Vocabulary of the round-trip statement *)

Module RoundTrip.
Import Js Parser Exporter.

(** *** Equality up to the generated identifiers

    [forget] blanks every generated identifier of a document and writes
    every [Ref] edge by the name of its target, so that two documents are
    equal up to a renaming of identifiers when their images are equal. *)

(** The name under which the schema map of [doc] holds [target]. *)
Definition nameOf (doc : ApiDocument) (target : NodeId) : string :=
  match JsMap.get target (schemas doc) with
  | Some s => match s_name s with Some n => n | None => "" end
  | None => ""
  end.

Fixpoint forgetSchema (nm : NodeId -> string) (s : SchemaNode) : SchemaNode :=
  let edge (e : SchemaOrRef) : SchemaOrRef :=
    match e with
    | SRef t => SRef (nm t)
    | SInline s' => SInline (forgetSchema nm s')
    end in
  mkSchemaNode "" (s_name s) (s_type s) (s_description s)
    (option_map
       (map (fun kv : string * PropertyDef =>
               (fst kv, mkPropertyDef (pd_name (snd kv)) (edge (pd_schema (snd kv)))
                                      (pd_required (snd kv))
                                      (pd_description (snd kv)))))
       (s_properties s))
    (option_map edge (s_items s))
    (option_map (map edge) (s_variants s))
    (s_enumValues s) (s_required s) (s_format s) (s_example s) (s_default s)
    (s_minimum s) (s_maximum s) (s_minLength s) (s_maxLength s) (s_pattern s)
    (s_discriminator s).

Definition forgetEdge (nm : NodeId -> string) (e : SchemaOrRef) : SchemaOrRef :=
  match e with
  | SRef t => SRef (nm t)
  | SInline s => SInline (forgetSchema nm s)
  end.

Definition forgetParameter (nm : NodeId -> string) (p : ParameterDef) : ParameterDef :=
  mkParameterDef "" (p_name p) (p_in p) (p_required p)
                 (forgetEdge nm (p_schema p)) (p_description p) (p_example p).

Definition forgetContent (nm : NodeId -> string) (c : JsMap.t MediaType)
  : JsMap.t MediaType :=
  map (fun kv => (fst kv, mkMediaType (forgetEdge nm (mt_schema (snd kv)))
                                     (mt_example (snd kv)))) c.

Definition forgetRequestBody (nm : NodeId -> string) (b : RequestBody) : RequestBody :=
  mkRequestBody "" (rb_description b) (rb_required b)
                (forgetContent nm (rb_content b)).

Definition forgetResponse (nm : NodeId -> string) (r : ResponseDef) : ResponseDef :=
  mkResponseDef "" (resp_description r)
                (option_map (forgetContent nm) (resp_content r))
                (option_map (map (fun kv => (fst kv, forgetParameter nm (snd kv))))
                            (resp_headers r)).

Definition forgetRoute (nm sec : NodeId -> string) (r : Route) : Route :=
  mkRoute "" (r_path r) (r_method r) (r_summary r) (r_description r)
          (r_operationId r) (r_tags r)
          (map (forgetParameter nm) (r_parameters r))
          (option_map (forgetRequestBody nm) (r_requestBody r))
          (map (fun kv => (fst kv, forgetResponse nm (snd kv))) (r_responses r))
          (option_map (map (fun q => mkSecurityRequirement (sec (schemeId q))
                                                           (req_scopes q)))
                      (r_security r))
          (r_deprecated r).

Definition forgetSecurityScheme (s : SecurityScheme) : SecurityScheme :=
  mkSecurityScheme "" (ss_name s) (ss_type s) (ss_description s) (ss_in s)
                   (ss_paramName s) (ss_scheme s) (ss_bearerFormat s) (ss_flows s)
                   (ss_openIdConnectUrl s).

Definition schemeNameOf (doc : ApiDocument) (id : NodeId) : string :=
  match JsMap.get id (securitySchemes doc) with
  | Some s => ss_name s
  | None => ""
  end.

Definition forget (doc : ApiDocument) : ApiDocument :=
  mkApiDocument "" (info doc) (servers doc)
    (map (fun kv => ("", forgetRoute (nameOf doc) (schemeNameOf doc) (snd kv)))
         (routes doc))
    (map (fun kv => ("", forgetSchema (nameOf doc) (snd kv))) (schemas doc))
    (map (fun kv => ("", forgetSecurityScheme (snd kv))) (securitySchemes doc))
    (tags doc).

Definition sameUpToIds (d d' : ApiDocument) : Prop := forget d = forget d'.

(** *** The round trip on decoded values

    [YAML.stringify] and [YAML.parse] are the library's; a round trip
    through them is taken to give back the value that was written, so the
    round trip of the importer and the exporter is that of
    [serializeDocument] followed by [parseYaml] on its value. *)
Definition reimport (uuid : nat -> NodeId) (fuel : nat) (d : ApiDocument)
  : option (Outcome ParseResult) :=
  option_map (fun v => parseYaml uuid (YamlValue v)) (serializeDocument fuel d).

(** The round-trip property as the specification words it, for one
    decoded input. *)
Definition roundTripLaw (uuid uuid' : nat -> NodeId) (fuel : nat) (input : JValue)
  : Prop :=
  forall d, parseYaml uuid (YamlValue input) = Ret (mkParseResult (Some d) []) ->
  exists d', reimport uuid' fuel d = Some (Ret (mkParseResult (Some d') [])) /\
             sameUpToIds d d'.

(** Two inputs that import without a diagnostic: a schema that is an enum
    without values; an object schema that carries an example. *)
Definition withComponents (schemas : list (string * JValue)) : JValue :=
  JObj [("openapi", JStr "3.0.3");
        ("info", JObj [("title", JStr "T"); ("version", JStr "1")]);
        ("paths", JObj []);
        ("components", JObj [("schemas", JObj schemas)])].

Definition emptyEnumInput : JValue :=
  withComponents [("Color", JObj [("enum", JArr [])])].

Definition exampleInput : JValue :=
  withComponents
    [("Pet", JObj [("type", JStr "object");
                   ("properties", JObj [("name", JObj [("type", JStr "string")])]);
                   ("example", JObj [("name", JStr "Rex")])])].

End RoundTrip.

(** *** Documents the exporter writes without loss *)

Module Exportable.
Import Js Parser Exporter RoundTrip.

(** Absent, or present and not empty. *)
Definition opt_nonempty (x : option string) : bool :=
  match x with Some s => nonempty s | None => true end.

Definition is_none {A} (x : option A) : bool :=
  match x with Some _ => false | None => true end.

Definition no_line_terminator (s : string) : bool :=
  forallb (fun c => negb (is_line_terminator c)) (list_ascii_of_string s).

Definition opt_string_eqb (a b : option string) : bool :=
  match a, b with
  | Some x, Some y => String.eqb x y
  | None, None => true
  | _, _ => false
  end.

(** A key that assignment appends after the keys [seen]: it is new, and it
    is either no array index or an array index above all of [seen]. *)
Definition appendable (seen : list string) (k : string) : bool :=
  negb (includes seen k) &&
  match array_index k with
  | None => true
  | Some n =>
      forallb (fun k' => match array_index k' with
                         | Some n' => (n' <? n)%N
                         | None => false
                         end) seen
  end.

Fixpoint js_ordered_from (seen ks : list string) : bool :=
  match ks with
  | [] => true
  | k :: rest => appendable seen k && js_ordered_from (seen ++ [k]) rest
  end.

(** Keys listed in the order [Object.entries] lists them: pairwise
    different, array indices first and ascending. *)
Definition js_ordered (ks : list string) : bool := js_ordered_from [] ks.

(** A [Ref] target the exporter writes as a [$ref] the importer reads back:
    a schema of the map with a non-empty, single-line name. *)
Definition goodName (n : string) : bool := nonempty n && no_line_terminator n.

Definition resolvable (doc : ApiDocument) (target : NodeId) : bool :=
  match JsMap.get target (schemas doc) with
  | Some s => match s_name s with Some n => goodName n | None => false end
  | None => false
  end.

Definition structural_fields_absent (s : SchemaNode) : bool :=
  is_none (s_properties s) && is_none (s_items s) && is_none (s_variants s) &&
  is_none (s_enumValues s) && is_none (s_required s) && is_none (s_discriminator s).

Definition constraint_fields_absent (s : SchemaNode) : bool :=
  is_none (s_format s) && is_none (s_example s) && is_none (s_default s) &&
  is_none (s_minimum s) && is_none (s_maximum s) && is_none (s_minLength s) &&
  is_none (s_maxLength s) && is_none (s_pattern s).

(** A schema whose every populated field the exporter writes and the
    importer reads back: the payload is that of the type tag, lists that
    are present are not empty, strings that are present are not empty,
    every [Ref] is resolvable, inline schemas have no name, and a property
    that holds an inline schema has the description of that schema. *)
Fixpoint exportableSchema (doc : ApiDocument) (s : SchemaNode) : bool :=
  let edge (e : SchemaOrRef) : bool :=
    match e with
    | SRef t => resolvable doc t
    | SInline s' => is_none (s_name s') && exportableSchema doc s'
    end in
  opt_nonempty (s_description s) &&
  match s_type s with
  | TOneOf | TAnyOf | TAllOf =>
      match s_variants s with
      | Some (v :: vs) => forallb edge (v :: vs)
      | _ => false
      end &&
      match s_type s, s_discriminator s with
      | _, None => true
      | TOneOf, Some d => nonempty (propertyName d) && is_none (mapping d)
      | _, Some _ => false
      end &&
      is_none (s_properties s) && is_none (s_items s) &&
      is_none (s_enumValues s) && is_none (s_required s) &&
      constraint_fields_absent s
  | TEnum =>
      match s_enumValues s with Some (_ :: _) => true | _ => false end &&
      is_none (s_properties s) && is_none (s_items s) && is_none (s_variants s) &&
      is_none (s_required s) && is_none (s_discriminator s) &&
      constraint_fields_absent s
  | TArray =>
      match s_items s with Some e => edge e | None => true end &&
      is_none (s_properties s) && is_none (s_variants s) &&
      is_none (s_enumValues s) && is_none (s_required s) &&
      is_none (s_discriminator s) && constraint_fields_absent s
  | TObject =>
      match s_properties s, s_required s with
      | None, None => true
      | Some (p :: ps), Some required =>
          js_ordered (JsMap.keys (p :: ps)) &&
          forallb (fun kv : string * PropertyDef =>
                     String.eqb (pd_name (snd kv)) (fst kv) &&
                     Bool.eqb (pd_required (snd kv)) (includes required (fst kv)) &&
                     edge (pd_schema (snd kv)) &&
                     match pd_schema (snd kv) with
                     | SInline s' =>
                         opt_string_eqb (pd_description (snd kv)) (s_description s')
                     | SRef _ => opt_nonempty (pd_description (snd kv))
                     end)
                  (p :: ps)
      | _, _ => false
      end &&
      is_none (s_items s) && is_none (s_variants s) && is_none (s_enumValues s) &&
      is_none (s_discriminator s) && constraint_fields_absent s
  | TString | TNumber | TInteger | TBoolean =>
      opt_nonempty (s_format s) && opt_nonempty (s_pattern s) &&
      structural_fields_absent s
  end.

Definition exportableEdge (doc : ApiDocument) (e : SchemaOrRef) : bool :=
  match e with
  | SRef t => resolvable doc t
  | SInline s => is_none (s_name s) && exportableSchema doc s
  end.

Definition exportableContent (doc : ApiDocument) (c : JsMap.t MediaType) : bool :=
  js_ordered (JsMap.keys c) &&
  forallb (fun kv => exportableEdge doc (mt_schema (snd kv))) c.

Definition exportableParameter (doc : ApiDocument) (p : ParameterDef) : bool :=
  nonempty (p_name p) && exportableEdge doc (p_schema p) &&
  opt_nonempty (p_description p).

Definition exportableResponse (doc : ApiDocument) (r : ResponseDef) : bool :=
  nonempty (resp_description r) &&
  match resp_content r with
  | Some (c :: cs) => exportableContent doc (c :: cs)
  | Some [] => false
  | None => true
  end &&
  is_none (resp_headers r).

Definition exportableRoute (doc : ApiDocument) (r : Route) : bool :=
  isHttpMethod (r_method r) &&
  opt_nonempty (r_summary r) && opt_nonempty (r_description r) &&
  opt_nonempty (r_operationId r) &&
  forallb (exportableParameter doc) (r_parameters r) &&
  match r_requestBody r with
  | Some b => opt_nonempty (rb_description b) && exportableContent doc (rb_content b)
  | None => true
  end &&
  match r_responses r with
  | _ :: _ =>
      js_ordered (JsMap.keys (r_responses r)) &&
      forallb (fun kv => exportableResponse doc (snd kv)) (r_responses r)
  | [] => false
  end &&
  is_none (r_security r) &&
  match r_deprecated r with Some false => false | _ => true end.

Definition exportableSecurityScheme (s : SecurityScheme) : bool :=
  opt_nonempty (ss_description s) && is_none (ss_flows s) &&
  match ss_type s with
  | Http =>
      match ss_scheme s with Some x => nonempty x | None => false end &&
      opt_nonempty (ss_bearerFormat s) &&
      is_none (ss_in s) && is_none (ss_paramName s) &&
      is_none (ss_openIdConnectUrl s)
  | ApiKey =>
      match ss_in s with Some _ => true | None => false end &&
      match ss_paramName s with Some x => nonempty x | None => false end &&
      is_none (ss_scheme s) && is_none (ss_bearerFormat s) &&
      is_none (ss_openIdConnectUrl s)
  | OAuth2 =>
      is_none (ss_in s) && is_none (ss_paramName s) && is_none (ss_scheme s) &&
      is_none (ss_bearerFormat s) && is_none (ss_openIdConnectUrl s)
  | OpenIdConnect =>
      opt_nonempty (ss_openIdConnectUrl s) &&
      is_none (ss_in s) && is_none (ss_paramName s) && is_none (ss_scheme s) &&
      is_none (ss_bearerFormat s)
  end.

Definition exportableInfo (i : InfoObject) : bool :=
  nonempty (title i) && nonempty (version i) &&
  opt_nonempty (info_description i) && opt_nonempty (termsOfService i) &&
  match contact i with
  | Some c =>
      opt_nonempty (contact_name c) && opt_nonempty (contact_url c) &&
      opt_nonempty (contact_email c) &&
      (truthy_str (contact_name c) || truthy_str (contact_email c)
       || truthy_str (contact_url c))
  | None => true
  end &&
  match license i with
  | Some l => nonempty (license_name l) && opt_nonempty (license_url l)
  | None => true
  end.

(** The routes in the order the exporter writes them: by sorted path, and
    under a path in the order of the map. *)
Definition exportOrder (rs : list Route) : list Route :=
  let groups := groupByPath rs in
  flat_map (fun path => match JsMap.get path groups with
                        | Some l => l | None => [] end)
           (sort (JsMap.keys groups)).

Definition exportableDocument (doc : ApiDocument) : bool :=
  exportableInfo (info doc) &&
  forallb (fun s => nonempty (url s) && opt_nonempty (srv_description s) &&
                    is_none (variables s)) (servers doc) &&
  forallb (fun t => nonempty (tag_name t) && opt_nonempty (tag_description t))
          (tags doc) &&
  (* schemas: named, the names in key order *)
  forallb (fun kv => match s_name (snd kv) with
                     | Some n => goodName n
                     | None => false
                     end && exportableSchema doc (snd kv)) (schemas doc) &&
  js_ordered (map (fun kv => match s_name (snd kv) with Some n => n | None => "" end)
                  (schemas doc)) &&
  (* security schemes: the names in key order *)
  forallb (fun kv => exportableSecurityScheme (snd kv)) (securitySchemes doc) &&
  js_ordered (map (fun kv => ss_name (snd kv)) (securitySchemes doc)) &&
  (* routes *)
  forallb (fun kv => exportableRoute doc (snd kv)) (routes doc) &&
  js_ordered (sort (JsMap.keys (groupByPath (JsMap.values (routes doc))))) &&
  forallb (fun g => js_ordered (map r_method (snd g)))
          (groupByPath (JsMap.values (routes doc))).

(** A document the round trip preserves: every field is one the exporter
    writes and the importer reads back, and the routes are listed in the
    order the exporter writes them. *)
Definition exportable (doc : ApiDocument) : Prop :=
  exportableDocument doc = true /\
  exportOrder (JsMap.values (routes doc)) = JsMap.values (routes doc).

(** The identifiers drawn are pairwise different and not empty. *)
Definition fresh_ids (uuid : nat -> NodeId) : Prop :=
  (forall i j, uuid i = uuid j -> i = j) /\ (forall i, uuid i <> "").

End Exportable.

(** *** Measures and abbreviations used in the round-trip proof *)

Module RoundTripAux.
Import Js Parser Exporter RoundTrip Exportable.

(** The nesting depth of inline schemas. *)
Fixpoint sdepth (s : SchemaNode) : nat :=
  let edge (e : SchemaOrRef) : nat :=
    match e with SRef _ => 0 | SInline s' => sdepth s' end in
  S (Nat.max
       (match s_properties s with
        | Some ps => fold_right (fun kv m => Nat.max (edge (pd_schema (snd kv))) m) 0 ps
        | None => 0
        end)
       (Nat.max
          (match s_items s with Some e => edge e | None => 0 end)
          (match s_variants s with
           | Some vs => fold_right (fun e m => Nat.max (edge e) m) 0 vs
           | None => 0
           end))).

Definition edepth (e : SchemaOrRef) : nat :=
  match e with SRef _ => 0 | SInline s => sdepth s end.

(** A schema with another identifier and name. *)
Definition restamp (name : option string) (id : NodeId) (s : SchemaNode) : SchemaNode :=
  mkSchemaNode id name (s_type s) (s_description s) (s_properties s) (s_items s)
    (s_variants s) (s_enumValues s) (s_required s) (s_format s) (s_example s)
    (s_default s) (s_minimum s) (s_maximum s) (s_minLength s) (s_maxLength s)
    (s_pattern s) (s_discriminator s).

(** Two importer states with the same diagnostics and the same registry;
    the second may have drawn more identifiers. *)
Definition sameButIds (st st' : PState) : Prop :=
  errors st' = errors st /\ schemaNameToId st' = schemaNameToId st /\
  nextId st <= nextId st'.

(** The registry of the second import knows every resolvable target of the
    first document under its name. *)
Definition Registry (doc : ApiDocument) (reg : JsMap.t NodeId) : Prop :=
  forall t, resolvable doc t = true ->
  exists id', JsMap.get (nameOf doc t) reg = Some id' /\ nonempty id' = true.

(** [nm'] names the identifiers the registry holds. *)
Definition Names (doc : ApiDocument) (reg : JsMap.t NodeId)
           (nm' : NodeId -> string) : Prop :=
  forall t id', resolvable doc t = true ->
  JsMap.get (nameOf doc t) reg = Some id' -> nm' id' = nameOf doc t.

(** What the importer finds under a key the exporter may have written. *)
Definition written_str (x : option string) : option JValue :=
  if truthy_str x then option_map JStr x else None.

(** The first of two optional values that is there. *)
Definition or_else {A} (x y : option A) : option A :=
  match x with Some v => Some v | None => y end.

(** [if (x) o.description = x], as the exporter applies it to the schema
    of a property. *)
Definition described (x : option string) (r : JRecord) : JRecord :=
  set_if_truthy "description" x r.

(** *** The record of a document

    The value [serializeDocument] returns, written as one chain of
    assignments over the three records its loops build: the schemas, the
    security schemes and the paths. *)

Definition infoRecord (i : InfoObject) : JRecord :=
  let info_ : JRecord :=
    [("title", JStr (title i)); ("version", JStr (version i))] in
  let info_ := set_if_truthy "description" (info_description i) info_ in
  let info_ := set_if_truthy "termsOfService" (termsOfService i) info_ in
  let info_ :=
    match contact i with
    | Some c =>
        if truthy_str (contact_name c) || truthy_str (contact_email c)
           || truthy_str (contact_url c)
        then obj_set "contact"
               (JObj (set_if_truthy "url" (contact_url c)
                     (set_if_truthy "email" (contact_email c)
                     (set_if_truthy "name" (contact_name c) []))))
               info_
        else info_
    | None => info_
    end in
  match license i with
  | Some l =>
      if nonempty (license_name l)
      then obj_set "license"
             (JObj (set_if_truthy "url" (license_url l)
                      [("name", JStr (license_name l))]))
             info_
      else info_
  | None => info_
  end.

Definition serverRecord (s : Server) : JValue :=
  JObj (set_if_truthy "description" (srv_description s) [("url", JStr (url s))]).

Definition tagRecord (t : Tag) : JValue :=
  JObj (set_if_truthy "description" (tag_description t) [("name", JStr (tag_name t))]).

(** The value assigned for a list the exporter writes when it is not
    empty. *)
Definition listValue {A} (ser : A -> JValue) (xs : list A) : option JValue :=
  match xs with [] => None | _ :: _ => Some (JArr (map ser xs)) end.

Definition recordValue (r : JRecord) : option JValue :=
  match r with [] => None | _ :: _ => Some (JObj r) end.

Definition componentsValue (schemas_ securitySchemes_ : JRecord) : option JValue :=
  match schemas_, securitySchemes_ with
  | [], [] => None
  | _, _ =>
      Some (JObj (set_if_defined "securitySchemes" (recordValue securitySchemes_)
                 (set_if_defined "schemas" (recordValue schemas_) [])))
  end.

Definition documentRecord (d : ApiDocument)
           (schemas_ securitySchemes_ paths : JRecord) : JRecord :=
  set_if_defined "components" (componentsValue schemas_ securitySchemes_)
    (set_if_defined "tags" (listValue tagRecord (tags d))
       (set_if_defined "servers" (listValue serverRecord (servers d))
          [("openapi", JStr "3.0.3"); ("info", JObj (infoRecord (info d)));
           ("paths", JObj paths)])).

(** *** What the round trip gives for one schema and for one edge *)

Section ReadBack.
Variable uuid : nat -> NodeId.
Variable doc : ApiDocument.
Variable reg : JsMap.t NodeId.

(** The importer reads the record [r] back as the schema [s], whatever
    name and identifier it is given, up to the identifiers. *)
Definition schemaReadsBack (s : SchemaNode) (r : JRecord) : Prop :=
  forall f name id st,
    depth (JObj r) <= f -> schemaNameToId st = reg ->
    exists s' st',
      parseSchema uuid f (JObj r) name id st = Ret (s', st') /\
      sameButIds st st' /\ s_id s' = id /\ s_name s' = name /\
      forall nm', Names doc reg nm' ->
        forgetSchema nm' s' = forgetSchema (nameOf doc) (restamp name id s).

Definition edgeReadsBack (e : SchemaOrRef) (r : JRecord) : Prop :=
  forall f st,
    depth (JObj r) <= f -> schemaNameToId st = reg ->
    exists e' st',
      parseSchemaOrRef uuid f (JObj r) st = Ret (e', st') /\
      sameButIds st st' /\
      forall nm', Names doc reg nm' ->
        forgetEdge nm' e' = forgetEdge (nameOf doc) e.

(** The exporter writes the schema, and the importer reads it back. *)
Definition SchemaOK (fuel : nat) (s : SchemaNode) : Prop :=
  exists r, serializeSchema fuel doc s = Some r /\
    JsMap.get "$ref" r = None /\
    JsMap.get "description" r = option_map JStr (s_description s) /\
    schemaReadsBack s r.

(** The description [x] goes with the edge [e]: a property that holds an
    inline schema has the description of that schema. *)
Definition describes (x : option string) (e : SchemaOrRef) : Prop :=
  match e with
  | SInline s => x = s_description s
  | SRef _ => opt_nonempty x = true
  end.

(** The exporter writes the edge, and the importer reads it back, also
    after the description [x] of a property was added to the record. *)
Definition EdgeOK (fuel : nat) (x : option string) (e : SchemaOrRef) : Prop :=
  exists r, serializeSchemaOrRef fuel doc e = Some r /\
    edgeReadsBack e (described x r) /\
    (describes x e ->
     JsMap.get "description" (described x r) = option_map JStr x).

(** The importer reads the record [r] back as the operation [route],
    under the path and the method of the route and with a new
    identifier. *)
Definition operationReadsBack (route : Route) (r : JRecord) : Prop :=
  forall f st pdoc,
    depth (JObj r) <= f -> schemaNameToId st = reg ->
    exists route' st',
      parseOperation uuid f (r_path route) (r_method route) (JObj r) pdoc st
      = Ret (route', st') /\
      sameButIds st st' /\
      r_id route' = uuid (nextId st) /\ nextId st < nextId st' /\
      forall nm' sec', Names doc reg nm' ->
        forgetRoute nm' sec' route'
        = forgetRoute (nameOf doc) (schemeNameOf doc) route.

(** The keys of a map are identifiers drawn before the [n]-th one. *)
Definition drawnBefore {V} (n : nat) (m : JsMap.t V) : Prop :=
  Forall (fun k => exists j, k = uuid j /\ j < n) (JsMap.keys m).

End ReadBack.

End RoundTripAux.

(** A document with two schemas, a security scheme and two operations
    under one path, used to exercise the round trip. *)
Module RoundTripExamples.

Definition nameProperty : PropertyDef :=
  mkPropertyDef "name"
    (SInline (mkSchemaNode "p-name" None TString (Some "The name of the pet")
                None None None None None None None None None None
                (Some 1%Z) (Some 64%Z) None None))
    true (Some "The name of the pet").

Definition kindProperty : PropertyDef :=
  mkPropertyDef "kind" (SRef "s-kind") false (Some "What animal it is").

Definition petSchema : SchemaNode :=
  mkSchemaNode "s-pet" (Some "Pet") TObject (Some "A pet")
    (Some [("name", nameProperty); ("kind", kindProperty)])
    None None None (Some ["name"]) None None None None None None None None None.

Definition kindSchema : SchemaNode :=
  mkSchemaNode "s-kind" (Some "Kind") TEnum None None None None
    (Some ["cat"; "dog"]) None None None None None None None None None None.

Definition limitParameter : ParameterDef :=
  mkParameterDef "p-limit" "limit" InQuery false
    (SInline (mkSchemaNode "p-limit-schema" None TInteger None None None None
                None None (Some "int32") None None (Some 1%Z) (Some 100%Z)
                None None None None))
    (Some "How many pets to return") None.

Definition petList : SchemaNode :=
  mkSchemaNode "s-list" None TArray None None (Some (SRef "s-pet")) None None
    None None None None None None None None None None.

Definition listPets : Route :=
  mkRoute "r-list" "/pets" "get" (Some "List the pets") None (Some "listPets")
    ["pets"] [limitParameter] None
    [("200", mkResponseDef "resp-list" "The pets"
               (Some [("application/json", mkMediaType (SInline petList) None)])
               None)]
    None None.

Definition addPet : Route :=
  mkRoute "r-add" "/pets" "post" (Some "Add a pet") None (Some "addPet")
    ["pets"] []
    (Some (mkRequestBody "body-add" None true
             [("application/json", mkMediaType (SRef "s-pet") None)]))
    [("201", mkResponseDef "resp-add" "Created" None None)]
    None (Some true).

Definition apiKeyScheme : SecurityScheme :=
  mkSecurityScheme "k-1" "apiKey" ApiKey None (Some KeyInHeader) (Some "X-Key")
    None None None None.

Definition petStore : ApiDocument :=
  mkApiDocument "doc-pets"
    (mkInfoObject "Pet store" "1.0.0" (Some "Pets and their kinds") None
                  (Some (mkContact (Some "The team") None None))
                  (Some (mkLicense "MIT" None)))
    [mkServer "https://pets.example" None None]
    [("r-list", listPets); ("r-add", addPet)]
    [("s-pet", petSchema); ("s-kind", kindSchema)]
    [("k-1", apiKeyScheme)]
    [mkTag "pets" (Some "Everything about pets")].

End RoundTripExamples.

(* ================================================================== *)
(** ** The store: selection actions and scripts of actions (store.ts) *)

Module StoreActions.
Import Store.

(** [selectSchema], [selectRoute], [setActiveTab], [setYamlPreviewOpen]:
    each is a [set] of one field. *)
Definition selectSchema (id : option NodeId) (state : EditorState) : EditorState :=
  withSelectedSchema id state.

Definition selectRoute (id : option NodeId) (state : EditorState) : EditorState :=
  withSelectedRoute id state.

Definition setActiveTab (tab : Tab) (state : EditorState) : EditorState :=
  mkEditorState (document state) (documentVersion state)
                (selectedSchemaId state) (selectedRouteId state)
                (history state) (historyIndex state) (maxHistorySize state)
                (commandLog state) tab (yamlPreviewOpen state).

Definition setYamlPreviewOpen (open : bool) (state : EditorState) : EditorState :=
  mkEditorState (document state) (documentVersion state)
                (selectedSchemaId state) (selectedRouteId state)
                (history state) (historyIndex state) (maxHistorySize state)
                (commandLog state) (activeTab state) open.

(** Everything a user of the store can call that changes it. *)
Inductive Action :=
| Edit (now : Z) (m : Mutation)
| Undo
| Redo
| SelectSchema (id : option NodeId)
| SelectRoute (id : option NodeId)
| SetActiveTab (tab : Tab)
| SetYamlPreviewOpen (open : bool).

Definition perform (a : Action) (state : EditorState) : option EditorState :=
  match a with
  | Edit now m => apply now m state
  | Undo => undo state
  | Redo => Some (redo state)
  | SelectSchema id => Some (selectSchema id state)
  | SelectRoute id => Some (selectRoute id state)
  | SetActiveTab tab => Some (setActiveTab tab state)
  | SetYamlPreviewOpen open => Some (setYamlPreviewOpen open state)
  end.

Fixpoint performAll (actions : list Action) (state : EditorState)
  : option EditorState :=
  match actions with
  | [] => Some state
  | a :: rest =>
      match perform a state with
      | Some state' => performAll rest state'
      | None => None
      end
  end.

End StoreActions.

(** ** Vocabulary of further statements about the store *)

Module StoreSpec3.
Import Store StoreActions.

(** Pairwise different strings. *)
Fixpoint distinct (xs : list string) : bool :=
  match xs with
  | [] => true
  | x :: rest => negb (includes rest x) && distinct rest
  end.

(** The [required] list of a schema names each property at most once and
    names only properties of the schema. *)
Definition requiredOf (s : SchemaNode) : list string :=
  match s_required s with Some r => r | None => [] end.

Definition propertiesOf (s : SchemaNode) : JsMap.t PropertyDef :=
  match s_properties s with Some m => m | None => JsMap.empty end.

Definition requiredConsistent (s : SchemaNode) : bool :=
  distinct (requiredOf s) &&
  forallb (fun n => JsMap.has n (propertiesOf s)) (requiredOf s).

Definition requiredConsistentIn (d : ApiDocument) : bool :=
  forallb (fun entry => requiredConsistent (snd entry)) (schemas d).

(** The three actions that edit the fields of an object schema. *)
Definition is_field_action (m : Mutation) : bool :=
  match m with
  | AddFieldToSchema _ _ | UpdateField _ _ _ | DeleteField _ _ => true
  | _ => false
  end.

(** [updateField] renames when the update carries a non-empty name other
    than the field's. The rename takes the place of a property that exists
    already when the new name is a key of the schema's properties. *)
Definition renames_onto_existing (m : Mutation) (state : EditorState) : bool :=
  match m with
  | UpdateField schemaId fieldName updates =>
      match u_pd_name updates, JsMap.get schemaId (schemas (document state)) with
      | Some n, Some schema =>
          nonempty n && negb (String.eqb n fieldName) &&
          JsMap.has n (propertiesOf schema)
      | _, _ => false
      end
  | _ => false
  end.

(** No two tags of the document have the same name. *)
Definition tagsDistinct (d : ApiDocument) : bool :=
  distinct (map tag_name (tags d)).

(** A property of documents holds of the current document and of every
    snapshot in the history. *)
Definition everywhere (P : ApiDocument -> bool) (state : EditorState) : bool :=
  P (document state) && forallb P (history state).

(** What an action brings into the store from outside: the document of a
    [setDocument]. *)
Definition imports (P : ApiDocument -> bool) (a : Action) : bool :=
  match a with
  | Edit _ (SetDocument doc) => P doc
  | _ => true
  end.

End StoreSpec3.

(* ================================================================== *)
(** ** Storage of projects (storage/types.ts, storage/serializer.ts) *)

Module Storage.

(** The stored shapes: every [Map] of the document written as the array of
    its entries. [SerializedRoute] and [SerializedSchema] are the
    interfaces of storage/types.ts; the stored request body and response
    are what [serializeRequestBody] and [serializeResponse] build. *)
Record SerializedRequestBody := mkSerializedRequestBody {
  srb_id : NodeId;
  srb_description : option string;
  srb_required : bool;
  srb_content : list (string * MediaType)
}.

Record SerializedResponse := mkSerializedResponse {
  sresp_id : NodeId;
  sresp_description : string;
  sresp_content : option (list (string * MediaType));
  sresp_headers : option (list (string * ParameterDef))
}.

Record SerializedRoute := mkSerializedRoute {
  sr_id : NodeId;
  sr_path : string;
  sr_method : string;
  sr_summary : option string;
  sr_description : option string;
  sr_operationId : option string;
  sr_tags : list string;
  sr_parameters : list ParameterDef;
  sr_requestBody : option SerializedRequestBody;
  sr_responses : list (string * SerializedResponse);
  sr_security : option (list SecurityRequirement);
  sr_deprecated : option bool
}.

Record SerializedSchema := mkSerializedSchema {
  ssc_id : NodeId;
  ssc_name : option string;
  ssc_type : SchemaType;
  ssc_description : option string;
  ssc_properties : option (list (string * PropertyDef));
  ssc_items : option SchemaOrRef;
  ssc_variants : option (list SchemaOrRef);
  ssc_enumValues : option (list string);
  ssc_required : option (list string);
  ssc_format : option string;
  ssc_example : option JValue;
  ssc_default : option JValue;
  ssc_minimum : option Z;
  ssc_maximum : option Z;
  ssc_minLength : option Z;
  ssc_maxLength : option Z;
  ssc_pattern : option string;
  ssc_discriminator : option Discriminator
}.

Record SerializedApiDocument := mkSerializedApiDocument {
  sd_id : NodeId;
  sd_info : InfoObject;
  sd_servers : list Server;
  sd_routes : list (string * SerializedRoute);
  sd_schemas : list (string * SerializedSchema);
  sd_securitySchemes : list (string * SecurityScheme);
  sd_tags : list Tag
}.

Record ProjectMetadata := mkProjectMetadata {
  pm_id : string;
  pm_name : string;
  createdAt : Z;
  updatedAt : Z
}.

Record StoredProject := mkStoredProject {
  sp_metadata : ProjectMetadata;
  sp_document : ApiDocument
}.

Record SerializedProject := mkSerializedProject {
  ser_metadata : ProjectMetadata;
  ser_document : SerializedApiDocument
}.

(** [Array.from(m.entries())] *)
Definition entries {V} (m : JsMap.t V) : list (string * V) := m.

(** [xs.map(([k, v]) => [k, f(v)])] *)
Definition map_values {A B} (f : A -> B) (xs : list (string * A))
  : list (string * B) :=
  map (fun kv => (fst kv, f (snd kv))) xs.

Definition serializeRequestBody (body : RequestBody) : SerializedRequestBody :=
  mkSerializedRequestBody (rb_id body) (rb_description body) (rb_required body)
                          (entries (rb_content body)).

Definition deserializeRequestBody (body : SerializedRequestBody) : RequestBody :=
  mkRequestBody (srb_id body) (srb_description body) (srb_required body)
                (JsMap.of_entries (srb_content body)).

Definition serializeResponse (response : ResponseDef) : SerializedResponse :=
  mkSerializedResponse (resp_id response) (resp_description response)
    (match resp_content response with
     | Some content => Some (entries content)
     | None => None
     end)
    (match resp_headers response with
     | Some headers => Some (entries headers)
     | None => None
     end).

Definition deserializeResponse (resp : SerializedResponse) : ResponseDef :=
  mkResponseDef (sresp_id resp) (sresp_description resp)
    (match sresp_content resp with
     | Some content => Some (JsMap.of_entries content)
     | None => None
     end)
    (match sresp_headers resp with
     | Some headers => Some (JsMap.of_entries headers)
     | None => None
     end).

Definition serializeRoute (route : Route) : SerializedRoute :=
  mkSerializedRoute (r_id route) (r_path route) (r_method route)
    (r_summary route) (r_description route) (r_operationId route)
    (r_tags route) (r_parameters route)
    (match r_requestBody route with
     | Some body => Some (serializeRequestBody body)
     | None => None
     end)
    (map_values serializeResponse (entries (r_responses route)))
    (r_security route) (r_deprecated route).

Definition deserializeRoute (serialized : SerializedRoute) : Route :=
  mkRoute (sr_id serialized) (sr_path serialized) (sr_method serialized)
    (sr_summary serialized) (sr_description serialized)
    (sr_operationId serialized) (sr_tags serialized) (sr_parameters serialized)
    (match sr_requestBody serialized with
     | Some body => Some (deserializeRequestBody body)
     | None => None
     end)
    (JsMap.of_entries (map_values deserializeResponse (sr_responses serialized)))
    (sr_security serialized) (sr_deprecated serialized).

Definition serializeSchema (schema : SchemaNode) : SerializedSchema :=
  mkSerializedSchema (s_id schema) (s_name schema) (s_type schema)
    (s_description schema)
    (match s_properties schema with
     | Some properties => Some (entries properties)
     | None => None
     end)
    (s_items schema) (s_variants schema) (s_enumValues schema)
    (s_required schema) (s_format schema) (s_example schema) (s_default schema)
    (s_minimum schema) (s_maximum schema) (s_minLength schema)
    (s_maxLength schema) (s_pattern schema) (s_discriminator schema).

Definition deserializeSchema (serialized : SerializedSchema) : SchemaNode :=
  mkSchemaNode (ssc_id serialized) (ssc_name serialized) (ssc_type serialized)
    (ssc_description serialized)
    (match ssc_properties serialized with
     | Some properties => Some (JsMap.of_entries properties)
     | None => None
     end)
    (ssc_items serialized) (ssc_variants serialized) (ssc_enumValues serialized)
    (ssc_required serialized) (ssc_format serialized) (ssc_example serialized)
    (ssc_default serialized) (ssc_minimum serialized) (ssc_maximum serialized)
    (ssc_minLength serialized) (ssc_maxLength serialized)
    (ssc_pattern serialized) (ssc_discriminator serialized).

Definition serializeDocument (doc : ApiDocument) : SerializedApiDocument :=
  mkSerializedApiDocument (doc_id doc) (info doc) (servers doc)
    (map_values serializeRoute (entries (routes doc)))
    (map_values serializeSchema (entries (schemas doc)))
    (entries (securitySchemes doc))
    (tags doc).

Definition deserializeDocument (serialized : SerializedApiDocument) : ApiDocument :=
  mkApiDocument (sd_id serialized) (sd_info serialized) (sd_servers serialized)
    (JsMap.of_entries (map_values deserializeRoute (sd_routes serialized)))
    (JsMap.of_entries (map_values deserializeSchema (sd_schemas serialized)))
    (JsMap.of_entries (sd_securitySchemes serialized))
    (sd_tags serialized).

Definition serializeProject (project : StoredProject) : SerializedProject :=
  mkSerializedProject (sp_metadata project)
                      (serializeDocument (sp_document project)).

Definition deserializeProject (serialized : SerializedProject) : StoredProject :=
  mkStoredProject (ser_metadata serialized)
                  (deserializeDocument (ser_document serialized)).

(** *** The repository over IndexedDB

    The two object stores: [projects], keyed by [metadata.id] (its key
    path), and [settings], which holds the active project under the key
    [activeProjectId]. A [put] replaces the record stored under the key;
    a [get] of a key without record gives [undefined]. *)
Record Database := mkDatabase {
  projects : JsMap.t SerializedProject;
  activeProjectId : option string
}.

Definition emptyDatabase : Database := mkDatabase JsMap.empty None.

Definition getProject (id : string) (db : Database) : option StoredProject :=
  match JsMap.get id (projects db) with
  | Some result => Some (deserializeProject result)
  | None => None
  end.

Definition saveProject (project : StoredProject) (db : Database) : Database :=
  let serialized := serializeProject project in
  mkDatabase (JsMap.set (pm_id (ser_metadata serialized)) serialized (projects db))
             (activeProjectId db).

Definition deleteProject (id : string) (db : Database) : Database :=
  mkDatabase (JsMap.delete id (projects db)) (activeProjectId db).

(** [(request.result as string) || null] *)
Definition getActiveProjectId (db : Database) : option string :=
  match activeProjectId db with
  | Some id => if nonempty id then Some id else None
  | None => None
  end.

Definition setActiveProjectId (id : option string) (db : Database) : Database :=
  mkDatabase (projects db) id.

(** Every [Map] the storage code converts has each key once: the maps of
    the document, the responses and the request-body content of each route,
    the content and the headers of each response, the properties of each
    top-level schema. *)
Definition keyed {V} (m : JsMap.t V) : bool := StoreSpec3.distinct (JsMap.keys m).

Definition keyedOpt {V} (m : option (JsMap.t V)) : bool :=
  match m with Some x => keyed x | None => true end.

Definition keyedResponse (r : ResponseDef) : bool :=
  keyedOpt (resp_content r) && keyedOpt (resp_headers r).

Definition keyedRoute (r : Route) : bool :=
  keyed (r_responses r) &&
  forallb (fun entry => keyedResponse (snd entry)) (r_responses r) &&
  match r_requestBody r with
  | Some body => keyed (rb_content body)
  | None => true
  end.

Definition keyedSchema (s : SchemaNode) : bool := keyedOpt (s_properties s).

Definition keyedDocument (d : ApiDocument) : bool :=
  keyed (routes d) && forallb (fun entry => keyedRoute (snd entry)) (routes d) &&
  keyed (schemas d) && forallb (fun entry => keyedSchema (snd entry)) (schemas d) &&
  keyed (securitySchemes d).

End Storage.

(* ================================================================== *)
(** ** The validator (validateDocument and its checks) *)

Module Validation.
Import Validator.

Record ValidationResult := mkValidationResult {
  valid : bool;
  result_errors : list ValidationError;
  result_warnings : list ValidationError
}.

(** The two arrays the checks push to. *)
Record Findings := mkFindings {
  errors : list ValidationError;
  warnings : list ValidationError
}.

Definition pushError (e : ValidationError) (out : Findings) : Findings :=
  mkFindings (errors out ++ [e]) (warnings out).

Definition pushWarning (w : ValidationError) (out : Findings) : Findings :=
  mkFindings (errors out) (warnings out ++ [w]).

Definition at_node (id : NodeId) : Location := mkLocation (Some id) None None.

(** [schema.name || 'Anonymous'] *)
Definition nameOrAnonymous (schema : SchemaNode) : string :=
  match s_name schema with
  | Some n => if nonempty n then n else "Anonymous"
  | None => "Anonymous"
  end.

(** The character classes of the two naming conventions. *)
Definition is_upper (c : ascii) : bool :=
  let n := nat_of_ascii c in ((65 <=? n) && (n <=? 90))%nat.

Definition is_lower (c : ascii) : bool :=
  let n := nat_of_ascii c in ((97 <=? n) && (n <=? 122))%nat.

Definition is_alnum (c : ascii) : bool :=
  is_lower c || is_upper c || Exporter.is_digit c.

(** [/^[A-Z][a-zA-Z0-9]*$/.test(s)] *)
Definition isPascalCase (s : string) : bool :=
  match s with
  | EmptyString => false
  | String c rest => is_upper c && forallb is_alnum (list_ascii_of_string rest)
  end.

(** [/^[a-z][a-zA-Z0-9]*$/.test(s)] *)
Definition isCamelCase (s : string) : bool :=
  match s with
  | EmptyString => false
  | String c rest => is_lower c && forallb is_alnum (list_ascii_of_string rest)
  end.

Definition validateInfo (doc : ApiDocument) (out : Findings) : Findings :=
  let out :=
    if negb (nonempty (RouteList.trim (title (info doc)))) then
      pushError (mkValidationError "MISSING_TITLE" "API title is required"
                   SevError (at_path ["info"; "title"])) out
    else out in
  let out :=
    if negb (nonempty (RouteList.trim (version (info doc)))) then
      pushError (mkValidationError "MISSING_VERSION" "API version is required"
                   SevError (at_path ["info"; "version"])) out
    else out in
  let out :=
    if negb (truthy_str (info_description (info doc))) then
      pushWarning (mkValidationError "MISSING_DESCRIPTION"
                     "Consider adding an API description"
                     SevInfo (at_path ["info"; "description"])) out
    else out in
  if (length (servers doc) =? 0)%nat then
    pushWarning (mkValidationError "NO_SERVERS" "No server URLs defined"
                   SevWarning (at_path ["servers"])) out
  else out.

Definition validateObjectSchema (schema : SchemaNode) (doc : ApiDocument)
           (out : Findings) : Findings :=
  let out :=
    if match s_properties schema with
       | Some properties => (JsMap.size properties =? 0)%nat
       | None => true
       end
    then
      pushWarning (mkValidationError "EMPTY_OBJECT"
                     ("Object schema " ++ quote ++ nameOrAnonymous schema ++ quote ++
                      " has no properties")%string
                     SevWarning (at_node (s_id schema))) out
    else out in
  (* Check required fields exist as properties *)
  match s_required schema, s_properties schema with
  | Some required, Some properties =>
      fold_left
        (fun out requiredField =>
           if negb (JsMap.has requiredField properties) then
             pushError (mkValidationError "INVALID_REQUIRED"
                          ("Required field " ++ quote ++ requiredField ++ quote ++
                           " is not defined in properties")%string
                          SevError
                          (mkLocation (Some (s_id schema)) None (Some requiredField)))
                       out
           else out)
        required out
  | _, _ => out
  end.

Definition validateEnumSchema (schema : SchemaNode) (out : Findings) : Findings :=
  let out :=
    if match s_enumValues schema with
       | Some enumValues => (length enumValues =? 0)%nat
       | None => true
       end
    then
      pushError (mkValidationError "EMPTY_ENUM"
                   ("Enum schema " ++ quote ++ nameOrAnonymous schema ++ quote ++
                    " has no values")%string
                   SevError (at_node (s_id schema))) out
    else out in
  (* Check for duplicate enum values *)
  match s_enumValues schema with
  | Some enumValues =>
      snd (fold_left
             (fun (acc : list string * Findings) value =>
                let (seen, out) := acc in
                let out :=
                  if set_has seen value then
                    pushError (mkValidationError "DUPLICATE_ENUM_VALUE"
                                 ("Duplicate enum value: " ++ value)%string
                                 SevError (at_node (s_id schema))) out
                  else out in
                (set_add value seen, out))
             enumValues ([], out))
  | None => out
  end.

Definition validateArraySchema (schema : SchemaNode) (doc : ApiDocument)
           (out : Findings) : Findings :=
  match s_items schema with
  | None =>
      pushError (mkValidationError "MISSING_ARRAY_ITEMS"
                   ("Array schema " ++ quote ++ nameOrAnonymous schema ++ quote ++
                    " is missing items definition")%string
                   SevError (at_node (s_id schema))) out
  | Some _ => out
  end.

Definition validateCompositionSchema (schema : SchemaNode) (doc : ApiDocument)
           (out : Findings) : Findings :=
  let typeName := Exporter.type_name (s_type schema) in
  let out :=
    if match s_variants schema with
       | Some variants => (length variants =? 0)%nat
       | None => true
       end
    then
      pushError (mkValidationError "EMPTY_COMPOSITION"
                   (typeName ++ " schema " ++ quote ++ nameOrAnonymous schema ++ quote ++
                    " has no variants")%string
                   SevError (at_node (s_id schema))) out
    else out in
  let out :=
    if match s_variants schema with
       | Some variants => (length variants =? 1)%nat
       | None => false
       end
    then
      pushWarning (mkValidationError "SINGLE_VARIANT"
                     (typeName ++ " schema " ++ quote ++ nameOrAnonymous schema ++ quote ++
                      " has only one variant")%string
                     SevWarning (at_node (s_id schema))) out
    else out in
  (* Check for discriminator on oneOf *)
  if SchemaType_eqb (s_type schema) TOneOf &&
     match s_discriminator schema with Some _ => false | None => true end &&
     match s_variants schema with
     | Some variants => (1 <? length variants)%nat
     | None => false
     end
  then
    pushWarning (mkValidationError "MISSING_DISCRIMINATOR"
                   ("oneOf schema " ++ quote ++ nameOrAnonymous schema ++ quote ++
                    " should have a discriminator")%string
                   SevInfo (at_node (s_id schema))) out
  else out.

Definition validateSchemas (doc : ApiDocument) (out : Findings) : Findings :=
  snd (fold_left
         (fun (acc : list string * Findings) (entry : NodeId * SchemaNode) =>
            let (schemaNames, out) := acc in
            let (id, schema) := entry in
            (* Check for duplicate names *)
            let acc :=
              match s_name schema with
              | Some name =>
                  if nonempty name then
                    let out :=
                      if set_has schemaNames name then
                        pushError (mkValidationError "DUPLICATE_SCHEMA_NAME"
                                     ("Duplicate schema name: " ++ name)%string
                                     SevError (at_node id)) out
                      else out in
                    let schemaNames := set_add name schemaNames in
                    (* Naming convention check *)
                    let out :=
                      if negb (isPascalCase name) then
                        pushWarning (mkValidationError "SCHEMA_NAMING_CONVENTION"
                                       ("Schema name " ++ quote ++ name ++ quote ++
                                        " should use PascalCase")%string
                                       SevInfo (at_node id)) out
                      else out in
                    (schemaNames, out)
                  else (schemaNames, out)
              | None => (schemaNames, out)
              end in
            let (schemaNames, out) := acc in
            (* Validate based on type *)
            let out :=
              match s_type schema with
              | TObject => validateObjectSchema schema doc out
              | TEnum => validateEnumSchema schema out
              | TArray => validateArraySchema schema doc out
              | TOneOf | TAnyOf | TAllOf => validateCompositionSchema schema doc out
              | _ => out
              end in
            (schemaNames, out))
         (schemas doc) ([], out)).

(** The sets [validateRoutes] keeps while it walks the routes. *)
Record Seen := mkSeen {
  operationIds : list string;
  pathMethodCombos : list string
}.

(** [`${route.method} ${route.path}`] *)
Definition comboOf (route : Route) : string :=
  (r_method route ++ " " ++ r_path route)%string.

Definition is_path_parameter (p : ParameterDef) : bool :=
  match p_in p with InPath => true | _ => false end.

(** [route.parameters.filter((p) => p.in === 'path').map((p) => `{${p.name}}`)] *)
Definition definedPathParams (route : Route) : list string :=
  map (fun p => ("{" ++ p_name p ++ "}")%string)
      (filter is_path_parameter (r_parameters route)).

(** The body of the loop of [validateRoutes], for one entry of the map. *)
Definition validateRoute (id : NodeId) (route : Route) (acc : Seen * Findings)
  : Seen * Findings :=
  let (seen, out) := acc in
  (* Check for duplicate path+method *)
  let combo := comboOf route in
  let out :=
    if set_has (pathMethodCombos seen) combo then
      pushError (mkValidationError "DUPLICATE_OPERATION"
                   ("Duplicate operation: " ++ combo)%string
                   SevError (at_node id)) out
    else out in
  let seen := mkSeen (operationIds seen) (set_add combo (pathMethodCombos seen)) in
  (* Check for duplicate operationId *)
  let acc :=
    if truthy_str (r_operationId route) then
      let operationId := match r_operationId route with
                         | Some x => x | None => EmptyString end in
      let out :=
        if set_has (operationIds seen) operationId then
          pushError (mkValidationError "DUPLICATE_OPERATION_ID"
                       ("Duplicate operationId: " ++ operationId)%string
                       SevError (at_node id)) out
        else out in
      let seen := mkSeen (set_add operationId (operationIds seen))
                         (pathMethodCombos seen) in
      (* Naming convention *)
      let out :=
        if negb (isCamelCase operationId) then
          pushWarning (mkValidationError "OPERATION_ID_NAMING"
                         ("operationId " ++ quote ++ operationId ++ quote ++
                          " should use camelCase")%string
                         SevInfo (at_node id)) out
        else out in
      (seen, out)
    else
      (seen,
       pushWarning (mkValidationError "MISSING_OPERATION_ID"
                      ("Route " ++ combo ++ " is missing operationId")%string
                      SevWarning (at_node id)) out) in
  let (seen, out) := acc in
  (* Validate path parameters *)
  let pathParams := RouteList.matchPlaceholders (r_path route) in
  let out :=
    fold_left
      (fun out param =>
         if negb (includes (definedPathParams route) param) then
           pushError (mkValidationError "UNDEFINED_PATH_PARAM"
                        ("Path parameter " ++ param ++ " is not defined")%string
                        SevError (at_node id)) out
         else out)
      pathParams out in
  (* Check responses *)
  let out :=
    if (JsMap.size (r_responses route) =? 0)%nat then
      pushError (mkValidationError "NO_RESPONSES"
                   ("Route " ++ combo ++ " has no responses defined")%string
                   SevError (at_node id)) out
    else out in
  (* Check for success response *)
  let hasSuccessResponse :=
    existsb (fun code => Js.startsWith code "2") (JsMap.keys (r_responses route)) in
  let out :=
    if negb hasSuccessResponse then
      pushWarning (mkValidationError "NO_SUCCESS_RESPONSE"
                     ("Route " ++ combo ++ " has no success (2xx) response")%string
                     SevWarning (at_node id)) out
    else out in
  (* Check for error responses *)
  let hasErrorResponse :=
    existsb (fun code => Js.startsWith code "4" || Js.startsWith code "5")
            (JsMap.keys (r_responses route)) in
  let out :=
    if negb hasErrorResponse then
      pushWarning (mkValidationError "NO_ERROR_RESPONSE"
                     ("Route " ++ combo ++ " has no error (4xx/5xx) response")%string
                     SevInfo (at_node id)) out
    else out in
  (* Validate 200 response has schema for non-DELETE methods *)
  let out :=
    if negb (String.eqb (r_method route) "delete") then
      let successResponse :=
        match JsMap.get "200" (r_responses route) with
        | Some r => Some r
        | None => JsMap.get "201" (r_responses route)
        end in
      match successResponse with
      | Some r =>
          match resp_content r with
          | None =>
              pushWarning (mkValidationError "SUCCESS_WITHOUT_BODY"
                             (combo ++ " success response has no body schema")%string
                             SevWarning (at_node id)) out
          | Some _ => out
          end
      | None => out
      end
    else out in
  (seen, out).

Definition validateRoutes (doc : ApiDocument) (out : Findings) : Findings :=
  snd (fold_left (fun acc entry => validateRoute (fst entry) (snd entry) acc)
                 (routes doc) (mkSeen [] [], out)).

(** [checkSchemaRefs] with [checkRef] as its local helper. *)
Fixpoint checkSchemaRefs (validSchemaIds : list NodeId) (nodeId : NodeId)
         (schema : SchemaNode) (context : string) (out : Findings) : Findings :=
  let checkRef (out : Findings) (schemaOrRef : SchemaOrRef) (context : string)
    : Findings :=
    match schemaOrRef with
    | SRef targetId =>
        if negb (set_has validSchemaIds targetId) then
          pushError (mkValidationError "BROKEN_REFERENCE"
                       ("Broken reference in " ++ context)%string
                       SevError (at_node nodeId)) out
        else out
    | SInline s =>
        (* Recursively check inline schemas *)
        checkSchemaRefs validSchemaIds nodeId s context out
    end in
  let out :=
    match s_properties schema with
    | Some properties =>
        fold_left
          (fun out entry =>
             checkRef out (pd_schema (snd entry))
                      (context ++ "." ++ fst entry)%string)
          properties out
    | None => out
    end in
  let out :=
    match s_items schema with
    | Some items => checkRef out items (context ++ "[items]")%string
    | None => out
    end in
  match s_variants schema with
  | Some variants =>
      fold_left (fun out variant => checkRef out variant (context ++ "[variant]")%string)
                variants out
  | None => out
  end.

Definition checkRef (validSchemaIds : list NodeId) (schemaOrRef : SchemaOrRef)
           (context : string) (nodeId : NodeId) (out : Findings) : Findings :=
  match schemaOrRef with
  | SRef targetId =>
      if negb (set_has validSchemaIds targetId) then
        pushError (mkValidationError "BROKEN_REFERENCE"
                     ("Broken reference in " ++ context)%string
                     SevError (at_node nodeId)) out
      else out
  | SInline s => checkSchemaRefs validSchemaIds nodeId s context out
  end.

(** The first two loops of [validateReferences]: all schemas, then all
    routes. *)
Definition checkReferences (doc : ApiDocument) (out : Findings) : Findings :=
  let validSchemaIds := JsMap.keys (schemas doc) in
  (* Check all schemas *)
  let out :=
    fold_left
      (fun out (entry : NodeId * SchemaNode) =>
         checkSchemaRefs validSchemaIds (fst entry) (snd entry)
                         (nameOrAnonymous (snd entry)) out)
      (schemas doc) out in
  (* Check routes *)
  fold_left
    (fun out (entry : NodeId * Route) =>
       let (id, route) := entry in
       (* Check parameters *)
       let out :=
         fold_left
           (fun out param =>
              checkRef validSchemaIds (p_schema param)
                       (comboOf route ++ " param " ++ p_name param)%string id out)
           (r_parameters route) out in
       (* Check request body *)
       let out :=
         match r_requestBody route with
         | Some body =>
             fold_left
               (fun out (media : string * MediaType) =>
                  checkRef validSchemaIds (mt_schema (snd media))
                           (comboOf route ++ " request body")%string id out)
               (rb_content body) out
         | None => out
         end in
       (* Check responses *)
       fold_left
         (fun out (response : string * ResponseDef) =>
            match resp_content (snd response) with
            | Some content =>
                fold_left
                  (fun out (media : string * MediaType) =>
                     checkRef validSchemaIds (mt_schema (snd media))
                              (comboOf route ++ " response " ++ fst response)%string
                              id out)
                  content out
            | None => out
            end)
         (r_responses route) out)
    (routes doc) out.

(** [collectRefs]: the targets of the references that sit directly at a
    schema. *)
Definition collectRefs (schema : SchemaNode) : list NodeId :=
  let collect (refs : list NodeId) (schemaOrRef : SchemaOrRef) : list NodeId :=
    match schemaOrRef with
    | SRef targetId => refs ++ [targetId]
    | SInline _ => refs
    end in
  let refs : list NodeId := [] in
  let refs :=
    match s_properties schema with
    | Some properties =>
        fold_left (fun refs prop => collect refs (pd_schema prop))
                  (JsMap.values properties) refs
    | None => refs
    end in
  let refs :=
    match s_items schema with
    | Some items => collect refs items
    | None => refs
    end in
  match s_variants schema with
  | Some variants => fold_left collect variants refs
  | None => refs
  end.

(** The sets [visited] and [stack] of the cycle search. *)
Record Marks := mkMarks {
  visited : list NodeId;
  stack : list NodeId
}.

(** [s.delete(x)] *)
Definition set_delete (x : NodeId) (s : list NodeId) : list NodeId :=
  filter (fun y => negb (String.eqb y x)) s.

(** [hasCycle(schemaId)]. [fuel] bounds the depth of the recursion; [None]:
    the bound was reached. The sets are returned as the call leaves them
    (on [true] the source returns at once, without the [stack.delete]). *)
Fixpoint hasCycle (fuel : nat) (doc : ApiDocument) (schemaId : NodeId)
         (marks : Marks) : option (bool * Marks) :=
  match fuel with
  | O => None
  | S fuel' =>
      if set_has (stack marks) schemaId then Some (true, marks)
      else if set_has (visited marks) schemaId then Some (false, marks)
      else
        let marks := mkMarks (set_add schemaId (visited marks))
                             (set_add schemaId (stack marks)) in
        let searched :=
          match JsMap.get schemaId (schemas doc) with
          | Some s =>
              (fix each (refs : list NodeId) (marks : Marks)
                 : option (bool * Marks) :=
                 match refs with
                 | [] => Some (false, marks)
                 | ref :: rest =>
                     match hasCycle fuel' doc ref marks with
                     | Some (true, marks) => Some (true, marks)
                     | Some (false, marks) => each rest marks
                     | None => None
                     end
                 end) (collectRefs s) marks
          | None => Some (false, marks)
          end in
        match searched with
        | Some (true, marks) => Some (true, marks)
        | Some (false, marks) =>
            Some (false, mkMarks (visited marks) (set_delete schemaId (stack marks)))
        | None => None
        end
  end.

(** The last loop of [validateReferences]: one search per schema, each
    with fresh sets. The recursion bound is taken from the size of the
    schema map. *)
Definition circularWarnings (doc : ApiDocument) : option (list ValidationError) :=
  fold_left
    (fun (acc : option (list ValidationError)) (entry : NodeId * SchemaNode) =>
       match acc with
       | None => None
       | Some found =>
           match hasCycle (S (JsMap.size (schemas doc))) doc (fst entry)
                          (mkMarks [] []) with
           | Some (true, _) =>
               Some (found ++
                     [mkValidationError "CIRCULAR_REFERENCE"
                        ("Schema " ++ quote ++ nameOrAnonymous (snd entry) ++ quote ++
                         " has a circular reference")%string
                        SevWarning (at_node (fst entry))])
           | Some (false, _) => Some found
           | None => None
           end
       end)
    (schemas doc) (Some []).

Definition validateReferences (doc : ApiDocument) (out : Findings)
  : option Findings :=
  let out := checkReferences doc out in
  (* Check for orphaned schemas *)
  let out := mkFindings (errors out) (warnings out ++ orphanWarnings doc) in
  (* Check for circular references *)
  match circularWarnings doc with
  | Some found => Some (mkFindings (errors out) (warnings out ++ found))
  | None => None
  end.

Definition validateDocument (doc : ApiDocument) : option ValidationResult :=
  let out := mkFindings [] [] in
  (* Info validation *)
  let out := validateInfo doc out in
  (* Schema validation *)
  let out := validateSchemas doc out in
  (* Route validation *)
  let out := validateRoutes doc out in
  (* Graph validation (references) *)
  match validateReferences doc out with
  | Some out =>
      Some (mkValidationResult ((length (errors out) =? 0)%nat)
                               (errors out) (warnings out))
  | None => None
  end.

End Validation.

(** ** Vocabulary of the statements about the validator *)

Module ValidationSpec.
Import Validator Validation StoreSpec3.

(** The codes the validator reports, each with the severity it carries:
    those pushed to [errors] (by the checks of info, schemas and routes,
    then by the check of references), those pushed to [warnings]. *)
Definition earlyErrorCodes : list (string * ValidationSeverity) :=
  [("MISSING_TITLE", SevError); ("MISSING_VERSION", SevError);
   ("DUPLICATE_SCHEMA_NAME", SevError); ("INVALID_REQUIRED", SevError);
   ("EMPTY_ENUM", SevError); ("DUPLICATE_ENUM_VALUE", SevError);
   ("MISSING_ARRAY_ITEMS", SevError); ("EMPTY_COMPOSITION", SevError);
   ("DUPLICATE_OPERATION", SevError); ("DUPLICATE_OPERATION_ID", SevError);
   ("UNDEFINED_PATH_PARAM", SevError); ("NO_RESPONSES", SevError)].

Definition referenceErrorCodes : list (string * ValidationSeverity) :=
  [("BROKEN_REFERENCE", SevError)].

Definition errorCodes : list (string * ValidationSeverity) :=
  earlyErrorCodes ++ referenceErrorCodes.

(** The warnings of the checks that come before the search for orphans
    and cycles. *)
Definition earlyWarningCodes : list (string * ValidationSeverity) :=
  [("MISSING_DESCRIPTION", SevInfo); ("NO_SERVERS", SevWarning);
   ("SCHEMA_NAMING_CONVENTION", SevInfo); ("EMPTY_OBJECT", SevWarning);
   ("SINGLE_VARIANT", SevWarning); ("MISSING_DISCRIMINATOR", SevInfo);
   ("OPERATION_ID_NAMING", SevInfo); ("MISSING_OPERATION_ID", SevWarning);
   ("NO_SUCCESS_RESPONSE", SevWarning); ("NO_ERROR_RESPONSE", SevInfo);
   ("SUCCESS_WITHOUT_BODY", SevWarning)].

Definition warningCodes : list (string * ValidationSeverity) :=
  earlyWarningCodes ++
  [("ORPHANED_SCHEMA", SevInfo); ("CIRCULAR_REFERENCE", SevWarning)].

Definition labelled (codes : list (string * ValidationSeverity))
           (e : ValidationError) : Prop :=
  In (code e, severity e) codes.

(** [out'] is [out] with findings labelled from [E] pushed to [errors] and
    findings labelled from [W] pushed to [warnings]. *)
Definition emits (E W : list (string * ValidationSeverity))
           (out out' : Findings) : Prop :=
  exists es ws,
    out' = mkFindings (errors out ++ es) (warnings out ++ ws) /\
    Forall (labelled E) es /\ Forall (labelled W) ws.

Definition is_error (e : ValidationError) : bool :=
  match severity e with SevError => true | _ => false end.

(** No error has been pushed. *)
Definition clean (out : Findings) : bool := (length (errors out) =? 0)%nat.

(** A check that pushes the same findings whatever has been pushed
    before it. *)
Definition uniform (check : Findings -> Findings) : Prop :=
  forall out,
    check out
    = mkFindings (errors out ++ errors (check (mkFindings [] [])))
                 (warnings out ++ warnings (check (mkFindings [] []))).

(** The findings of the checks of info, schemas and routes, which
    [validateDocument] runs before [validateReferences]. *)
Definition earlyFindings (d : ApiDocument) : Findings :=
  validateRoutes d (validateSchemas d (validateInfo d (mkFindings [] []))).

(** The targets of the references of a schema, at any depth of inline
    nesting. *)
Fixpoint schemaRefs (s : SchemaNode) : list NodeId :=
  let edgeRefs (e : SchemaOrRef) : list NodeId :=
    match e with
    | SRef targetId => [targetId]
    | SInline s' => schemaRefs s'
    end in
  match s_properties s with
  | Some properties => flat_map (fun entry => edgeRefs (pd_schema (snd entry))) properties
  | None => []
  end ++
  match s_items s with Some items => edgeRefs items | None => [] end ++
  match s_variants s with Some variants => flat_map edgeRefs variants | None => [] end.

Definition edgeRefs (e : SchemaOrRef) : list NodeId :=
  match e with
  | SRef targetId => [targetId]
  | SInline s => schemaRefs s
  end.

(** The targets of all references of a document: those of its schemas,
    then those of the parameters, request bodies and responses of its
    routes. *)
Definition documentRefs (d : ApiDocument) : list NodeId :=
  flat_map schemaRefs (JsMap.values (schemas d)) ++
  flat_map (fun r => flat_map edgeRefs (UsageSpec.routeEdges r))
           (JsMap.values (routes d)).

(** What validation asks of the parts of a document. *)
Definition infoOk (d : ApiDocument) : bool :=
  nonempty (RouteList.trim (title (info d))) &&
  nonempty (RouteList.trim (version (info d))).

(** The keys of the elements that have one, in order. *)
Definition keysOf {A} (key : A -> option string) (xs : list A) : list string :=
  flat_map (fun x => match key x with Some n => [n] | None => [] end) xs.

(** A key that a set does not hold yet. *)
Definition fresh (seen : list string) (key : option string) : bool :=
  match key with Some n => negb (includes seen n) | None => true end.

(** The name of a schema that has one ([if (schema.name)]). *)
Definition nameKey (entry : NodeId * SchemaNode) : option string :=
  match s_name (snd entry) with
  | Some n => if nonempty n then Some n else None
  | None => None
  end.

(** The names of the schemas that have one, in the order of the map. *)
Definition schemaNamesOf (d : ApiDocument) : list string :=
  keysOf nameKey (schemas d).

Definition schemaOk (s : SchemaNode) : bool :=
  match s_type s with
  | TObject =>
      match s_required s, s_properties s with
      | Some required, Some properties =>
          forallb (fun n => JsMap.has n properties) required
      | _, _ => true
      end
  | TEnum =>
      match s_enumValues s with
      | Some (v :: vs) => distinct (v :: vs)
      | _ => false
      end
  | TArray => match s_items s with Some _ => true | None => false end
  | TOneOf | TAnyOf | TAllOf =>
      match s_variants s with Some (_ :: _) => true | _ => false end
  | _ => true
  end.

Definition schemasOk (d : ApiDocument) : bool :=
  distinct (schemaNamesOf d) &&
  forallb (fun entry => schemaOk (snd entry)) (schemas d).

(** The operation identifier of a route that has one
    ([if (route.operationId)]). *)
Definition operationKey (entry : NodeId * Route) : option string :=
  match r_operationId (snd entry) with
  | Some x => if nonempty x then Some x else None
  | None => None
  end.

(** The operation identifiers of the routes that have one. *)
Definition operationIdsOf (d : ApiDocument) : list string :=
  keysOf operationKey (routes d).

(** The method and path of each route, in the order of the map. *)
Definition combosOf (d : ApiDocument) : list string :=
  map (fun entry => comboOf (snd entry)) (routes d).

Definition placeholdersDefined (r : Route) : bool :=
  forallb (includes (definedPathParams r))
          (RouteList.matchPlaceholders (r_path r)).

Definition routeOk (r : Route) : bool :=
  placeholdersDefined r && negb (JsMap.size (r_responses r) =? 0)%nat.

Definition routesOk (d : ApiDocument) : bool :=
  distinct (combosOf d) &&
  distinct (operationIdsOf d) &&
  forallb (fun entry => routeOk (snd entry)) (routes d).

Definition referencesOk (d : ApiDocument) : bool :=
  forallb (fun target => JsMap.has target (schemas d)) (documentRefs d).

(** The graph the cycle search walks: from the identifier of a top-level
    schema to the targets of the references that sit directly at it. *)
Definition refersDirectly (d : ApiDocument) (k t : NodeId) : Prop :=
  exists s, JsMap.get k (schemas d) = Some s /\ In t (collectRefs s).

Inductive reaches (d : ApiDocument) : NodeId -> NodeId -> Prop :=
| reaches_here (k : NodeId) : reaches d k k
| reaches_step (k t u : NodeId) :
    refersDirectly d k t -> reaches d t u -> reaches d k u.

(** A path of at least one reference leads from [x] to [y]. *)
Definition leadsTo (d : ApiDocument) (x y : NodeId) : Prop :=
  exists t, refersDirectly d x t /\ reaches d t y.

(** [k] lies on a cycle; a cycle can be reached from [k]. *)
Definition onCycle (d : ApiDocument) (k : NodeId) : Prop := leadsTo d k k.

Definition reachesCycle (d : ApiDocument) (k : NodeId) : Prop :=
  exists c, reaches d k c /\ onCycle d c.

(** The loop of [hasCycle] over the references of a schema, over the
    recursive call. *)
Definition eachRef (search : NodeId -> Marks -> option (bool * Marks))
  : list NodeId -> Marks -> option (bool * Marks) :=
  fix each (refs : list NodeId) (marks : Marks) : option (bool * Marks) :=
    match refs with
    | [] => Some (false, marks)
    | ref :: rest =>
        match search ref marks with
        | Some (true, marks) => Some (true, marks)
        | Some (false, marks) => each rest marks
        | None => None
        end
    end.

(** What holds of the two sets whenever [hasCycle] is called and whenever
    it answers no: the stack is part of [visited], and no cycle can be
    reached from a visited identifier that is off the stack. *)
Definition marksOk (d : ApiDocument) (marks : Marks) : Prop :=
  (forall x, In x (stack marks) -> In x (visited marks)) /\
  (forall x, In x (visited marks) -> ~ In x (stack marks) -> ~ reachesCycle d x).

(** What a call [search] of the cycle search for [id] does, started with
    the sets [marks]: it returns; if it answers yes, a cycle can be reached
    from [id]; if it answers no, none can, the stack is as it was and the
    visited set has only grown. *)
Definition answers (d : ApiDocument) (search : Marks -> option (bool * Marks))
           (id : NodeId) (marks : Marks) : Prop :=
  exists b marks',
    search marks = Some (b, marks') /\
    (b = true -> reachesCycle d id) /\
    (b = false ->
     ~ reachesCycle d id /\ marksOk d marks' /\
     (forall x, In x (stack marks') <-> In x (stack marks)) /\
     (forall x, In x (visited marks) -> In x (visited marks'))).

(** How many keys of the schema map the search has not visited. *)
Definition unvisited (d : ApiDocument) (seen : list NodeId) : nat :=
  length (filter (fun k => negb (includes seen k)) (JsMap.keys (schemas d))).

(** The identifiers a list of findings is about. *)
Definition reportedNodes (found : list ValidationError) : list (option NodeId) :=
  map (fun w => loc_nodeId (location w)) found.

Definition has_code (c : string) (e : ValidationError) : bool :=
  String.eqb (code e) c.

(** The targets of the references of a route, at any depth. *)
Definition routeRefs (r : Route) : list NodeId :=
  flat_map edgeRefs (UsageSpec.routeEdges r).

(** Another schema of the document, or a route, has a reference to the
    schema [id]. *)
Definition referencedElsewhere (d : ApiDocument) (id : NodeId) : Prop :=
  (exists k s, k <> id /\ In (k, s) (schemas d) /\ In id (schemaRefs s)) \/
  (exists k r, In (k, r) (routes d) /\ In id (routeRefs r)).

End ValidationSpec.

(** ** Vocabulary of the statements about imported documents *)

Module ImportSpec.
Import Js Parser.

(** The identifiers the importer can write into a reference: those the
    map [schemaNameToId] holds under some schema name. *)
Definition registered (names : JsMap.t NodeId) (t : NodeId) : Prop :=
  exists name, JsMap.get name names = Some t.

Definition allRegistered (names : JsMap.t NodeId) (targets : list NodeId) : Prop :=
  Forall (registered names) targets.

(** A step of the importer that leaves [schemaNameToId] as it is and that,
    when it returns, returns a value with [P]. *)
Definition yields {A} (m : M A) (P : JsMap.t NodeId -> A -> Prop) : Prop :=
  forall st a st',
    m st = Ret (a, st') ->
    schemaNameToId st' = schemaNameToId st /\ P (schemaNameToId st) a.

(** A step of the importer that ends within the recursion bound of the
    model (it returns, throws or stops at a cast that does not hold) and
    that, when it returns, returns a value with [P]. *)
Definition ends {A} (m : M A) (P : A -> Prop) : Prop :=
  forall st,
    match m st with
    | Ret (a, _) => P a
    | OutOfFuel => False
    | _ => True
    end.

(** The component schemas of the decoded document, as the two passes of
    [parseYaml] enumerate them. *)
Definition schemaEntries (schemasV : option JValue) : list (string * JValue) :=
  match schemasV with
  | Some ss => if truthy ss then object_entries ss else []
  | None => []
  end.

(** A decoded document with a reference between two component schemas, a
    reference from a response, and a reference to a name that is not a
    component. *)
Definition petsDecoded : JValue :=
  JObj [("openapi", JStr "3.0.0");
        ("info", JObj [("title", JStr "Pets"); ("version", JStr "1.0.0")]);
        ("components",
         JObj [("schemas",
                JObj [("Pet",
                       JObj [("type", JStr "object");
                             ("properties",
                              JObj [("owner",
                                     JObj [("$ref", JStr "#/components/schemas/Owner")]);
                                    ("vet",
                                     JObj [("$ref", JStr "#/components/schemas/Vet")])])]);
                      ("Owner", JObj [("type", JStr "object")])])]);
        ("paths",
         JObj [("/pets",
                JObj [("get",
                       JObj [("responses",
                              JObj [("200",
                                     JObj [("description", JStr "ok");
                                           ("content",
                                            JObj [("application/json",
                                                   JObj [("schema",
                                                          JObj [("$ref",
                                                                 JStr "#/components/schemas/Pet")])])])])])])])])].

End ImportSpec.

(** ** Vocabulary of the statements about the exporter *)

Module ExportSpec.
Import Exporter.

(** The edges [serializeSchema] hands to [serializeSchemaOrRef] for a
    schema: the variants of a composition, the items of an array, the
    properties of an object; and the edges it comes to in this way inside
    its inline schemas. *)
Inductive writes : SchemaNode -> SchemaOrRef -> Prop :=
| writes_variant (s : SchemaNode) (vs : list SchemaOrRef) (e : SchemaOrRef) :
    is_composition (s_type s) = true -> s_variants s = Some vs -> In e vs ->
    writes s e
| writes_items (s : SchemaNode) (e : SchemaOrRef) :
    s_type s = TArray -> s_items s = Some e -> writes s e
| writes_property (s : SchemaNode) (ps : JsMap.t PropertyDef)
                  (entry : string * PropertyDef) :
    s_type s = TObject -> s_properties s = Some ps -> In entry ps ->
    writes s (pd_schema (snd entry))
| writes_nested (s s' : SchemaNode) (e : SchemaOrRef) :
    writes s (SInline s') -> writes s' e -> writes s e.

(** The schema map holds [s] under [id], and [s] has no name
    ([targetSchema?.name] is falsy). *)
Definition anonymousAt (doc : ApiDocument) (id : NodeId) (s : SchemaNode) : Prop :=
  JsMap.get id (schemas doc) = Some s /\ truthy_str (s_name s) = false.

(** Schemas without a name, each of which has a reference to one of them
    written. *)
Definition anonymousLoop (doc : ApiDocument) (ids : list NodeId) : Prop :=
  forall id, In id ids ->
    exists s id', anonymousAt doc id s /\ In id' ids /\ writes s (SRef id').

(** A reference to [t] is not to a schema without a name: the schema map
    holds nothing under [t], or a schema that has a name. *)
Definition namedTarget (doc : ApiDocument) (t : NodeId) : Prop :=
  forall s, JsMap.get t (schemas doc) = Some s -> truthy_str (s_name s) = true.

(** A list whose elements are lists of the same kind: an array schema
    without a name whose items refer to the schema itself, inside an
    object. *)
Definition childrenList : SchemaNode :=
  mkSchemaNode "s-children" None TArray None None (Some (SRef "s-nested"))
               None None None None None None None None None None None None.

Definition childrenProperty : PropertyDef :=
  mkPropertyDef "children" (SInline childrenList) false None.

Definition nestedList : SchemaNode :=
  mkSchemaNode "s-nested" None TObject None
    (Some [("children", childrenProperty)])
    None None None None None None None None None None None None None.

(** A schema with a name whose items are such lists. *)
Definition forest : SchemaNode :=
  mkSchemaNode "s-forest" (Some "Forest") TArray None None (Some (SRef "s-nested"))
               None None None None None None None None None None None None.

Definition nestedListDoc : ApiDocument :=
  Store.withSchemas (createEmptyDocument "doc")
                    [("s-forest", forest); ("s-nested", nestedList)].

(** A tree: a schema with a name whose branches are trees. *)
Definition branches : SchemaNode :=
  mkSchemaNode "s-branches" None TArray None None (Some (SRef "s-tree"))
               None None None None None None None None None None None None.

Definition tree : SchemaNode :=
  mkSchemaNode "s-tree" (Some "Tree") TObject None
    (Some [("branches", mkPropertyDef "branches" (SInline branches) false None)])
    None None None None None None None None None None None None None.

Definition treeDoc : ApiDocument :=
  Store.withSchemas (createEmptyDocument "doc") [("s-tree", tree)].

End ExportSpec.

(* ================================================================== *)
(** * Properties *)

Unset Implicit Arguments.

Ltac break_match :=
  match goal with
  | |- context [match ?x with _ => _ end] => destruct x eqn:?
  end.

(** ** The editor store *)

Section StoreFacts.
Import Store.

Lemma map_id_eq {A} (l : list A) : map (fun x => x) l = l.
Proof. induction l; simpl; congruence. Qed.

Lemma copy_eq {V} (m : JsMap.t V) : JsMap.copy m = m.
Proof. unfold JsMap.copy. induction m as [|[k v] m IH]; simpl; congruence. Qed.

Lemma cloneRoute_eq (r : Route) : cloneRoute r = r.
Proof. destruct r; unfold cloneRoute; simpl. now rewrite !map_id_eq, copy_eq. Qed.

Lemma cloneSchema_eq (s : SchemaNode) : cloneSchema s = s.
Proof.
  destruct s as [i n t d p it v e r f ex df mi ma ml mx pa di].
  unfold cloneSchema; simpl.
  destruct p, v, e, r; simpl; now rewrite ?map_id_eq, ?copy_eq.
Qed.

(** Cloning copies: the clone is the same value as the original. *)
Lemma cloneDocument_eq (doc : ApiDocument) : cloneDocument doc = doc.
Proof.
  destruct doc as [i inf srv rts sch sec tg]. unfold cloneDocument; simpl.
  rewrite !map_id_eq, copy_eq. f_equal.
  - induction rts as [|[k v] m IH]; simpl; [easy|]. now rewrite cloneRoute_eq, IH.
  - induction sch as [|[k v] m IH]; simpl; [easy|]. now rewrite cloneSchema_eq, IH.
Qed.

End StoreFacts.

Section UndoRedo.
Import Store StoreSpec.

Lemma slice0_nonneg {A} (xs : list A) (e : Z) :
  (0 <= e)%Z -> slice0 xs e = firstn (Z.to_nat e) xs.
Proof. intros H. unfold slice0. destruct (Z.ltb_spec e 0); [lia|reflexivity]. Qed.

Lemma index_in_range {A} (xs : list A) (i : Z) :
  (0 <= i < Z.of_nat (length xs))%Z -> exists x, index xs i = Some x.
Proof.
  intros [H0 H1]. unfold index. destruct (Z.ltb_spec i 0); [lia|].
  destruct (nth_error xs (Z.to_nat i)) eqn:E; [eauto|].
  apply nth_error_None in E. lia.
Qed.

Lemma hd_firstn_S {A} (d : A) (xs : list A) (n : nat) :
  hd d (firstn (S n) xs) = hd d xs.
Proof. destruct xs; reflexivity. Qed.

Lemma hd_nth_error {A} (d x : A) (xs : list A) :
  nth_error xs 0 = Some x -> hd d xs = x.
Proof. destruct xs; simpl; congruence. Qed.

(** One [undo] from a state whose cursor is in range: it succeeds, keeps
    the cursor in range, keeps the bottom of the stack, and moves the
    cursor down by one unless it is already at [-1]. *)
Lemma undo_step (st : EditorState) :
  cursor_ok st ->
  exists st', undo st = Some st' /\ cursor_ok st' /\ oldest st' = oldest st /\
              historyIndex st' = Z.max (-1) (historyIndex st - 1).
Proof.
  intros [Hlo Hhi]. unfold undo.
  destruct (Z.ltb_spec (historyIndex st) 0) as [Hneg|Hpos].
  - exists st. repeat split; try lia; auto.
  - destruct (index_in_range (history st) _ (conj Hpos Hhi)) as [d Hd].
    rewrite Hd. eexists; split; [reflexivity|].
    unfold cursor_ok, oldest, undoStack; simpl.
    repeat split; try lia.
    rewrite !slice0_nonneg by lia.
    replace (historyIndex st - 1 + 1)%Z with (historyIndex st) by lia.
    replace (Z.to_nat (historyIndex st + 1)) with (S (Z.to_nat (historyIndex st))) by lia.
    rewrite hd_firstn_S.
    unfold index in Hd. destruct (Z.ltb_spec (historyIndex st) 0); [lia|].
    destruct (Z.to_nat (historyIndex st)) eqn:E.
    + simpl. symmetry. now apply hd_nth_error.
    + rewrite hd_firstn_S. destruct (history st); [discriminate|reflexivity].
Qed.

(** Enough calls of [undo] reach the bottom of the stack. *)
Lemma undos_reach_oldest (n : nat) : forall st,
  cursor_ok st -> (historyIndex st + 1 <= Z.of_nat n)%Z ->
  exists st', undos n st = Some st' /\ document st' = oldest st.
Proof.
  induction n as [|n IH]; intros st Hc Hn.
  - exists st. split; [reflexivity|].
    unfold oldest, undoStack. destruct Hc as [Hlo _].
    replace (historyIndex st) with (-1)%Z by lia. reflexivity.
  - destruct (undo_step _ Hc) as (s1 & Hu & Hc1 & Ho & Hi).
    simpl. rewrite Hu.
    destruct (IH s1 Hc1) as (s2 & Hs2 & Hd); [lia|].
    exists s2. split; [assumption|]. congruence.
Qed.

(** [undo] is defined on every state whose cursor is in range. *)
Lemma undo_defined (st : EditorState) :
  cursor_ok st -> undo st <> None.
Proof. intros H. destruct (undo_step _ H) as (s & Hs & _). congruence. Qed.

Lemma commit_committed (m : Mutation) st d cmd :
  evicts m st = false ->
  committed m st (commit st d (pushHistory st) cmd).
Proof.
  intros E. unfold committed. rewrite E. simpl.
  repeat split. rewrite length_app. simpl. lia.
Qed.

(** Every editing action either returns the state it was given or ends in
    the common [set]. *)
Lemma apply_shape (now : Z) (m : Mutation) (st st' : EditorState) :
  apply now m st = Some st' -> st' = st \/ committed m st st'.
Proof.
  destruct m; simpl; intros H;
    try (injection H as <-);
    try (right; apply commit_committed; reflexivity);
    try (unfold updateSchema, addFieldToSchema, updateField, deleteField,
           updateRoute, addParameter, updateParameter, deleteParameter,
           setRequestBody, addResponse, updateResponse, deleteResponse,
           updateSecurityScheme, editRoute;
         repeat break_match; auto;
         right; apply commit_committed; reflexivity).
  - (* setDocument *)
    right. unfold setDocument, committed; simpl.
    destruct (maxHistorySize st <? Z.of_nat (length (pushHistory st)))%Z;
      repeat split; rewrite length_app; simpl; lia.
  - (* updateServer *)
    unfold updateServer in H.
    destruct ((0 <=? idx) && _)%Z; [|discriminate].
    injection H as <-. right. apply commit_committed. reflexivity.
Qed.

Lemma pushHistory_oldest (st : EditorState) :
  hd (document st) (pushHistory st) = oldest st.
Proof.
  unfold pushHistory, oldest, undoStack. rewrite cloneDocument_eq.
  destruct (slice0 (history st) (historyIndex st + 1)); reflexivity.
Qed.

Lemma pushHistory_length (st : EditorState) :
  cursor_ok st ->
  Z.of_nat (length (pushHistory st)) = (historyIndex st + 2)%Z.
Proof.
  intros [Hlo Hhi]. unfold pushHistory.
  rewrite length_app, slice0_nonneg, length_firstn by lia. simpl. lia.
Qed.

(** An action that does not evict keeps the cursor in range and the bottom
    of the stack, and raises the cursor by at most one. *)
Lemma apply_keeps_oldest (now : Z) (m : Mutation) (st st' : EditorState) :
  apply now m st = Some st' -> evicts m st = false -> cursor_ok st ->
  cursor_ok st' /\ oldest st' = oldest st /\
  (historyIndex st' <= historyIndex st + 1)%Z.
Proof.
  intros Ha He Hc. destruct (apply_shape _ _ _ _ Ha) as [->|(Hh & Hi & _)].
  - repeat split; try apply Hc; lia.
  - rewrite He in Hh. pose proof (pushHistory_length _ Hc) as Hl.
    assert (Hlen : Z.of_nat (length (history st')) = (historyIndex st + 2)%Z)
      by now rewrite Hh.
    unfold cursor_ok. repeat split; try lia.
    unfold oldest at 1, undoStack. rewrite slice0_nonneg by lia.
    rewrite Hi. replace (Z.to_nat _) with (length (history st')) by lia.
    rewrite firstn_all, Hh.
    destruct (pushHistory st) eqn:E.
    + exfalso. simpl in Hl. destruct Hc. lia.
    + rewrite <- pushHistory_oldest, E. reflexivity.
Qed.

Lemma run_keeps_oldest (ms : list (Z * Mutation)) : forall st st',
  run ms st = Some st' -> never_evicts ms st = true -> cursor_ok st ->
  cursor_ok st' /\ oldest st' = oldest st /\
  (historyIndex st' <= historyIndex st + Z.of_nat (length ms))%Z.
Proof.
  induction ms as [|[now m] ms IH]; intros st st' Hr He Hc; simpl in *.
  - injection Hr as <-. repeat split; try apply Hc; lia.
  - destruct (apply now m st) as [s1|] eqn:Ha; [|discriminate].
    apply andb_prop in He as [He1 He2]. apply negb_true_iff in He1.
    destruct (apply_keeps_oldest _ _ _ _ Ha He1 Hc) as (Hc1 & Ho1 & Hi1).
    destruct (IH _ _ Hr He2 Hc1) as (Hc2 & Ho2 & Hi2).
    repeat split; try apply Hc2; [congruence|lia].
Qed.

End UndoRedo.

Section UndoRedoLaw.
Import Store StoreSpec StoreExamples.

Lemma apply_keeps_capacity (now : Z) (m : Mutation) (st st' : EditorState) :
  apply now m st = Some st' -> maxHistorySize st' = maxHistorySize st.
Proof.
  intros H. destruct (apply_shape _ _ _ _ H) as [->|(_ & _ & Hm & _)]; auto.
Qed.

(** Runs short enough for the capacity never evict. *)
Lemma short_runs_never_evict (ms : list (Z * Mutation)) : forall st,
  cursor_ok st ->
  (historyIndex st + 1 + Z.of_nat (length ms) <= maxHistorySize st)%Z ->
  never_evicts ms st = true.
Proof.
  induction ms as [|[now m] ms IH]; intros st Hc Hn; [reflexivity|].
  cbn [never_evicts]. cbn [length] in Hn.
  assert (He : evicts m st = false).
  { destruct m; try reflexivity. simpl.
    apply Z.ltb_ge. rewrite (pushHistory_length _ Hc). lia. }
  rewrite He. simpl.
  destruct (apply now m st) as [s1|] eqn:Ha; [|reflexivity].
  destruct (apply_keeps_oldest _ _ _ _ Ha He Hc) as (Hc1 & _ & Hi1).
  apply IH; [assumption|]. rewrite (apply_keeps_capacity _ _ _ _ Ha). lia.
Qed.

(** C1 (as amended). For any sequence of n editing actions applied through
    the store to an initial document d0, during which the capacity check
    of [setDocument] never evicts a history entry, calling [undo] n times
    succeeds and makes the current document equal to d0. *)
Theorem undo_returns_to_initial
        (d0 : ApiDocument) (s : EditorState) (ms : list (Z * Mutation))
        (st : EditorState) :
  run ms (initializeDocument d0 s) = Some st ->
  never_evicts ms (initializeDocument d0 s) = true ->
  exists su, undos (length ms) st = Some su /\ document su = d0.
Proof.
  intros Hr He.
  assert (Hc : cursor_ok (initializeDocument d0 s))
    by (unfold cursor_ok; simpl; lia).
  destruct (run_keeps_oldest _ _ _ Hr He Hc) as (Hc' & Ho & Hi).
  destruct (undos_reach_oldest (length ms) st Hc') as (su & Hu & Hd).
  - change (historyIndex (initializeDocument d0 s)) with (-1)%Z in Hi. lia.
  - exists su. split; [assumption|]. rewrite Hd, Ho. reflexivity.
Qed.

Lemma undo_returns_to_initial_witness :
  exists st su,
    run twoEdits (initializeDocument doc0 store0) = Some st /\
    undos 2 st = Some su /\ document su = doc0.
Proof.
  eexists. 
  destruct (undo_returns_to_initial doc0 store0 twoEdits _ eq_refl eq_refl)
    as (su & Hu & Hd).
  exists su. split; [reflexivity|]. split; assumption.
Defined.

(** C1 (as stated) fails. After one edit and one [undo], [redo] leaves the
    initial document in place although [canRedo] answers yes: the edited
    document was never stored in the history. And after fifty-one imports
    the oldest snapshot has been evicted, so fifty-one calls of [undo] end
    on the first imported document, not on the initial one. *)
Lemma undo_redo_law_fails :
  ~ undo_redo_law doc0 store0 oneEdit /\
  ~ undo_redo_law doc0 store0 manyImports.
Proof.
  split; intros H.
  - destruct (H _ eq_refl) as (su & Hu & Hd & Hr).
    vm_compute in Hu. injection Hu as <-. vm_compute in Hr. discriminate.
  - assert (Hrun : exists st, run manyImports (initializeDocument doc0 store0) = Some st).
    { vm_compute. eexists; reflexivity. }
    destruct Hrun as [st Hst]. destruct (H _ Hst) as (su & Hu & Hd & _).
    vm_compute in Hst. injection Hst as <-.
    vm_compute in Hu. injection Hu as <-. vm_compute in Hd. discriminate.
Qed.

(** After one edit and one [undo] the store offers a redo that does
    nothing. *)
Lemma redo_after_undo_is_lost :
  exists st su,
    run oneEdit (initializeDocument doc0 store0) = Some st /\
    undo st = Some su /\
    canRedo su = true /\ redo su = su /\ document su <> document st.
Proof.
  do 2 eexists. split; [reflexivity|]. split; [reflexivity|].
  split; [reflexivity|]. split; [reflexivity|]. vm_compute. discriminate.
Qed.

End UndoRedoLaw.

Section StaleIdentifiers.
Import Store StoreSpec StoreSpec2 StoreExamples.

(** The actions that look their target up first return the state they were
    given when the target is missing: no exception, no change of the
    document, no history entry, no command-log record. *)
Lemma guarded_action_is_noop (now : Z) (m : Mutation) (st : EditorState) :
  target_absent m st -> apply now m st = Some st.
Proof.
  destruct m; simpl; intros H; try contradiction;
    unfold updateSchema, addFieldToSchema, updateField, deleteField, updateRoute,
      addParameter, updateParameter, deleteParameter, setRequestBody, addResponse,
      updateResponse, deleteResponse, updateSecurityScheme, editRoute;
    rewrite H; reflexivity.
Qed.

(** The three delete actions have no such test: whatever the identifier,
    they end in the common [set]. *)
Lemma unguarded_delete_commits (now : Z) (id : NodeId) (st : EditorState) :
  committed (DeleteSchema id) st (deleteSchema now id st) /\
  committed (DeleteRoute id) st (deleteRoute now id st) /\
  committed (DeleteSecurityScheme id) st (deleteSecurityScheme now id st).
Proof. repeat split; simpl; rewrite length_app; simpl; lia. Qed.

(** C4 (the code departs from it). [deleteSchema] called with an identifier
    that names no schema leaves the document as it is, but it still pushes
    a snapshot onto the history, moves the cursor, bumps the version and
    appends a DELETE_SCHEMA record to the command log; [deleteRoute] does
    the same. *)
Theorem delete_of_absent_id_is_recorded :
  let st := deleteSchema 7 "ghost" store0 in
  let st' := deleteRoute 8 "ghost" store0 in
  JsMap.get "ghost" (schemas (document store0)) = None /\
  JsMap.get "ghost" (routes (document store0)) = None /\
  document st = document store0 /\
  history st = [document store0] /\ historyIndex st = 0%Z /\
  documentVersion st = 1%Z /\
  commandLog st = [mkCommand DELETE_SCHEMA (Some (DeleteSchema "ghost")) 7] /\
  document st' = document store0 /\
  history st' = [document store0] /\
  commandLog st' = [mkCommand DELETE_ROUTE (Some (DeleteRoute "ghost")) 8].
Proof. vm_compute. repeat split. Qed.

End StaleIdentifiers.

Section BoundedHistory.
Import Store StoreSpec StoreExamples.

(** Outside [setDocument] no action looks at the capacity: from a state
    whose cursor is at the end of the history, each of them leaves a
    history one entry longer. *)
Lemma commit_grows_history (now : Z) (m : Mutation) (st st' : EditorState) :
  apply now m st = Some st' -> st' <> st -> evicts m st = false ->
  historyIndex st = (Z.of_nat (length (history st)) - 1)%Z ->
  length (history st') = S (length (history st)).
Proof.
  intros Ha Hne He Hi.
  destruct (apply_shape _ _ _ _ Ha) as [->|(Hh & _)]; [contradiction|].
  rewrite Hh, He. unfold pushHistory.
  rewrite length_app, slice0_nonneg, length_firstn by lia. simpl. lia.
Qed.

(** C5 (the code departs from it). Fifty-one calls of [updateInfo] on the
    initial store leave fifty-one snapshots in the history, one more than
    [maxHistorySize]: only [setDocument] evicts. *)
Theorem history_outgrows_capacity :
  exists st,
    run manyEdits store0 = Some st /\
    length (history st) = 51 /\
    maxHistorySize st = 50%Z /\
    (Z.of_nat (length (history st)) > maxHistorySize st)%Z.
Proof. eexists. vm_compute. repeat split. Qed.

End BoundedHistory.

(** ** The importer *)

Section ImporterFacts.
Import Js Parser ImportExamples.
Variable uuid : nat -> NodeId.

Lemma bind_Ret_inv {A B} (m : M A) (k : A -> M B) (st : PState) (b : B) (st' : PState) :
  bind m k st = Ret (b, st') ->
  exists a st1, m st = Ret (a, st1) /\ k a st1 = Ret (b, st').
Proof.
  unfold bind. destruct (m st) as [[a st1]| | |]; try discriminate. eauto.
Qed.

Lemma ret_inv {A} (a b : A) (st st' : PState) :
  ret a st = Ret (b, st') -> a = b /\ st = st'.
Proof. unfold ret. intros H. injection H. auto. Qed.

Lemma set_not_empty {V} (k : string) (v : V) (m : JsMap.t V) : JsMap.set k v m <> [].
Proof. destruct m as [|[k' v'] m]; simpl; [|destruct (String.eqb k k')]; discriminate. Qed.

(** [parseOperation] never returns a route without responses. *)
Lemma parseOperation_has_response
      (fuel : nat) (path method : string) (data : JValue) (doc : ApiDocument)
      (st st' : PState) (route : Route) :
  parseOperation uuid fuel path method data doc st = Ret (route, st') ->
  r_responses route <> [].
Proof.
  unfold parseOperation. intros H.
  repeat (apply bind_Ret_inv in H; destruct H as (? & ? & ? & H)).
  apply ret_inv in H. destruct H as [<- _]. simpl.
  match goal with
  | H : (if (JsMap.size ?r =? 0)%nat then _ else _) _ = Ret (?x, _) |- ?x <> [] =>
      destruct (JsMap.size r =? 0)%nat eqn:E;
      [ apply bind_Ret_inv in H; destruct H as (? & ? & _ & H);
        apply ret_inv in H; destruct H as [<- _]; apply set_not_empty
      | apply ret_inv in H; destruct H as [<- _];
        destruct r; [discriminate|discriminate] ]
  end.
Qed.

(** An operation that defines no responses receives the synthetic 200. *)
Lemma parseOperation_injects_200 :
  exists route st',
    parseOperation uuid 1 "/pets" "get" bareOperation (createEmptyDocument "d") emptyState
    = Ret (route, st') /\
    r_responses route = [("200", mkResponseDef (uuid 1) "Successful response" None None)].
Proof. do 2 eexists. split; [vm_compute; reflexivity|reflexivity]. Qed.

End ImporterFacts.

Section ImporterScenarios.
Import Js Parser ImportExamples.
Variable uuid : nat -> NodeId.

(** C6 (the code departs from it). On the decoded form of the text
    "openapi: 2.0 / info: title: X / paths: {}" the importer does not
    return: [openapi] is the number 2, which is truthy and has no
    [startsWith], so the version test throws outside any [try]. *)
Theorem degraded_import_throws :
  parseYaml uuid (YamlValue degradedDecoded)
  = Throws "TypeError: parsed.openapi.startsWith is not a function".
Proof. reflexivity. Qed.

(** With the version written as a string the scenario comes out as the
    specification describes it. *)
Lemma degraded_import_of_quoted_version :
  exists doc errs,
    parseYaml uuid (YamlValue degradedQuoted) = Ret (mkParseResult (Some doc) errs) /\
    version (info doc) = "1.0.0" /\ title (info doc) = "X" /\
    (exists e, In e errs /\ code e = "INVALID_VERSION" /\ severity e = SevError) /\
    (exists e, In e errs /\ code e = "MISSING_VERSION" /\ severity e = SevWarning).
Proof.
  do 2 eexists. split; [vm_compute; reflexivity|].
  split; [reflexivity|]. split; [reflexivity|].
  split.
  - eexists. split; [left; reflexivity|]. split; reflexivity.
  - eexists. split; [right; left; reflexivity|]. split; reflexivity.
Qed.

(** A [$ref] that is a string of another shape: the importer falls through
    to the inline branch and pushes nothing on its own account. *)
Lemma ref_of_other_shape_is_silent
      (fuel : nat) (data : JValue) (refPath : string) (st : PState) :
  field "$ref" data = Some (JStr refPath) ->
  matchSchemaRef refPath = None ->
  parseSchemaOrRef uuid fuel data st
  = (inlineId <- generateId uuid ;;
     schema <- parseSchema uuid fuel data None inlineId ;;
     ret (SInline schema)) st.
Proof.
  intros Hf Hm. unfold parseSchemaOrRef, parseSchemaOrRef_with.
  destruct data; try discriminate. unfold prop. unfold bind at 1. unfold ret at 1.
  rewrite Hf, Hm. unfold bind at 1.
  destruct (nonempty refPath); reflexivity.
Qed.

(** A [$ref] of the right shape to a name that was not registered: the
    importer pushes an UNRESOLVED_REF warning, then takes the inline
    branch. *)
Lemma ref_to_unregistered_name_warns
      (fuel : nat) (data : JValue) (refPath name : string) (st : PState) :
  field "$ref" data = Some (JStr refPath) ->
  matchSchemaRef refPath = Some name ->
  JsMap.get name (schemaNameToId st) = None ->
  parseSchemaOrRef uuid fuel data st
  = (pushError (mkValidationError "UNRESOLVED_REF"
                  ("Unresolved reference: " ++ refPath)%string SevWarning no_location) ;;;
     inlineId <- generateId uuid ;;
     schema <- parseSchema uuid fuel data None inlineId ;;
     ret (SInline schema)) st.
Proof.
  intros Hf Hm Hn. unfold parseSchemaOrRef, parseSchemaOrRef_with.
  destruct data; try discriminate. unfold prop. unfold bind at 1. unfold ret at 1.
  rewrite Hf, Hm.
  assert (Hne : nonempty refPath = true).
  { unfold matchSchemaRef in Hm. destruct refPath; [discriminate|reflexivity]. }
  rewrite Hne. unfold bind, getName, pushError, ret. rewrite Hn. reflexivity.
Qed.

(** C7 (the code departs from it). A [$ref] that does not have the shape
    #/components/schemas/<Name> is dropped (an empty inline object schema
    takes its place) but no diagnostic is added: the error list stays
    empty. The warning is only pushed for a [$ref] of the right shape whose
    name is unknown. *)
Theorem foreign_ref_adds_no_diagnostic :
  parseSchemaOrRef uuid 1 foreignRef emptyState
  = Ret (SInline (bare_schema (uuid 0) None TObject), mkPState [] 1 JsMap.empty)
  /\
  parseSchemaOrRef uuid 1 danglingRef emptyState
  = Ret (SInline (bare_schema (uuid 0) None TObject),
         mkPState [mkValidationError "UNRESOLVED_REF"
                     "Unresolved reference: #/components/schemas/Ghost"
                     SevWarning no_location] 1 JsMap.empty).
Proof. split; reflexivity. Qed.

End ImporterScenarios.

(** ** Routes and their responses *)

Section Responses.
Import Store StoreSpec StoreExamples.

Lemma Forall_set {V} (P : V -> Prop) (k : string) (v : V) (m : JsMap.t V) :
  P v -> Forall (fun kv => P (snd kv)) m ->
  Forall (fun kv => P (snd kv)) (JsMap.set k v m).
Proof.
  intros Hv. induction 1 as [|[k' v'] m Hx Hm IH]; simpl.
  - constructor; [assumption|constructor].
  - destruct (String.eqb k k'); constructor; auto.
Qed.

Lemma Forall_delete {V} (P : V -> Prop) (k : string) (m : JsMap.t V) :
  Forall (fun kv => P (snd kv)) m ->
  Forall (fun kv => P (snd kv)) (JsMap.delete k m).
Proof.
  induction 1 as [|[k' v'] m Hx Hm IH]; simpl; [constructor|].
  destruct (String.eqb k k'); [assumption|constructor; auto].
Qed.

Lemma Forall_modify {V} (P : V -> Prop) (k : string) (f : V -> V) (m : JsMap.t V) :
  (forall v, P v -> P (f v)) ->
  Forall (fun kv => P (snd kv)) m ->
  Forall (fun kv => P (snd kv)) (JsMap.modify k f m).
Proof.
  intros Hf. induction 1 as [|[k' v'] m Hx Hm IH]; simpl; [constructor|].
  destruct (String.eqb k k'); constructor; auto. apply Hf, Hx.
Qed.

Lemma Forall_get {V} (P : V -> Prop) (k : string) (v : V) (m : JsMap.t V) :
  JsMap.get k m = Some v -> Forall (fun kv => P (snd kv)) m -> P v.
Proof.
  intros Hg. induction 1 as [|[k' v'] m Hx Hm IH]; simpl in *; [discriminate|].
  destruct (String.eqb k k'); [injection Hg as <-; exact Hx|auto].
Qed.

Lemma Forall_firstn {A} (P : A -> Prop) (n : nat) (l : list A) :
  Forall P l -> Forall P (firstn n l).
Proof.
  revert l. induction n; intros l H; simpl; [constructor|].
  destruct H; constructor; auto.
Qed.

Lemma Forall_slice0 {A} (P : A -> Prop) (e : Z) (l : list A) :
  Forall P l -> Forall P (slice0 l e).
Proof. intros H. unfold slice0. destruct (e <? 0)%Z; now apply Forall_firstn. Qed.

Lemma pushHistory_has_responses (st : EditorState) :
  store_has_responses st -> Forall routes_have_responses (pushHistory st).
Proof.
  intros [Hd Hh]. unfold pushHistory. rewrite cloneDocument_eq.
  apply Forall_app. split; [now apply Forall_slice0|]. constructor; auto.
Qed.

Lemma commit_has_responses (st : EditorState) (d : ApiDocument) (cmd : Command) :
  store_has_responses st -> routes_have_responses d ->
  store_has_responses (commit st d (pushHistory st) cmd).
Proof. intros Hs Hd. split; simpl; [assumption|now apply pushHistory_has_responses]. Qed.

Lemma editRoute_has_responses (rid : NodeId) (f : Route -> Route) (cmd : Command)
      (st : EditorState) :
  (forall r, has_response r -> has_response (f r)) ->
  store_has_responses st -> store_has_responses (editRoute rid f cmd st).
Proof.
  intros Hf Hs. unfold editRoute.
  destruct (JsMap.get rid (routes (document st))); [|assumption].
  apply commit_has_responses; [assumption|].
  unfold routes_have_responses. rewrite cloneDocument_eq. simpl.
  apply Forall_modify; [assumption|apply Hs].
Qed.

(** Every editing action other than [deleteResponse] keeps the property,
    provided what it brings in has it. *)
Lemma apply_keeps_responses (now : Z) (m : Mutation) (st st' : EditorState) :
  store_has_responses st -> payload_has_responses m ->
  is_deleteResponse m = false ->
  apply now m st = Some st' -> store_has_responses st'.
Proof.
  intros Hs Hp Hnd Ha.
  assert (Hr : routes_have_responses (document st)) by apply Hs.
  assert (Hkeep : forall d, routes d = routes (document st) ->
                            routes_have_responses d).
  { intros d E. unfold routes_have_responses. now rewrite E. }
  destruct m; cbn [apply payload_has_responses is_deleteResponse] in *;
    try discriminate; try (injection Ha as <-).
  all: try (apply editRoute_has_responses; [|assumption];
            intros r Hr'; unfold has_response in *; simpl;
            solve [assumption | apply set_not_empty]).
  all: try solve
         [ try unfold updateSchema; try unfold addFieldToSchema;
           try unfold updateField; try unfold deleteField;
           try unfold updateSecurityScheme;
           repeat break_match; try assumption;
           (apply commit_has_responses; [assumption|]);
           apply Hkeep; rewrite ?cloneDocument_eq; reflexivity ].
  - (* setDocument *)
    destruct Hs as [Hd Hh]. unfold setDocument. split; simpl; [assumption|].
    pose proof (pushHistory_has_responses st (conj Hd Hh)) as Hph.
    destruct (maxHistorySize st <? _)%Z; [|assumption].
    unfold shift. destruct Hph; simpl; [constructor|assumption].
  - (* addRoute *)
    apply commit_has_responses; [assumption|].
    unfold routes_have_responses. rewrite cloneDocument_eq. simpl.
    apply Forall_set; assumption.
  - (* updateRoute *)
    unfold updateRoute. destruct (JsMap.get id (routes (document st))) eqn:E;
      [|assumption].
    apply commit_has_responses; [assumption|].
    unfold routes_have_responses. rewrite cloneDocument_eq. simpl.
    apply Forall_set; [|assumption].
    unfold has_response; simpl. destruct (u_r_responses updates); simpl;
      [assumption|]. apply (Forall_get has_response _ _ _ E Hr).
  - (* deleteRoute *)
    apply commit_has_responses; [assumption|].
    unfold routes_have_responses. rewrite cloneDocument_eq. simpl.
    apply Forall_delete; assumption.
  - (* updateResponse *)
    unfold updateResponse. repeat break_match; try assumption.
    apply editRoute_has_responses; [|assumption].
    intros r' Hr'. unfold has_response; simpl. apply set_not_empty.
  - (* updateServer *)
    unfold updateServer in Ha. destruct ((0 <=? idx) && _)%Z; [|discriminate].
    injection Ha as <-. apply commit_has_responses; [assumption|]. apply Hkeep.
    rewrite cloneDocument_eq. reflexivity.
  - (* addTag *)
    apply commit_has_responses; [assumption|]. apply Hkeep.
    rewrite cloneDocument_eq. destruct (negb _); reflexivity.
Qed.

End Responses.

Section ResponsesInvariant.
Import Store StoreSpec StoreExamples Parser ImportExamples.

Lemma history_entry_has_responses (st : EditorState) (i : Z) (d : ApiDocument) :
  store_has_responses st -> index (history st) i = Some d ->
  routes_have_responses d.
Proof.
  intros [_ Hh] Hi. unfold index in Hi. destruct (i <? 0)%Z; [discriminate|].
  apply nth_error_In in Hi. rewrite Forall_forall in Hh. auto.
Qed.

Lemma undo_keeps_responses (st su : EditorState) :
  store_has_responses st -> undo st = Some su -> store_has_responses su.
Proof.
  intros Hs Hu. unfold undo in Hu.
  destruct (historyIndex st <? 0)%Z; [injection Hu as <-; assumption|].
  destruct (index (history st) (historyIndex st)) eqn:E; [|discriminate].
  injection Hu as <-. split; simpl; [|apply Hs].
  eapply history_entry_has_responses; eassumption.
Qed.

Lemma redo_keeps_responses (st : EditorState) :
  store_has_responses st -> store_has_responses (redo st).
Proof.
  intros Hs. unfold redo.
  destruct (_ <=? _)%Z; [assumption|].
  destruct (index (history st) (historyIndex st + 2)) eqn:E; [|assumption].
  split; simpl; [|apply Hs].
  eapply history_entry_has_responses; eassumption.
Qed.

(** C8 (as amended). [createRoute] returns a route with exactly one
    response; every route [parseOperation] returns has at least one; and
    every editing action of the store other than [deleteResponse], given a
    payload whose routes have a response, keeps the property "every route
    of the current document and of every snapshot has at least one
    response", as do [undo] and [redo]. *)
Theorem routes_keep_a_response
        (uuid : nat -> NodeId) (id respId path method : string)
        (fuel : nat) (opPath opMethod : string) (data : JValue)
        (doc : ApiDocument) (pst pst' : PState) (route : Route)
        (now : Z) (m : Mutation) (st st' : EditorState) :
  JsMap.size (r_responses (createRoute id respId path method)) = 1 /\
  (parseOperation uuid fuel opPath opMethod data doc pst = Ret (route, pst') ->
   has_response route) /\
  (store_has_responses st -> payload_has_responses m ->
   is_deleteResponse m = false -> apply now m st = Some st' ->
   store_has_responses st') /\
  (store_has_responses st ->
   store_has_responses (redo st) /\
   forall su, undo st = Some su -> store_has_responses su).
Proof.
  split; [reflexivity|]. split; [apply parseOperation_has_response|].
  split; [apply apply_keeps_responses|].
  intros Hs. split; [now apply redo_keeps_responses|].
  intros su Hu. eapply undo_keeps_responses; eassumption.
Qed.

Lemma store0_has_responses : store_has_responses store0.
Proof. split; constructor. Qed.

Lemma routes_keep_a_response_witness :
  (exists route pst',
      parseOperation Js.nat_to_string 1 "/pets" "get" bareOperation doc0 emptyState
      = Ret (route, pst') /\ has_response route) /\
  store_has_responses (addRoute 1 listPets store0).
Proof.
  assert (Hrun : exists route pst',
             parseOperation Js.nat_to_string 1 "/pets" "get" bareOperation doc0
                            emptyState = Ret (route, pst')).
  { do 2 eexists. vm_compute. reflexivity. }
  destruct Hrun as (route & pst' & Hrun).
  destruct (routes_keep_a_response Js.nat_to_string "route-1" "resp-1" "/pets" "get"
              1 "/pets" "get" bareOperation doc0 emptyState pst' route
              1%Z (AddRoute listPets) store0 (addRoute 1 listPets store0))
    as (_ & Hparse & Hstore & _).
  split.
  - exists route, pst'. split; [exact Hrun|exact (Hparse Hrun)].
  - apply Hstore.
    + exact store0_has_responses.
    + vm_compute. discriminate.
    + reflexivity.
    + reflexivity.
Defined.

(** C8 (as stated) fails: [deleteResponse] removes the only response of a
    route created by [createRoute]. *)
Lemma last_response_can_be_deleted :
  let st1 := addRoute 1 listPets store0 in
  let st2 := deleteResponse 2 "route-1" "200" st1 in
  store_has_responses st1 /\
  apply 2 (DeleteResponse "route-1" "200") st1 = Some st2 /\
  option_map r_responses (JsMap.get "route-1" (routes (document st2))) = Some [] /\
  ~ store_has_responses st2.
Proof.
  cbv zeta. split; [|split; [reflexivity|split; [reflexivity|]]].
  - apply (apply_keeps_responses 1 (AddRoute listPets) store0);
      [exact store0_has_responses| |reflexivity|reflexivity].
    vm_compute. discriminate.
  - intros [Hd _]. unfold routes_have_responses in Hd.
    vm_compute in Hd. inversion Hd as [|? ? Hx _]. apply Hx. reflexivity.
Qed.

End ResponsesInvariant.

(** ** The exporter *)

Section ExporterFacts.
Import Exporter.

(** [serializeSchema] is its body over [serializeSchemaOrRef], as in the
    source. *)
Lemma serializeSchema_unfold (fuel : nat) (doc : ApiDocument) (schema : SchemaNode) :
  serializeSchema fuel doc schema
  = serializeSchema_body (serializeSchemaOrRef fuel doc) schema.
Proof. destruct fuel, schema; reflexivity. Qed.



End ExporterFacts.

(** ** Usage counts and orphan detection *)

Section UsageCount.
Import Store Validator UsageSpec.

Lemma count_fold (id : NodeId) {A} (edge : A -> SchemaOrRef) (xs : list A) (c : nat) :
  fold_left (fun count x => countRef id count (edge x)) xs c
  = c + length (filter (refersTo id) (map edge xs)).
Proof.
  revert c. induction xs as [|x xs IH]; intros c; simpl; [lia|].
  rewrite IH. unfold countRef. destruct (refersTo id (edge x)); simpl; lia.
Qed.

Lemma count_fold_flat (id : NodeId) {A} (edges : A -> list SchemaOrRef)
      (step : nat -> A -> nat) (xs : list A) (c : nat) :
  (forall c a, step c a = c + length (filter (refersTo id) (edges a))) ->
  fold_left step xs c = c + length (filter (refersTo id) (flat_map edges xs)).
Proof.
  intros Hstep. revert c. induction xs as [|x xs IH]; intros c; simpl; [lia|].
  rewrite IH, Hstep, filter_app, length_app. lia.
Qed.

Lemma route_step (id : NodeId) (c : nat) (route : Route) :
  fold_left
    (fun count response =>
       match resp_content response with
       | Some content =>
           fold_left (fun count media => countRef id count (mt_schema media))
                     (JsMap.values content) count
       | None => count
       end)
    (JsMap.values (r_responses route))
    (match r_requestBody route with
     | Some body =>
         fold_left (fun count media => countRef id count (mt_schema media))
                   (JsMap.values (rb_content body))
                   (fold_left (fun count param => countRef id count (p_schema param))
                              (r_parameters route) c)
     | None =>
         fold_left (fun count param => countRef id count (p_schema param))
                   (r_parameters route) c
     end)
  = c + length (filter (refersTo id) (routeEdges route)).
Proof.
  unfold routeEdges.
  rewrite (count_fold_flat id
             (fun response => match resp_content response with
                              | Some content => map mt_schema (JsMap.values content)
                              | None => []
                              end)).
  - rewrite !filter_app, !length_app.
    destruct (r_requestBody route); rewrite !count_fold; simpl; lia.
  - intros c' a. destruct (resp_content a); [apply count_fold|simpl; lia].
Qed.

Lemma schema_step (id : NodeId) (c : nat) (schema : SchemaNode) :
  (if String.eqb (s_id schema) id then c
   else
     match s_variants schema with
     | Some variants =>
         fold_left (fun count variant => countRef id count variant) variants
           (match s_items schema with
            | Some items =>
                countRef id
                  (match s_properties schema with
                   | Some properties =>
                       fold_left (fun count prop => countRef id count (pd_schema prop))
                                 (JsMap.values properties) c
                   | None => c
                   end) items
            | None =>
                match s_properties schema with
                | Some properties =>
                    fold_left (fun count prop => countRef id count (pd_schema prop))
                              (JsMap.values properties) c
                | None => c
                end
            end)
     | None =>
         match s_items schema with
         | Some items =>
             countRef id
               (match s_properties schema with
                | Some properties =>
                    fold_left (fun count prop => countRef id count (pd_schema prop))
                              (JsMap.values properties) c
                | None => c
                end) items
         | None =>
             match s_properties schema with
             | Some properties =>
                 fold_left (fun count prop => countRef id count (pd_schema prop))
                           (JsMap.values properties) c
             | None => c
             end
         end
     end)
  = c + length (filter (refersTo id)
                       (if negb (String.eqb (s_id schema) id)
                        then schemaEdges schema else [])).
Proof.
  destruct (String.eqb (s_id schema) id); simpl; [lia|].
  unfold schemaEdges. rewrite !filter_app, !length_app.
  destruct (s_variants schema) as [vs|], (s_items schema) as [it|],
           (s_properties schema) as [ps|];
    rewrite ?(count_fold id (fun v => v)), ?count_fold, ?map_id; unfold countRef;
    unfold SchemaOrRef, PropertyDef in *;
    simpl; try destruct (refersTo id it); simpl; lia.
Qed.

Lemma flat_map_filter {A B} (p : A -> bool) (f : A -> list B) (xs : list A) :
  flat_map (fun x => if p x then f x else []) xs = flat_map f (filter p xs).
Proof.
  induction xs as [|x xs IH]; simpl; [reflexivity|].
  destruct (p x); simpl; now rewrite IH.
Qed.

(** The loops of [getSchemaUsageCount] count the direct [Ref] edges to
    [id]: those at routes, and those at the top-level schemas other than
    the one whose own identifier is [id]. *)
Lemma usage_count_is_direct_ref_count (id : NodeId) (st : EditorState) :
  getSchemaUsageCount id st = directRefCount (document st) id.
Proof.
  unfold getSchemaUsageCount, directRefCount, directEdges.
  rewrite (count_fold_flat id
             (fun s => if negb (String.eqb (s_id s) id) then schemaEdges s else [])).
  - rewrite (count_fold_flat id routeEdges).
    + rewrite filter_app, length_app, flat_map_filter. simpl. reflexivity.
    + intros c a. apply route_step.
  - intros c a. apply schema_step.
Qed.

(** A document all of whose direct edges are inline schemas has usage
    count 0 for every identifier, whatever those inline schemas contain. *)
Lemma inline_edges_are_not_counted (id : NodeId) (st : EditorState) :
  Forall (fun e => exists s, e = SInline s) (directEdges (document st) id) ->
  getSchemaUsageCount id st = 0.
Proof.
  intros H. rewrite usage_count_is_direct_ref_count. unfold directRefCount.
  induction H as [|e es [s ->] _ IH]; simpl; [reflexivity|assumption].
Qed.

(** C10. [getSchemaUsageCount] counts exactly the direct [Ref] edges to the
    identifier at route parameters, request-body and response media types,
    and at the properties, array items and variants of the other top-level
    schemas. A [Ref] nested inside an inline schema is not counted, nor is
    a [Ref] from the schema to itself: in both situations the count is 0
    for a schema the validator's orphan check has marked as used (and for
    which it reports no ORPHANED_SCHEMA). *)
Theorem usage_count_ignores_nested_and_self_refs :
  (forall id st, getSchemaUsageCount id st = directRefCount (document st) id) /\
  (getSchemaUsageCount "s-item" nestedStore = 0 /\
   set_has (usedSchemaIds (document nestedStore)) "s-item" = true /\
   Forall (fun e => loc_nodeId (location e) <> Some "s-item")
          (orphanWarnings (document nestedStore))) /\
  (getSchemaUsageCount "s-node" selfStore = 0 /\
   set_has (usedSchemaIds (document selfStore)) "s-node" = true /\
   orphanWarnings (document selfStore) = []).
Proof.
  split; [exact usage_count_is_direct_ref_count|].
  split; (split; [reflexivity|split; [reflexivity|]]).
  - vm_compute. repeat constructor. discriminate.
  - reflexivity.
Qed.

End UsageCount.

(** ** Route construction *)

Section RouteConstruction.
Import Store RouteList.

Lemma get_set_same {V} (k : string) (v : V) (m : JsMap.t V) :
  JsMap.get k (JsMap.set k v m) = Some v.
Proof.
  induction m as [|[k' v'] m IH]; simpl.
  - now rewrite String.eqb_refl.
  - destruct (String.eqb k k') eqn:E; simpl; [now rewrite String.eqb_refl|].
    now rewrite E.
Qed.

(** C2 (as amended). [createRoute(path, method)] returns a route with
    exactly one response, status 200 and description "Successful
    response", and with no parameters. The path parameters are filled in
    by [handleCreateRoute] of the route list: for the path
    /users/{id}/orders/{orderId} the route it adds to the store has exactly
    the two parameters id and orderId, in that order, each in the path,
    required, with an inline string schema. *)
Theorem createRoute_then_handler_adds_path_parameters
        (uuid : nat -> NodeId) (id respId path method : string)
        (now : Z) (st : EditorState) :
  r_responses (createRoute id respId path method)
  = [("200", mkResponseDef respId "Successful response" None None)] /\
  r_parameters (createRoute id respId path method) = [] /\
  option_map r_parameters
    (JsMap.get (uuid 0)
       (routes (document
          (handleCreateRoute uuid now "/users/{id}/orders/{orderId}" "get" [] st))))
  = Some [pathParameter (uuid 2) (uuid 3) "id";
          pathParameter (uuid 4) (uuid 5) "orderId"].
Proof.
  split; [reflexivity|]. split; [reflexivity|].
  unfold handleCreateRoute.
  change (trim "/users/{id}/orders/{orderId}") with "/users/{id}/orders/{orderId}".
  cbn [nonempty negb String.eqb Ascii.eqb Bool.eqb Js.startsWith String.prefix].
  unfold addRoute. cbn [document commit withSelectedRoute].
  rewrite cloneDocument_eq. cbn [routes withRoutes].
  change (r_id (newRoute uuid "/users/{id}/orders/{orderId}" "get" [])) with (uuid 0).
  rewrite get_set_same. reflexivity.
Qed.

(** C2 (as stated) fails: [createRoute] itself derives nothing from the
    placeholders of the path. *)
Lemma createRoute_has_no_parameters :
  r_parameters (createRoute "route-1" "resp-1" "/users/{id}/orders/{orderId}" "get") = [] /\
  length (r_parameters
            (createRoute "route-1" "resp-1" "/users/{id}/orders/{orderId}" "get")) <> 2.
Proof. split; [reflexivity|discriminate]. Qed.

End RouteConstruction.

(** ** Export followed by import *)

Section RoundTripFails.
Import Js Parser Exporter RoundTrip.


End RoundTripFails.

(** ** Export followed by import: the documents that survive *)

Section ObjectKeys.
Import Js Exporter Exportable.

Lemma has_includes {V} (k : string) (o : JsMap.t V) :
  JsMap.has k o = includes (JsMap.keys o) k.
Proof.
  unfold JsMap.has, includes. induction o as [|[k' v'] o IH]; simpl; [reflexivity|].
  destruct (String.eqb k k'); [reflexivity|exact IH].
Qed.

Lemma get_app_none {V} (k : string) (o o' : JsMap.t V) :
  JsMap.get k o = None -> JsMap.get k (o ++ o') = JsMap.get k o'.
Proof.
  induction o as [|[k' v'] o IH]; simpl; [reflexivity|].
  destruct (String.eqb k k'); [discriminate|exact IH].
Qed.

Lemma get_app_some {V} (k : string) (v : V) (o o' : JsMap.t V) :
  JsMap.get k o = Some v -> JsMap.get k (o ++ o') = Some v.
Proof.
  induction o as [|[k' v'] o IH]; simpl; [discriminate|].
  destruct (String.eqb k k'); [auto|exact IH].
Qed.

Lemma get_set {V} (k k' : string) (v : V) (o : JsMap.t V) :
  JsMap.get k (JsMap.set k' v o)
  = if String.eqb k k' then Some v else JsMap.get k o.
Proof.
  induction o as [|[k0 v0] o IH]; simpl.
  - destruct (String.eqb k k'); reflexivity.
  - destruct (String.eqb k' k0) eqn:E0; simpl.
    + apply String.eqb_eq in E0. subst k0.
      destruct (String.eqb k k'); reflexivity.
    + destruct (String.eqb k k0) eqn:E1.
      * apply String.eqb_eq in E1. subst k0.
        rewrite String.eqb_sym, E0. reflexivity.
      * exact IH.
Qed.

Lemma get_insert_index (k k' : string) (n : N) (v : JValue) (o : JRecord) :
  JsMap.get k' o = None ->
  JsMap.get k (insert_index n k' v o)
  = if String.eqb k k' then Some v else JsMap.get k o.
Proof.
  induction o as [|[k0 v0] o IH]; simpl; intros Hn.
  - destruct (String.eqb k k'); reflexivity.
  - destruct (String.eqb k' k0) eqn:E0; [discriminate|].
    destruct (array_index k0) as [n'|].
    + destruct (n <? n')%N; simpl.
      * destruct (String.eqb k k'); reflexivity.
      * destruct (String.eqb k k0) eqn:E1.
        -- apply String.eqb_eq in E1. subst k0.
           rewrite String.eqb_sym, E0. reflexivity.
        -- apply IH, Hn.
    + simpl. destruct (String.eqb k k'); reflexivity.
Qed.

(** Reading a key after an assignment. *)
Lemma get_obj_set (k k' : string) (v : JValue) (o : JRecord) :
  JsMap.get k (obj_set k' v o)
  = if String.eqb k k' then Some v else JsMap.get k o.
Proof.
  unfold obj_set, JsMap.has.
  destruct (JsMap.get k' o) eqn:E; [apply get_set|].
  destruct (array_index k'); [now apply get_insert_index|].
  destruct (String.eqb k k') eqn:E1.
  - apply String.eqb_eq in E1. subst k'. rewrite get_app_none by assumption.
    simpl. now rewrite String.eqb_refl.
  - destruct (JsMap.get k o) eqn:E2.
    + now apply get_app_some.
    + rewrite get_app_none by assumption. simpl. now rewrite E1.
Qed.

Lemma insert_index_appends (n : N) (k : string) (v : JValue) (o : JRecord) :
  forallb (fun k' => match array_index k' with
                     | Some n' => (n' <? n)%N
                     | None => false
                     end) (JsMap.keys o) = true ->
  insert_index n k v o = o ++ [(k, v)].
Proof.
  induction o as [|[k0 v0] o IH]; simpl; intros H; [reflexivity|].
  apply andb_prop in H as [H0 H1].
  destruct (array_index k0) as [n'|]; [|discriminate].
  apply N.ltb_lt in H0. destruct (N.ltb_spec n n'); [lia|].
  now rewrite IH.
Qed.

(** An appendable key is appended. *)
Lemma obj_set_appends (k : string) (v : JValue) (o : JRecord) :
  appendable (JsMap.keys o) k = true -> obj_set k v o = o ++ [(k, v)].
Proof.
  unfold appendable, obj_set. intros H. apply andb_prop in H as [H0 H1].
  rewrite has_includes. apply negb_true_iff in H0. rewrite H0.
  destruct (array_index k); [now apply insert_index_appends|reflexivity].
Qed.

Lemma keys_app {V} (o o' : JsMap.t V) :
  JsMap.keys (o ++ o') = JsMap.keys o ++ JsMap.keys o'.
Proof. apply map_app. Qed.

(** Assigning the entries of a list whose keys are in key order, one after
    the other, builds that list. *)
Lemma fold_obj_set_ordered {A} (key : A -> string) (val : A -> JValue)
      (xs : list A) : forall (o : JRecord),
  js_ordered_from (JsMap.keys o) (map key xs) = true ->
  fold_left (fun acc x => obj_set (key x) (val x) acc) xs o
  = o ++ map (fun x => (key x, val x)) xs.
Proof.
  induction xs as [|x xs IH]; intros o H; simpl in *.
  - now rewrite app_nil_r.
  - apply andb_prop in H as [H0 H1].
    rewrite (obj_set_appends _ _ _ H0), IH.
    + now rewrite <- app_assoc.
    + rewrite keys_app. exact H1.
Qed.

Lemma set_appends {V} (k : string) (v : V) (m : JsMap.t V) :
  includes (JsMap.keys m) k = false -> JsMap.set k v m = m ++ [(k, v)].
Proof.
  unfold includes.
  induction m as [|[k' v'] m IH]; simpl; intros H; [reflexivity|].
  apply orb_false_elim in H as [H0 H1]. rewrite H0. now rewrite IH.
Qed.

Lemma appendable_new (seen : list string) (k : string) :
  appendable seen k = true -> includes seen k = false.
Proof.
  unfold appendable. intros H. apply andb_prop in H as [H _].
  now apply negb_true_iff.
Qed.

End ObjectKeys.

Section ImporterSteps.
Import Js Parser Exporter RoundTrip Exportable RoundTripAux.

Lemma sameButIds_refl (st : PState) : sameButIds st st.
Proof. repeat split; reflexivity. Qed.

Lemma sameButIds_trans (st1 st2 st3 : PState) :
  sameButIds st1 st2 -> sameButIds st2 st3 -> sameButIds st1 st3.
Proof.
  intros (A & B & C) (D & E & F). repeat split; [congruence|congruence|lia].
Qed.

Lemma generateId_same (uuid : nat -> NodeId) (st : PState) :
  exists st', generateId uuid st = Ret (uuid (nextId st), st') /\ sameButIds st st'.
Proof. eexists. split; [reflexivity|]. repeat split; simpl; lia. Qed.

Lemma strings_of_strings (l : list string) : strings_of (map JStr l) = Some l.
Proof. induction l as [|x l IH]; simpl; [reflexivity|now rewrite IH]. Qed.

Lemma as_string_array_strings (what : string) (l : list string) :
  as_string_array what (Some (JArr (map JStr l))) = ret l.
Proof. unfold as_string_array. now rewrite strings_of_strings. Qed.

Lemma substring_all (s : string) : substring 0 (String.length s) s = s.
Proof. induction s as [|c s IH]; simpl; [reflexivity|now rewrite IH]. Qed.

(** The exporter's [$ref] for a good name is read back as that name. *)
Lemma matchSchemaRef_refTo (n : string) :
  goodName n = true ->
  matchSchemaRef ("#/components/schemas/" ++ n) = Some n.
Proof.
  unfold goodName, no_line_terminator. intros H. apply andb_prop in H as [H0 H1].
  unfold matchSchemaRef.
  assert (Hp : startsWith ("#/components/schemas/" ++ n) schemaRefPrefix = true).
  { unfold startsWith, schemaRefPrefix. simpl. destruct n; reflexivity. }
  rewrite Hp.
  replace (substring (String.length schemaRefPrefix)
             (String.length ("#/components/schemas/" ++ n) - String.length schemaRefPrefix)
             ("#/components/schemas/" ++ n)) with n.
  - now rewrite H0, H1.
  - simpl. now rewrite Nat.sub_0_r, substring_all.
Qed.

End ImporterSteps.

Ltac split_andb :=
  repeat match goal with
         | H : _ && _ = true |- _ =>
             let H1 := fresh H in apply andb_prop in H; destruct H as [H H1]
         end.

Section Lookups.
Import Js Parser Exporter RoundTrip Exportable RoundTripAux.

Lemma get_set_if_truthy (k k' : string) (x : option string) (o : JRecord) :
  JsMap.get k (set_if_truthy k' x o)
  = if String.eqb k k'
    then or_else (written_str x) (JsMap.get k o)
    else JsMap.get k o.
Proof.
  unfold set_if_truthy, written_str, truthy_str, or_else.
  destruct x as [s|]; [destruct (nonempty s)|]; simpl;
    rewrite ?get_obj_set; destruct (String.eqb k k'); reflexivity.
Qed.

Lemma get_set_if_defined (k k' : string) (x : option JValue) (o : JRecord) :
  JsMap.get k (set_if_defined k' x o)
  = if String.eqb k k'
    then or_else x (JsMap.get k o)
    else JsMap.get k o.
Proof.
  unfold set_if_defined, or_else. destruct x; rewrite ?get_obj_set;
    destruct (String.eqb k k'); reflexivity.
Qed.

Lemma or_else_none {A} (x : option A) : or_else x None = x.
Proof. destruct x; reflexivity. Qed.

Lemma or_else_some {A} (v : A) (y : option A) : or_else (Some v) y = Some v.
Proof. reflexivity. Qed.

Lemma written_str_ok (x : option string) :
  opt_nonempty x = true -> written_str x = option_map JStr x.
Proof. unfold written_str, truthy_str. destruct x; simpl; [intros ->|]; reflexivity. Qed.

(** Reading back an optional string the exporter wrote when it was there
    and not empty. *)
Lemma as_opt_string_written (what : string) (x : option string) :
  opt_nonempty x = true ->
  as_opt_string what (option_map JStr x) = ret x.
Proof. destruct x; reflexivity. Qed.

Lemma string_if_truthy_written (what : string) (x : option string) :
  opt_nonempty x = true ->
  string_if_truthy what (option_map JStr x) = ret x.
Proof.
  unfold string_if_truthy. destruct x as [s|]; simpl; [|reflexivity].
  intros ->. reflexivity.
Qed.

Lemma number_if_defined_written (what : string) (x : option Z) :
  number_if_defined what (option_map JNum x) = ret x.
Proof. destruct x; reflexivity. Qed.

Lemma nonempty_cons (c : ascii) (s : string) : nonempty (String c s) = true.
Proof. reflexivity. Qed.

Lemma as_opt_string_str (what : string) (x : option string) :
  as_opt_string what (option_map JStr x) = ret x.
Proof. destruct x; reflexivity. Qed.

Lemma as_opt_string_none (what : string) : as_opt_string what None = ret None.
Proof. reflexivity. Qed.

Lemma string_if_truthy_none (what : string) : string_if_truthy what None = ret None.
Proof. reflexivity. Qed.

Lemma number_if_defined_none (what : string) : number_if_defined what None = ret None.
Proof. reflexivity. Qed.

Lemma string_array_or_empty_none (what : string) :
  string_array_or_empty what None = ret [].
Proof. reflexivity. Qed.

Lemma string_array_or_empty_strings (what : string) (x : string) (l : list string) :
  string_array_or_empty what (Some (JArr (map JStr (x :: l)))) = ret (x :: l).
Proof.
  unfold string_array_or_empty. simpl truthy_opt. cbv iota.
  apply as_string_array_strings.
Qed.

Lemma string_or_written (what : string) (s d : string) :
  nonempty s = true -> string_or what (Some (JStr s)) d = ret s.
Proof. unfold string_or. simpl. intros ->. reflexivity. Qed.

End Lookups.

(** Evaluates, in the equation [E], the lookups in records the exporter
    built by a chain of assignments. *)
Ltac lookup_step E :=
  match type of E with
  | context [JsMap.get ?k (Exporter.set_if_defined ?k' ?x ?o)] =>
      rewrite (get_set_if_defined k k' x o) in E
  | context [JsMap.get ?k (Exporter.set_if_truthy ?k' ?x ?o)] =>
      rewrite (get_set_if_truthy k k' x o) in E
  | context [JsMap.get ?k (Exporter.obj_set ?k' ?v ?o)] =>
      rewrite (get_obj_set k k' v o) in E
  | context [JsMap.get ?k (RoundTripAux.described ?x ?o)] =>
      unfold RoundTripAux.described in E;
      rewrite (get_set_if_truthy k "description" x o) in E
  end;
  cbn [String.eqb Ascii.eqb Bool.eqb] in E.

Ltac lookup_in E :=
  repeat lookup_step E;
  cbn [JsMap.get String.eqb Ascii.eqb Bool.eqb] in E;
  repeat match goal with
         | H : Exportable.opt_nonempty ?x = true |- _ =>
             rewrite !(written_str_ok x H) in E
         end;
  repeat match type of E with
         | context [RoundTripAux.or_else ?x None] => rewrite (or_else_none x) in E
         | context [RoundTripAux.or_else (Some ?v) ?y] =>
             rewrite (or_else_some v y) in E
         end.

(** Replaces the lookup of [k] in the record [r] by what it finds. *)
Ltac read_key r k :=
  let E := fresh "Hget" in
  let x := fresh "x" in
  remember (JsMap.get k r) as x eqn:E;
  lookup_in E; subst x.

(** Decides a goal [JsMap.get k r = v]. *)
Ltac solve_lookup :=
  match goal with
  | |- JsMap.get ?k ?r = _ => read_key r k; reflexivity
  end.

Ltac read_schema_keys r :=
  read_key r "oneOf"; read_key r "anyOf"; read_key r "allOf"; read_key r "enum";
  read_key r "type"; read_key r "description"; read_key r "properties";
  read_key r "required"; read_key r "items"; read_key r "discriminator";
  read_key r "format"; read_key r "minimum"; read_key r "maximum";
  read_key r "minLength"; read_key r "maxLength"; read_key r "pattern";
  read_key r "example"; read_key r "default".

(** Uses the hypotheses that say a field is absent. *)
Ltac absent_fields :=
  repeat match goal with
         | H : Exportable.is_none ?x = true |- _ =>
             destruct x; [discriminate H|clear H]
         end.

(** Runs the importer over values that are known, one action after the
    other; the casts of values the exporter wrote are rewritten as they
    come to the front. *)
Ltac parser_steps :=
  cbv beta iota zeta delta
      [Parser.bind Parser.ret Js.truthy_opt Js.truthy SchemaType_eqb andb negb
       fst snd Parser.prop Parser.opt_prop Parser.field Parser.as_string
       Parser.generateId Parser.schemaOrDefault Parser.when
       Exporter.strings Js.object_entries Js.is_object].

Ltac parser_steps_in H :=
  cbv beta iota zeta delta
      [Parser.bind Parser.ret Js.truthy_opt Js.truthy SchemaType_eqb andb negb
       fst snd Parser.prop Parser.opt_prop Parser.field Parser.as_string
       Parser.generateId Parser.schemaOrDefault Parser.when
       Exporter.strings Js.object_entries Js.is_object] in H.

(** Rewrites with an equation about a call of the importer, after the
    call was brought to the form the goal shows it in. *)
Ltac rewrite_norm H :=
  let H' := fresh in
  pose proof H as H'; parser_steps_in H'; rewrite H'; clear H'.

Ltac run_parser :=
  repeat (parser_steps;
          first [ rewrite as_opt_string_none
                | rewrite string_if_truthy_none
                | rewrite number_if_defined_none
                | rewrite string_array_or_empty_none
                | rewrite as_opt_string_written by assumption
                | rewrite string_if_truthy_written by assumption
                | rewrite number_if_defined_written
                | rewrite string_array_or_empty_strings
                | rewrite as_string_array_strings
                | rewrite string_or_written by assumption
                | rewrite nonempty_cons
                | match goal with
                  | H : ?b = true |- context [if ?b then _ else _] => rewrite H
                  end
                | progress cbn [JsMap.get String.eqb Ascii.eqb Bool.eqb]
                | match goal with
                  | |- context [JsMap.get ?k (Exporter.set_if_truthy ?a ?b ?c)] =>
                      read_key (Exporter.set_if_truthy a b c) k
                  | |- context [JsMap.get ?k (Exporter.set_if_defined ?a ?b ?c)] =>
                      read_key (Exporter.set_if_defined a b c) k
                  | |- context [JsMap.get ?k (Exporter.obj_set ?a ?b ?c)] =>
                      read_key (Exporter.obj_set a b c) k
                  end ]);
  parser_steps.

Section LeafSchemas.
Import Js Parser Exporter RoundTrip Exportable RoundTripAux.

Variable doc : ApiDocument.
Variable edge : SchemaOrRef -> option JRecord.

(** A string, number, integer or boolean schema is written field by field
    and read back as it was. *)
Lemma primitive_parses_back (s : SchemaNode) :
  (s_type s = TString \/ s_type s = TNumber \/ s_type s = TInteger \/
   s_type s = TBoolean) ->
  exportableSchema doc s = true ->
  exists r, serializeSchema_body edge s = Some r /\
    JsMap.get "$ref" r = None /\
    JsMap.get "description" r = option_map JStr (s_description s) /\
    forall edgeP name id st,
      parseSchema_body edgeP (JObj r) name id st = Ret (restamp name id s, st).
Proof.
  intros Ht He.
  destruct s as [i n t d p it v e r f ex df mi ma ml mx pa di].
  simpl in Ht.
  destruct Ht as [->|[->|[->| ->]]];
    unfold exportableSchema, structural_fields_absent in He; simpl in He;
    split_andb; absent_fields;
    (eexists; split;
     [ cbv [serializeSchema_body is_composition s_type s_description s_format
            s_minimum s_maximum s_minLength s_maxLength s_pattern s_example
            s_default type_name]; reflexivity |];
     cbn [s_description];
     split; [solve_lookup|]; split; [solve_lookup|];
     intros; unfold parseSchema_body, prop, field;
     match goal with |- context [JsMap.get "oneOf" ?r] => read_schema_keys r end;
     run_parser; reflexivity).
Qed.

(** An enumeration with values is written as a string schema with an
    [enum] list and read back as the enumeration. *)
Lemma enum_parses_back (s : SchemaNode) :
  s_type s = TEnum ->
  exportableSchema doc s = true ->
  exists r, serializeSchema_body edge s = Some r /\
    JsMap.get "$ref" r = None /\
    JsMap.get "description" r = option_map JStr (s_description s) /\
    forall edgeP name id st,
      parseSchema_body edgeP (JObj r) name id st = Ret (restamp name id s, st).
Proof.
  intros Ht He.
  destruct s as [i n t d p it v e r f ex df mi ma ml mx pa di].
  simpl in Ht. subst t.
  unfold exportableSchema, constraint_fields_absent in He. simpl in He.
  split_andb. destruct e as [[|e0 es]|]; try discriminate. absent_fields.
  eexists; split;
    [ cbv [serializeSchema_body is_composition s_type s_description
           s_enumValues]; reflexivity |].
  cbn [s_description].
  split; [solve_lookup|]. split; [solve_lookup|].
  intros; unfold parseSchema_body, prop, field.
  match goal with |- context [JsMap.get "oneOf" ?r] => read_schema_keys r end.
  run_parser. reflexivity.
Qed.

End LeafSchemas.

(** *** Schemas and edges *)

Section Depths.
Import Js Parser.

Lemma depth_in_obj (k : string) (v : JValue) (r : list (string * JValue)) :
  In (k, v) r -> depth v < depth (JObj r).
Proof.
  simpl. induction r as [|[k0 v0] r IH]; simpl; [tauto|].
  intros [E|H]; [inversion E; subst; lia|].
  specialize (IH H). lia.
Qed.

Lemma get_in {V} (k : string) (v : V) (r : JsMap.t V) :
  JsMap.get k r = Some v -> In (k, v) r.
Proof.
  induction r as [|[k0 v0] r IH]; simpl; [discriminate|].
  destruct (String.eqb k k0) eqn:E.
  - apply String.eqb_eq in E. subst k0. intros H. inversion H. now left.
  - intros H. right. now apply IH.
Qed.

Lemma depth_get (k : string) (v : JValue) (r : list (string * JValue)) :
  JsMap.get k r = Some v -> depth v < depth (JObj r).
Proof. intros H. eapply depth_in_obj, get_in, H. Qed.

Lemma depth_in_arr (v : JValue) (vs : list JValue) :
  In v vs -> depth v < depth (JArr vs).
Proof.
  simpl. induction vs as [|v0 vs IH]; simpl; [tauto|].
  intros [E|H]; [subst; lia|]. specialize (IH H). lia.
Qed.

End Depths.

Section ForgetFacts.
Import Js Parser Exporter RoundTrip Exportable RoundTripAux.

Lemma forget_restamp (nm : NodeId -> string) (name : option string) (id : NodeId)
      (s : SchemaNode) :
  s_name s = name -> forgetSchema nm (restamp name id s) = forgetSchema nm s.
Proof. destruct s; simpl. intros ->. reflexivity. Qed.

(** [forgetSchema], with its edges written by [forgetEdge]. *)
Lemma forgetSchema_eq (nm : NodeId -> string) (s : SchemaNode) :
  forgetSchema nm s
  = mkSchemaNode "" (s_name s) (s_type s) (s_description s)
      (option_map
         (map (fun kv : string * PropertyDef =>
                 (fst kv, mkPropertyDef (pd_name (snd kv))
                                        (forgetEdge nm (pd_schema (snd kv)))
                                        (pd_required (snd kv))
                                        (pd_description (snd kv)))))
         (s_properties s))
      (option_map (forgetEdge nm) (s_items s))
      (option_map (map (forgetEdge nm)) (s_variants s))
      (s_enumValues s) (s_required s) (s_format s) (s_example s) (s_default s)
      (s_minimum s) (s_maximum s) (s_minLength s) (s_maxLength s) (s_pattern s)
      (s_discriminator s).
Proof. destruct s. reflexivity. Qed.

Lemma set_same {V} (k : string) (v : V) (o : JsMap.t V) :
  JsMap.get k o = Some v -> JsMap.set k v o = o.
Proof.
  induction o as [|[k0 v0] o IH]; simpl; [discriminate|].
  destruct (String.eqb k k0) eqn:E; intros H.
  - apply String.eqb_eq in E. inversion H. now subst.
  - now rewrite IH.
Qed.

Lemma obj_set_same (k : string) (v : JValue) (o : JRecord) :
  JsMap.get k o = Some v -> obj_set k v o = o.
Proof.
  intros H. unfold obj_set, JsMap.has. rewrite H. now apply set_same.
Qed.

(** Adding to the record of an inline schema the description it already
    has changes nothing. *)
Lemma described_same (x : option string) (r : JRecord) :
  JsMap.get "description" r = option_map JStr x -> described x r = r.
Proof.
  unfold described, set_if_truthy. destruct x as [d|]; [|reflexivity].
  simpl. intros H. destruct (nonempty d); [|reflexivity].
  now apply obj_set_same.
Qed.

End ForgetFacts.

Section Edges.
Import Js Parser Exporter RoundTrip Exportable RoundTripAux.

Variable uuid : nat -> NodeId.
Variable doc : ApiDocument.
Variable reg : JsMap.t NodeId.
Variable fuelE : nat.
Hypothesis Hreg : Registry doc reg.

Lemma nonempty_ref (n : string) : nonempty ("#/components/schemas/" ++ n) = true.
Proof. reflexivity. Qed.

(** An edge is written and read back: a [Ref] by the name of its target,
    an inline schema as the schema is. *)
Lemma edge_ok (x : option string) (e : SchemaOrRef) :
  exportableEdge doc e = true ->
  x = None \/ describes x e ->
  (forall s, e = SInline s -> SchemaOK uuid doc reg fuelE s) ->
  EdgeOK uuid doc reg fuelE x e.
Proof.
  intros He Hx Hs. destruct e as [t|s].
  - (* a reference *)
    simpl in He. pose proof (Hreg t He) as (id' & Hget & Hid).
    assert (Hn : exists n, nameOf doc t = n /\ goodName n = true /\
                           serializeSchemaOrRef fuelE doc (SRef t) = Some (refTo n)).
    { unfold resolvable in He. unfold nameOf, serializeSchemaOrRef, serializeEdge.
      destruct (JsMap.get t (schemas doc)) as [ts|]; [|discriminate].
      destruct (s_name ts) as [n|]; [|discriminate].
      exists n. repeat split; [assumption|].
      unfold goodName in He. apply andb_prop in He as [-> _]. reflexivity. }
    destruct Hn as (n & Hname & Hgood & Hser). rewrite Hname in *.
    exists (refTo n). split; [exact Hser|].
    assert (Href : JsMap.get "$ref" (described x (refTo n))
                   = Some (JStr ("#/components/schemas/" ++ n))).
    { unfold refTo. solve_lookup. }
    split.
    + intros f st _ Hst. exists (SRef id'), st.
      split; [|split; [apply sameButIds_refl|]].
      * unfold parseSchemaOrRef, parseSchemaOrRef_with.
        cbv beta iota zeta delta [bind ret prop field]. rewrite Href.
        cbv beta iota. rewrite nonempty_ref, (matchSchemaRef_refTo n Hgood).
        unfold getName. rewrite Hst, Hget. cbv beta iota. rewrite Hid.
        reflexivity.
      * intros nm' Hnm. simpl. rewrite (Hnm t id' He); [now rewrite Hname|].
        now rewrite Hname.
    + intros Hd. simpl in Hd. unfold refTo. solve_lookup.
  - (* an inline schema *)
    simpl in He. apply andb_prop in He as [Hnone He].
    destruct (Hs s eq_refl) as (r & Hser & Href & Hdesc & Hback).
    assert (Hsame : described x r = r).
    { destruct Hx as [->|Hx]; [reflexivity|].
      apply described_same. simpl in Hx. now subst x. }
    exists r. split; [exact Hser|]. rewrite Hsame. split.
    + intros f st Hf Hst.
      destruct (generateId_same uuid st) as (st1 & Hgen & Hsame1).
      destruct (Hback f None (uuid (nextId st)) st1 Hf) as
          (s' & st' & Hparse & Hsame2 & _ & _ & Hforget).
      { destruct Hsame1 as (_ & -> & _). exact Hst. }
      exists (SInline s'), st'. split; [|split].
      * unfold parseSchemaOrRef, parseSchemaOrRef_with.
        cbv beta iota zeta delta [bind ret prop field]. rewrite Href.
        cbv beta iota. rewrite Hgen. cbv beta iota.
        rewrite Hparse. reflexivity.
      * eapply sameButIds_trans; eassumption.
      * intros nm' Hnm. simpl. rewrite (Hforget nm' Hnm).
        rewrite forget_restamp; [reflexivity|].
        destruct (s_name s); [discriminate|reflexivity].
    + intros Hd. simpl in Hd. subst x. exact Hdesc.
Qed.

End Edges.

Section SchemaCases.
Import Js Parser Exporter RoundTrip Exportable RoundTripAux.

Variable uuid : nat -> NodeId.
Variable doc : ApiDocument.
Variable reg : JsMap.t NodeId.
Variable fuelE : nat.
Hypothesis Hreg : Registry doc reg.

Lemma parseSchema_S (f : nat) :
  parseSchema uuid (S f) = parseSchema_body (parseSchemaOrRef uuid f).
Proof. reflexivity. Qed.

Lemma depth_obj_pos (r : JRecord) (f : nat) :
  depth (JObj r) <= f -> exists f', f = S f'.
Proof. simpl. destruct f as [|f']; [lia|]. now exists f'. Qed.

(** A schema without edges that is read back as it was written is read
    back at every recursion bound. *)
Lemma leaf_ok (s : SchemaNode) :
  s_properties s = None -> s_items s = None -> s_variants s = None ->
  (exists r, serializeSchema_body (serializeSchemaOrRef fuelE doc) s = Some r /\
     JsMap.get "$ref" r = None /\
     JsMap.get "description" r = option_map JStr (s_description s) /\
     forall edgeP name id st,
       parseSchema_body edgeP (JObj r) name id st = Ret (restamp name id s, st)) ->
  SchemaOK uuid doc reg fuelE s.
Proof.
  intros Hp Hi Hv (r & Hser & Href & Hdesc & Hparse).
  exists r. rewrite serializeSchema_unfold. repeat split; try assumption.
  intros f name id st Hf Hst. destruct (depth_obj_pos r f Hf) as [f' ->].
  exists (restamp name id s), st. rewrite parseSchema_S, Hparse.
  split; [reflexivity|]. split; [apply sameButIds_refl|].
  split; [reflexivity|]. split; [reflexivity|].
  intros nm' _. destruct s. simpl in *. subst. reflexivity.
Qed.

(** An array schema: the record holds the type and the edge to the items. *)
Lemma array_ok (s : SchemaNode) :
  s_type s = TArray ->
  exportableSchema doc s = true ->
  (forall e, s_items s = Some e -> EdgeOK uuid doc reg fuelE None e) ->
  SchemaOK uuid doc reg fuelE s.
Proof.
  intros Ht He Hedge.
  destruct s as [i n t d p it v e r f ex df mi ma ml mx pa di].
  simpl in Ht. subst t.
  unfold exportableSchema, constraint_fields_absent in He. simpl in He.
  fold exportableSchema in He. split_andb. absent_fields.
  destruct it as [e|].
  - destruct (Hedge e eq_refl) as (rj & Hser & Hback & _).
    change (described None rj) with rj in Hback.
    unfold SchemaOK. rewrite serializeSchema_unfold.
    cbv [serializeSchema_body is_composition s_type s_description s_items].
    rewrite Hser. cbn [option_map].
    eexists. split; [reflexivity|].
    split; [solve_lookup|]. split; [solve_lookup|].
    intros f name id st Hf Hst.
    destruct (depth_obj_pos _ f Hf) as [f' ->].
    assert (Hj : depth (JObj rj) <= f').
    { apply Nat.lt_succ_r. eapply Nat.lt_le_trans; [|exact Hf].
      apply (depth_get "items"). solve_lookup. }
    destruct (Hback f' st Hj Hst) as (e' & st' & Hparse & Hsame & Hforget).
    eexists. exists st'. split; [|split; [exact Hsame|]].
    + rewrite parseSchema_S. unfold parseSchema_body, prop, field.
      match goal with |- context [JsMap.get "oneOf" ?r] => read_schema_keys r end.
      run_parser. rewrite Hparse. run_parser. reflexivity.
    + split; [reflexivity|]. split; [reflexivity|].
      intros nm' Hnm. rewrite !forgetSchema_eq. cbn -[forgetEdge].
      now rewrite (Hforget nm' Hnm).
  - apply leaf_ok; try reflexivity. eexists. split;
      [cbv [serializeSchema_body is_composition s_type s_description s_items];
       reflexivity|].
    cbn [s_description].
    split; [solve_lookup|]. split; [solve_lookup|].
    intros. unfold parseSchema_body, prop, field.
    match goal with |- context [JsMap.get "oneOf" ?r] => read_schema_keys r end.
    run_parser. reflexivity.
Qed.

(** The variants of a composition are written one after the other, and
    read back one after the other. *)
Lemma variants_export (es : list SchemaOrRef) :
  Forall (EdgeOK uuid doc reg fuelE None) es ->
  exists rs, map_opt (serializeSchemaOrRef fuelE doc) es = Some rs /\
             Forall2 (edgeReadsBack uuid doc reg) es rs.
Proof.
  induction 1 as [|e es He _ IH]; simpl.
  - exists []. split; [reflexivity|constructor].
  - destruct He as (r & Hser & Hback & _). destruct IH as (rs & Hrs & Hall).
    rewrite Hser, Hrs. exists (r :: rs). split; [reflexivity|].
    constructor; assumption.
Qed.

Lemma variants_import (es : list SchemaOrRef) (rs : list JRecord) :
  Forall2 (edgeReadsBack uuid doc reg) es rs ->
  forall f st,
    (forall r, In r rs -> depth (JObj r) <= f) -> schemaNameToId st = reg ->
    exists es' st',
      mapM (parseSchemaOrRef uuid f) (map JObj rs) st = Ret (es', st') /\
      sameButIds st st' /\
      forall nm', Names doc reg nm' ->
        map (forgetEdge nm') es' = map (forgetEdge (nameOf doc)) es.
Proof.
  induction 1 as [|e r es rs He _ IH]; intros f st Hf Hst.
  - exists [], st. split; [reflexivity|]. split; [apply sameButIds_refl|].
    reflexivity.
  - destruct (He f st (Hf r (or_introl eq_refl)) Hst)
      as (e' & st1 & Hparse & Hsame1 & Hforget1).
    destruct (IH f st1) as (es' & st2 & Hrest & Hsame2 & Hforget2).
    { intros r' Hr'. apply Hf. now right. }
    { destruct Hsame1 as (_ & -> & _). exact Hst. }
    exists (e' :: es'), st2. split; [|split].
    + simpl. unfold bind. rewrite Hparse, Hrest. reflexivity.
    + eapply sameButIds_trans; eassumption.
    + intros nm' Hnm. simpl. now rewrite (Hforget1 nm' Hnm), (Hforget2 nm' Hnm).
Qed.

End SchemaCases.

Section Compositions.
Import Js Parser Exporter RoundTrip Exportable RoundTripAux.

Variable uuid : nat -> NodeId.
Variable doc : ApiDocument.
Variable reg : JsMap.t NodeId.
Variable fuelE : nat.
Hypothesis Hreg : Registry doc reg.

(** A composition: the record holds the variants under the key of its
    kind, and the discriminator of a [oneOf]. *)
Lemma composition_ok (s : SchemaNode) :
  s_type s = TOneOf \/ s_type s = TAnyOf \/ s_type s = TAllOf ->
  exportableSchema doc s = true ->
  (forall es, s_variants s = Some es ->
              Forall (EdgeOK uuid doc reg fuelE None) es) ->
  SchemaOK uuid doc reg fuelE s.
Proof.
  intros Ht He Hedges.
  destruct s as [i n t d p it v e r f ex df mi ma ml mx pa di].
  simpl in Ht.
  destruct v as [[|v0 vs]|];
    try (destruct Ht as [->|[->| ->]]; simpl in He; split_andb; discriminate).
  pose proof (variants_export uuid doc reg fuelE _ (Hedges _ eq_refl)) as Hex.
  clear Hedges. revert Hex.
  destruct Ht as [->|[->| ->]];
    unfold exportableSchema, constraint_fields_absent in He; simpl in He;
    fold exportableSchema in He; split_andb; absent_fields;
    (destruct di as [[pn mp]|];
     [ try discriminate; simpl in * |-; split_andb; absent_fields |]);
    (intros (rs & Hser & Hback);
     unfold SchemaOK; rewrite serializeSchema_unfold;
     cbv [serializeSchema_body is_composition s_type s_description s_variants
          s_discriminator type_name propertyName];
     rewrite Hser; cbn [option_map];
     try match goal with H : nonempty pn = true |- _ => rewrite H end;
     eexists; split; [reflexivity|];
     split; [solve_lookup|]; split; [solve_lookup|];
     intros f0 name id st Hf Hst;
     destruct (depth_obj_pos _ f0 Hf) as [f' ->];
     match type of Hf with
     | depth (JObj ?r) <= _ =>
         assert (Hj : forall r', In r' rs -> depth (JObj r') <= f');
         [ intros r' Hr'; apply Nat.lt_succ_r;
           eapply Nat.lt_le_trans; [|exact Hf];
           eapply Nat.lt_trans;
           [ apply (depth_in_arr (JObj r') (map JObj rs)), in_map, Hr'
           | solve [ apply (depth_get "oneOf"); solve_lookup
                   | apply (depth_get "anyOf"); solve_lookup
                   | apply (depth_get "allOf"); solve_lookup ] ] |]
     end;
     destruct (variants_import uuid doc reg _ _ Hback f' st Hj Hst)
       as (es' & st' & Hparse & Hsame & Hforget);
     eexists; exists st'; split; [|split; [exact Hsame|]];
     [ rewrite parseSchema_S; unfold parseSchema_body, prop, field;
       match goal with |- context [JsMap.get "oneOf" ?r] => read_schema_keys r end;
       run_parser; rewrite Hparse; run_parser; reflexivity
     | split; [reflexivity|]; split; [reflexivity|];
       intros nm' Hnm; rewrite !forgetSchema_eq; cbn -[forgetEdge];
       now rewrite (Hforget nm' Hnm) ]).
Qed.

End Compositions.

(** Rewrites with an equation about a loop, whose body the goal may show
    in another (convertible) form. *)
Ltac rewrite_loop H :=
  match type of H with
  | _ = ?res =>
      match goal with
      | |- context [Parser.foldM ?G ?es ?m ?st] =>
          replace (Parser.foldM G es m st) with res by (symmetry; exact H)
      | |- context [Parser.mapM ?G ?es ?st] =>
          replace (Parser.mapM G es st) with res by (symmetry; exact H)
      | |- context [fold_left ?F ?xs ?a] =>
          replace (fold_left F xs a) with res by (symmetry; exact H)
      end
  end.

Section Objects.
Import Js Parser Exporter RoundTrip Exportable RoundTripAux.

Variable uuid : nat -> NodeId.
Variable doc : ApiDocument.
Variable reg : JsMap.t NodeId.
Variable fuelE : nat.
Hypothesis Hreg : Registry doc reg.

(** The properties of an object schema are written under their keys, in
    the order of the map. *)
Lemma properties_export (ps : list (string * PropertyDef)) :
  Forall (fun kv => EdgeOK uuid doc reg fuelE (pd_description (snd kv))
                           (pd_schema (snd kv)) /\
                    describes (pd_description (snd kv)) (pd_schema (snd kv))) ps ->
  forall acc : JRecord,
    js_ordered_from (JsMap.keys acc) (JsMap.keys ps) = true ->
    exists rs : list JRecord,
      fold_left
        (fun (acc : option JRecord) (entry : string * PropertyDef) =>
           match acc, serializeSchemaOrRef fuelE doc (pd_schema (snd entry)) with
           | Some props, Some propSchema =>
               Some (obj_set (fst entry)
                       (JObj (set_if_truthy "description"
                                (pd_description (snd entry)) propSchema))
                       props)
           | _, _ => None
           end)
        ps (Some acc)
      = Some (acc ++ combine (JsMap.keys ps) (map JObj rs)) /\
      Forall2 (fun kv r =>
                 edgeReadsBack uuid doc reg (pd_schema (snd kv)) r /\
                 JsMap.get "description" r
                 = option_map JStr (pd_description (snd kv))) ps rs.
Proof.
  induction 1 as [|[k pd] ps [(r & Hser & Hback & Hdesc) Hd] _ IH];
    intros acc Hord; simpl in *.
  - exists []. rewrite app_nil_r. split; [reflexivity|constructor].
  - apply andb_prop in Hord as [Hk Hord].
    rewrite Hser, (obj_set_appends _ _ _ Hk).
    destruct (IH (acc ++ [(k, JObj (set_if_truthy "description"
                                      (pd_description pd) r))]))
      as (rs & Hfold & Hall).
    { now rewrite keys_app. }
    exists (described (pd_description pd) r :: rs). split.
    + rewrite <- app_assoc in Hfold. exact Hfold.
    + constructor; [|exact Hall]. split; [exact Hback|]. now apply Hdesc.
Qed.

Lemma in_combine_depth (k : string) (v : JValue) (ks : list string)
      (rs : list JRecord) (r : JRecord) (f : nat) :
  In (k, v) (combine ks (map JObj rs)) ->
  JsMap.get "properties" r = Some (JObj (combine ks (map JObj rs))) ->
  depth (JObj r) <= S f -> depth v <= f.
Proof.
  intros Hin Hget Hf. apply depth_in_obj in Hin. apply depth_get in Hget. lia.
Qed.

(** The properties are read back under their keys, in the order of the
    record. *)
Lemma properties_import (required : list string)
      (ps : list (string * PropertyDef)) (rs : list JRecord) :
  Forall2 (fun kv r =>
             edgeReadsBack uuid doc reg (pd_schema (snd kv)) r /\
             JsMap.get "description" r
             = option_map JStr (pd_description (snd kv))) ps rs ->
  forallb (fun kv : string * PropertyDef =>
             String.eqb (pd_name (snd kv)) (fst kv) &&
             Bool.eqb (pd_required (snd kv)) (includes required (fst kv))) ps
  = true ->
  forall f st (m : JsMap.t PropertyDef),
    js_ordered_from (JsMap.keys m) (JsMap.keys ps) = true ->
    (forall k v, In (k, v) (combine (JsMap.keys ps) (map JObj rs)) ->
                 depth v <= f) ->
    schemaNameToId st = reg ->
    exists ps' st',
      foldM (fun (m : JsMap.t PropertyDef) (entry : string * JValue) =>
               let (propName, propData) := entry in
               propSchema <- parseSchemaOrRef uuid f propData ;;
               propDescV <- opt_prop "description" (Some propData) ;;
               propDesc <- as_opt_string "property.description" propDescV ;;
               ret (JsMap.set propName
                      (mkPropertyDef propName propSchema
                                     (includes required propName) propDesc)
                      m))
            (combine (JsMap.keys ps) (map JObj rs)) m st
      = Ret (m ++ ps', st') /\
      sameButIds st st' /\
      forall nm', Names doc reg nm' ->
        map (fun kv : string * PropertyDef =>
               (fst kv, mkPropertyDef (pd_name (snd kv))
                                      (forgetEdge nm' (pd_schema (snd kv)))
                                      (pd_required (snd kv))
                                      (pd_description (snd kv)))) ps'
        = map (fun kv : string * PropertyDef =>
                 (fst kv, mkPropertyDef (pd_name (snd kv))
                                        (forgetEdge (nameOf doc) (pd_schema (snd kv)))
                                        (pd_required (snd kv))
                                        (pd_description (snd kv)))) ps.
Proof.
  induction 1 as [|[k pd] r ps rs [Hback Hdesc] _ IH];
    intros Hshape f st m Hord Hdepth Hst; simpl in *.
  - exists [], st. rewrite app_nil_r. split; [reflexivity|].
    split; [apply sameButIds_refl|reflexivity].
  - apply andb_prop in Hshape as [Hkv Hshape].
    apply andb_prop in Hkv as [Hname Hreq].
    apply String.eqb_eq in Hname. apply Bool.eqb_prop in Hreq.
    apply andb_prop in Hord as [Hk Hord].
    destruct (Hback f st) as (e' & st1 & Hparse & Hsame1 & Hforget1);
      [eapply Hdepth; left; reflexivity|exact Hst|].
    destruct (IH Hshape f st1
                 (m ++ [(k, mkPropertyDef k e' (includes required k)
                                          (pd_description pd))]))
      as (ps' & st2 & Hrest & Hsame2 & Hforget2).
    { now rewrite keys_app. }
    { intros k' v' Hin. eapply Hdepth. right. exact Hin. }
    { destruct Hsame1 as (_ & -> & _). exact Hst. }
    exists ((k, mkPropertyDef k e' (includes required k) (pd_description pd))
              :: ps'), st2.
    split; [|split].
    + unfold bind at 1. unfold bind at 1. rewrite Hparse.
      unfold opt_prop, field, bind at 1, ret at 1. rewrite Hdesc.
      unfold bind at 1. rewrite as_opt_string_str. unfold ret at 1.
      rewrite (set_appends _ _ _ (appendable_new _ _ Hk)).
      rewrite <- app_assoc in Hrest. exact Hrest.
    + eapply sameButIds_trans; eassumption.
    + intros nm' Hnm. simpl. rewrite (Hforget1 nm' Hnm), (Hforget2 nm' Hnm).
      now rewrite Hname, Hreq.
Qed.

Lemma opt_string_eqb_eq (a b : option string) :
  opt_string_eqb a b = true -> a = b.
Proof.
  destruct a, b; simpl; try discriminate; [|reflexivity].
  intros H. apply String.eqb_eq in H. now subst.
Qed.

(** An object schema: the record holds the type, the properties under
    their keys and the list of required properties. *)
Lemma object_ok (s : SchemaNode) :
  s_type s = TObject ->
  exportableSchema doc s = true ->
  (forall ps, s_properties s = Some ps ->
     Forall (fun kv => EdgeOK uuid doc reg fuelE (pd_description (snd kv))
                              (pd_schema (snd kv))) ps) ->
  SchemaOK uuid doc reg fuelE s.
Proof.
  intros Ht He Hedges.
  destruct s as [i n t d p it v e r f ex df mi ma ml mx pa di].
  simpl in Ht. subst t.
  unfold exportableSchema, constraint_fields_absent in He. simpl in He.
  fold exportableSchema in He. split_andb. absent_fields.
  destruct p as [[|p0 ps]|], r as [required|]; try discriminate.
  - (* with properties *)
    specialize (Hedges _ eq_refl). simpl in Hedges.
    split_andb.
    assert (Hall : Forall (fun kv => EdgeOK uuid doc reg fuelE
                                       (pd_description (snd kv)) (pd_schema (snd kv)) /\
                                     describes (pd_description (snd kv))
                                               (pd_schema (snd kv)))
                          (p0 :: ps)).
    { apply Forall_forall. intros kv Hin. split.
      - eapply Forall_forall in Hedges; [exact Hedges|exact Hin].
      - assert (Hc : match pd_schema (snd kv) with
                     | SInline s' => opt_string_eqb (pd_description (snd kv))
                                                    (s_description s')
                     | SRef _ => opt_nonempty (pd_description (snd kv))
                     end = true).
        { destruct Hin as [<-|Hin]; [assumption|].
          match goal with
          | H : forallb _ ps = true |- _ =>
              rewrite forallb_forall in H; specialize (H kv Hin)
          end.
          split_andb. assumption. }
        unfold describes. destruct (pd_schema (snd kv)); [exact Hc|].
        now apply opt_string_eqb_eq. }
    assert (Hshape : forallb (fun kv : string * PropertyDef =>
                                String.eqb (pd_name (snd kv)) (fst kv) &&
                                Bool.eqb (pd_required (snd kv))
                                         (includes required (fst kv)))
                             (p0 :: ps) = true).
    { apply forallb_forall. intros kv Hin. destruct Hin as [<-|Hin].
      - apply andb_true_intro. split; assumption.
      - match goal with
        | H : forallb _ ps = true |- _ =>
            rewrite forallb_forall in H; specialize (H kv Hin)
        end.
        split_andb. apply andb_true_intro. split; assumption. }
    assert (Hord : js_ordered_from (JsMap.keys (@nil (string * JValue)))
                                   (JsMap.keys (p0 :: ps)) = true) by assumption.
    destruct (properties_export (p0 :: ps) Hall [] Hord) as (rs & Hfold & Hback).
    cbn [app] in Hfold.
    unfold SchemaOK. rewrite serializeSchema_unfold.
    cbv beta iota zeta delta
        [serializeSchema_body is_composition s_type s_description s_properties
         s_required].
    rewrite_loop Hfold.
    cbn [option_map].
    destruct required as [|r0 rs0];
      (eexists; split; [reflexivity|];
       split; [solve_lookup|]; split; [solve_lookup|];
       intros f0 name id st Hf Hst;
       destruct (depth_obj_pos _ f0 Hf) as [f' ->];
       destruct (properties_import _ _ _ Hback Hshape f' st JsMap.empty Hord)
         as (ps' & st' & Hparse & Hsame & Hforget);
       [ intros k' v' Hin; eapply in_combine_depth; [exact Hin| |exact Hf];
         solve_lookup
       | exact Hst |];
       eexists; exists st'; split; [|split; [exact Hsame|]];
       [ rewrite parseSchema_S; unfold parseSchema_body, prop, field;
         match goal with |- context [JsMap.get "oneOf" ?r] => read_schema_keys r end;
         run_parser; rewrite_loop Hparse; run_parser; reflexivity
       | split; [reflexivity|]; split; [reflexivity|];
         intros nm' Hnm; rewrite !forgetSchema_eq; cbn -[forgetEdge];
         specialize (Hforget nm' Hnm); cbn -[forgetEdge] in Hforget;
         now rewrite Hforget ]).
  - (* without properties *)
    apply (leaf_ok uuid doc reg fuelE Hreg); try reflexivity. eexists. split;
      [cbv [serializeSchema_body is_composition s_type s_description
            s_properties s_required]; reflexivity|].
    cbn [s_description].
    split; [solve_lookup|]. split; [solve_lookup|].
    intros. unfold parseSchema_body, prop, field.
    match goal with |- context [JsMap.get "oneOf" ?r] => read_schema_keys r end.
    run_parser. reflexivity.
Qed.

End Objects.

Section Schemas.
Import Js Parser Exporter RoundTrip Exportable RoundTripAux.

Variable uuid : nat -> NodeId.
Variable doc : ApiDocument.
Variable reg : JsMap.t NodeId.
Variable fuelE : nat.
Hypothesis Hreg : Registry doc reg.

Lemma fold_max_in {A} (g : A -> nat) (x : A) (xs : list A) :
  In x xs -> g x <= fold_right (fun y m => Nat.max (g y) m) 0 xs.
Proof.
  induction xs as [|y xs IH]; simpl; [tauto|].
  intros [->|H]; [lia|]. specialize (IH H). lia.
Qed.

Lemma sdepth_property (s : SchemaNode) (ps : JsMap.t PropertyDef)
      (kv : string * PropertyDef) :
  s_properties s = Some ps -> In kv ps ->
  edepth (pd_schema (snd kv)) < sdepth s.
Proof.
  destruct s; simpl. intros -> Hin.
  pose proof (fold_max_in (fun kv : string * PropertyDef =>
                             edepth (pd_schema (snd kv))) kv ps Hin) as H.
  apply Nat.lt_succ_r. eapply Nat.le_trans; [exact H|]. apply Nat.le_max_l.
Qed.

Lemma sdepth_items (s : SchemaNode) (e : SchemaOrRef) :
  s_items s = Some e -> edepth e < sdepth s.
Proof. destruct s; simpl. intros ->. unfold edepth. lia. Qed.

Lemma sdepth_variant (s : SchemaNode) (es : list SchemaOrRef) (e : SchemaOrRef) :
  s_variants s = Some es -> In e es -> edepth e < sdepth s.
Proof.
  destruct s; simpl. intros -> Hin.
  pose proof (fold_max_in edepth e es Hin) as H.
  apply Nat.lt_succ_r. eapply Nat.le_trans; [exact H|].
  eapply Nat.le_trans; [|apply Nat.le_max_r]. apply Nat.le_max_r.
Qed.

Lemma exportable_items (s : SchemaNode) (e : SchemaOrRef) :
  s_type s = TArray -> exportableSchema doc s = true -> s_items s = Some e ->
  exportableEdge doc e = true.
Proof.
  destruct s; simpl. intros -> He ->. split_andb. assumption.
Qed.

Lemma exportable_variant (s : SchemaNode) (es : list SchemaOrRef) (e : SchemaOrRef) :
  s_type s = TOneOf \/ s_type s = TAnyOf \/ s_type s = TAllOf ->
  exportableSchema doc s = true -> s_variants s = Some es -> In e es ->
  exportableEdge doc e = true.
Proof.
  destruct s; simpl. intros Ht He -> Hin.
  assert (Hall : forallb (exportableEdge doc) es = true).
  { destruct Ht as [->|[->| ->]]; split_andb; destruct es; try discriminate;
      assumption. }
  rewrite forallb_forall in Hall. now apply Hall.
Qed.

Lemma exportable_property (s : SchemaNode) (ps : JsMap.t PropertyDef)
      (kv : string * PropertyDef) :
  s_type s = TObject -> exportableSchema doc s = true ->
  s_properties s = Some ps -> In kv ps ->
  exportableEdge doc (pd_schema (snd kv)) = true /\
  describes (pd_description (snd kv)) (pd_schema (snd kv)).
Proof.
  destruct s as [i n t d p it v e r f ex df mi ma ml mx pa di]; simpl.
  intros -> He -> Hin.
  destruct ps as [|p0 ps]; [contradiction|].
  destruct r as [required|]; simpl in He; split_andb; try discriminate.
  assert (Hall : forallb
            (fun kv : string * PropertyDef =>
               String.eqb (pd_name (snd kv)) (fst kv) &&
               Bool.eqb (pd_required (snd kv)) (includes required (fst kv)) &&
               exportableEdge doc (pd_schema (snd kv)) &&
               match pd_schema (snd kv) with
               | SInline s' => opt_string_eqb (pd_description (snd kv))
                                              (s_description s')
               | SRef _ => opt_nonempty (pd_description (snd kv))
               end) (p0 :: ps) = true).
  { simpl. repeat (apply andb_true_intro; split); assumption. }
  rewrite forallb_forall in Hall. specialize (Hall kv Hin).
  split_andb. split; [assumption|].
  unfold describes. destruct (pd_schema (snd kv)); [assumption|].
  now apply opt_string_eqb_eq.
Qed.

(** Every exportable schema is written, and read back up to the
    identifiers. *)
Lemma schema_ok (n : nat) : forall s : SchemaNode,
  sdepth s <= n -> exportableSchema doc s = true ->
  SchemaOK uuid doc reg fuelE s.
Proof.
  induction n as [|n IH]; intros s Hd He.
  - destruct s; simpl in Hd; lia.
  - assert (Hedge : forall x e, edepth e < sdepth s ->
                      exportableEdge doc e = true ->
                      x = None \/ describes x e ->
                      EdgeOK uuid doc reg fuelE x e).
    { intros x e Hlt Hee Hx. apply (edge_ok uuid doc reg fuelE Hreg); try assumption.
      intros s1 ->. simpl in Hlt, Hee. apply andb_prop in Hee as [_ Hee].
      apply IH; [lia|assumption]. }
    destruct (s_type s) eqn:Ht.
    + apply (object_ok uuid doc reg fuelE Hreg); try assumption.
      intros ps Hps. apply Forall_forall. intros kv Hin.
      destruct (exportable_property s ps kv Ht He Hps Hin) as [Hee Hdesc].
      apply Hedge; [eapply sdepth_property; eassumption|assumption|now right].
    + apply (array_ok uuid doc reg fuelE Hreg); try assumption.
      intros e Hit. apply Hedge; [now apply sdepth_items| |now left].
      eapply exportable_items; eassumption.
    + apply (leaf_ok uuid doc reg fuelE Hreg);
        [| | |apply (primitive_parses_back doc); [tauto|assumption]];
        destruct s; simpl in *; subst;
        unfold structural_fields_absent in He; simpl in He; split_andb;
        absent_fields; reflexivity.
    + apply (leaf_ok uuid doc reg fuelE Hreg);
        [| | |apply (primitive_parses_back doc); [tauto|assumption]];
        destruct s; simpl in *; subst;
        unfold structural_fields_absent in He; simpl in He; split_andb;
        absent_fields; reflexivity.
    + apply (leaf_ok uuid doc reg fuelE Hreg);
        [| | |apply (primitive_parses_back doc); [tauto|assumption]];
        destruct s; simpl in *; subst;
        unfold structural_fields_absent in He; simpl in He; split_andb;
        absent_fields; reflexivity.
    + apply (leaf_ok uuid doc reg fuelE Hreg);
        [| | |apply (primitive_parses_back doc); [tauto|assumption]];
        destruct s; simpl in *; subst;
        unfold structural_fields_absent in He; simpl in He; split_andb;
        absent_fields; reflexivity.
    + apply (leaf_ok uuid doc reg fuelE Hreg);
        [| | |apply (enum_parses_back doc); assumption];
        destruct s; simpl in *; subst; split_andb;
        absent_fields; reflexivity.
    + apply (composition_ok uuid doc reg fuelE); try tauto.
      intros es Hes. apply Forall_forall. intros e Hin.
      apply Hedge; [eapply sdepth_variant; eassumption| |now left].
      eapply exportable_variant; try eassumption. tauto.
    + apply (composition_ok uuid doc reg fuelE); try tauto.
      intros es Hes. apply Forall_forall. intros e Hin.
      apply Hedge; [eapply sdepth_variant; eassumption| |now left].
      eapply exportable_variant; try eassumption. tauto.
    + apply (composition_ok uuid doc reg fuelE); try tauto.
      intros es Hes. apply Forall_forall. intros e Hin.
      apply Hedge; [eapply sdepth_variant; eassumption| |now left].
      eapply exportable_variant; try eassumption. tauto.
Qed.

(** Every exportable edge is written, and read back up to the
    identifiers. *)
Lemma exportable_edge_ok (e : SchemaOrRef) :
  exportableEdge doc e = true -> EdgeOK uuid doc reg fuelE None e.
Proof.
  intros He. apply (edge_ok uuid doc reg fuelE Hreg); [assumption|now left|].
  intros s ->. simpl in He. apply andb_prop in He as [_ He].
  now apply (schema_ok (sdepth s)).
Qed.

End Schemas.

(** *** Parameters, contents, bodies, responses and operations *)

(** Rewrites with an equation about a call of the importer, which the
    goal may show in another (convertible) form. *)
Ltac rewrite_call H :=
  match type of H with
  | _ = ?res =>
      match goal with
      | |- context [Parser.parseSchemaOrRef ?u ?f ?v ?st] =>
          replace (Parser.parseSchemaOrRef u f v st) with res
            by (symmetry; exact H)
      end
  end.

Section Parameters.
Import Js Parser Exporter RoundTrip Exportable RoundTripAux.

Variable uuid : nat -> NodeId.
Variable doc : ApiDocument.
Variable reg : JsMap.t NodeId.
Variable fuelE : nat.
Hypothesis Hreg : Registry doc reg.

Lemma sameButIds_next (st st' : PState) :
  sameButIds (mkPState (errors st) (S (nextId st)) (schemaNameToId st)) st' ->
  sameButIds st st'.
Proof. intros (A & B & C). simpl in *. repeat split; try assumption. lia. Qed.

(** A parameter is written with its schema, and read back. *)
Lemma parameter_ok (p : ParameterDef) :
  exportableParameter doc p = true ->
  exists r, serializeParameter fuelE doc p = Some r /\
    forall f st, depth (JObj r) <= f -> schemaNameToId st = reg ->
    exists p' st',
      parseParameter uuid f (JObj r) st = Ret (p', st') /\
      sameButIds st st' /\
      forall nm', Names doc reg nm' ->
        forgetParameter nm' p' = forgetParameter (nameOf doc) p.
Proof.
  intros He. destruct p as [i n loc req e d ex].
  unfold exportableParameter in He. simpl in He. split_andb.
  destruct (exportable_edge_ok uuid doc reg fuelE Hreg e) as (rj & Hser & Hback & _);
    [assumption|].
  change (described None rj) with rj in Hback.
  unfold serializeParameter. cbn [p_name p_in p_required p_schema p_description p_example].
  rewrite Hser.
  destruct loc, req;
    (eexists; split; [reflexivity|];
     intros f st Hf Hst;
     assert (Hj : depth (JObj rj) <= f);
     [ apply Nat.lt_le_incl; eapply Nat.lt_le_trans; [|exact Hf];
       apply (depth_get "schema"); solve_lookup |];
     destruct (Hback f (mkPState (errors st) (S (nextId st)) (schemaNameToId st))
                     Hj Hst)
       as (e' & st' & Hparse & Hsame & Hforget);
     eexists; exists st'; split; [|split; [exact (sameButIds_next _ _ Hsame)|]];
     [ unfold parseParameter, prop, field;
       match goal with
       | |- context [JsMap.get "name" ?r] =>
           read_key r "name"; read_key r "in"; read_key r "required";
           read_key r "schema"; read_key r "description"; read_key r "example"
       end;
       run_parser; rewrite_call Hparse; run_parser; reflexivity
     | intros nm' Hnm; unfold forgetParameter; simpl;
       now rewrite (Hforget nm' Hnm) ]).
Qed.

End Parameters.

Section Contents.
Import Js Parser Exporter RoundTrip Exportable RoundTripAux.

Variable uuid : nat -> NodeId.
Variable doc : ApiDocument.
Variable reg : JsMap.t NodeId.
Variable fuelE : nat.
Hypothesis Hreg : Registry doc reg.

(** The media types of a content map are written under their keys. *)
Lemma content_export (c : JsMap.t MediaType) :
  forallb (fun kv => exportableEdge doc (mt_schema (snd kv))) c = true ->
  forall acc : JRecord,
    js_ordered_from (JsMap.keys acc) (JsMap.keys c) = true ->
    exists rs : list JRecord,
      fold_left
        (fun (acc : option JRecord) (entry : string * MediaType) =>
           match acc, serializeSchemaOrRef fuelE doc (mt_schema (snd entry)) with
           | Some content, Some schema =>
               Some (obj_set (fst entry)
                       (JObj (set_if_defined "example" (mt_example (snd entry))
                                             [("schema", JObj schema)]))
                       content)
           | _, _ => None
           end)
        c (Some acc)
      = Some (acc ++ combine (JsMap.keys c) (map JObj rs)) /\
      Forall2 (fun kv r =>
                 exists rj,
                   r = set_if_defined "example" (mt_example (snd kv))
                                      [("schema", JObj rj)] /\
                   edgeReadsBack uuid doc reg (mt_schema (snd kv)) rj) c rs.
Proof.
  induction c as [|[k mt] c IH]; intros Hall acc Hord; simpl in *.
  - exists []. rewrite app_nil_r. split; [reflexivity|constructor].
  - apply andb_prop in Hall as [He Hall]. apply andb_prop in Hord as [Hk Hord].
    destruct (exportable_edge_ok uuid doc reg fuelE Hreg _ He)
      as (rj & Hser & Hback & _).
    change (described None rj) with rj in Hback.
    rewrite Hser, (obj_set_appends _ _ _ Hk).
    destruct (IH Hall (acc ++ [(k, JObj (set_if_defined "example" (mt_example mt)
                                           [("schema", JObj rj)]))]))
      as (rs & Hfold & Hrs).
    { now rewrite keys_app. }
    exists (set_if_defined "example" (mt_example mt) [("schema", JObj rj)] :: rs).
    split.
    + rewrite <- app_assoc in Hfold. exact Hfold.
    + constructor; [|exact Hrs]. exists rj. split; [reflexivity|exact Hback].
Qed.

(** The media types are read back under their keys. *)
Lemma content_import (c : JsMap.t MediaType) (rs : list JRecord) :
  Forall2 (fun kv r =>
             exists rj,
               r = set_if_defined "example" (mt_example (snd kv))
                                  [("schema", JObj rj)] /\
               edgeReadsBack uuid doc reg (mt_schema (snd kv)) rj) c rs ->
  forall f st (m : JsMap.t MediaType),
    js_ordered_from (JsMap.keys m) (JsMap.keys c) = true ->
    (forall k v, In (k, v) (combine (JsMap.keys c) (map JObj rs)) ->
                 depth v <= f) ->
    schemaNameToId st = reg ->
    exists c' st',
      foldM (fun (content : JsMap.t MediaType) (entry : string * JValue) =>
               let (contentType, media) := entry in
               schemaV <- prop "schema" media ;;
               schema <- schemaOrDefault uuid f schemaV TObject ;;
               exampleV <- prop "example" media ;;
               ret (JsMap.set contentType (mkMediaType schema exampleV) content))
            (combine (JsMap.keys c) (map JObj rs)) m st
      = Ret (m ++ c', st') /\
      sameButIds st st' /\
      forall nm', Names doc reg nm' ->
        forgetContent nm' c' = forgetContent (nameOf doc) c.
Proof.
  induction 1 as [|[k mt] r c rs (rj & -> & Hback) _ IH];
    intros f st m Hord Hdepth Hst; simpl in *.
  - exists [], st. rewrite app_nil_r. split; [reflexivity|].
    split; [apply sameButIds_refl|reflexivity].
  - apply andb_prop in Hord as [Hk Hord].
    assert (Hj : depth (JObj rj) <= f).
    { apply Nat.lt_le_incl. eapply Nat.lt_le_trans;
        [|eapply Hdepth; left; reflexivity].
      apply (depth_get "schema"). solve_lookup. }
    destruct (Hback f st Hj Hst) as (e' & st1 & Hparse & Hsame1 & Hforget1).
    destruct (IH f st1 (m ++ [(k, mkMediaType e' (mt_example mt))]))
      as (c' & st2 & Hrest & Hsame2 & Hforget2).
    { now rewrite keys_app. }
    { intros k' v' Hin. eapply Hdepth. right. exact Hin. }
    { destruct Hsame1 as (_ & -> & _). exact Hst. }
    exists ((k, mkMediaType e' (mt_example mt)) :: c'), st2.
    split; [|split].
    + unfold prop, field.
      match goal with
      | |- context [JsMap.get "schema" ?r] =>
          read_key r "schema"; read_key r "example"
      end.
      run_parser. rewrite Hparse. run_parser.
      rewrite (set_appends _ _ _ (appendable_new _ _ Hk)).
      rewrite <- app_assoc in Hrest. exact Hrest.
    + eapply sameButIds_trans; eassumption.
    + intros nm' Hnm. unfold forgetContent in *. simpl.
      now rewrite (Hforget1 nm' Hnm), (Hforget2 nm' Hnm).
Qed.

Lemma depth_entry (k k0 : string) (v : JValue) (es r : JRecord) (f : nat) :
  In (k, v) es -> JsMap.get k0 r = Some (JObj es) ->
  depth (JObj r) <= f -> depth v <= f.
Proof.
  intros Hin Hget Hf. apply depth_in_obj in Hin. apply depth_get in Hget. lia.
Qed.

(** A content map is written, and read back. *)
Lemma content_ok (c : JsMap.t MediaType) :
  exportableContent doc c = true ->
  exists rs : list JRecord,
    serializeContent fuelE doc c = Some (combine (JsMap.keys c) (map JObj rs)) /\
    forall f st,
      (forall k v, In (k, v) (combine (JsMap.keys c) (map JObj rs)) ->
                   depth v <= f) ->
      schemaNameToId st = reg ->
      exists c' st',
        parseContent uuid f (JObj (combine (JsMap.keys c) (map JObj rs))) st
        = Ret (c', st') /\
        sameButIds st st' /\
        forall nm', Names doc reg nm' ->
          forgetContent nm' c' = forgetContent (nameOf doc) c.
Proof.
  unfold exportableContent. intros He. apply andb_prop in He as [Hord Hall].
  destruct (content_export c Hall [] Hord) as (rs & Hfold & Hback).
  exists rs. split; [exact Hfold|].
  intros f st Hdepth Hst.
  destruct (content_import c rs Hback f st JsMap.empty Hord Hdepth Hst)
    as (c' & st' & Hparse & Hsame & Hforget).
  exists c', st'. split; [exact Hparse|]. split; assumption.
Qed.

End Contents.

Section KeyedLoops.
Import Js Parser Exporter RoundTrip Exportable RoundTripAux.

Variable reg : JsMap.t NodeId.

(** A loop of the exporter that assigns one record per element, under
    keys that come in key order, builds the list of these records. *)
Lemma keyed_export {A} (key : A -> string) (ser : A -> option JRecord)
      (P : A -> JRecord -> Prop) (xs : list A) :
  Forall (fun x => exists r, ser x = Some r /\ P x r) xs ->
  forall acc : JRecord,
    js_ordered_from (JsMap.keys acc) (map key xs) = true ->
    exists rs : list JRecord,
      fold_left
        (fun (acc : option JRecord) (x : A) =>
           match acc, ser x with
           | Some o, Some r => Some (obj_set (key x) (JObj r) o)
           | _, _ => None
           end)
        xs (Some acc)
      = Some (acc ++ combine (map key xs) (map JObj rs)) /\
      Forall2 P xs rs.
Proof.
  induction 1 as [|x xs (r & Hser & HP) _ IH]; intros acc Hord; simpl in *.
  - exists []. rewrite app_nil_r. split; [reflexivity|constructor].
  - apply andb_prop in Hord as [Hk Hord].
    rewrite Hser, (obj_set_appends _ _ _ Hk).
    destruct (IH (acc ++ [(key x, JObj r)])) as (rs & Hfold & Hrs).
    { now rewrite keys_app. }
    exists (r :: rs). split.
    + rewrite <- app_assoc in Hfold. exact Hfold.
    + constructor; assumption.
Qed.

(** A loop of the importer that reads one element per entry into a map
    keyed like the record gives the elements in the order of the
    record. *)
Lemma keyed_import {A B} (key : A -> string) (parse : string -> JValue -> M B)
      (T : A -> B -> Prop) (xs : list A) (rs : list JRecord) :
  Forall2 (fun x r =>
             forall st, schemaNameToId st = reg ->
               exists b st', parse (key x) (JObj r) st = Ret (b, st') /\
                             sameButIds st st' /\ T x b) xs rs ->
  forall st (m : JsMap.t B),
    js_ordered_from (JsMap.keys m) (map key xs) = true ->
    schemaNameToId st = reg ->
    exists bs st',
      foldM (fun (m : JsMap.t B) (entry : string * JValue) =>
               let (k, v) := entry in
               b <- parse k v ;; ret (JsMap.set k b m))
            (combine (map key xs) (map JObj rs)) m st
      = Ret (m ++ combine (map key xs) bs, st') /\
      sameButIds st st' /\ Forall2 T xs bs.
Proof.
  induction 1 as [|x r xs rs Hx _ IH]; intros st m Hord Hst; simpl in *.
  - exists [], st. rewrite app_nil_r. split; [reflexivity|].
    split; [apply sameButIds_refl|constructor].
  - apply andb_prop in Hord as [Hk Hord].
    destruct (Hx st Hst) as (b & st1 & Hparse & Hsame1 & HT).
    destruct (IH st1 (m ++ [(key x, b)])) as (bs & st2 & Hrest & Hsame2 & HTs).
    { now rewrite keys_app. }
    { destruct Hsame1 as (_ & -> & _). exact Hst. }
    exists (b :: bs), st2. split; [|split].
    + unfold bind at 1. unfold bind at 1. rewrite Hparse. unfold ret at 1.
      rewrite (set_appends _ _ _ (appendable_new _ _ Hk)).
      rewrite <- app_assoc in Hrest. exact Hrest.
    + eapply sameButIds_trans; eassumption.
    + constructor; assumption.
Qed.

Lemma Forall2_length_eq {A B} (R : A -> B -> Prop) (xs : list A) (ys : list B) :
  Forall2 R xs ys -> length xs = length ys.
Proof. induction 1; simpl; congruence. Qed.

End KeyedLoops.

Section Bodies.
Import Js Parser Exporter RoundTrip Exportable RoundTripAux.

Variable uuid : nat -> NodeId.
Variable doc : ApiDocument.
Variable reg : JsMap.t NodeId.
Variable fuelE : nat.
Hypothesis Hreg : Registry doc reg.

Lemma sameButIds_step (st st' : PState) :
  sameButIds st st' ->
  sameButIds st (mkPState (errors st') (S (nextId st')) (schemaNameToId st')).
Proof. intros (A & B & C). repeat split; simpl; try assumption. lia. Qed.

(** A request body is written with its content, and read back. *)
Lemma requestBody_ok (b : RequestBody) :
  opt_nonempty (rb_description b) = true ->
  exportableContent doc (rb_content b) = true ->
  exists r, serializeRequestBody fuelE doc b = Some r /\
    forall f st, depth (JObj r) <= f -> schemaNameToId st = reg ->
    exists b' st',
      parseRequestBody uuid f (JObj r) st = Ret (b', st') /\
      sameButIds st st' /\
      forall nm', Names doc reg nm' ->
        forgetRequestBody nm' b' = forgetRequestBody (nameOf doc) b.
Proof.
  destruct b as [i d req c]. simpl. intros Hd Hc.
  destruct (content_ok uuid doc reg fuelE Hreg c Hc) as (rs & Hser & Hback).
  unfold serializeRequestBody. cbn [rb_description rb_required rb_content].
  rewrite Hser. cbn [option_map].
  destruct req;
    (eexists; split; [reflexivity|];
     intros f st Hf Hst;
     destruct (Hback f st) as (c' & st' & Hparse & Hsame & Hforget);
     [ intros k v Hin; eapply (depth_entry k "content"); [exact Hin| |exact Hf];
       solve_lookup
     | exact Hst |];
     eexists; eexists; split; [|split];
     [ unfold parseRequestBody, prop, field;
       match goal with
       | |- context [JsMap.get "content" ?r] =>
           read_key r "content"; read_key r "description"; read_key r "required"
       end;
       run_parser; rewrite_norm Hparse; run_parser; reflexivity
     | exact (sameButIds_step _ _ Hsame)
     | intros nm' Hnm; unfold forgetRequestBody; simpl;
       now rewrite (Hforget nm' Hnm) ]).
Qed.

(** A response is written with its content, and read back. *)
Lemma response_ok (resp : ResponseDef) :
  exportableResponse doc resp = true ->
  exists r, serializeResponse fuelE doc resp = Some r /\
    forall f st, depth (JObj r) <= f -> schemaNameToId st = reg ->
    exists resp' st',
      parseResponse uuid f (JObj r) st = Ret (resp', st') /\
      sameButIds st st' /\
      forall nm', Names doc reg nm' ->
        forgetResponse nm' resp' = forgetResponse (nameOf doc) resp.
Proof.
  destruct resp as [i d c h]. unfold exportableResponse. simpl. intros He.
  split_andb. absent_fields. destruct c as [[|c0 cs]|]; try discriminate.
  - destruct (content_ok uuid doc reg fuelE Hreg (c0 :: cs)) as (rs & Hser & Hback);
      [assumption|].
    unfold serializeResponse. cbn [resp_description resp_content].
    rewrite Hser. cbn [option_map].
    eexists; split; [reflexivity|].
    intros f st Hf Hst.
    destruct (Hback f (mkPState (errors st) (S (nextId st)) (schemaNameToId st)))
      as (c' & st' & Hparse & Hsame & Hforget);
      [ intros k v Hin; eapply (depth_entry k "content"); [exact Hin| |exact Hf];
        solve_lookup
      | exact Hst |].
    eexists; eexists; split; [|split].
    + unfold parseResponse, prop, field.
      match goal with
      | |- context [JsMap.get "content" ?r] =>
          read_key r "content"; read_key r "description"
      end.
      run_parser. rewrite_norm Hparse. run_parser. reflexivity.
    + exact (sameButIds_next _ _ Hsame).
    + intros nm' Hnm. unfold forgetResponse. simpl.
      now rewrite (Hforget nm' Hnm).
  - eexists; split; [reflexivity|].
    intros f st Hf Hst.
    eexists; eexists; split; [|split].
    + unfold parseResponse, prop, field. simpl JsMap.get.
      run_parser. reflexivity.
    + repeat split; simpl; lia.
    + intros nm' Hnm. reflexivity.
Qed.

End Bodies.

Section Operations.
Import Js Parser Exporter RoundTrip Exportable RoundTripAux.

Variable uuid : nat -> NodeId.
Variable doc : ApiDocument.
Variable reg : JsMap.t NodeId.
Variable fuelE : nat.
Hypothesis Hreg : Registry doc reg.

(** The parameters of an operation are written one after the other, and
    read back one after the other. *)
Lemma parameters_ok (ps : list ParameterDef) :
  forallb (exportableParameter doc) ps = true ->
  exists rs : list JRecord,
    map_opt (serializeParameter fuelE doc) ps = Some rs /\
    length rs = length ps /\
    forall f st,
      (forall r, In r rs -> depth (JObj r) <= f) -> schemaNameToId st = reg ->
      exists ps' st',
        mapM (parseParameter uuid f) (map JObj rs) st = Ret (ps', st') /\
        sameButIds st st' /\
        forall nm', Names doc reg nm' ->
          map (forgetParameter nm') ps' = map (forgetParameter (nameOf doc)) ps.
Proof.
  induction ps as [|p ps IH]; simpl; intros He.
  - exists []. split; [reflexivity|]. split; [reflexivity|].
    intros f st _ _. exists [], st. split; [reflexivity|].
    split; [apply sameButIds_refl|reflexivity].
  - apply andb_prop in He as [Hp Hps].
    destruct (parameter_ok uuid doc reg fuelE Hreg p Hp) as (r & Hser & Hback).
    destruct (IH Hps) as (rs & Hrs & Hlen & Hbacks).
    rewrite Hser, Hrs. exists (r :: rs). split; [reflexivity|].
    split; [simpl; congruence|].
    intros f st Hf Hst.
    destruct (Hback f st (Hf r (or_introl eq_refl)) Hst)
      as (p' & st1 & Hparse & Hsame1 & Hforget1).
    destruct (Hbacks f st1) as (ps' & st2 & Hrest & Hsame2 & Hforget2).
    { intros r' Hr'. apply Hf. now right. }
    { destruct Hsame1 as (_ & -> & _). exact Hst. }
    exists (p' :: ps'), st2. split; [|split].
    + simpl. unfold bind. rewrite Hparse, Hrest. reflexivity.
    + eapply sameButIds_trans; eassumption.
    + intros nm' Hnm. simpl. now rewrite (Hforget1 nm' Hnm), (Hforget2 nm' Hnm).
Qed.

Lemma Forall2_impl_in {A B} (P Q : A -> B -> Prop) (xs : list A) (ys : list B) :
  Forall2 P xs ys ->
  (forall x y, In y ys -> P x y -> Q x y) ->
  Forall2 Q xs ys.
Proof.
  induction 1 as [|x y xs ys HP _ IH]; intros Himp; constructor.
  - apply Himp; [now left|exact HP].
  - apply IH. intros x' y' Hin. apply Himp. now right.
Qed.

Lemma keys_combine {A} (ks : list string) (vs : list A) :
  length vs = length ks -> JsMap.keys (combine ks vs) = ks.
Proof.
  revert vs. induction ks as [|k ks IH]; intros [|v vs]; simpl; try discriminate;
    [reflexivity|]. intros H. f_equal. apply IH. congruence.
Qed.

(** The responses of an operation are written under their status codes,
    and read back. *)
Lemma responses_ok (rs : JsMap.t ResponseDef) :
  js_ordered (JsMap.keys rs) = true ->
  forallb (fun kv => exportableResponse doc (snd kv)) rs = true ->
  exists recs : list JRecord,
    fold_left
      (fun (acc : option JRecord) (entry : string * ResponseDef) =>
         match acc, serializeResponse fuelE doc (snd entry) with
         | Some responses, Some r =>
             Some (obj_set (fst entry) (JObj r) responses)
         | _, _ => None
         end)
      rs (Some [])
    = Some (combine (JsMap.keys rs) (map JObj recs)) /\
    length recs = length rs /\
    forall f st,
      (forall r, In r recs -> depth (JObj r) <= f) -> schemaNameToId st = reg ->
      exists rs' st',
        foldM (fun (m : JsMap.t ResponseDef) (entry : string * JValue) =>
                 let (statusCode, responseData) := entry in
                 response <- parseResponse uuid f responseData ;;
                 ret (JsMap.set statusCode response m))
              (combine (JsMap.keys rs) (map JObj recs)) JsMap.empty st
        = Ret (rs', st') /\
        sameButIds st st' /\ length rs' = length rs /\
        forall nm', Names doc reg nm' ->
          map (fun kv => (fst kv, forgetResponse nm' (snd kv))) rs'
          = map (fun kv => (fst kv, forgetResponse (nameOf doc) (snd kv))) rs.
Proof.
  intros Hord Hall.
  destruct (keyed_export (A := string * ResponseDef) fst
              (fun e => serializeResponse fuelE doc (snd e))
              (fun e r =>
                 forall f st, depth (JObj r) <= f -> schemaNameToId st = reg ->
                 exists resp' st',
                   parseResponse uuid f (JObj r) st = Ret (resp', st') /\
                   sameButIds st st' /\
                   forall nm', Names doc reg nm' ->
                     forgetResponse nm' resp' = forgetResponse (nameOf doc) (snd e))
              rs) with (acc := @nil (string * JValue)) as (recs & Hfold & Hback).
  { apply Forall_forall. intros kv Hin. rewrite forallb_forall in Hall.
    apply (response_ok uuid doc reg fuelE Hreg), Hall, Hin. }
  { exact Hord. }
  exists recs. split; [exact Hfold|].
  split; [symmetry; eapply Forall2_length_eq; exact Hback|].
  intros f st Hf Hst.
  destruct (keyed_import reg (A := string * ResponseDef) fst
              (fun _ v => parseResponse uuid f v)
              (fun e b => forall nm', Names doc reg nm' ->
                            forgetResponse nm' b = forgetResponse (nameOf doc) (snd e))
              rs recs) with (st := st) (m := @nil (string * ResponseDef))
    as (bs & st' & Hparse & Hsame & HT).
  { eapply Forall2_impl_in; [exact Hback|].
    intros e r Hin HP st0 Hst0. apply HP; [now apply Hf|exact Hst0]. }
  { exact Hord. }
  { exact Hst. }
  exists (combine (map fst rs) bs), st'. split; [exact Hparse|].
  split; [exact Hsame|].
  assert (Hlen : length bs = length rs)
    by (symmetry; eapply Forall2_length_eq; exact HT).
  split.
  - rewrite length_combine, length_map, Hlen. apply Nat.min_id.
  - intros nm' Hnm. clear Hparse Hfold Hback Hord Hall Hf Hlen.
    induction HT as [|e b rs bs Hb _ IH]; simpl; [reflexivity|].
    now rewrite (Hb nm' Hnm), IH.
Qed.

Lemma tags_assignment (l : list string) (o : JRecord) :
  match l with _ :: _ => obj_set "tags" (strings l) o | [] => o end
  = set_if_defined "tags"
      (match l with [] => None | _ :: _ => Some (strings l) end) o.
Proof. destruct l; reflexivity. Qed.

Lemma deprecated_assignment (dep : option bool) (o : JRecord) :
  match dep with Some true => obj_set "deprecated" (JBool true) o | _ => o end
  = set_if_defined "deprecated"
      (match dep with Some true => Some (JBool true) | _ => None end) o.
Proof. destruct dep as [[|]|]; reflexivity. Qed.

Lemma depth_arr_entry (k : string) (r : JRecord) (rs : list JRecord)
      (rec : JRecord) (f : nat) :
  In r rs -> JsMap.get k rec = Some (JArr (map JObj rs)) ->
  depth (JObj rec) <= f -> depth (JObj r) <= f.
Proof.
  intros Hin Hget Hf.
  pose proof (depth_in_arr (JObj r) (map JObj rs) (in_map JObj rs r Hin)).
  apply depth_get in Hget. lia.
Qed.

Lemma depth_obj_entry (k : string) (r : JRecord) (ks : list string)
      (rs : list JRecord) (rec : JRecord) (f : nat) :
  In r rs -> length rs = length ks ->
  JsMap.get k rec = Some (JObj (combine ks (map JObj rs))) ->
  depth (JObj rec) <= f -> depth (JObj r) <= f.
Proof.
  intros Hin Hlen Hget Hf. apply depth_get in Hget.
  assert (Hex : exists k', In (k', JObj r) (combine ks (map JObj rs))).
  { clear Hget Hf. revert ks Hlen.
    induction rs as [|r0 rs IH]; intros [|k0 ks] Hlen; simpl in *;
      try discriminate; [contradiction|].
    destruct Hin as [->|Hin].
    - exists k0. now left.
    - destruct (IH Hin ks) as [k' Hk']; [congruence|]. exists k'. now right. }
  destruct Hex as [k' Hk']. apply depth_in_obj in Hk'. lia.
Qed.

Lemma size_cons {V} (x : string * V) (m : JsMap.t V) :
  (JsMap.size (x :: m) =? 0)%nat = false.
Proof. reflexivity. Qed.

End Operations.

Section OperationRoundTrip.
Import Js Parser Exporter RoundTrip Exportable RoundTripAux.

Variable uuid : nat -> NodeId.
Variable doc : ApiDocument.
Variable reg : JsMap.t NodeId.
Variable fuelE : nat.
Hypothesis Hreg : Registry doc reg.

Lemma same_registry (st st' : PState) :
  sameButIds st st' -> schemaNameToId st = reg -> schemaNameToId st' = reg.
Proof. intros (_ & -> & _) H. exact H. Qed.

(** An operation is written with its parameters, request body and
    responses, and read back under the path and method it was written
    under. *)
Lemma operation_ok (route : Route) :
  exportableRoute doc route = true ->
  exists r, serializeOperation fuelE doc route = Some r /\
    forall f st pdoc, depth (JObj r) <= f -> schemaNameToId st = reg ->
    exists route' st',
      parseOperation uuid f (r_path route) (r_method route) (JObj r) pdoc st
      = Ret (route', st') /\
      sameButIds st st' /\
      r_id route' = uuid (nextId st) /\ nextId st < nextId st' /\
      forall nm' sec', Names doc reg nm' ->
        forgetRoute nm' sec' route'
        = forgetRoute (nameOf doc) (schemeNameOf doc) route.
Proof.
  destruct route as [i path method sm d oid tags params body resps sec dep].
  unfold exportableRoute. simpl. intros He. split_andb. absent_fields.
  destruct resps as [|resp0 resps]; [discriminate|]. split_andb.
  destruct (parameters_ok uuid doc reg fuelE Hreg params)
    as (prs & Hparams & Hplen & Hpback); [assumption|].
  destruct (responses_ok uuid doc reg fuelE Hreg (resp0 :: resps))
    as (rrs & Hresps & Hrlen & Hrback); [assumption|assumption|].
  assert (Hbody : match body with
                  | Some b =>
                      exists rb, serializeRequestBody fuelE doc b = Some rb /\
                        forall f st, depth (JObj rb) <= f -> schemaNameToId st = reg ->
                        exists b' st',
                          parseRequestBody uuid f (JObj rb) st = Ret (b', st') /\
                          sameButIds st st' /\
                          forall nm', Names doc reg nm' ->
                            forgetRequestBody nm' b'
                            = forgetRequestBody (nameOf doc) b
                  | None => True
                  end).
  { destruct body as [b|]; [|exact I]. split_andb.
    now apply (requestBody_ok uuid doc reg fuelE Hreg). }
  unfold serializeOperation.
  cbn [r_summary r_description r_operationId r_tags r_deprecated r_parameters
       r_requestBody r_responses r_security].
  rewrite tags_assignment, deprecated_assignment.
  rewrite_loop Hresps.
  destruct params as [|p0 ps], body as [b|];
    try (destruct Hbody as (rb & Hser & Hbback); rewrite Hser);
    try rewrite Hparams; cbn [option_map];
    (eexists; split; [reflexivity|]).
  all: intros f st pdoc Hf Hst.
  all: pose (st1 := mkPState (errors st) (S (nextId st)) (schemaNameToId st)).
  all: assert (Hst1 : schemaNameToId st1 = reg) by exact Hst.
  all: assert (Hsame1 : sameButIds st st1) by (repeat split; simpl; lia).
  all: destruct (Hpback f st1) as (ps' & st2 & Hpparse & Hsame2 & Hpforget);
    [ intros r Hr;
      first [ destruct prs; [contradiction|discriminate]
            | eapply (depth_arr_entry "parameters"); [exact Hr| |exact Hf];
              solve_lookup ]
    | exact Hst1 |].
  all: pose proof (same_registry _ _ Hsame2 Hst1) as Hst2.
  all: try (destruct prs; [|discriminate Hplen]; simpl in Hpparse;
            injection Hpparse as <- <-).
  all: match type of Hst2 with
       | schemaNameToId ?s2 = _ =>
           first
             [ destruct (Hbback f s2) as (b' & st3 & Hbparse & Hsame3 & Hbforget);
               [ apply Nat.lt_le_incl; eapply Nat.lt_le_trans; [|exact Hf];
                 apply (depth_get "requestBody"); solve_lookup
               | exact Hst2 |]
             | pose proof (sameButIds_refl s2) as Hsame3 ]
       end.
  all: match type of Hsame3 with
       | sameButIds _ ?st3 =>
           pose proof (same_registry _ _ Hsame3 Hst2) as Hst3;
           destruct (Hrback f st3) as (rs' & st4 & Hrparse & Hsame4 & Hrlen' & Hrforget);
           [ intros r Hr;
             eapply (depth_obj_entry "responses" r
                       (JsMap.keys (resp0 :: resps)) rrs);
             [ exact Hr
             | rewrite Hrlen; unfold JsMap.keys; symmetry; apply length_map
             |
             | exact Hf ];
             solve_lookup
           | exact Hst3 |]
       end.
  all: destruct rs' as [|resp0' rs']; [discriminate Hrlen'|].
  all: first
    [ exists (mkRoute (uuid (nextId st)) path method sm d oid tags ps' (Some b')
                      (resp0' :: rs') None dep)
    | exists (mkRoute (uuid (nextId st)) path method sm d oid tags ps' None
                      (resp0' :: rs') None dep)
    | exists (mkRoute (uuid (nextId st)) path method sm d oid tags [] (Some b')
                      (resp0' :: rs') None dep)
    | exists (mkRoute (uuid (nextId st)) path method sm d oid tags [] None
                      (resp0' :: rs') None dep) ].
  all: exists st4.
  all: subst st1.
  all: split;
    [ unfold parseOperation, prop, field;
      match goal with
      | |- context [JsMap.get "tags" ?r] =>
          read_key r "tags"; read_key r "summary"; read_key r "description";
          read_key r "operationId"; read_key r "deprecated";
          read_key r "parameters"; read_key r "requestBody";
          read_key r "responses"
      end;
      destruct tags, dep as [[|]|]; try discriminate;
      run_parser; try (rewrite_norm Hpparse; run_parser);
      try (rewrite_norm Hbparse; run_parser);
      rewrite_norm Hrparse; run_parser; rewrite size_cons; reflexivity
    | split;
      [ eapply sameButIds_trans; [exact Hsame1|];
        eapply sameButIds_trans; [exact Hsame2|];
        eapply sameButIds_trans; [exact Hsame3|exact Hsame4]
      | split; [reflexivity|]; split;
        [ destruct Hsame2 as (_ & _ & L2); destruct Hsame3 as (_ & _ & L3);
          destruct Hsame4 as (_ & _ & L4); simpl in *; lia
        | intros nm' sec' Hnm; unfold forgetRoute; simpl;
          try rewrite (Hpforget nm' Hnm);
          try rewrite (Hbforget nm' Hnm);
          specialize (Hrforget nm' Hnm); simpl in Hrforget;
          now rewrite Hrforget ] ] ].
Qed.

End OperationRoundTrip.

(** *** Info, servers, tags, security schemes, component schemas and paths *)

Section DocumentParts.
Import Js Parser Exporter RoundTrip Exportable RoundTripAux.

(** The [info] object is written field by field, and read back. *)
Lemma info_ok (i : InfoObject) (st : PState) :
  exportableInfo i = true ->
  parseInfo
    (JObj
       (let info_ : JRecord :=
          [("title", JStr (title i)); ("version", JStr (version i))] in
        let info_ := set_if_truthy "description" (info_description i) info_ in
        let info_ := set_if_truthy "termsOfService" (termsOfService i) info_ in
        let info_ :=
          match contact i with
          | Some c =>
              if truthy_str (contact_name c) || truthy_str (contact_email c)
                 || truthy_str (contact_url c)
              then obj_set "contact"
                     (JObj (set_if_truthy "url" (contact_url c)
                           (set_if_truthy "email" (contact_email c)
                           (set_if_truthy "name" (contact_name c) []))))
                     info_
              else info_
          | None => info_
          end in
        match license i with
        | Some l =>
            if nonempty (license_name l)
            then obj_set "license"
                   (JObj (set_if_truthy "url" (license_url l)
                            [("name", JStr (license_name l))]))
                   info_
            else info_
        | None => info_
        end)) st
  = Ret (i, st).
Proof.
  destruct i as [t v d tos c l]. unfold exportableInfo. simpl. intros He.
  split_andb.
  destruct c as [[cn cu ce]|], l as [[ln lu]|]; simpl in *; split_andb;
    repeat match goal with
           | H : _ || _ = true |- _ => rewrite H
           | H : nonempty ln = true |- _ => rewrite H
           end;
    unfold parseInfo, opt_prop, field;
    match goal with
    | |- context [JsMap.get "title" ?r] =>
        read_key r "title"; read_key r "version"; read_key r "description";
        read_key r "termsOfService"; read_key r "contact"; read_key r "license"
    end;
    run_parser; reflexivity.
Qed.

Lemma mapM_id {A} (f : JValue -> M A) (ser : A -> JValue) (xs : list A)
      (st : PState) :
  (forall x st', In x xs -> f (ser x) st' = Ret (x, st')) ->
  mapM f (map ser xs) st = Ret (xs, st).
Proof.
  induction xs as [|x xs IH]; intros H; [reflexivity|].
  cbn [map mapM]. unfold bind at 1. rewrite (H x st (or_introl eq_refl)).
  unfold bind at 1. rewrite IH; [reflexivity|].
  intros x' st' Hin. apply H. now right.
Qed.

Lemma filter_all {A} (p : A -> bool) (xs : list A) :
  (forall x, In x xs -> p x = true) -> filter p xs = xs.
Proof.
  induction xs as [|x xs IH]; intros H; [reflexivity|].
  simpl. rewrite (H x (or_introl eq_refl)), IH; [reflexivity|].
  intros x' Hin. apply H. now right.
Qed.

(** The servers are written one after the other, and read back. *)
Lemma servers_ok (ss : list Server) (st : PState) :
  forallb (fun s => nonempty (url s) && opt_nonempty (srv_description s) &&
                    is_none (variables s)) ss = true ->
  mapM (fun s =>
          urlV <- prop "url" s ;;
          url <- as_string "server.url" urlV ;;
          descV <- prop "description" s ;;
          desc <- as_opt_string "server.description" descV ;;
          ret (mkServer url desc None))
       (filter (fun s => truthy s && truthy_opt (field "url" s))
               (map (fun s => JObj (set_if_truthy "description" (srv_description s)
                                                  [("url", JStr (url s))]))
                    ss)) st
  = Ret (ss, st).
Proof.
  intros He. rewrite forallb_forall in He. rewrite filter_all.
  - apply mapM_id. intros [u d vars] st' Hin. specialize (He _ Hin).
    simpl in He. split_andb. absent_fields.
    cbv beta. unfold prop, field. cbn [url srv_description].
    match goal with
    | |- context [JsMap.get "url" ?r] => read_key r "url"; read_key r "description"
    end.
    run_parser. reflexivity.
  - intros v Hin. apply in_map_iff in Hin as ([u d vars] & <- & Hin).
    specialize (He _ Hin). simpl in He. split_andb.
    cbn [url srv_description field truthy andb].
    match goal with
    | |- context [JsMap.get "url" ?r] => read_key r "url"
    end.
    simpl. assumption.
Qed.

(** The tags are written one after the other, and read back. *)
Lemma tags_ok (ts : list Tag) (st : PState) :
  forallb (fun t => nonempty (tag_name t) && opt_nonempty (tag_description t))
          ts = true ->
  mapM (fun t =>
          nameV <- prop "name" t ;;
          name <- as_string "tag.name" nameV ;;
          descV <- prop "description" t ;;
          desc <- as_opt_string "tag.description" descV ;;
          ret (mkTag name desc))
       (filter (fun t => truthy t && truthy_opt (field "name" t))
               (map (fun t => JObj (set_if_truthy "description" (tag_description t)
                                                  [("name", JStr (tag_name t))]))
                    ts)) st
  = Ret (ts, st).
Proof.
  intros He. rewrite forallb_forall in He. rewrite filter_all.
  - apply mapM_id. intros [n d] st' Hin. specialize (He _ Hin).
    simpl in He. split_andb.
    cbv beta. unfold prop, field. cbn [tag_name tag_description].
    match goal with
    | |- context [JsMap.get "name" ?r] => read_key r "name"; read_key r "description"
    end.
    run_parser. reflexivity.
  - intros v Hin. apply in_map_iff in Hin as ([n d] & <- & Hin).
    specialize (He _ Hin). simpl in He. split_andb.
    cbn [tag_name tag_description field truthy andb].
    match goal with
    | |- context [JsMap.get "name" ?r] => read_key r "name"
    end.
    simpl. assumption.
Qed.

End DocumentParts.

Section SecuritySchemes.
Import Js Parser Exporter RoundTrip Exportable RoundTripAux.

Variable uuid : nat -> NodeId.

(** A security scheme is written field by field, and read back under its
    name with a new identifier. *)
Lemma securityScheme_ok (s : SecurityScheme) (st : PState) :
  exportableSecurityScheme s = true ->
  parseSecurityScheme uuid (ss_name s) (JObj (serializeSecurityScheme s)) st
  = Ret (mkSecurityScheme (uuid (nextId st)) (ss_name s) (ss_type s)
                          (ss_description s) (ss_in s) (ss_paramName s)
                          (ss_scheme s) (ss_bearerFormat s) (ss_flows s)
                          (ss_openIdConnectUrl s),
         mkPState (errors st) (S (nextId st)) (schemaNameToId st)).
Proof.
  destruct s as [i n t d loc pn sch bf fl oid].
  unfold exportableSecurityScheme. simpl. intros He.
  destruct t; split_andb; absent_fields;
    repeat match goal with
           | H : match ?x with Some _ => _ | None => false end = true |- _ =>
               destruct x; [|discriminate H]
           end;
    try match goal with k : ApiKeyLocation |- _ => destruct k end;
    unfold serializeSecurityScheme;
    cbn [ss_type ss_description ss_in ss_paramName ss_scheme ss_bearerFormat
         ss_flows ss_openIdConnectUrl truthy_str];
    repeat match goal with
           | H : nonempty ?x = true |- context [nonempty ?x] => rewrite H
           end;
    unfold parseSecurityScheme, prop, field;
    match goal with
    | |- context [JsMap.get "type" ?r] =>
        read_key r "type"; read_key r "description"; read_key r "scheme";
        read_key r "bearerFormat"; read_key r "in"; read_key r "name";
        read_key r "openIdConnectUrl"
    end;
    run_parser; reflexivity.
Qed.

End SecuritySchemes.

Section FreshKeys.
Import Js Parser Exporter RoundTrip Exportable RoundTripAux.

Variable uuid : nat -> NodeId.
Hypothesis Hfresh : fresh_ids uuid.

Lemma includes_false (l : list string) (k : string) :
  (forall k', In k' l -> k' <> k) -> includes l k = false.
Proof.
  unfold includes. induction l as [|k0 l IH]; intros H; [reflexivity|].
  simpl. destruct (String.eqb_spec k k0) as [->|_].
  - exfalso. apply (H k0); [now left|reflexivity].
  - apply IH. intros k' Hin. apply H. now right.
Qed.

(** A map keyed by identifiers drawn before the [n]-th one receives the
    [n]-th identifier as a new key. *)
Lemma fresh_set {V} (n : nat) (v : V) (m : JsMap.t V) :
  Forall (fun k => exists j, k = uuid j /\ j < n) (JsMap.keys m) ->
  JsMap.set (uuid n) v m = m ++ [(uuid n, v)].
Proof.
  intros H. apply set_appends, includes_false.
  intros k' Hin. rewrite Forall_forall in H.
  destruct (H k' Hin) as (j & -> & Hj). intros E.
  apply (proj1 Hfresh) in E. lia.
Qed.

Lemma fresh_keys_app {V} (n n' : nat) (v : V) (m : JsMap.t V) :
  Forall (fun k => exists j, k = uuid j /\ j < n) (JsMap.keys m) ->
  n < n' ->
  Forall (fun k => exists j, k = uuid j /\ j < n')
         (JsMap.keys (m ++ [(uuid n, v)])).
Proof.
  intros H Hlt. rewrite keys_app. apply Forall_app. split.
  - eapply Forall_impl; [|exact H]. intros k (j & -> & Hj). exists j. split;
      [reflexivity|lia].
  - constructor; [|constructor]. exists n. split; [reflexivity|exact Hlt].
Qed.

(** The security schemes are read back in the order of the record, each
    under a new identifier. *)
Lemma securitySchemes_import (xs : JsMap.t SecurityScheme) :
  forallb (fun kv => exportableSecurityScheme (snd kv)) xs = true ->
  forall st (m : JsMap.t SecurityScheme),
    Forall (fun k => exists j, k = uuid j /\ j < nextId st) (JsMap.keys m) ->
    exists m' st',
      foldM (fun (m : JsMap.t SecurityScheme) (entry : string * JValue) =>
               let (name, schemeData) := entry in
               scheme <- parseSecurityScheme uuid name schemeData ;;
               ret (JsMap.set (ss_id scheme) scheme m))
            (map (fun x : NodeId * SecurityScheme =>
                    (ss_name (snd x), JObj (serializeSecurityScheme (snd x)))) xs)
            m st
      = Ret (m ++ m', st') /\
      sameButIds st st' /\
      map (fun kv => forgetSecurityScheme (snd kv)) m'
      = map (fun kv => forgetSecurityScheme (snd kv)) xs.
Proof.
  induction xs as [|[k s] xs IH]; intros He st m Hm; simpl in He.
  - exists [], st. rewrite app_nil_r. split; [reflexivity|].
    split; [apply sameButIds_refl|reflexivity].
  - apply andb_prop in He as [Hs He].
    pose (s' := mkSecurityScheme (uuid (nextId st)) (ss_name s) (ss_type s)
                  (ss_description s) (ss_in s) (ss_paramName s)
                  (ss_scheme s) (ss_bearerFormat s) (ss_flows s)
                  (ss_openIdConnectUrl s)).
    pose (st1 := mkPState (errors st) (S (nextId st)) (schemaNameToId st)).
    destruct (IH He st1 (m ++ [(uuid (nextId st), s')]))
      as (m' & st2 & Hrest & Hsame & Hforget).
    { apply fresh_keys_app; [exact Hm|simpl; lia]. }
    exists ((uuid (nextId st), s') :: m'), st2. split; [|split].
    + cbn [map foldM fst snd]. unfold bind at 1. unfold bind at 1.
      rewrite (securityScheme_ok uuid s st Hs). unfold ret at 1.
      cbn [ss_id]. rewrite (fresh_set _ _ _ Hm).
      rewrite <- app_assoc in Hrest. exact Hrest.
    + apply sameButIds_next. exact Hsame.
    + simpl. now rewrite Hforget.
Qed.

End FreshKeys.

Section ComponentSchemas.
Import Js Parser Exporter RoundTrip Exportable RoundTripAux.

Variable uuid : nat -> NodeId.
Variable doc : ApiDocument.
Variable reg : JsMap.t NodeId.
Variable fuelE : nat.
Hypothesis Hreg : Registry doc reg.

(** The named schemas are written under their names, in the order of the
    map. *)
Lemma schemas_export (xs : JsMap.t SchemaNode) :
  forallb (fun kv => match s_name (snd kv) with
                     | Some n => goodName n
                     | None => false
                     end && exportableSchema doc (snd kv)) xs = true ->
  forall acc : JRecord,
    js_ordered_from (JsMap.keys acc)
      (map (fun kv : NodeId * SchemaNode =>
              match s_name (snd kv) with Some n => n | None => "" end) xs) = true ->
    exists recs : list JRecord,
      fold_left
        (fun (acc : option JRecord) (entry : NodeId * SchemaNode) =>
           match acc with
           | None => None
           | Some schemas_ =>
               match s_name (snd entry) with
               | Some name =>
                   if nonempty name then
                     option_map (fun s => obj_set name (JObj s) schemas_)
                                (serializeSchema fuelE doc (snd entry))
                   else Some schemas_
               | None => Some schemas_
               end
           end)
        xs (Some acc)
      = Some (acc ++ combine
                (map (fun kv : NodeId * SchemaNode =>
                        match s_name (snd kv) with Some n => n | None => "" end) xs)
                (map JObj recs)) /\
      Forall2 (fun kv r => schemaReadsBack uuid doc reg (snd kv) r) xs recs.
Proof.
  induction xs as [|[k s] xs IH]; intros He acc Hord; simpl in *.
  - exists []. rewrite app_nil_r. split; [reflexivity|constructor].
  - apply andb_prop in He as [Hs He]. apply andb_prop in Hs as [Hn Hs].
    apply andb_prop in Hord as [Hk Hord].
    destruct (s_name s) as [n|]; [|discriminate].
    destruct (schema_ok uuid doc reg fuelE Hreg (sdepth s) s (Nat.le_refl _) Hs)
      as (r & Hser & _ & _ & Hback).
    unfold goodName in Hn. apply andb_prop in Hn as [Hn _].
    rewrite Hn, Hser. cbn [option_map]. rewrite (obj_set_appends _ _ _ Hk).
    destruct (IH He (acc ++ [(n, JObj r)])) as (recs & Hfold & Hall).
    { now rewrite keys_app. }
    exists (r :: recs). split.
    + rewrite <- app_assoc in Hfold. exact Hfold.
    + constructor; assumption.
Qed.

(** The first pass of the importer registers the names in the order of
    the record, each with a new identifier. *)
Lemma first_pass (entries : list (string * JValue)) : forall st : PState,
  js_ordered_from (JsMap.keys (schemaNameToId st)) (map fst entries) = true ->
  foldM (fun (_ : unit) (entry : string * JValue) =>
           id <- generateId uuid ;; setName (fst entry) id)
        entries tt st
  = Ret (tt, mkPState (errors st) (nextId st + length entries)
                      (schemaNameToId st ++
                       combine (map fst entries)
                               (map uuid (seq (nextId st) (length entries))))).
Proof.
  induction entries as [|[k v] entries IH]; intros st Hord; simpl in *.
  - rewrite app_nil_r, Nat.add_0_r. destruct st; reflexivity.
  - apply andb_prop in Hord as [Hk Hord].
    unfold bind at 1. unfold bind at 1. unfold generateId at 1.
    unfold setName at 1. cbn [errors nextId schemaNameToId].
    rewrite (set_appends _ _ _ (appendable_new _ _ Hk)).
    rewrite IH; cbn [errors nextId schemaNameToId].
    + rewrite <- app_assoc. simpl. repeat f_equal. lia.
    + now rewrite keys_app.
Qed.

(** The second pass reads the schemas back in the order of the record,
    each under the identifier registered for its name. *)
Lemma second_pass (xs : JsMap.t SchemaNode) (recs : list JRecord) :
  Forall2 (fun kv r => schemaReadsBack uuid doc reg (snd kv) r) xs recs ->
  forall (ids : list NodeId) f st (m : JsMap.t SchemaNode),
    Forall2 (fun (kv : NodeId * SchemaNode) id =>
               exists n, s_name (snd kv) = Some n /\ JsMap.get n reg = Some id)
            xs ids ->
    NoDup ids ->
    (forall id, In id ids -> includes (JsMap.keys m) id = false) ->
    (forall r, In r recs -> depth (JObj r) <= f) ->
    schemaNameToId st = reg ->
    exists m' st',
      foldM (fun (m : JsMap.t SchemaNode) (entry : string * JValue) =>
               let (name, schemaData) := entry in
               idV <- getName name ;;
               match idV with
               | Some id =>
                   schema <- parseSchema uuid f schemaData (Some name) id ;;
                   ret (JsMap.set id schema m)
               | None => untyped "schemaNameToId.get(name)!"
               end)
            (combine
               (map (fun kv : NodeId * SchemaNode =>
                       match s_name (snd kv) with Some n => n | None => "" end) xs)
               (map JObj recs))
            m st
      = Ret (m ++ m', st') /\
      sameButIds st st' /\
      JsMap.keys m' = ids /\
      Forall2 (fun (kv : NodeId * SchemaNode) (kv' : NodeId * SchemaNode) =>
                 s_name (snd kv') = s_name (snd kv) /\
                 forall nm', Names doc reg nm' ->
                   forgetSchema nm' (snd kv') = forgetSchema (nameOf doc) (snd kv))
              xs m'.
Proof.
  induction 1 as [|[k s] r xs recs Hback _ IH];
    intros ids f st m Hids Hnodup Hm Hdepth Hst.
  - inversion Hids; subst. exists [], st. rewrite app_nil_r.
    split; [reflexivity|]. split; [apply sameButIds_refl|].
    split; [reflexivity|constructor].
  - inversion Hids as [|? id ? ids' (n & Hn & Hget) Hids']; subst.
    inversion Hnodup as [|? ? Hnotin Hnodup']; subst.
    simpl in Hn, Hback.
    destruct (Hback f (Some n) id st (Hdepth r (or_introl eq_refl)) eq_refl)
      as (s' & st1 & Hparse & Hsame1 & Hid & Hname & Hforget).
    destruct (IH ids' f st1 (m ++ [(id, s')]) Hids' Hnodup')
      as (m' & st2 & Hrest & Hsame2 & Hkeys & Hall).
    { intros id' Hin. rewrite keys_app. unfold includes.
      rewrite existsb_app. apply orb_false_intro.
      - apply Hm. now right.
      - simpl. rewrite orb_false_r. apply String.eqb_neq. intros ->.
        contradiction. }
    { intros r' Hr'. apply Hdepth. now right. }
    { destruct Hsame1 as (_ & -> & _). reflexivity. }
    exists ((id, s') :: m'), st2. split; [|split; [|split]].
    + cbn [map combine foldM snd]. rewrite Hn.
      unfold bind at 1. unfold bind at 1. unfold getName at 1. rewrite Hget.
      unfold bind at 1. rewrite Hparse. unfold ret at 1.
      rewrite (set_appends _ _ _ (Hm id (or_introl eq_refl))).
      rewrite <- app_assoc in Hrest. exact Hrest.
    + eapply sameButIds_trans; eassumption.
    + simpl. now rewrite Hkeys.
    + constructor; [|exact Hall]. simpl. split; [congruence|].
      intros nm' Hnm. rewrite (Hforget nm' Hnm). now apply forget_restamp.
Qed.

End ComponentSchemas.

Section Paths.
Import Js Parser Exporter RoundTrip Exportable RoundTripAux.

Variable uuid : nat -> NodeId.
Variable doc : ApiDocument.
Variable reg : JsMap.t NodeId.
Variable fuelE : nat.
Hypothesis Hreg : Registry doc reg.
Hypothesis Hfresh : fresh_ids uuid.

(** Every route of a group has the path of the group. *)
Lemma groupByPath_inv (Q : Route -> Prop) (rs : list Route) :
  forall acc : JsMap.t (list Route),
    (forall r, In r rs -> Q r) ->
    (forall p l, JsMap.get p acc = Some l ->
                 Forall (fun r => r_path r = p /\ Q r) l) ->
    forall p l,
      JsMap.get p
        (fold_left
           (fun (groups : JsMap.t (list Route)) (route : Route) =>
              let routes := match JsMap.get (r_path route) groups with
                            | Some l => l | None => [] end in
              JsMap.set (r_path route) (routes ++ [route]) groups)
           rs acc) = Some l ->
      Forall (fun r => r_path r = p /\ Q r) l.
Proof.
  induction rs as [|r rs IH]; intros acc HQ Hacc p l; simpl; [apply Hacc|].
  apply IH.
  - intros r' Hin. apply HQ. now right.
  - intros p' l'. rewrite get_set. destruct (String.eqb_spec p' (r_path r)) as [->|_].
    + intros E. inversion E; subst. apply Forall_app. split.
      * destruct (JsMap.get (r_path r) acc) as [l0|] eqn:E0; [|constructor].
        now apply Hacc.
      * constructor; [|constructor]. split; [reflexivity|]. apply HQ. now left.
    + apply Hacc.
Qed.

Lemma group_routes (p : string) :
  forallb (fun kv => exportableRoute doc (snd kv)) (routes doc) = true ->
  Forall (fun r => r_path r = p /\ exportableRoute doc r = true)
         (match JsMap.get p (groupByPath (JsMap.values (routes doc))) with
          | Some l => l | None => [] end).
Proof.
  intros He.
  destruct (JsMap.get p (groupByPath (JsMap.values (routes doc)))) as [l|] eqn:E;
    [|constructor].
  unfold groupByPath in E.
  eapply (groupByPath_inv (fun r => exportableRoute doc r = true)); [| |exact E].
  - intros r Hin. unfold JsMap.values in Hin. apply in_map_iff in Hin as (kv & <- & Hin).
    rewrite forallb_forall in He. now apply He.
  - intros p' l'. simpl. discriminate.
Qed.

Lemma group_methods (p : string) :
  forallb (fun g => js_ordered (map r_method (snd g)))
          (groupByPath (JsMap.values (routes doc))) = true ->
  js_ordered
    (map r_method
         (match JsMap.get p (groupByPath (JsMap.values (routes doc))) with
          | Some l => l | None => [] end)) = true.
Proof.
  intros He.
  destruct (JsMap.get p (groupByPath (JsMap.values (routes doc)))) as [l|] eqn:E;
    [|reflexivity].
  apply get_in in E. rewrite forallb_forall in He. apply (He _ E).
Qed.

Lemma operation_reads_back (route : Route) :
  exportableRoute doc route = true ->
  exists r, serializeOperation fuelE doc route = Some r /\
            operationReadsBack uuid doc reg route r.
Proof. apply (operation_ok uuid doc reg fuelE Hreg). Qed.

(** The operations of a path item are read back in the order of the
    record, each under a new identifier. *)
Lemma group_import (p : string) (g : list Route) (ops : list JRecord) :
  Forall2 (operationReadsBack uuid doc reg) g ops ->
  Forall (fun r => r_path r = p /\ exportableRoute doc r = true) g ->
  forall f st (m : JsMap.t Route) pdoc,
    drawnBefore uuid (nextId st) m ->
    (forall r, In r ops -> depth (JObj r) <= f) ->
    schemaNameToId st = reg ->
    exists m' st',
      foldM (fun (m : JsMap.t Route) (opEntry : string * JValue) =>
               let (method, operationData) := opEntry in
               if negb (isHttpMethod method) then ret m
               else if negb (truthy operationData)
                       || negb (is_object operationData) then ret m
               else
                 route <- parseOperation uuid f p method operationData pdoc ;;
                 ret (JsMap.set (r_id route) route m))
            (combine (map r_method g) (map JObj ops)) m st
      = Ret (m ++ m', st') /\
      sameButIds st st' /\
      drawnBefore uuid (nextId st') (m ++ m') /\
      forall nm' sec', Names doc reg nm' ->
        map (fun kv => forgetRoute nm' sec' (snd kv)) m'
        = map (forgetRoute (nameOf doc) (schemeNameOf doc)) g.
Proof.
  induction 1 as [|r rec g ops Hback _ IH];
    intros Hg f st m pdoc Hm Hdepth Hst.
  - exists [], st. rewrite app_nil_r. split; [reflexivity|].
    split; [apply sameButIds_refl|]. split; [exact Hm|reflexivity].
  - inversion Hg as [|? ? [Hpath He] Hg']; subst.
    destruct (Hback f st pdoc (Hdepth rec (or_introl eq_refl)) eq_refl)
      as (r' & st1 & Hparse & Hsame1 & Hid & Hlt & Hforget).
    destruct (IH Hg' f st1 (m ++ [(uuid (nextId st), r')]) pdoc)
      as (m' & st2 & Hrest & Hsame2 & Hm2 & Hforget2).
    { apply fresh_keys_app; assumption. }
    { intros r0 Hr0. apply Hdepth. now right. }
    { destruct Hsame1 as (_ & -> & _). reflexivity. }
    exists ((uuid (nextId st), r') :: m'), st2.
    split; [|split; [|split]].
    + cbn [map combine foldM].
      assert (Hm' : isHttpMethod (r_method r) = true).
      { unfold exportableRoute in He. split_andb. assumption. }
      rewrite Hm'. cbn [negb truthy is_object orb].
      unfold bind at 1. unfold bind at 1. rewrite Hparse. unfold ret at 1.
      rewrite Hid, (fresh_set uuid Hfresh _ _ _ Hm).
      rewrite <- app_assoc in Hrest. exact Hrest.
    + eapply sameButIds_trans; eassumption.
    + rewrite <- app_assoc in Hm2. exact Hm2.
    + intros nm' sec' Hnm. simpl.
      now rewrite (Hforget nm' sec' Hnm), (Hforget2 nm' sec' Hnm).
Qed.

(** The path items are written under their paths, each with its
    operations under their methods. *)
Lemma paths_export (groups : JsMap.t (list Route)) (ps : list string) :
  (forall p, Forall (fun r => r_path r = p /\ exportableRoute doc r = true)
                    (match JsMap.get p groups with Some l => l | None => [] end)) ->
  (forall p, js_ordered
               (map r_method
                    (match JsMap.get p groups with Some l => l | None => [] end))
             = true) ->
  forall acc : JRecord,
    js_ordered_from (JsMap.keys acc) ps = true ->
    exists items : list (list JRecord),
      fold_left
        (fun (acc : option JRecord) (path : string) =>
           match acc with
           | None => None
           | Some paths =>
               let routes := match JsMap.get path groups with
                             | Some l => l | None => [] end in
               option_map
                 (fun item => obj_set path (JObj item) paths)
                 (fold_left
                    (fun (acc : option JRecord) (route : Route) =>
                       match acc, serializeOperation fuelE doc route with
                       | Some item, Some op =>
                           Some (obj_set (r_method route) (JObj op) item)
                       | _, _ => None
                       end)
                    routes (Some []))
           end)
        ps (Some acc)
      = Some (acc ++
              combine ps
                (map (fun pi : string * list JRecord =>
                        JObj (combine
                                (map r_method
                                     (match JsMap.get (fst pi) groups with
                                      | Some l => l | None => [] end))
                                (map JObj (snd pi))))
                     (combine ps items))) /\
      Forall2 (fun p ops =>
                 Forall2 (operationReadsBack uuid doc reg)
                         (match JsMap.get p groups with
                          | Some l => l | None => [] end) ops)
              ps items.
Proof.
  intros Hroutes Hmethods.
  induction ps as [|p ps IH]; intros acc Hord; simpl in *.
  - exists []. rewrite app_nil_r. split; [reflexivity|constructor].
  - apply andb_prop in Hord as [Hk Hord].
    destruct (keyed_export r_method (serializeOperation fuelE doc)
                (operationReadsBack uuid doc reg)
                (match JsMap.get p groups with Some l => l | None => [] end))
      with (acc := @nil (string * JValue)) as (ops & Hfold & Hback).
    { eapply Forall_impl; [|apply (Hroutes p)]. intros r [_ He].
      now apply operation_reads_back. }
    { apply Hmethods. }
    cbn [app] in Hfold. rewrite_loop Hfold. cbn [option_map].
    rewrite (obj_set_appends _ _ _ Hk).
    match goal with
    | |- context [Some (acc ++ [(p, ?v)])] =>
        destruct (IH (acc ++ [(p, v)])) as (items & Hrest & Hall)
    end.
    { now rewrite keys_app. }
    exists (ops :: items). split.
    + rewrite <- app_assoc in Hrest. exact Hrest.
    + constructor; assumption.
Qed.

(** The path items are read back in the order of the record. *)
Lemma paths_import (groups : JsMap.t (list Route)) (ps : list string)
      (items : list (list JRecord)) :
  Forall2 (fun p ops =>
             Forall2 (operationReadsBack uuid doc reg)
                     (match JsMap.get p groups with
                      | Some l => l | None => [] end) ops)
          ps items ->
  (forall p, Forall (fun r => r_path r = p /\ exportableRoute doc r = true)
                    (match JsMap.get p groups with Some l => l | None => [] end)) ->
  forall f st (m : JsMap.t Route) pdoc,
    drawnBefore uuid (nextId st) m ->
    (forall ops r, In ops items -> In r ops -> depth (JObj r) <= f) ->
    schemaNameToId st = reg ->
    exists m' st',
      foldM (fun (m : JsMap.t Route) (pathEntry : string * JValue) =>
               let (path, pathItem) := pathEntry in
               if negb (truthy pathItem) || negb (is_object pathItem) then ret m
               else
                 foldM (fun (m : JsMap.t Route) (opEntry : string * JValue) =>
                          let (method, operationData) := opEntry in
                          if negb (isHttpMethod method) then ret m
                          else if negb (truthy operationData)
                                  || negb (is_object operationData) then ret m
                          else
                            route <- parseOperation uuid f path method
                                                    operationData pdoc ;;
                            ret (JsMap.set (r_id route) route m))
                       (object_entries pathItem) m)
            (combine ps
               (map (fun pi : string * list JRecord =>
                       JObj (combine
                               (map r_method
                                    (match JsMap.get (fst pi) groups with
                                     | Some l => l | None => [] end))
                               (map JObj (snd pi))))
                    (combine ps items)))
            m st
      = Ret (m ++ m', st') /\
      sameButIds st st' /\
      forall nm' sec', Names doc reg nm' ->
        map (fun kv => forgetRoute nm' sec' (snd kv)) m'
        = map (forgetRoute (nameOf doc) (schemeNameOf doc))
              (flat_map (fun p => match JsMap.get p groups with
                                  | Some l => l | None => [] end) ps).
Proof.
  induction 1 as [|p ops ps items Hback _ IH];
    intros Hroutes f st m pdoc Hm Hdepth Hst.
  - exists [], st. rewrite app_nil_r. split; [reflexivity|].
    split; [apply sameButIds_refl|reflexivity].
  - destruct (group_import p _ ops Hback (Hroutes p) f st m pdoc Hm)
      as (m1 & st1 & Hgroup & Hsame1 & Hm1 & Hforget1).
    { intros r Hr. eapply Hdepth; [left; reflexivity|exact Hr]. }
    { exact Hst. }
    destruct (IH Hroutes f st1 (m ++ m1) pdoc Hm1)
      as (m2 & st2 & Hrest & Hsame2 & Hforget2).
    { intros ops' r Hops Hr. eapply Hdepth; [right; exact Hops|exact Hr]. }
    { destruct Hsame1 as (_ & -> & _). exact Hst. }
    exists (m1 ++ m2), st2. split; [|split].
    + cbn [map combine foldM fst snd].
      cbn [truthy is_object negb orb object_entries].
      unfold bind at 1. rewrite_loop Hgroup.
      rewrite app_assoc. exact Hrest.
    + eapply sameButIds_trans; eassumption.
    + intros nm' sec' Hnm. simpl. rewrite !map_app.
      now rewrite (Hforget1 nm' sec' Hnm), (Hforget2 nm' sec' Hnm).
Qed.

End Paths.

Section Registries.
Import Js Parser Exporter RoundTrip Exportable RoundTripAux.

Variable uuid : nat -> NodeId.
Hypothesis Hfresh : fresh_ids uuid.

Lemma includes_in (l : list string) (k : string) :
  includes l k = true <-> In k l.
Proof.
  unfold includes. rewrite existsb_exists. split.
  - intros (x & Hin & E). apply String.eqb_eq in E. now subst.
  - intros Hin. exists k. split; [exact Hin|apply String.eqb_refl].
Qed.

(** Keys in key order are pairwise different. *)
Lemma js_ordered_from_nodup (ks seen : list string) :
  js_ordered_from seen ks = true ->
  NoDup ks /\ forall k, In k ks -> ~ In k seen.
Proof.
  revert seen. induction ks as [|k ks IH]; intros seen H; simpl in H.
  - split; [constructor|]. intros k [].
  - apply andb_prop in H as [Hk H]. destruct (IH _ H) as [Hnd Hdis].
    apply appendable_new in Hk.
    split.
    + constructor; [|exact Hnd]. intros Hin.
      apply (Hdis k Hin). apply in_or_app. right. now left.
    + intros k' [<-|Hin] Hseen.
      * apply includes_in in Hseen. congruence.
      * apply (Hdis k' Hin). apply in_or_app. now left.
Qed.

Lemma js_ordered_nodup (ks : list string) : js_ordered ks = true -> NoDup ks.
Proof. intros H. now apply (js_ordered_from_nodup ks []). Qed.

Lemma get_in_nodup {V} (k : string) (v : V) (m : JsMap.t V) :
  NoDup (JsMap.keys m) -> In (k, v) m -> JsMap.get k m = Some v.
Proof.
  induction m as [|[k0 v0] m IH]; simpl; intros Hnd Hin; [contradiction|].
  inversion Hnd as [|? ? Hnotin Hnd']; subst.
  destruct Hin as [E|Hin].
  - inversion E; subst. now rewrite String.eqb_refl.
  - destruct (String.eqb_spec k k0) as [->|_].
    + exfalso. apply Hnotin. unfold JsMap.keys.
      change k0 with (fst (k0, v)). now apply in_map.
    + now apply IH.
Qed.

Lemma nodup_ids (start n : nat) : NoDup (map uuid (seq start n)).
Proof.
  revert start. induction n as [|n IH]; intros start; simpl; constructor.
  - intros Hin. apply in_map_iff in Hin as (j & E & Hj).
    apply (proj1 Hfresh) in E. apply in_seq in Hj. lia.
  - apply IH.
Qed.

Lemma nonempty_id (i : nat) : nonempty (uuid i) = true.
Proof.
  unfold nonempty. apply negb_true_iff, String.eqb_neq. apply (proj2 Hfresh).
Qed.

Lemma in_combine_exists {A B} (xs : list A) (ys : list B) (x : A) :
  length xs = length ys -> In x xs -> exists y, In (x, y) (combine xs ys).
Proof.
  revert ys. induction xs as [|x0 xs IH]; intros [|y0 ys] Hlen Hin;
    simpl in *; try discriminate; [contradiction|].
  destruct Hin as [->|Hin].
  - exists y0. now left.
  - destruct (IH ys) as [y Hy]; [congruence|exact Hin|]. exists y. now right.
Qed.

(** The registry the first pass builds knows every resolvable target. *)
Lemma registry_ok (doc : ApiDocument) (start : nat) :
  forallb (fun kv => match s_name (snd kv) with
                     | Some n => goodName n
                     | None => false
                     end && exportableSchema doc (snd kv)) (schemas doc) = true ->
  js_ordered (map (fun kv : NodeId * SchemaNode =>
                     match s_name (snd kv) with Some n => n | None => "" end)
                  (schemas doc)) = true ->
  Registry doc
    (combine (map (fun kv : NodeId * SchemaNode =>
                     match s_name (snd kv) with Some n => n | None => "" end)
                  (schemas doc))
             (map uuid (seq start (length (schemas doc))))).
Proof.
  intros Hall Hord t Ht. unfold resolvable in Ht. unfold nameOf.
  destruct (JsMap.get t (schemas doc)) as [s|] eqn:Hget; [|discriminate].
  destruct (s_name s) as [n|] eqn:Hn; [|discriminate].
  apply get_in in Hget.
  set (names := map (fun kv : NodeId * SchemaNode =>
                       match s_name (snd kv) with Some n => n | None => "" end)
                    (schemas doc)) in *.
  assert (Hin : In n names).
  { unfold names. apply in_map_iff. exists (t, s). simpl. rewrite Hn.
    split; [reflexivity|exact Hget]. }
  destruct (in_combine_exists names (map uuid (seq start (length (schemas doc)))) n)
    as [id' Hid']; [unfold names; now rewrite !length_map, length_seq|exact Hin|].
  exists id'. split.
  - apply get_in_nodup; [|exact Hid'].
    rewrite keys_combine; [now apply js_ordered_nodup|].
    unfold names. now rewrite !length_map, length_seq.
  - apply in_combine_r in Hid'. apply in_map_iff in Hid' as (j & <- & _).
    apply nonempty_id.
Qed.

Lemma Forall2_combine {A B} (R : A -> B -> Prop) (xs : list A) (ys : list B) :
  length xs = length ys ->
  (forall x y, In (x, y) (combine xs ys) -> R x y) ->
  Forall2 R xs ys.
Proof.
  revert ys. induction xs as [|x xs IH]; intros [|y ys] Hlen H;
    simpl in *; try discriminate; constructor.
  - apply H. now left.
  - apply IH; [congruence|]. intros x' y' Hin. apply H. now right.
Qed.

Lemma in_combine_map {A B C} (g : A -> C) (xs : list A) (ys : list B)
      (x : A) (y : B) :
  In (x, y) (combine xs ys) -> In (g x, y) (combine (map g xs) ys).
Proof.
  revert ys. induction xs as [|x0 xs IH]; intros [|y0 ys]; simpl; try tauto.
  intros [E|Hin]; [inversion E; subst; now left|right; now apply IH].
Qed.

(** The registry gives the schemas their identifiers in the order of the
    map. *)
Lemma registry_lookup (doc : ApiDocument) (xs : JsMap.t SchemaNode)
      (ids : list NodeId) :
  forallb (fun kv => match s_name (snd kv) with
                     | Some n => goodName n
                     | None => false
                     end && exportableSchema doc (snd kv)) xs = true ->
  js_ordered (map (fun kv : NodeId * SchemaNode =>
                     match s_name (snd kv) with Some n => n | None => "" end)
                  xs) = true ->
  length xs = length ids ->
  Forall2 (fun (kv : NodeId * SchemaNode) id =>
             exists n, s_name (snd kv) = Some n /\
               JsMap.get n
                 (combine (map (fun kv : NodeId * SchemaNode =>
                                  match s_name (snd kv) with
                                  | Some n => n | None => "" end) xs) ids)
               = Some id)
          xs ids.
Proof.
  intros Hall Hord Hlen. apply Forall2_combine; [exact Hlen|].
  intros x id Hin.
  assert (Hx : In x xs) by (eapply in_combine_l; exact Hin).
  rewrite forallb_forall in Hall. specialize (Hall x Hx). cbv beta in Hall.
  apply andb_prop in Hall as [Hn _].
  match type of Hn with
  | match ?t with Some _ => _ | None => _ end = _ =>
      destruct t as [n|] eqn:En; [|discriminate Hn]
  end.
  exists n. split; [exact En|].
  apply get_in_nodup.
  - rewrite keys_combine; [now apply js_ordered_nodup|].
    now rewrite length_map.
  - apply (in_combine_map (fun kv : NodeId * SchemaNode =>
                             match s_name (snd kv) with
                             | Some n => n | None => "" end)) in Hin.
    cbv beta in Hin.
    assert (En' : s_name (snd x) = Some n) by exact En.
    now rewrite En' in Hin.
Qed.

Lemma aligned_names (xs m : JsMap.t SchemaNode) (n : string) (id' : NodeId) :
  Forall2 (fun (kv kv' : NodeId * SchemaNode) =>
             s_name (snd kv') = s_name (snd kv)) xs m ->
  In (n, id')
     (combine (map (fun kv : NodeId * SchemaNode =>
                      match s_name (snd kv) with Some n => n | None => "" end) xs)
              (JsMap.keys m)) ->
  exists x s', In x xs /\ In (id', s') m /\
               match s_name (snd x) with Some n => n | None => "" end = n /\
               s_name s' = s_name (snd x).
Proof.
  induction 1 as [|x [k' s'] xs m Hname _ IH]; simpl; [tauto|].
  intros [E|Hin].
  - inversion E; subst. exists x, s'. repeat split; try (now left). exact Hname.
  - destruct (IH Hin) as (x0 & s0 & Hx0 & Hs0 & Hn0 & Hname0).
    exists x0, s0. repeat split; try (now right); assumption.
Qed.

(** The names of the schemas read back name the identifiers the registry
    holds. *)
Lemma names_ok (doc d' : ApiDocument) (ids : list NodeId) :
  forallb (fun kv => match s_name (snd kv) with
                     | Some n => goodName n
                     | None => false
                     end && exportableSchema doc (snd kv)) (schemas doc) = true ->
  NoDup ids ->
  JsMap.keys (schemas d') = ids ->
  Forall2 (fun (kv kv' : NodeId * SchemaNode) =>
             s_name (snd kv') = s_name (snd kv)) (schemas doc) (schemas d') ->
  Names doc
        (combine (map (fun kv : NodeId * SchemaNode =>
                         match s_name (snd kv) with Some n => n | None => "" end)
                      (schemas doc)) ids)
        (nameOf d').
Proof.
  intros Hall Hnd Hkeys Hal t id' Ht Hget.
  apply get_in in Hget. rewrite <- Hkeys in Hget.
  destruct (aligned_names _ _ _ _ Hal Hget) as (x & s' & Hx & Hs' & Hn & Hname).
  rewrite forallb_forall in Hall. specialize (Hall x Hx). cbv beta in Hall.
  apply andb_prop in Hall as [Hgood _].
  match type of Hgood with
  | match ?t with Some _ => _ | None => _ end = _ =>
      destruct t as [n|] eqn:En; [|discriminate Hgood]
  end.
  unfold nameOf at 1. rewrite (get_in_nodup id' s' (schemas d'));
    [|now rewrite Hkeys|exact Hs'].
  now rewrite Hname.
Qed.

End Registries.

(** *** The document *)

Section DocumentRecord.
Import Js Parser Exporter RoundTrip Exportable RoundTripAux.

(** [serializeDocument] returns the record of the document over what its
    three loops build. *)
Lemma serializeDocument_record (fuel : nat) (d : ApiDocument)
      (schemas_ paths : JRecord) :
  fold_left
    (fun (acc : option JRecord) (entry : NodeId * SchemaNode) =>
       match acc with
       | None => None
       | Some schemas_ =>
           match s_name (snd entry) with
           | Some name =>
               if nonempty name then
                 option_map (fun s => obj_set name (JObj s) schemas_)
                            (serializeSchema fuel d (snd entry))
               else Some schemas_
           | None => Some schemas_
           end
       end)
    (schemas d) (Some []) = Some schemas_ ->
  (let pathGroups := groupByPath (JsMap.values (routes d)) in
   fold_left
     (fun (acc : option JRecord) (path : string) =>
        match acc with
        | None => None
        | Some paths =>
            let routes := match JsMap.get path pathGroups with
                          | Some l => l | None => [] end in
            option_map
              (fun item => obj_set path (JObj item) paths)
              (fold_left
                 (fun (acc : option JRecord) (route : Route) =>
                    match acc, serializeOperation fuel d route with
                    | Some item, Some op =>
                        Some (obj_set (r_method route) (JObj op) item)
                    | _, _ => None
                    end)
                 routes (Some []))
        end)
     (sort (JsMap.keys pathGroups)) (Some [])) = Some paths ->
  serializeDocument fuel d
  = Some (JObj (documentRecord d schemas_
                  (fold_left
                     (fun (acc : JRecord) (entry : NodeId * SecurityScheme) =>
                        obj_set (ss_name (snd entry))
                                (JObj (serializeSecurityScheme (snd entry))) acc)
                     (securitySchemes d) [])
                  paths)).
Proof.
  intros Hs Hp. unfold serializeDocument. cbv zeta in Hp |- *.
  rewrite Hs, Hp. unfold documentRecord, componentsValue, recordValue, listValue.
  destruct (servers d), (tags d), schemas_,
    (fold_left
       (fun (acc : JRecord) (entry : NodeId * SecurityScheme) =>
          obj_set (ss_name (snd entry))
                  (JObj (serializeSecurityScheme (snd entry))) acc)
       (securitySchemes d) []); reflexivity.
Qed.

End DocumentRecord.

(** The action of the importer that the goal is waiting for. *)
Ltac head_action t :=
  lazymatch t with
  | match ?s with
    | Parser.Ret _ => _ | Parser.Throws _ => _
    | Parser.Untyped _ => _ | Parser.OutOfFuel => _
    end => head_action s
  | _ => t
  end.

(** Replaces the action the goal is waiting for by its outcome [res],
    which [tac] proves. *)
Ltac step_with res tac :=
  match goal with
  | |- ?lhs = _ =>
      let act := head_action lhs in
      let H := fresh "Hstep" in
      assert (H : act = res) by tac;
      rewrite H; clear H
  end.

Section Assembly.
Import Js Parser Exporter RoundTrip Exportable RoundTripAux.

Variable uuid : nat -> NodeId.
Variable fuelE : nat.
Variable d : ApiDocument.
Hypothesis Hfresh : fresh_ids uuid.
Hypothesis Hexp : exportable d.

Lemma version_ok : startsWith "3.0.3" "3." = true.
Proof. reflexivity. Qed.

Lemma info_record_ok (i : InfoObject) (st : PState) :
  exportableInfo i = true -> parseInfo (JObj (infoRecord i)) st = Ret (i, st).
Proof. apply info_ok. Qed.

Lemma in_combine_r_exists {A B} (xs : list A) (ys : list B) (y : B) :
  length xs = length ys -> In y ys -> exists x, In (x, y) (combine xs ys).
Proof.
  revert ys. induction xs as [|x0 xs IH]; intros [|y0 ys] Hlen Hin;
    simpl in *; try discriminate; [contradiction|].
  destruct Hin as [->|Hin].
  - exists x0. now left.
  - destruct (IH ys) as [x Hx]; [congruence|exact Hin|]. exists x. now right.
Qed.

Lemma combine_map_pairs {A B} (g : string * A -> B) (ks : list string)
      (xs : list A) :
  combine ks (map g (combine ks xs))
  = map (fun pi => (fst pi, g pi)) (combine ks xs).
Proof.
  revert xs. induction ks as [|k ks IH]; intros [|x xs]; simpl; try reflexivity.
  now rewrite IH.
Qed.

(** The record of a schema lies inside the record of the document. *)
Lemma depth_schema_record (doc : ApiDocument) (Sec P : JRecord)
      (names : list string) (recs : list JRecord) (r : JRecord) :
  length recs = length names -> In r recs ->
  depth (JObj r)
  <= depth (JObj (documentRecord doc (combine names (map JObj recs)) Sec P)).
Proof.
  intros Hlen Hin.
  assert (Hc : exists C,
             JsMap.get "components"
               (documentRecord doc (combine names (map JObj recs)) Sec P)
             = Some (JObj C) /\
             JsMap.get "schemas" C = Some (JObj (combine names (map JObj recs)))).
  { destruct names as [|n names], recs as [|r0 recs]; simpl in Hlen, Hin;
      try discriminate; try contradiction.
    eexists. split.
    - unfold documentRecord, componentsValue. cbn [combine map]. solve_lookup.
    - unfold recordValue. cbn [combine map]. solve_lookup. }
  destruct Hc as (C & HC & HS).
  apply depth_get in HC.
  pose proof (depth_obj_entry "schemas" r names recs C (depth (JObj C))
                              Hin Hlen HS (Nat.le_refl _)).
  lia.
Qed.

(** The record of an operation lies inside the record of the document. *)
Lemma depth_operation_record (doc : ApiDocument) (S Sec : JRecord)
      (methods : string -> list string) (ps : list string)
      (items : list (list JRecord)) (ops : list JRecord) (r : JRecord) :
  length ps = length items ->
  (forall p ops, In (p, ops) (combine ps items) ->
                 length ops = length (methods p)) ->
  In ops items -> In r ops ->
  depth (JObj r)
  <= depth (JObj (documentRecord doc S Sec
                    (combine ps
                       (map (fun pi : string * list JRecord =>
                               JObj (combine (methods (fst pi))
                                             (map JObj (snd pi))))
                            (combine ps items))))).
Proof.
  intros Hlen Hlens Hops Hr.
  destruct (in_combine_r_exists ps items ops Hlen Hops) as [p Hp].
  rewrite combine_map_pairs.
  match goal with
  | |- _ <= depth (JObj (documentRecord _ _ _ ?P)) =>
      assert (HP : JsMap.get "paths" (documentRecord doc S Sec P) = Some (JObj P))
        by (unfold documentRecord; solve_lookup);
      assert (Hitem : In (p, JObj (combine (methods p) (map JObj ops))) P)
        by (apply in_map_iff; exists (p, ops); split; [reflexivity|exact Hp])
  end.
  apply depth_get in HP. apply depth_in_obj in Hitem.
  destruct (in_combine_r_exists (methods p) (map JObj ops) (JObj r))
    as [m Hm]; [rewrite length_map; symmetry; now apply Hlens|now apply in_map|].
  apply depth_in_obj in Hm. lia.
Qed.

(** The steps of [parseDocument] over the record of a document. *)
Lemma servers_step (ss other : list Server) (st : PState) :
  forallb (fun s => nonempty (url s) && opt_nonempty (srv_description s) &&
                    is_none (variables s)) ss = true ->
  other = [] ->
  match listValue serverRecord ss with
  | Some (JArr l) =>
      mapM (fun s =>
              urlV <- prop "url" s ;;
              url <- as_string "server.url" urlV ;;
              descV <- prop "description" s ;;
              desc <- as_opt_string "server.description" descV ;;
              ret (mkServer url desc None))
           (filter (fun s => truthy s && truthy_opt (field "url" s)) l)
  | _ => ret other
  end st = Ret (ss, st).
Proof.
  intros H ->. destruct ss as [|s ss]; [reflexivity|].
  apply (servers_ok (s :: ss) st H).
Qed.

Lemma tags_step (ts other : list Tag) (st : PState) :
  forallb (fun t => nonempty (tag_name t) && opt_nonempty (tag_description t))
          ts = true ->
  other = [] ->
  match listValue tagRecord ts with
  | Some (JArr l) =>
      mapM (fun t =>
              nameV <- prop "name" t ;;
              name <- as_string "tag.name" nameV ;;
              descV <- prop "description" t ;;
              desc <- as_opt_string "tag.description" descV ;;
              ret (mkTag name desc))
           (filter (fun t => truthy t && truthy_opt (field "name" t)) l)
  | _ => ret other
  end st = Ret (ts, st).
Proof.
  intros H ->. destruct ts as [|t ts]; [reflexivity|].
  apply (tags_ok (t :: ts) st H).
Qed.

Lemma components_schemas (S Sec : JRecord) (st : PState) :
  opt_prop "schemas" (componentsValue S Sec) st = Ret (recordValue S, st).
Proof.
  destruct S as [|s S], Sec as [|c Sec]; try reflexivity;
    unfold componentsValue, opt_prop, field;
    match goal with
    | |- context [JsMap.get "schemas" ?r] => read_key r "schemas"
    end; reflexivity.
Qed.

Lemma components_securitySchemes (S Sec : JRecord) (st : PState) :
  opt_prop "securitySchemes" (componentsValue S Sec) st = Ret (recordValue Sec, st).
Proof.
  destruct S as [|s S], Sec as [|c Sec]; try reflexivity;
    unfold componentsValue, opt_prop, field;
    match goal with
    | |- context [JsMap.get "securitySchemes" ?r] => read_key r "securitySchemes"
    end; reflexivity.
Qed.

(** A loop over the entries of a record that is there when it is not
    empty. *)
Lemma loop_step {B} (G : B -> string * JValue -> M B) (l : JRecord) (init : B)
      (st : PState) :
  match recordValue l with
  | Some ss => if truthy ss then foldM G (object_entries ss) init else ret init
  | None => ret init
  end st = foldM G l init st.
Proof. destruct l; reflexivity. Qed.

Lemma map_blank_keys {A B} (g : A -> B) (l l' : list (string * A)) (h : A -> B) :
  map (fun kv => g (snd kv)) l' = map (fun kv => h (snd kv)) l ->
  map (fun kv => ("", h (snd kv))) l = map (fun kv => ("", g (snd kv))) l'.
Proof.
  intros H.
  rewrite <- (map_map (fun kv => h (snd kv)) (fun x => ("", x)) l).
  rewrite <- (map_map (fun kv => g (snd kv)) (fun x => ("", x)) l').
  now rewrite H.
Qed.

Lemma Forall2_map_eq {A B C} (g : B -> C) (h : A -> C) (xs : list A) (ys : list B) :
  Forall2 (fun x y => g y = h x) xs ys -> map g ys = map h xs.
Proof. induction 1 as [|x y xs ys E _ IH]; simpl; [reflexivity|now rewrite E, IH]. Qed.

Lemma Forall2_in_combine {A B} (R : A -> B -> Prop) (xs : list A) (ys : list B)
      (x : A) (y : B) :
  Forall2 R xs ys -> In (x, y) (combine xs ys) -> R x y.
Proof.
  induction 1 as [|x0 y0 xs ys HR _ IH]; simpl; [tauto|].
  intros [E|Hin]; [inversion E; now subst|now apply IH].
Qed.

Lemma document_round_trip :
  exists d', reimport uuid fuelE d = Some (Ret (mkParseResult (Some d') [])) /\
             sameUpToIds d d'.
Proof.
  destruct Hexp as [He Hrorder]. unfold exportableDocument in He.
  split_andb.
  assert (Hinfo : exportableInfo (info d) = true) by assumption.
  assert (Hservers : forallb (fun s => nonempty (url s) &&
                                       opt_nonempty (srv_description s) &&
                                       is_none (variables s)) (servers d) = true)
    by assumption.
  assert (Htags : forallb (fun t => nonempty (tag_name t) &&
                                    opt_nonempty (tag_description t)) (tags d) = true)
    by assumption.
  assert (Hschemas : forallb (fun kv => match s_name (snd kv) with
                                        | Some n => goodName n
                                        | None => false
                                        end && exportableSchema d (snd kv))
                             (schemas d) = true) by assumption.
  assert (Hnames : js_ordered
                     (map (fun kv : NodeId * SchemaNode =>
                             match s_name (snd kv) with Some n => n | None => "" end)
                          (schemas d)) = true) by assumption.
  assert (Hsec : forallb (fun kv => exportableSecurityScheme (snd kv))
                         (securitySchemes d) = true) by assumption.
  assert (Hsecnames : js_ordered (map (fun kv => ss_name (snd kv))
                                      (securitySchemes d)) = true) by assumption.
  assert (Hroutes : forallb (fun kv => exportableRoute d (snd kv)) (routes d) = true)
    by assumption.
  assert (Hpaths : js_ordered (sort (JsMap.keys (groupByPath (JsMap.values (routes d)))))
                   = true) by assumption.
  assert (Hmethods : forallb (fun g => js_ordered (map r_method (snd g)))
                             (groupByPath (JsMap.values (routes d))) = true)
    by assumption.
  set (names := map (fun kv : NodeId * SchemaNode =>
                       match s_name (snd kv) with Some n => n | None => "" end)
                    (schemas d)) in *.
  set (ids := map uuid (seq 1 (length (schemas d)))).
  set (reg := combine names ids).
  assert (Hreg : Registry d reg) by (apply registry_ok; assumption).
  destruct (schemas_export uuid d reg fuelE Hreg (schemas d) Hschemas [] Hnames)
    as (recs & Hsfold & Hsback).
  cbn [app] in Hsfold.
  set (groups := groupByPath (JsMap.values (routes d))) in *.
  destruct (paths_export uuid d reg fuelE Hreg groups
              (sort (JsMap.keys groups))
              (fun p => group_routes d p Hroutes)
              (fun p => group_methods d p Hmethods) [] Hpaths)
    as (items & Hpfold & Hpback).
  cbn [app] in Hpfold.
  unfold reimport.
  rewrite (serializeDocument_record fuelE d _ _ Hsfold Hpfold).
  pose proof (fold_obj_set_ordered
                (fun kv : NodeId * SecurityScheme => ss_name (snd kv))
                (fun kv => JObj (serializeSecurityScheme (snd kv)))
                (securitySchemes d) [] Hsecnames) as Hsecfold.
  cbn [app] in Hsecfold. rewrite_loop Hsecfold. clear Hsecfold.
  cbn [option_map].
  match goal with
  | |- context [documentRecord d ?S ?Sec ?P] =>
      set (S_ := S) in *; set (Sec_ := Sec) in *; set (P_ := P) in *
  end.
  set (R := documentRecord d S_ Sec_ P_).
  assert (Hlen_names : length names = length (schemas d))
    by (unfold names; apply length_map).
  assert (Hlen_recs : length recs = length names)
    by (rewrite Hlen_names; symmetry; eapply Forall2_length_eq; exact Hsback).
  assert (Hlen_ids : length ids = length (schemas d))
    by (unfold ids; now rewrite length_map, length_seq).
  assert (Hdepth_recs : forall r, In r recs -> depth (JObj r) <= S (depth (JObj R))).
  { intros r Hr. apply Nat.le_le_succ_r.
    apply (depth_schema_record d Sec_ P_ names recs r Hlen_recs Hr). }
  assert (Hdepth_ops : forall ops r, In ops items -> In r ops ->
                                     depth (JObj r) <= S (depth (JObj R))).
  { intros ops r Hops Hr. apply Nat.le_le_succ_r.
    apply (depth_operation_record d S_ Sec_
             (fun p => map r_method (match JsMap.get p groups with
                                     | Some l => l | None => [] end))
             (sort (JsMap.keys groups)) items ops r); try assumption.
    - eapply Forall2_length_eq; exact Hpback.
    - intros p ops' Hin. rewrite length_map. symmetry.
      eapply Forall2_length_eq.
      apply (Forall2_in_combine _ _ _ _ _ Hpback Hin). }
  set (f := S (depth (JObj R))) in *.
  pose (st_fp := mkPState [] (1 + length (schemas d)) reg).
  destruct (second_pass uuid d reg Hreg (schemas d) recs Hsback ids f st_fp JsMap.empty)
    as (m_s & st_s & Hsparse & Hsame_s & Hkeys_s & Hall_s).
  { apply (registry_lookup d); [assumption|assumption|now rewrite Hlen_ids]. }
  { apply nodup_ids. exact Hfresh. }
  { intros id _. reflexivity. }
  { exact Hdepth_recs. }
  { reflexivity. }
  destruct (securitySchemes_import uuid Hfresh (securitySchemes d) Hsec st_s
                                   JsMap.empty)
    as (m_sec & st_sec & Hsecparse & Hsame_sec & Hforget_sec).
  { constructor. }
  destruct (paths_import uuid d reg Hreg Hfresh groups
              (sort (JsMap.keys groups)) items Hpback
              (fun p => group_routes d p Hroutes) f st_sec JsMap.empty
              (createEmptyDocument (uuid 0)))
    as (m_r & st_r & Hrparse & Hsame_r & Hforget_r).
  { constructor. }
  { exact Hdepth_ops. }
  { eapply same_registry; [exact Hsame_sec|].
    eapply same_registry; [exact Hsame_s|reflexivity]. }
  exists (mkApiDocument (uuid 0) (info d) (servers d) m_r m_s m_sec (tags d)).
  split.
  - f_equal. unfold parseYaml. cbn [truthy is_object negb orb].
    fold f.
    assert (Hdoc : parseDocument uuid f (JObj R) (mkPState [] 0 JsMap.empty)
                   = Ret (mkApiDocument (uuid 0) (info d) (servers d) m_r m_s
                                        m_sec (tags d), st_r)).
    { assert (Hk1 : JsMap.get "openapi" R = Some (JStr "3.0.3"))
        by (unfold R, documentRecord; solve_lookup).
      assert (Hk2 : JsMap.get "info" R = Some (JObj (infoRecord (info d))))
        by (unfold R, documentRecord; solve_lookup).
      assert (Hk3 : JsMap.get "servers" R = listValue serverRecord (servers d))
        by (unfold R, documentRecord; solve_lookup).
      assert (Hk4 : JsMap.get "tags" R = listValue tagRecord (tags d))
        by (unfold R, documentRecord; solve_lookup).
      assert (Hk5 : JsMap.get "components" R = componentsValue S_ Sec_)
        by (unfold R, documentRecord; solve_lookup).
      assert (Hk6 : JsMap.get "paths" R = Some (JObj P_))
        by (unfold R, documentRecord; solve_lookup).
      assert (Hfp : foldM (fun (_ : unit) (entry : string * JValue) =>
                             id <- generateId uuid ;; setName (fst entry) id)
                          S_ tt (mkPState [] 1 JsMap.empty)
                    = Ret (tt, st_fp)).
      { assert (HkeysS : map fst S_ = names).
        { apply (keys_combine names (map JObj recs)). now rewrite length_map. }
        assert (HlenS : length S_ = length (schemas d)).
        { rewrite <- Hlen_names, <- HkeysS. symmetry. apply length_map. }
        rewrite first_pass.
        - cbn [errors nextId schemaNameToId app]. rewrite HkeysS, HlenS.
          reflexivity.
        - cbn [schemaNameToId]. rewrite HkeysS. exact Hnames. }
      unfold parseDocument, prop, field.
      rewrite Hk1, Hk2, Hk3, Hk4, Hk5, Hk6.
      clearbody R f.
      run_parser. rewrite version_ok. run_parser.
      cbn [errors nextId schemaNameToId].
      step_with (Ret (info d, mkPState [] 1 JsMap.empty))
                ltac:(apply info_record_ok; exact Hinfo).
      run_parser.
      step_with (Ret (servers d, mkPState [] 1 JsMap.empty))
                ltac:(apply servers_step; [exact Hservers|reflexivity]).
      run_parser.
      step_with (Ret (tags d, mkPState [] 1 JsMap.empty))
                ltac:(apply tags_step; [exact Htags|reflexivity]).
      run_parser.
      step_with (Ret (recordValue S_, mkPState [] 1 JsMap.empty))
                ltac:(apply components_schemas).
      run_parser.
      step_with (Ret (tt, st_fp))
                ltac:(etransitivity; [apply loop_step|exact Hfp]).
      run_parser.
      step_with (Ret (m_s, st_s))
                ltac:(etransitivity; [apply loop_step|exact Hsparse]).
      run_parser.
      step_with (Ret (recordValue Sec_, st_s))
                ltac:(apply components_securitySchemes).
      run_parser.
      step_with (Ret (m_sec, st_sec))
                ltac:(etransitivity; [apply loop_step|exact Hsecparse]).
      run_parser.
      step_with (Ret (m_r, st_r)) ltac:(exact Hrparse).
      reflexivity. }
    rewrite Hdoc. f_equal. f_equal.
    destruct Hsame_r as (-> & _), Hsame_sec as (-> & _), Hsame_s as (-> & _).
    reflexivity.
  - set (d' := mkApiDocument (uuid 0) (info d) (servers d) m_r m_s m_sec (tags d)).
    assert (HNames : Names d reg (nameOf d')).
    { apply names_ok; [exact Hschemas|apply nodup_ids; exact Hfresh|exact Hkeys_s|].
      eapply Forall2_impl; [|exact Hall_s]. intros a b [Hn _]. exact Hn. }
    unfold sameUpToIds, forget.
    cbn [info servers routes schemas securitySchemes tags d'].
    f_equal.
    + apply map_blank_keys.
      rewrite (Hforget_r (nameOf d') (schemeNameOf d') HNames).
      unfold exportOrder in Hrorder. fold groups in Hrorder. rewrite Hrorder.
      unfold JsMap.values. now rewrite map_map.
    + apply map_blank_keys. apply Forall2_map_eq.
      eapply Forall2_impl; [|exact Hall_s]. intros a b [_ Hab].
      exact (Hab _ HNames).
    + apply map_blank_keys. exact Hforget_sec.
Qed.

End Assembly.

Section NumeralIdentifiers.
Import Js Exportable.

Lemma to_uint_nonnil (n : nat) : Nat.to_uint n <> Decimal.Nil.
Proof.
  rewrite <- (DecimalNat.Unsigned.of_to n) at 1.
  rewrite DecimalNat.Unsigned.to_of. unfold Decimal.unorm.
  destruct (Decimal.nzhead (Nat.to_uint n)); discriminate.
Qed.

Lemma nat_to_string_inj (i j : nat) : nat_to_string i = nat_to_string j -> i = j.
Proof.
  unfold nat_to_string. intros E.
  apply DecimalNat.Unsigned.to_uint_inj.
  pose proof (NilZero.usu _ (to_uint_nonnil i)) as Hi.
  pose proof (NilZero.usu _ (to_uint_nonnil j)) as Hj.
  rewrite E in Hi. congruence.
Qed.

(** The decimal numerals are identifiers that are pairwise different and
    not empty. *)
Lemma numerals_are_fresh : fresh_ids nat_to_string.
Proof.
  split; [exact nat_to_string_inj|].
  intros i. unfold nat_to_string. destruct (Nat.to_uint i); discriminate.
Qed.

End NumeralIdentifiers.

Section RoundTripHolds.
Import Js Parser Exporter RoundTrip Exportable RoundTripAux RoundTripExamples.



End RoundTripHolds.

(* ================================================================== *)
(** * Further properties of the store *)

Section DistinctStrings.
Import StoreSpec3.

Lemma distinct_NoDup (xs : list string) : distinct xs = true <-> NoDup xs.
Proof.
  induction xs as [|x xs IH]; simpl.
  - split; [constructor|reflexivity].
  - rewrite andb_true_iff, negb_true_iff, IH. split.
    + intros [Hx Hd]. constructor; [|assumption].
      intros Hin. apply includes_in in Hin. congruence.
    + intros H. inversion H as [|? ? Hn Hd]; subst. split; [|assumption].
      destruct (includes xs x) eqn:E; [|reflexivity].
      apply includes_in in E. contradiction.
Qed.

Lemma includes_app (xs ys : list string) (x : string) :
  includes (xs ++ ys) x = includes xs x || includes ys x.
Proof. unfold includes. apply existsb_app. Qed.

Lemma distinct_snoc (xs : list string) (x : string) :
  distinct xs = true -> includes xs x = false -> distinct (xs ++ [x]) = true.
Proof.
  intros Hd Hx. apply distinct_NoDup. apply distinct_NoDup in Hd.
  apply NoDup_app; [assumption|repeat constructor; intros []|].
  intros y Hy [<-|[]]. apply includes_in in Hy. congruence.
Qed.

Lemma distinct_filter (p : string -> bool) (xs : list string) :
  distinct xs = true -> distinct (filter p xs) = true.
Proof.
  intros H. apply distinct_NoDup. apply distinct_NoDup in H.
  now apply NoDup_filter.
Qed.

End DistinctStrings.

Section StoreScripts.
Import Store StoreSpec StoreActions.

Lemma redo_keeps_cursor (st : EditorState) : cursor_ok st -> cursor_ok (redo st).
Proof.
  intros [Hlo Hhi]. unfold redo.
  destruct (Z.leb_spec (Z.of_nat (length (history st)) - 1) (historyIndex st));
    [split; assumption|].
  unfold index. destruct (Z.ltb_spec (historyIndex st + 2) 0); [split; assumption|].
  destruct (nth_error (history st) (Z.to_nat (historyIndex st + 2))) eqn:E;
    [|split; assumption].
  assert (Hlt : (Z.to_nat (historyIndex st + 2) < length (history st))%nat)
    by (apply nth_error_Some; congruence).
  unfold cursor_ok; simpl. lia.
Qed.

Lemma apply_keeps_cursor (now : Z) (m : Mutation) (st st' : EditorState) :
  cursor_ok st -> apply now m st = Some st' -> cursor_ok st'.
Proof.
  intros Hc Ha. destruct (apply_shape _ _ _ _ Ha) as [->|(_ & Hi & _)];
    [assumption|].
  unfold cursor_ok. lia.
Qed.

Lemma perform_keeps_cursor (a : Action) (st st' : EditorState) :
  cursor_ok st -> perform a st = Some st' -> cursor_ok st'.
Proof.
  intros Hc. destruct a; simpl; intros H.
  - eapply apply_keeps_cursor; eassumption.
  - destruct (undo_step _ Hc) as (s & Hs & Hc' & _). congruence.
  - injection H as <-. now apply redo_keeps_cursor.
  - injection H as <-. exact Hc.
  - injection H as <-. exact Hc.
  - injection H as <-. exact Hc.
  - injection H as <-. exact Hc.
Qed.

(** X1. Whatever is called on the store (edits, undo, redo, selections),
    in any order, the history cursor stays between -1 and the last index
    of the history; so the read [history[historyIndex]] of [undo] never
    falls outside the array, and [undo] goes through. *)
Theorem cursor_stays_within_history
        (actions : list Action) (st st' : EditorState) :
  cursor_ok st -> performAll actions st = Some st' ->
  cursor_ok st' /\ exists su, undo st' = Some su.
Proof.
  revert st. induction actions as [|a actions IH]; intros st Hc Hp; simpl in Hp.
  - injection Hp as <-. split; [assumption|].
    destruct (undo_step _ Hc) as (su & Hu & _). eauto.
  - destruct (perform a st) as [s1|] eqn:E; [|discriminate].
    apply (IH s1); [|assumption]. eapply perform_keeps_cursor; eassumption.
Qed.

Lemma cursor_stays_within_history_witness :
  exists st',
    performAll [Edit 1 (AddSchema StoreExamples.petSchema); Undo; Undo; Redo;
                Edit 2 (DeleteSchema "ghost"); SelectSchema None; Redo]
               StoreExamples.store0 = Some st' /\
    cursor_ok st' /\ exists su, undo st' = Some su.
Proof.
  eexists. split; [reflexivity|].
  apply (cursor_stays_within_history
           [Edit 1 (AddSchema StoreExamples.petSchema); Undo; Undo; Redo;
            Edit 2 (DeleteSchema "ghost"); SelectSchema None; Redo]
           StoreExamples.store0);
    [unfold cursor_ok; simpl; lia|reflexivity].
Defined.

(** Every editing action either returns the state it was given or bumps
    the version by one. *)
Lemma apply_version (now : Z) (m : Mutation) (st st' : EditorState) :
  apply now m st = Some st' ->
  st' = st \/ documentVersion st' = (documentVersion st + 1)%Z.
Proof.
  destruct m; simpl; intros H;
    try (injection H as <-);
    try (right; reflexivity);
    try (unfold updateSchema, addFieldToSchema, updateField, deleteField,
           updateRoute, addParameter, updateParameter, deleteParameter,
           setRequestBody, addResponse, updateResponse, deleteResponse,
           updateSecurityScheme, editRoute;
         repeat break_match; auto; right; reflexivity).
  unfold updateServer in H.
  destruct ((0 <=? idx) && _)%Z; [|discriminate].
  injection H as <-. right. reflexivity.
Qed.



Lemma index_last {A} (xs : list A) (x : A) :
  index (xs ++ [x]) (Z.of_nat (length (xs ++ [x])) - 1) = Some x.
Proof.
  unfold index. rewrite length_app. simpl.
  destruct (Z.ltb_spec (Z.of_nat (length xs + 1) - 1) 0); [lia|].
  replace (Z.to_nat (Z.of_nat (length xs + 1) - 1)) with (length xs) by lia.
  rewrite nth_error_app2 by lia. now rewrite Nat.sub_diag.
Qed.

Lemma shift_snoc {A} (y : A) (xs : list A) (x : A) :
  shift ((y :: xs) ++ [x]) = xs ++ [x].
Proof. reflexivity. Qed.

(** The snapshot an editing action leaves on top of the history is the
    document it started from. *)
Lemma committed_top (m : Mutation) (st st' : EditorState) :
  (1 <= maxHistorySize st)%Z -> committed m st st' ->
  index (history st') (historyIndex st') = Some (document st).
Proof.
  intros Hmax (Hh & Hi & _). rewrite Hi, Hh.
  unfold pushHistory. rewrite cloneDocument_eq.
  destruct (evicts m st) eqn:He; [|apply index_last].
  destruct m; try discriminate. simpl in He.
  apply Z.ltb_lt in He. unfold pushHistory in He.
  destruct (slice0 (history st) (historyIndex st + 1)) as [|y ys].
  - simpl in He. lia.
  - rewrite shift_snoc. apply index_last.
Qed.

Lemma committed_cursor (m : Mutation) (st st' : EditorState) :
  (1 <= maxHistorySize st)%Z -> committed m st st' ->
  (0 <= historyIndex st')%Z.
Proof.
  intros Hmax Hc. pose proof (committed_top _ _ _ Hmax Hc) as Ht.
  unfold index in Ht. destruct (Z.ltb_spec (historyIndex st') 0); [discriminate|lia].
Qed.

(** X3. One [undo] takes back one edit: after any editing action that
    went through (it did not return the state unchanged), [undo] succeeds
    and the current document is again the document the action started
    from. This holds from every state of the store, also for a
    [setDocument] that evicts the oldest snapshot. *)
Theorem one_undo_reverts_an_edit
        (now : Z) (m : Mutation) (st st' : EditorState) :
  (1 <= maxHistorySize st)%Z -> apply now m st = Some st' ->
  st' = st \/
  exists su, undo st' = Some su /\ document su = document st /\
             historyIndex su = (historyIndex st' - 1)%Z.
Proof.
  intros Hmax Ha. destruct (apply_shape _ _ _ _ Ha) as [->|Hc]; [auto|right].
  pose proof (committed_top _ _ _ Hmax Hc) as Ht.
  pose proof (committed_cursor _ _ _ Hmax Hc) as Hi.
  unfold undo. destruct (Z.ltb_spec (historyIndex st') 0); [lia|].
  rewrite Ht. eexists. repeat split.
Qed.

Lemma one_undo_reverts_an_edit_witness :
  exists st',
    apply 3 (SetDocument StoreExamples.doc1) StoreExamples.store0 = Some st' /\
    (st' = StoreExamples.store0 \/
     exists su, undo st' = Some su /\ document su = document StoreExamples.store0 /\
                historyIndex su = (historyIndex st' - 1)%Z).
Proof.
  eexists. split; [reflexivity|].
  apply (one_undo_reverts_an_edit 3 (SetDocument StoreExamples.doc1)
                                  StoreExamples.store0);
    [simpl; lia|reflexivity].
Defined.

End StoreScripts.

Section StoreLookups.
Import Store StoreSpec StoreActions.

Lemma get_delete {V} (k k' : string) (m : JsMap.t V) :
  JsMap.get k (JsMap.delete k' m)
  = if String.eqb k k' then None else JsMap.get k m.
Proof.
  induction m as [|[k0 v0] m IH]; simpl.
  - now destruct (String.eqb k k').
  - destruct (String.eqb_spec k' k0) as [->|Hne].
    + rewrite IH. destruct (String.eqb_spec k k0); reflexivity.
    + simpl. rewrite IH.
      destruct (String.eqb_spec k k0) as [->|Hne'];
        [|reflexivity].
      destruct (String.eqb_spec k0 k'); [congruence|reflexivity].
Qed.

(** X4. Lookup after insertion and deletion. After [addSchema] the schema
    is found under its identifier, after [deleteSchema] nothing is found
    under the deleted identifier, and in both cases every other
    identifier still gives what it gave before; [addSchema] selects the
    new schema, and [deleteSchema] clears the selection exactly when the
    deleted schema was the selected one. *)
Theorem schema_lookup_after_add_and_delete
        (now : Z) (schema : SchemaNode) (id id' : NodeId) (st : EditorState) :
  getSchemaById id' (addSchema now schema st)
  = (if String.eqb id' (s_id schema) then Some schema else getSchemaById id' st) /\
  selectedSchemaId (addSchema now schema st) = Some (s_id schema) /\
  getSchemaById id' (deleteSchema now id st)
  = (if String.eqb id' id then None else getSchemaById id' st) /\
  selectedSchemaId (deleteSchema now id st)
  = (if match selectedSchemaId st with
        | Some sel => String.eqb sel id
        | None => false
        end
     then None else selectedSchemaId st).
Proof.
  unfold getSchemaById, addSchema, deleteSchema. cbv zeta.
  rewrite !cloneDocument_eq. simpl. rewrite get_set, get_delete.
  repeat split. unfold deselect.
  destruct (selectedSchemaId st) as [sel|]; [|reflexivity].
  destruct (String.eqb sel id); reflexivity.
Qed.

(** X5. Undo does not restore the selection. After a schema that was not
    in the document is added and the addition is undone, the schema is
    gone from the document but it is still the selected schema. *)
Theorem undo_leaves_selection_dangling
        (now : Z) (schema : SchemaNode) (st : EditorState) :
  getSchemaById (s_id schema) st = None ->
  exists su, undo (addSchema now schema st) = Some su /\
             selectedSchemaId su = Some (s_id schema) /\
             getSchemaById (s_id schema) su = None.
Proof.
  intros Hnone. unfold undo, addSchema, pushHistory. cbv zeta.
  rewrite !cloneDocument_eq. simpl.
  rewrite length_app. simpl.
  destruct (Z.ltb_spec (Z.of_nat (length (slice0 (history st) (historyIndex st + 1)) + 1) - 1) 0);
    [lia|].
  pose proof (index_last (slice0 (history st) (historyIndex st + 1))
                         (document st)) as Hi.
  rewrite length_app in Hi. simpl in Hi.
  rewrite Hi. eexists. split; [reflexivity|]. simpl.
  split; [reflexivity|]. exact Hnone.
Qed.

Lemma undo_leaves_selection_dangling_witness :
  getSchemaById (s_id StoreExamples.petSchema) StoreExamples.store0 = None /\
  exists su, undo (addSchema 1 StoreExamples.petSchema StoreExamples.store0) = Some su /\
             selectedSchemaId su = Some (s_id StoreExamples.petSchema) /\
             getSchemaById (s_id StoreExamples.petSchema) su = None.
Proof.
  split; [reflexivity|].
  apply (undo_leaves_selection_dangling 1 StoreExamples.petSchema StoreExamples.store0).
  reflexivity.
Defined.

End StoreLookups.

(** ** Properties of documents that the store keeps *)

Section DocumentInvariants.
Import Store StoreSpec StoreActions StoreSpec3.

Variable P : ApiDocument -> bool.

(** The assumption on [P]: the editing actions keep it, given that the
    document a [setDocument] brings in has it. *)
Hypothesis edits_keep : forall now m st st',
  P (document st) = true -> imports P (Edit now m) = true ->
  apply now m st = Some st' -> P (document st') = true.

Lemma everywhere_spec (st : EditorState) :
  everywhere P st = true <->
  P (document st) = true /\ Forall (fun d => P d = true) (history st).
Proof.
  unfold everywhere. rewrite andb_true_iff, forallb_forall, Forall_forall.
  reflexivity.
Qed.

Lemma history_entry_has (st : EditorState) (i : Z) (d : ApiDocument) :
  Forall (fun d => P d = true) (history st) ->
  index (history st) i = Some d -> P d = true.
Proof.
  intros Hh Hi. unfold index in Hi. destruct (i <? 0)%Z; [discriminate|].
  apply nth_error_In in Hi. rewrite Forall_forall in Hh. auto.
Qed.

Lemma Forall_shift {A} (Q : A -> Prop) (l : list A) :
  Forall Q l -> Forall Q (shift l).
Proof. intros H. destruct H; simpl; [constructor|assumption]. Qed.

Lemma perform_keeps_everywhere (a : Action) (st st' : EditorState) :
  everywhere P st = true -> imports P a = true -> perform a st = Some st' ->
  everywhere P st' = true.
Proof.
  rewrite !everywhere_spec. intros [Hd Hh] Hi Hp. destruct a; simpl in Hp.
  - split; [eapply edits_keep; eassumption|].
    destruct (apply_shape _ _ _ _ Hp) as [->|(Hh' & _)]; [assumption|].
    rewrite Hh'.
    assert (Hpush : Forall (fun d => P d = true) (pushHistory st)).
    { unfold pushHistory. rewrite cloneDocument_eq. apply Forall_app.
      split; [now apply Forall_slice0|]. constructor; [assumption|constructor]. }
    destruct (evicts m st); [now apply Forall_shift|assumption].
  - unfold undo in Hp. destruct (historyIndex st <? 0)%Z.
    + injection Hp as <-. split; assumption.
    + destruct (index (history st) (historyIndex st)) as [d|] eqn:E; [|discriminate].
      injection Hp as <-. simpl. split; [|assumption].
      eapply history_entry_has; eassumption.
  - injection Hp as <-. unfold redo.
    destruct (_ <=? _)%Z; [split; assumption|].
    destruct (index (history st) (historyIndex st + 2)) as [d|] eqn:E;
      [|split; assumption].
    simpl. split; [|assumption]. eapply history_entry_has; eassumption.
  - injection Hp as <-. split; assumption.
  - injection Hp as <-. split; assumption.
  - injection Hp as <-. split; assumption.
  - injection Hp as <-. split; assumption.
Qed.

End DocumentInvariants.

Section Tags.
Import Store StoreSpec StoreActions StoreSpec3.

(** The tags an editing action leaves: only [setDocument], [addTag] and
    [deleteTag] touch them. *)
Lemma apply_tags (now : Z) (m : Mutation) (st st' : EditorState) :
  apply now m st = Some st' ->
  tags (document st') =
  match m with
  | SetDocument doc => tags doc
  | AddTag tag =>
      if existsb (fun t => String.eqb (tag_name t) (tag_name tag))
                 (tags (document st))
      then tags (document st) else tags (document st) ++ [tag]
  | DeleteTag name =>
      filter (fun t => negb (String.eqb (tag_name t) name)) (tags (document st))
  | _ => tags (document st)
  end.
Proof.
  destruct m; simpl; intros H;
    try (unfold updateServer in H;
         destruct ((0 <=? idx) && _)%Z; [|discriminate]);
    injection H as <-;
    unfold setDocument, updateInfo, addSchema, updateSchema, deleteSchema,
      addFieldToSchema, updateField, deleteField, addRoute, updateRoute,
      deleteRoute, addParameter, updateParameter, deleteParameter,
      setRequestBody, addResponse, updateResponse, deleteResponse, addServer,
      deleteServer, addSecurityScheme, updateSecurityScheme,
      deleteSecurityScheme, addTag, deleteTag, editRoute;
    cbv zeta; rewrite ?cloneDocument_eq;
    repeat break_match; try reflexivity; discriminate.
Qed.

Lemma includes_map_tag_name (ts : list Tag) (n : string) :
  includes (map tag_name ts) n
  = existsb (fun t => String.eqb (tag_name t) n) ts.
Proof.
  unfold includes. induction ts as [|t ts IH]; simpl; [reflexivity|].
  rewrite IH. now rewrite String.eqb_sym.
Qed.

Lemma map_tag_name_filter (ts : list Tag) (n : string) :
  map tag_name (filter (fun t => negb (String.eqb (tag_name t) n)) ts)
  = filter (fun x => negb (String.eqb x n)) (map tag_name ts).
Proof.
  induction ts as [|t ts IH]; simpl; [reflexivity|].
  destruct (String.eqb (tag_name t) n); simpl; now rewrite IH.
Qed.

Lemma edits_keep_tags_distinct (now : Z) (m : Mutation) (st st' : EditorState) :
  tagsDistinct (document st) = true -> imports tagsDistinct (Edit now m) = true ->
  apply now m st = Some st' -> tagsDistinct (document st') = true.
Proof.
  unfold tagsDistinct. intros Hd Hi Ha.
  rewrite (apply_tags _ _ _ _ Ha).
  destruct m; try assumption.
  - destruct (existsb _ _) eqn:E; [assumption|].
    rewrite map_app. simpl. apply distinct_snoc; [assumption|].
    now rewrite includes_map_tag_name.
  - rewrite map_tag_name_filter. now apply distinct_filter.
Qed.



End Tags.

Section RequiredFields.
Import Store StoreSpec StoreActions StoreSpec3.

Lemma has_set {V} (k k' : string) (v : V) (m : JsMap.t V) :
  JsMap.has k (JsMap.set k' v m) = String.eqb k k' || JsMap.has k m.
Proof.
  unfold JsMap.has. rewrite get_set. now destruct (String.eqb k k').
Qed.

Lemma has_delete {V} (k k' : string) (m : JsMap.t V) :
  JsMap.has k (JsMap.delete k' m) = negb (String.eqb k k') && JsMap.has k m.
Proof.
  unfold JsMap.has. rewrite get_delete. now destruct (String.eqb k k').
Qed.

Lemma indexOf_none (xs : list string) (x : string) :
  indexOf xs x = None -> includes xs x = false.
Proof.
  unfold includes. induction xs as [|y xs IH]; simpl; [reflexivity|].
  rewrite (String.eqb_sym x y). destruct (String.eqb y x); [discriminate|].
  destruct (indexOf xs x); [discriminate|]. auto.
Qed.

(** [splice1] at the index of a name in a list without repetition removes
    the name. *)
Lemma splice1_indexOf (xs : list string) (x : string) (i : nat) :
  indexOf xs x = Some i -> distinct xs = true ->
  distinct (splice1 xs i) = true /\
  forall y, includes (splice1 xs i) y = negb (String.eqb y x) && includes xs y.
Proof.
  revert i. induction xs as [|z xs IH]; intros i Hi Hd; simpl in *; [discriminate|].
  apply andb_prop in Hd as [Hz Hd]. apply negb_true_iff in Hz.
  destruct (String.eqb_spec z x) as [->|Hne].
  - injection Hi as <-. split; [assumption|]. intros y. unfold includes. simpl.
    destruct (String.eqb_spec y x) as [->|Hyx]; simpl; [exact Hz|reflexivity].
  - destruct (indexOf xs x) as [j|] eqn:Ej; [|discriminate]. injection Hi as <-.
    destruct (IH j eq_refl Hd) as [Hd' Hin]. simpl. split.
    + rewrite Hin, Hz, andb_false_r. exact Hd'.
    + intros y. unfold includes in *. simpl. rewrite Hin.
      destruct (String.eqb_spec y z) as [->|Hyz]; simpl; [|reflexivity].
      destruct (String.eqb_spec z x); [contradiction|reflexivity].
Qed.

(** [assign_at] at the index of a name, with a name the list does not
    hold, replaces the one by the other. *)
Lemma assign_at_indexOf (xs : list string) (x n : string) (i : nat) :
  indexOf xs x = Some i -> distinct xs = true -> includes xs n = false ->
  distinct (assign_at xs i n) = true /\
  forall y, includes (assign_at xs i n) y
            = String.eqb y n || (negb (String.eqb y x) && includes xs y).
Proof.
  revert i. induction xs as [|z xs IH]; intros i Hi Hd Hn; simpl in *; [discriminate|].
  apply andb_prop in Hd as [Hz Hd]. apply negb_true_iff in Hz.
  unfold includes in Hn. simpl in Hn. apply orb_false_elim in Hn as [Hnz Hn].
  destruct (String.eqb_spec z x) as [->|Hne].
  - injection Hi as <-. simpl. split.
    + unfold includes. rewrite Hn. exact Hd.
    + intros y. unfold includes. simpl.
      destruct (String.eqb_spec y n); simpl; [reflexivity|].
      destruct (String.eqb_spec y x) as [->|Hyx]; simpl; [exact Hz|reflexivity].
  - destruct (indexOf xs x) as [j|] eqn:Ej; [|discriminate]. injection Hi as <-.
    destruct (IH j eq_refl Hd Hn) as [Hd' Hin]. simpl. split.
    + rewrite Hin. rewrite (String.eqb_sym z n), Hnz. simpl.
      rewrite Hz, andb_false_r. exact Hd'.
    + intros y. unfold includes in *. simpl. rewrite Hin.
      destruct (String.eqb_spec y z) as [->|Hyz]; simpl; [|reflexivity].
      destruct (String.eqb_spec z x); [contradiction|].
      now rewrite orb_true_r.
Qed.

Lemma forallb_modify_get {V} (Q : V -> bool) (k : string) (f : V -> V)
      (m : JsMap.t V) :
  forallb (fun entry => Q (snd entry)) m = true ->
  (forall v, JsMap.get k m = Some v -> Q v = true -> Q (f v) = true) ->
  forallb (fun entry => Q (snd entry)) (JsMap.modify k f m) = true.
Proof.
  induction m as [|[k0 v0] m IH]; simpl; intros H Hf; [reflexivity|].
  apply andb_prop in H as [H0 Hm].
  destruct (String.eqb k k0); simpl.
  - rewrite Hm, andb_true_r. now apply Hf.
  - rewrite H0. simpl. apply IH; assumption.
Qed.

(** What [requiredConsistent] says, name by name. *)
Lemma requiredConsistent_spec (s : SchemaNode) :
  requiredConsistent s = true <->
  distinct (requiredOf s) = true /\
  forall n, includes (requiredOf s) n = true -> JsMap.has n (propertiesOf s) = true.
Proof.
  unfold requiredConsistent. rewrite andb_true_iff, forallb_forall.
  split; intros [Hd Hp]; split; try assumption.
  - intros n Hn. apply Hp. now apply includes_in.
  - intros n Hn. apply Hp. now apply includes_in.
Qed.

Lemma consistent_intro (s : SchemaNode) :
  distinct (requiredOf s) = true ->
  (forall n, includes (requiredOf s) n = true -> JsMap.has n (propertiesOf s) = true) ->
  requiredConsistent s = true.
Proof. intros. apply requiredConsistent_spec. split; assumption. Qed.

Lemma addField_keeps (field : PropertyDef) (s : SchemaNode) :
  requiredConsistent s = true ->
  requiredConsistent
    (let props := match s_properties s with
                  | Some m => m | None => JsMap.empty end in
     let updatedSchema :=
       withProperties s (Some (JsMap.set (pd_name field) field props)) in
     if pd_required field then
       let required := match s_required updatedSchema with
                       | Some r => r | None => [] end in
       withRequired updatedSchema
         (Some (if includes required (pd_name field) then required
                else required ++ [pd_name field]))
     else updatedSchema) = true.
Proof.
  intros H. apply requiredConsistent_spec in H as [Hd Hp].
  cbv zeta.
  destruct (pd_required field).
  - change (match s_required (withProperties s _) with Some r => r | None => [] end)
      with (requiredOf s).
    destruct (includes (requiredOf s) (pd_name field)) eqn:E;
      apply consistent_intro; unfold requiredOf, propertiesOf in *; simpl.
    + assumption.
    + intros n Hn. rewrite has_set. apply orb_true_iff. right. exact (Hp n Hn).
    + now apply distinct_snoc.
    + intros n Hn. rewrite includes_app in Hn. rewrite has_set.
      apply orb_prop in Hn as [Hn|Hn].
      * apply orb_true_iff. right. exact (Hp n Hn).
      * unfold includes in Hn. simpl in Hn. rewrite orb_false_r in Hn.
        now rewrite Hn.
  - apply consistent_intro; unfold requiredOf, propertiesOf in *; simpl;
      [assumption|].
    intros n Hn. rewrite has_set. apply orb_true_iff. right. exact (Hp n Hn).
Qed.

Lemma deleteField_keeps (fieldName : string) (s : SchemaNode) :
  requiredConsistent s = true ->
  requiredConsistent
    (let updatedSchema :=
       withProperties s (option_map (JsMap.delete fieldName) (s_properties s)) in
     match s_required updatedSchema with
     | Some required =>
         match indexOf required fieldName with
         | Some idx => withRequired updatedSchema (Some (splice1 required idx))
         | None => updatedSchema
         end
     | None => updatedSchema
     end) = true.
Proof.
  intros H. apply requiredConsistent_spec in H as [Hd Hp].
  cbv zeta.
  assert (Hprops : forall n, JsMap.has n
            (match option_map (JsMap.delete fieldName) (s_properties s) with
             | Some m => m | None => JsMap.empty end)
            = negb (String.eqb n fieldName) && JsMap.has n (propertiesOf s)).
  { intros n. unfold propertiesOf. destruct (s_properties s); simpl.
    - apply has_delete.
    - now rewrite andb_false_r. }
  change (s_required (withProperties s _)) with (s_required s).
  unfold requiredOf in Hd, Hp.
  destruct (s_required s) as [required|] eqn:Er.
  - destruct (indexOf required fieldName) as [idx|] eqn:Ei.
    + destruct (splice1_indexOf _ _ _ Ei Hd) as [Hd' Hin].
      apply consistent_intro; unfold requiredOf, propertiesOf; simpl; [assumption|].
      intros n Hn. rewrite Hin in Hn. apply andb_prop in Hn as [Hne Hn].
      rewrite Hprops, Hne. simpl. now apply Hp.
    + apply indexOf_none in Ei.
      apply consistent_intro; unfold requiredOf, propertiesOf; simpl; rewrite Er;
        [assumption|].
      intros n Hn. rewrite Hprops, (Hp n Hn), andb_true_r.
      destruct (String.eqb_spec n fieldName) as [->|]; [congruence|reflexivity].
  - apply consistent_intro; unfold requiredOf, propertiesOf; simpl; rewrite Er;
      [reflexivity|]. intros n Hn. discriminate.
Qed.

(** The second half of [updateField]: the change of the [required] flag. *)
Lemma required_change_keeps (req : bool) (name : string) (s : SchemaNode) :
  requiredConsistent s = true -> JsMap.has name (propertiesOf s) = true ->
  requiredConsistent
    (let required := match s_required s with Some r => r | None => [] end in
     match req, indexOf required name with
     | true, None => withRequired s (Some (required ++ [name]))
     | false, Some idx => withRequired s (Some (splice1 required idx))
     | _, _ => withRequired s (Some required)
     end) = true.
Proof.
  intros H Hname. apply requiredConsistent_spec in H as [Hd Hp].
  cbv zeta. change (match s_required s with Some r => r | None => [] end)
    with (requiredOf s).
  destruct (indexOf (requiredOf s) name) as [idx|] eqn:Ei.
  - destruct (splice1_indexOf _ _ _ Ei Hd) as [Hd' Hin].
    destruct req; apply consistent_intro; unfold requiredOf, propertiesOf in *; simpl;
      try assumption.
    intros n Hn. rewrite Hin in Hn. apply andb_prop in Hn as [_ Hn]. now apply Hp.
  - apply indexOf_none in Ei.
    destruct req; apply consistent_intro; unfold requiredOf, propertiesOf in *; simpl;
      try assumption.
    + now apply distinct_snoc.
    + intros n Hn. rewrite includes_app in Hn. apply orb_prop in Hn as [Hn|Hn].
      * now apply Hp.
      * unfold includes in Hn. simpl in Hn. rewrite orb_false_r in Hn.
        apply String.eqb_eq in Hn. subst n. exact Hname.
Qed.

Lemma has_get {V} (k : string) (v : V) (m : JsMap.t V) :
  JsMap.get k m = Some v -> JsMap.has k m = true.
Proof. unfold JsMap.has. now intros ->. Qed.

(** The first half of [updateField]: the field is stored under its name,
    or moved to a name that is not taken. *)
Lemma rename_keeps (fieldName : string) (updatedField field : PropertyDef)
      (newName : option string) (properties : JsMap.t PropertyDef)
      (s : SchemaNode) :
  s_properties s = Some properties ->
  JsMap.get fieldName properties = Some field ->
  requiredConsistent s = true ->
  (match newName with
   | Some n => nonempty n && negb (String.eqb n fieldName) && JsMap.has n properties
   | None => false
   end = false) ->
  let renamed := match newName with
                 | Some n => nonempty n && negb (String.eqb n fieldName)
                 | None => false
                 end in
  let name := match newName with
              | Some n => if nonempty n then n else fieldName
              | None => fieldName
              end in
  let s1 :=
    if renamed then
      let n := spread fieldName newName in
      let updatedSchema :=
        withProperties s
          (option_map (fun m => JsMap.set n updatedField (JsMap.delete fieldName m))
                      (s_properties s)) in
      match s_required updatedSchema with
      | Some required =>
          match indexOf required fieldName with
          | Some idx => withRequired updatedSchema (Some (assign_at required idx n))
          | None => updatedSchema
          end
      | None => updatedSchema
      end
    else
      withProperties s
        (option_map (JsMap.set fieldName updatedField) (s_properties s)) in
  requiredConsistent s1 = true /\ JsMap.has name (propertiesOf s1) = true.
Proof.
  intros Hprops Hfield H Hfresh renamed name.
  apply requiredConsistent_spec in H as [Hd Hp].
  assert (Hhas : JsMap.has fieldName properties = true) by (eapply has_get; eassumption).
  unfold propertiesOf in Hp. rewrite Hprops in Hp.
  subst renamed.
  destruct (match newName with
            | Some n => nonempty n && negb (String.eqb n fieldName)
            | None => false
            end) eqn:Er.
  - (* the field is renamed *)
    destruct newName as [n|]; [|discriminate].
    apply andb_prop in Er as [Hne Hdiff]. apply negb_true_iff in Hdiff.
    rewrite Hne, Hdiff in Hfresh. simpl in Hfresh.
    subst name. rewrite Hne. cbv zeta. simpl spread.
    rewrite Hprops. simpl option_map.
    change (s_required (withProperties s _)) with (s_required s).
    assert (Hnreq : includes (requiredOf s) n = false).
    { destruct (includes (requiredOf s) n) eqn:E; [|reflexivity].
      apply Hp in E. congruence. }
    unfold requiredOf in Hd, Hnreq, Hp.
    destruct (s_required s) as [required|] eqn:Ereq.
    + destruct (indexOf required fieldName) as [idx|] eqn:Ei.
      * destruct (assign_at_indexOf _ _ _ _ Ei Hd Hnreq) as [Hd' Hin].
        split.
        -- apply consistent_intro; unfold requiredOf, propertiesOf; simpl; [assumption|].
           intros y Hy. rewrite Hin in Hy. rewrite has_set, has_delete.
           destruct (String.eqb y n); [reflexivity|]. simpl in *.
           apply andb_prop in Hy as [Hy1 Hy2]. rewrite Hy1. simpl. now apply Hp.
        -- unfold propertiesOf. simpl. rewrite has_set, String.eqb_refl. reflexivity.
      * apply indexOf_none in Ei. split.
        -- apply consistent_intro; unfold requiredOf, propertiesOf; simpl; rewrite Ereq;
             [assumption|].
           intros y Hy. rewrite has_set, has_delete.
           destruct (String.eqb y n); [reflexivity|]. simpl.
           rewrite (Hp y Hy), andb_true_r.
           destruct (String.eqb_spec y fieldName) as [->|]; [congruence|reflexivity].
        -- unfold propertiesOf. simpl. rewrite has_set, String.eqb_refl. reflexivity.
    + split.
      * apply consistent_intro; unfold requiredOf, propertiesOf; simpl; rewrite Ereq;
          [reflexivity|]. intros y Hy. discriminate.
      * unfold propertiesOf. simpl. rewrite has_set, String.eqb_refl. reflexivity.
  - (* the field keeps its name *)
    assert (Hname : name = fieldName).
    { subst name. destruct newName as [n|]; [|reflexivity].
      destruct (nonempty n); [|reflexivity]. simpl in Er.
      apply negb_false_iff, String.eqb_eq in Er. exact Er. }
    rewrite Hname, Hprops. simpl option_map. split.
    + apply consistent_intro; unfold requiredOf, propertiesOf in *; simpl; [assumption|].
      intros y Hy. rewrite has_set. apply orb_true_iff. right. now apply Hp.
    + unfold propertiesOf. simpl. rewrite has_set, String.eqb_refl. reflexivity.
Qed.

Lemma forallb_get {V} (Q : V -> bool) (k : string) (v : V) (m : JsMap.t V) :
  forallb (fun entry => Q (snd entry)) m = true -> JsMap.get k m = Some v ->
  Q v = true.
Proof.
  intros H Hg. apply get_in in Hg. rewrite forallb_forall in H.
  exact (H _ Hg).
Qed.

(** X7. The field actions keep [required] in step with [properties]. If
    in every schema of the document the [required] list names each
    property at most once and names only properties that exist, then the
    same holds after [addFieldToSchema], after [deleteField], and after an
    [updateField] that does not rename the field onto the name of another
    existing property. *)
Theorem field_actions_keep_required_consistent
        (now : Z) (m : Mutation) (st st' : EditorState) :
  is_field_action m = true -> renames_onto_existing m st = false ->
  requiredConsistentIn (document st) = true ->
  apply now m st = Some st' ->
  requiredConsistentIn (document st') = true.
Proof.
  unfold requiredConsistentIn.
  destruct m; try discriminate; intros _ Hfresh Hall Ha; simpl in Ha;
    injection Ha as <-.
  - (* addFieldToSchema *)
    unfold addFieldToSchema.
    destruct (JsMap.get schemaId (schemas (document st))) as [schema|]; [|assumption].
    destruct (negb (SchemaType_eqb (s_type schema) TObject)); [assumption|].
    cbv zeta. rewrite cloneDocument_eq. simpl.
    apply forallb_modify_get; [assumption|].
    intros v _ Hv. now apply addField_keeps.
  - (* updateField *)
    unfold updateField.
    destruct (JsMap.get schemaId (schemas (document st))) as [schema|] eqn:Es;
      [|assumption].
    destruct (s_properties schema) as [properties|] eqn:Ep; [|assumption].
    destruct (JsMap.get fieldName properties) as [field|] eqn:Ef; [|assumption].
    cbv zeta. rewrite cloneDocument_eq. simpl.
    apply forallb_modify_get; [assumption|].
    intros v Hv Hcons. rewrite Es in Hv. injection Hv as <-.
    assert (Hfresh' :
              match u_pd_name updates with
              | Some n => nonempty n && negb (String.eqb n fieldName) &&
                          JsMap.has n properties
              | None => false
              end = false).
    { unfold renames_onto_existing in Hfresh. rewrite Es in Hfresh.
      unfold propertiesOf in Hfresh. rewrite Ep in Hfresh.
      destruct (u_pd_name updates); [exact Hfresh|reflexivity]. }
    destruct (rename_keeps fieldName (spreadProperty field updates) field
                (u_pd_name updates) properties schema Ep Ef Hcons Hfresh')
      as [Hc1 Hname].
    destruct (u_pd_required updates) as [req|]; [|exact Hc1].
    exact (required_change_keeps req _ _ Hc1 Hname).
  - (* deleteField *)
    unfold deleteField.
    destruct (JsMap.get schemaId (schemas (document st))) as [schema|]; [|assumption].
    destruct (s_properties schema); [|assumption].
    cbv zeta. rewrite cloneDocument_eq. simpl.
    apply forallb_modify_get; [assumption|].
    intros v _ Hv. now apply deleteField_keeps.
Qed.

Lemma field_actions_keep_required_consistent_witness :
  let nameField :=
    mkPropertyDef "name" (SInline (bare_schema "f-1" None TString)) true None in
  let st :=
    addFieldToSchema 2 "schema-pet" nameField
      (addSchema 1 StoreExamples.petSchema StoreExamples.store0) in
  let rename := UpdateField "schema-pet" "name"
                  (mkPartialProperty (Some "title") None None None) in
  exists st',
    apply 3 rename st = Some st' /\
    requiredConsistentIn (document st') = true /\
    option_map requiredOf (getSchemaById "schema-pet" st') = Some ["title"].
Proof.
  intros nameField st rename. eexists. split; [reflexivity|].
  split; [|reflexivity].
  apply (field_actions_keep_required_consistent 3 rename st); reflexivity.
Defined.

End RequiredFields.

(* ================================================================== *)
(** * Storage of projects *)

Section StorageRoundTrip.
Import Storage StoreSpec3.

(** [new Map(entries)] over entries with pairwise different keys: the
    entries themselves, in their order. *)
Lemma fold_set_appends {V} (es acc : list (string * V)) :
  NoDup (JsMap.keys acc ++ JsMap.keys es) ->
  fold_left (fun m kv => JsMap.set (fst kv) (snd kv) m) es acc = acc ++ es.
Proof.
  revert acc. induction es as [|[k v] es IH]; intros acc Hnd; simpl.
  - now rewrite app_nil_r.
  - simpl in Hnd. rewrite set_appends.
    + rewrite IH; [now rewrite <- app_assoc|].
      rewrite keys_app. simpl. rewrite <- app_assoc. exact Hnd.
    + apply NoDup_remove_2 in Hnd.
      destruct (includes (JsMap.keys acc) k) eqn:E; [|reflexivity].
      apply includes_in in E. exfalso. apply Hnd. apply in_or_app. now left.
Qed.

Lemma of_entries_keyed {V} (m : JsMap.t V) :
  keyed m = true -> JsMap.of_entries m = m.
Proof.
  intros H. unfold JsMap.of_entries, JsMap.empty.
  rewrite fold_set_appends; [reflexivity|]. simpl. now apply distinct_NoDup.
Qed.

Lemma map_values_id {A B} (f : A -> B) (g : B -> A) (xs : list (string * A)) :
  (forall entry, In entry xs -> g (f (snd entry)) = snd entry) ->
  map_values g (map_values f xs) = xs.
Proof.
  intros H. unfold map_values. rewrite map_map. simpl.
  induction xs as [|[k v] xs IH]; simpl; [reflexivity|].
  pose proof (H (k, v) (or_introl eq_refl)) as Hkv. simpl in Hkv.
  rewrite Hkv, IH; [reflexivity|]. intros e He. apply H. now right.
Qed.

Lemma keyedOpt_reads_back {V} (m : option (JsMap.t V)) :
  keyedOpt m = true ->
  match match m with Some x => Some (entries x) | None => None end with
  | Some x => Some (JsMap.of_entries x)
  | None => None
  end = m.
Proof.
  destruct m as [x|]; simpl; intros H; [|reflexivity].
  unfold entries. now rewrite of_entries_keyed.
Qed.

Lemma response_reads_back (r : ResponseDef) :
  keyedResponse r = true -> deserializeResponse (serializeResponse r) = r.
Proof.
  unfold keyedResponse. intros H. apply andb_prop in H as [Hc Hh].
  destruct r as [i d c h]. unfold deserializeResponse, serializeResponse. simpl in *.
  now rewrite (keyedOpt_reads_back c Hc), (keyedOpt_reads_back h Hh).
Qed.

Lemma requestBody_reads_back (b : RequestBody) :
  keyed (rb_content b) = true -> deserializeRequestBody (serializeRequestBody b) = b.
Proof.
  intros H. destruct b as [i d r c].
  unfold deserializeRequestBody, serializeRequestBody, entries. simpl in *.
  now rewrite of_entries_keyed.
Qed.

Lemma route_reads_back (r : Route) :
  keyedRoute r = true -> deserializeRoute (serializeRoute r) = r.
Proof.
  unfold keyedRoute. intros H. apply andb_prop in H as [H Hb].
  apply andb_prop in H as [Hk Hrs].
  destruct r as [i p m s d o t ps b rs sec dep].
  unfold deserializeRoute, serializeRoute, entries. simpl in *.
  rewrite map_values_id.
  - rewrite (of_entries_keyed rs Hk). f_equal.
    destruct b as [b|]; [|reflexivity]. now rewrite requestBody_reads_back.
  - intros entry Hin. apply response_reads_back.
    rewrite forallb_forall in Hrs. now apply Hrs.
Qed.

Lemma schema_reads_back (s : SchemaNode) :
  keyedSchema s = true -> deserializeSchema (serializeSchema s) = s.
Proof.
  unfold keyedSchema. intros H.
  destruct s as [i n t d p it v e r f ex df mi ma ml mx pa di].
  unfold deserializeSchema, serializeSchema. simpl in *.
  f_equal. exact (keyedOpt_reads_back p H).
Qed.


Lemma document_reads_back (d : ApiDocument) :
  keyedDocument d = true -> deserializeDocument (serializeDocument d) = d.
Proof.
  unfold keyedDocument. intros H.
  apply andb_prop in H as [H Hsec]. apply andb_prop in H as [H Hss].
  apply andb_prop in H as [H Hsk]. apply andb_prop in H as [Hrk Hrs].
  destruct d as [i inf srv rts sch sec tg].
  unfold deserializeDocument, serializeDocument, entries. simpl in *.
  rewrite !map_values_id.
  - now rewrite (of_entries_keyed rts Hrk), (of_entries_keyed sch Hsk),
      (of_entries_keyed sec Hsec).
  - intros entry Hin. apply schema_reads_back.
    rewrite forallb_forall in Hss. now apply Hss.
  - intros entry Hin. apply route_reads_back.
    rewrite forallb_forall in Hrs. now apply Hrs.
Qed.

(** X8. What is written to storage reads back as it was. For a document
    whose maps hold each key once (as every [Map] does),
    [deserializeDocument (serializeDocument d)] is [d]: the maps come back
    with the same entries in the same order, everything else untouched. *)
Theorem stored_document_reads_back (d : ApiDocument) :
  keyedDocument d = true -> deserializeDocument (serializeDocument d) = d.
Proof. exact (document_reads_back d). Qed.

Lemma stored_document_reads_back_witness :
  keyedDocument RoundTripExamples.petStore = true /\
  deserializeDocument (serializeDocument RoundTripExamples.petStore)
  = RoundTripExamples.petStore.
Proof.
  split; [reflexivity|].
  apply (stored_document_reads_back RoundTripExamples.petStore). reflexivity.
Defined.

(** X9. A saved project loads back. After [saveProject], [getProject]
    with the identifier of the project returns the project as it was
    saved, and every other identifier returns what it returned before;
    after [deleteProject] the identifier returns nothing. *)
Theorem saved_project_loads_back
        (project : StoredProject) (id : string) (db : Database) :
  keyedDocument (sp_document project) = true ->
  getProject (pm_id (sp_metadata project)) (saveProject project db) = Some project /\
  (id <> pm_id (sp_metadata project) ->
   getProject id (saveProject project db) = getProject id db) /\
  getProject id (deleteProject id db) = None.
Proof.
  intros H. unfold getProject, saveProject, deleteProject. simpl. repeat split.
  - rewrite get_set, String.eqb_refl. unfold deserializeProject. simpl.
    rewrite (document_reads_back _ H). now destruct project.
  - intros Hne. rewrite get_set.
    destruct (String.eqb_spec id (pm_id (sp_metadata project)));
      [contradiction|reflexivity].
  - now rewrite get_delete, String.eqb_refl.
Qed.

Lemma saved_project_loads_back_witness :
  let project :=
    mkStoredProject (mkProjectMetadata "default" "Pet store" 10 20)
                    RoundTripExamples.petStore in
  keyedDocument (sp_document project) = true /\
  getProject "default" (saveProject project emptyDatabase) = Some project.
Proof.
  intros project. split; [reflexivity|].
  apply (saved_project_loads_back project "other" emptyDatabase). reflexivity.
Defined.

End StorageRoundTrip.

(* ================================================================== *)
(** * The validator *)

(** ** What the checks push *)

Section Findings.
Import Validator Validation ValidationSpec.

Variables E W : list (string * ValidationSeverity).

Lemma emits_refl (out : Findings) : emits E W out out.
Proof.
  exists [], []. destruct out. simpl. rewrite !app_nil_r. repeat split; constructor.
Qed.

Lemma emits_trans (a b c : Findings) :
  emits E W a b -> emits E W b c -> emits E W a c.
Proof.
  intros (es & ws & -> & He & Hw) (es' & ws' & -> & He' & Hw').
  exists (es ++ es'), (ws ++ ws'). simpl. rewrite !app_assoc.
  repeat split; apply Forall_app; split; assumption.
Qed.

Lemma emits_pushError (e : ValidationError) (out o : Findings) :
  labelled E e -> emits E W out o -> emits E W out (pushError e o).
Proof.
  intros He H. apply (emits_trans _ _ _ H).
  exists [e], []. unfold pushError. rewrite app_nil_r.
  repeat split; repeat constructor. exact He.
Qed.

Lemma emits_pushWarning (w : ValidationError) (out o : Findings) :
  labelled W w -> emits E W out o -> emits E W out (pushWarning w o).
Proof.
  intros Hw H. apply (emits_trans _ _ _ H).
  exists [], [w]. unfold pushWarning. rewrite app_nil_r.
  repeat split; repeat constructor. exact Hw.
Qed.

Lemma emits_if_pushError (c : bool) (e : ValidationError) (out o : Findings) :
  labelled E e -> emits E W out o ->
  emits E W out (if c then pushError e o else o).
Proof. intros He H. destruct c; [now apply emits_pushError|exact H]. Qed.

Lemma emits_if_pushWarning (c : bool) (w : ValidationError) (out o : Findings) :
  labelled W w -> emits E W out o ->
  emits E W out (if c then pushWarning w o else o).
Proof. intros Hw H. destruct c; [now apply emits_pushWarning|exact H]. Qed.

Lemma emits_fold {A} (f : Findings -> A -> Findings) (xs : list A) :
  (forall o x, emits E W o (f o x)) ->
  forall out o, emits E W out o -> emits E W out (fold_left f xs o).
Proof.
  intros Hf. induction xs as [|x xs IH]; intros out o H; simpl; [assumption|].
  apply IH. eapply emits_trans; [exact H|apply Hf].
Qed.

Lemma emits_fold_state {S A} (body : S * Findings -> A -> S * Findings)
      (xs : list A) :
  (forall s o x, emits E W o (snd (body (s, o) x))) ->
  forall out s o, emits E W out o ->
                  emits E W out (snd (fold_left body xs (s, o))).
Proof.
  intros Hf. induction xs as [|x xs IH]; intros out s o H; simpl; [assumption|].
  destruct (body (s, o) x) as [s' o'] eqn:Eb. apply IH.
  eapply emits_trans; [exact H|]. specialize (Hf s o x). now rewrite Eb in Hf.
Qed.

End Findings.

Section Inventory.
Import Validator Validation ValidationSpec.

Ltac known :=
  unfold labelled; cbn [code severity In earlyErrorCodes earlyWarningCodes];
  repeat first [left; reflexivity | right].

(** One step inwards through the term that builds the findings. *)
Ltac emits_walk :=
  lazymatch goal with
  | H : emits _ _ ?out ?o |- emits _ _ ?out ?o => exact H
  | |- emits _ _ ?out ?out => apply emits_refl
  | |- emits _ _ _ (if _ then pushError _ ?o else ?o) =>
      apply emits_if_pushError; [known|emits_walk]
  | |- emits _ _ _ (if _ then pushWarning _ ?o else ?o) =>
      apply emits_if_pushWarning; [known|emits_walk]
  | |- emits _ _ _ (pushError _ _) => apply emits_pushError; [known|emits_walk]
  | |- emits _ _ _ (pushWarning _ _) => apply emits_pushWarning; [known|emits_walk]
  | |- emits _ _ _ (if ?c then _ else _) => destruct c; emits_walk
  | |- emits _ _ _ (match ?x with _ => _ end) => destruct x; emits_walk
  | |- emits _ _ _ (fold_left _ _ _) =>
      apply emits_fold; [intros ? ?; emits_walk|emits_walk]
  | |- emits _ _ _ (snd (fold_left _ _ (_, _))) =>
      apply emits_fold_state; [intros ? ? ?; cbn [snd]; emits_walk|emits_walk]
  | |- emits _ _ _ (snd (let (_, _) := ?x in _)) => destruct x; emits_walk
  | |- emits _ _ _ (snd (_, _)) => cbn [snd]; emits_walk
  | |- _ => idtac
  end.

Lemma validateInfo_emits (doc : ApiDocument) (out o : Findings) :
  emits earlyErrorCodes earlyWarningCodes out o ->
  emits earlyErrorCodes earlyWarningCodes out (validateInfo doc o).
Proof. intros H. unfold validateInfo. cbv zeta. emits_walk. Qed.

Lemma validateObjectSchema_emits (s : SchemaNode) (doc : ApiDocument)
      (out o : Findings) :
  emits earlyErrorCodes earlyWarningCodes out o ->
  emits earlyErrorCodes earlyWarningCodes out (validateObjectSchema s doc o).
Proof. intros H. unfold validateObjectSchema. cbv zeta. emits_walk. Qed.

Lemma validateEnumSchema_emits (s : SchemaNode) (out o : Findings) :
  emits earlyErrorCodes earlyWarningCodes out o ->
  emits earlyErrorCodes earlyWarningCodes out (validateEnumSchema s o).
Proof.
  intros H. unfold validateEnumSchema. cbv zeta.
  destruct (s_enumValues s) as [vs|]; [|emits_walk].
  apply emits_fold_state; [|emits_walk].
  intros seen o' x. cbn [snd]. emits_walk.
Qed.

Lemma validateArraySchema_emits (s : SchemaNode) (doc : ApiDocument)
      (out o : Findings) :
  emits earlyErrorCodes earlyWarningCodes out o ->
  emits earlyErrorCodes earlyWarningCodes out (validateArraySchema s doc o).
Proof. intros H. unfold validateArraySchema. emits_walk. Qed.

Lemma validateCompositionSchema_emits (s : SchemaNode) (doc : ApiDocument)
      (out o : Findings) :
  emits earlyErrorCodes earlyWarningCodes out o ->
  emits earlyErrorCodes earlyWarningCodes out (validateCompositionSchema s doc o).
Proof. intros H. unfold validateCompositionSchema. cbv zeta. emits_walk. Qed.

Lemma validateSchemas_emits (doc : ApiDocument) (out o : Findings) :
  emits earlyErrorCodes earlyWarningCodes out o ->
  emits earlyErrorCodes earlyWarningCodes out (validateSchemas doc o).
Proof.
  intros H. unfold validateSchemas. apply emits_fold_state; [|exact H].
  intros names o' [id schema]. cbv beta iota zeta.
  assert (Htype : forall a,
             emits earlyErrorCodes earlyWarningCodes o' a ->
             emits earlyErrorCodes earlyWarningCodes o'
               match s_type schema with
               | TObject => validateObjectSchema schema doc a
               | TArray => validateArraySchema schema doc a
               | TEnum => validateEnumSchema schema a
               | TOneOf | TAnyOf | TAllOf => validateCompositionSchema schema doc a
               | _ => a
               end).
  { intros a Ha. destruct (s_type schema); try exact Ha.
    - now apply validateObjectSchema_emits.
    - now apply validateArraySchema_emits.
    - now apply validateEnumSchema_emits.
    - now apply validateCompositionSchema_emits.
    - now apply validateCompositionSchema_emits.
    - now apply validateCompositionSchema_emits. }
  destruct (s_name schema) as [name|]; [destruct (nonempty name)|];
    cbn [snd]; apply Htype; emits_walk.
Qed.

Lemma validateRoute_emits (id : NodeId) (route : Route) (seen : Seen)
      (out o : Findings) :
  emits earlyErrorCodes earlyWarningCodes out o ->
  emits earlyErrorCodes earlyWarningCodes out (snd (validateRoute id route (seen, o))).
Proof.
  intros H. unfold validateRoute. cbv beta iota zeta.
  destruct (truthy_str (r_operationId route)); cbv beta iota zeta; cbn [snd];
    emits_walk.
Qed.

Lemma validateRoutes_emits (doc : ApiDocument) (out o : Findings) :
  emits earlyErrorCodes earlyWarningCodes out o ->
  emits earlyErrorCodes earlyWarningCodes out (validateRoutes doc o).
Proof.
  intros H. unfold validateRoutes. apply emits_fold_state; [|exact H].
  intros seen o' x. apply validateRoute_emits, emits_refl.
Qed.

End Inventory.

(** ** The search for circular references *)

Section CycleSearch.
Import Validator Validation ValidationSpec.

Variable doc : ApiDocument.

Lemma hasCycle_unfold (fuel : nat) (schemaId : NodeId) (marks : Marks) :
  hasCycle (S fuel) doc schemaId marks =
  if set_has (stack marks) schemaId then Some (true, marks)
  else if set_has (visited marks) schemaId then Some (false, marks)
  else
    let marks1 := mkMarks (set_add schemaId (visited marks))
                          (set_add schemaId (stack marks)) in
    match
      match JsMap.get schemaId (schemas doc) with
      | Some s => eachRef (hasCycle fuel doc) (collectRefs s) marks1
      | None => Some (false, marks1)
      end
    with
    | Some (true, m) => Some (true, m)
    | Some (false, m) =>
        Some (false, mkMarks (visited m) (set_delete schemaId (stack m)))
    | None => None
    end.
Proof. reflexivity. Qed.

Lemma set_has_in (s : list NodeId) (x : NodeId) : set_has s x = true <-> In x s.
Proof. apply includes_in. Qed.

Lemma set_has_not_in (s : list NodeId) (x : NodeId) :
  set_has s x = false <-> ~ In x s.
Proof.
  rewrite <- set_has_in. destruct (set_has s x); split; congruence.
Qed.

Lemma in_set_add (x y : NodeId) (s : list NodeId) :
  In y (set_add x s) <-> y = x \/ In y s.
Proof.
  unfold set_add. destruct (includes s x) eqn:E.
  - apply includes_in in E. split; [auto|]. intros [->|H]; assumption.
  - rewrite in_app_iff. simpl. split.
    + intros [H|[<-|[]]]; auto.
    + intros [->|H]; auto.
Qed.

Lemma in_set_delete (x y : NodeId) (s : list NodeId) :
  In y (set_delete x s) <-> y <> x /\ In y s.
Proof.
  unfold set_delete. rewrite filter_In, negb_true_iff.
  split; intros [H1 H2]; split; try assumption.
  - intros ->. now rewrite String.eqb_refl in H2.
  - now apply String.eqb_neq.
Qed.

(** *** The graph *)

Lemma reaches_snoc (k t u : NodeId) :
  reaches doc k t -> refersDirectly doc t u -> reaches doc k u.
Proof.
  induction 1 as [k|k a b Hka Hab IH]; intros Hu.
  - eapply reaches_step; [exact Hu|constructor].
  - eapply reaches_step; [exact Hka|now apply IH].
Qed.


Lemma leadsTo_snoc (x y r : NodeId) :
  leadsTo doc x y -> refersDirectly doc y r -> leadsTo doc x r.
Proof.
  intros (t & Hxt & Hty) Hyr. exists t. split; [assumption|].
  eapply reaches_snoc; eassumption.
Qed.

Lemma reachesCycle_step (k r : NodeId) :
  refersDirectly doc k r -> reachesCycle doc r -> reachesCycle doc k.
Proof.
  intros Hkr (c & Hrc & Hc). exists c. split; [|assumption].
  eapply reaches_step; eassumption.
Qed.

(** A cycle that can be reached from [k] can be reached from one of the
    targets of its direct references. *)
Lemma reachesCycle_next (k : NodeId) :
  reachesCycle doc k -> exists r, refersDirectly doc k r /\ reachesCycle doc r.
Proof.
  intros (c & Hkc & Hc). destruct Hkc as [k|k t c Hkt Htc].
  - destruct Hc as (t & Hkt & Htk). exists t. split; [assumption|].
    exists k. split; [assumption|]. exists t. split; assumption.
  - exists t. split; [assumption|]. exists c. split; assumption.
Qed.

(** *** The bound on the depth of the search *)

Lemma filter_length_le {A} (p q : A -> bool) (l : list A) :
  (forall x, In x l -> q x = true -> p x = true) ->
  length (filter q l) <= length (filter p l).
Proof.
  induction l as [|x l IH]; intros H; simpl; [lia|].
  assert (IH' : length (filter q l) <= length (filter p l))
    by (apply IH; intros y Hy; apply H; now right).
  destruct (q x) eqn:Eq.
  - rewrite (H x (or_introl eq_refl) Eq). simpl. lia.
  - destruct (p x); simpl; lia.
Qed.

Lemma filter_length_lt {A} (p q : A -> bool) (l : list A) (a : A) :
  (forall x, In x l -> q x = true -> p x = true) ->
  In a l -> p a = true -> q a = false ->
  length (filter q l) < length (filter p l).
Proof.
  induction l as [|x l IH]; intros H Ha Hp Hq; simpl; [contradiction|].
  assert (Hle : length (filter q l) <= length (filter p l))
    by (apply filter_length_le; intros y Hy; apply H; now right).
  destruct Ha as [->|Ha].
  - rewrite Hp, Hq. simpl. lia.
  - assert (IH' : length (filter q l) < length (filter p l))
      by (apply IH; try assumption; intros y Hy; apply H; now right).
    destruct (q x) eqn:Eq.
    + rewrite (H x (or_introl eq_refl) Eq). simpl. lia.
    + destruct (p x); simpl; lia.
Qed.

Lemma unvisited_le (seen seen' : list NodeId) :
  (forall x, In x seen -> In x seen') ->
  unvisited doc seen' <= unvisited doc seen.
Proof.
  intros H. apply filter_length_le. intros x _ Hx.
  apply negb_true_iff in Hx. apply negb_true_iff.
  apply set_has_not_in. apply set_has_not_in in Hx. auto.
Qed.

Lemma unvisited_lt (seen seen' : list NodeId) (k : NodeId) :
  (forall x, In x seen -> In x seen') ->
  In k (JsMap.keys (schemas doc)) -> ~ In k seen -> In k seen' ->
  unvisited doc seen' < unvisited doc seen.
Proof.
  intros H Hk Hn Hin. apply (filter_length_lt _ _ _ k); try assumption.
  - intros x _ Hx. apply negb_true_iff in Hx. apply negb_true_iff.
    apply set_has_not_in. apply set_has_not_in in Hx. auto.
  - apply negb_true_iff. now apply set_has_not_in.
  - apply negb_false_iff. now apply set_has_in.
Qed.

Lemma get_key {V} (k : string) (v : V) (m : JsMap.t V) :
  JsMap.get k m = Some v -> In k (JsMap.keys m).
Proof.
  intros H. apply get_in in H. unfold JsMap.keys.
  change k with (fst (k, v)). now apply in_map.
Qed.

(** *** What the search answers *)

(** The loop over the references of the schema stored under [id]. *)
Lemma eachRef_answers (fuel : nat) (id : NodeId) :
  (forall r marks,
      unvisited doc (visited marks) < fuel -> marksOk doc marks ->
      (forall x, In x (stack marks) -> leadsTo doc x r) ->
      answers doc (hasCycle fuel doc r) r marks) ->
  forall refs marks,
    (forall r, In r refs -> refersDirectly doc id r) ->
    unvisited doc (visited marks) < fuel -> marksOk doc marks ->
    (forall x, In x (stack marks) -> x = id \/ leadsTo doc x id) ->
    exists b marks',
      eachRef (hasCycle fuel doc) refs marks = Some (b, marks') /\
      (b = true -> reachesCycle doc id) /\
      (b = false ->
       (forall r, In r refs -> ~ reachesCycle doc r) /\ marksOk doc marks' /\
       (forall x, In x (stack marks') <-> In x (stack marks)) /\
       (forall x, In x (visited marks) -> In x (visited marks'))).
Proof.
  intros IH. induction refs as [|r refs IHrefs]; intros marks Hrefs Hfuel Hok Hstack.
  - exists false, marks. split; [reflexivity|]. split; [discriminate|].
    intros _. split; [intros r []|]. split; [exact Hok|].
    split; [intros x; reflexivity|auto].
  - assert (Hr : refersDirectly doc id r) by (apply Hrefs; now left).
    destruct (IH r marks Hfuel Hok) as (b & m1 & Hcall & Htrue & Hfalse).
    { intros x Hx. destruct (Hstack x Hx) as [->|Hl].
      - exists r. split; [assumption|constructor].
      - eapply leadsTo_snoc; eassumption. }
    simpl. rewrite Hcall. destruct b.
    + exists true, m1. split; [reflexivity|]. split; [|discriminate].
      intros _. apply (reachesCycle_step id r Hr). now apply Htrue.
    + destruct (Hfalse eq_refl) as (Hnr & Hok1 & Hst1 & Hv1).
      destruct (IHrefs m1) as (b & m2 & Hloop & Htrue2 & Hfalse2).
      * intros r' Hr'. apply Hrefs. now right.
      * eapply Nat.le_lt_trans; [apply unvisited_le; exact Hv1|exact Hfuel].
      * exact Hok1.
      * intros x Hx. apply Hstack. now apply Hst1.
      * exists b, m2. split; [exact Hloop|]. split; [exact Htrue2|].
        intros Hb. destruct (Hfalse2 Hb) as (Hn2 & Hok2 & Hst2 & Hv2).
        repeat split.
        -- intros r' [<-|Hr']; [exact Hnr|now apply Hn2].
        -- apply Hok2.
        -- apply Hok2.
        -- intros Hx. apply Hst1. now apply Hst2.
        -- intros Hx. apply Hst2. now apply Hst1.
        -- intros x Hx. apply Hv2. now apply Hv1.
Qed.

(** One call of [hasCycle]: with fuel above the number of unvisited keys
    it returns, and it answers yes exactly when a cycle can be reached. *)
Lemma hasCycle_answers (fuel : nat) : forall id marks,
  unvisited doc (visited marks) < fuel -> marksOk doc marks ->
  (forall x, In x (stack marks) -> leadsTo doc x id) ->
  answers doc (hasCycle fuel doc id) id marks.
Proof.
  induction fuel as [|fuel IH]; intros id marks Hfuel Hok Hstack; [lia|].
  unfold answers. rewrite hasCycle_unfold.
  destruct (set_has (stack marks) id) eqn:Es.
  - (* on the stack: a cycle through [id] *)
    apply set_has_in in Es. exists true, marks.
    split; [reflexivity|]. split; [|discriminate]. intros _.
    exists id. split; [constructor|]. now apply Hstack.
  - apply set_has_not_in in Es.
    destruct (set_has (visited marks) id) eqn:Ev.
    + (* visited before, and off the stack *)
      apply set_has_in in Ev. exists false, marks.
      split; [reflexivity|]. split; [discriminate|]. intros _.
      split; [now apply Hok|]. split; [exact Hok|].
      split; [intros x; reflexivity|auto].
    + apply set_has_not_in in Ev. cbv zeta.
      set (marks1 := mkMarks (set_add id (visited marks)) (set_add id (stack marks))).
      assert (Hok1 : marksOk doc marks1).
      { destruct Hok as [Hsv Hsafe]. split; simpl.
        - intros x Hx. apply in_set_add. apply in_set_add in Hx.
          destruct Hx as [->|Hx]; [now left|right; auto].
        - intros x Hx Hnx. apply in_set_add in Hx.
          destruct Hx as [->|Hx].
          + exfalso. apply Hnx. apply in_set_add. now left.
          + apply Hsafe; [assumption|]. intros Hin. apply Hnx.
            apply in_set_add. now right. }
      destruct (JsMap.get id (schemas doc)) as [s|] eqn:Eg.
      * (* the schema is there: walk its references *)
        destruct (eachRef_answers fuel id IH (collectRefs s) marks1)
          as (b & m & Hloop & Htrue & Hfalse).
        -- intros r Hr. exists s. split; assumption.
        -- assert (Hlt : unvisited doc (visited marks1) < unvisited doc (visited marks)).
           { apply (unvisited_lt _ _ id); try assumption.
             - intros x Hx. simpl. apply in_set_add. now right.
             - eapply get_key; eassumption.
             - simpl. apply in_set_add. now left. }
           lia.
        -- exact Hok1.
        -- intros x Hx. simpl in Hx. apply in_set_add in Hx.
           destruct Hx as [->|Hx]; [now left|right; now apply Hstack].
        -- rewrite Hloop. destruct b.
           ++ exists true, m. split; [reflexivity|]. split; [exact Htrue|discriminate].
           ++ destruct (Hfalse eq_refl) as (Hnone & Hokm & Hstm & Hvm).
              assert (Hsafe : ~ reachesCycle doc id).
              { intros Hc. destruct (reachesCycle_next id Hc) as (r & (s' & Hs' & Hin) & Hrc).
                rewrite Eg in Hs'. injection Hs' as <-. exact (Hnone r Hin Hrc). }
              eexists false, _. split; [reflexivity|]. split; [discriminate|].
              intros _. split; [exact Hsafe|]. split; [|split].
              ** destruct Hokm as [Hsv Hsf]. split; simpl.
                 --- intros x Hx. apply in_set_delete in Hx. apply Hsv, Hx.
                 --- intros x Hx Hnx.
                     destruct (String.eqb_spec x id) as [->|Hne]; [exact Hsafe|].
                     apply Hsf; [assumption|]. intros Hin. apply Hnx.
                     apply in_set_delete. split; assumption.
              ** intros x. simpl. rewrite in_set_delete, Hstm. simpl.
                 rewrite in_set_add. split.
                 --- intros [Hne [->|Hx]]; [contradiction|assumption].
                 --- intros Hx. split; [|now right]. intros ->. contradiction.
              ** intros x Hx. simpl. apply Hvm. simpl. apply in_set_add. now right.
      * (* nothing is stored under [id] *)
        assert (Hsafe : ~ reachesCycle doc id).
        { intros Hc. destruct (reachesCycle_next id Hc) as (r & (s' & Hs' & _) & _).
          congruence. }
        eexists false, _. split; [reflexivity|]. split; [discriminate|].
        intros _. split; [exact Hsafe|]. split; [|split].
        -- destruct Hok1 as [Hsv Hsf]. split; simpl.
           ++ intros x Hx. apply in_set_delete in Hx. apply Hsv, Hx.
           ++ intros x Hx Hnx.
              destruct (String.eqb_spec x id) as [->|Hne]; [exact Hsafe|].
              apply Hsf; [assumption|]. intros Hin. apply Hnx.
              apply in_set_delete. split; assumption.
        -- intros x. simpl. rewrite in_set_delete, in_set_add. split.
           ++ intros [Hne [->|Hx]]; [contradiction|assumption].
           ++ intros Hx. split; [|now right]. intros ->. contradiction.
        -- intros x Hx. simpl. apply in_set_add. now right.
Qed.

(** A search started with empty sets, with the fuel [circularWarnings]
    gives it. *)
Lemma hasCycle_decides (id : NodeId) :
  exists b marks',
    hasCycle (S (JsMap.size (schemas doc))) doc id (mkMarks [] []) = Some (b, marks') /\
    (b = true <-> reachesCycle doc id).
Proof.
  destruct (hasCycle_answers (S (JsMap.size (schemas doc))) id (mkMarks [] []))
    as (b & m & Hcall & Htrue & Hfalse).
  - unfold unvisited, JsMap.size, JsMap.keys. simpl.
    rewrite <- (length_map fst (schemas doc)).
    assert (Hall : forall l : list string, filter (fun _ => true) l = l)
      by (induction l; simpl; congruence).
    rewrite Hall. lia.
  - split; simpl; [intros x []|intros x []].
  - intros x [].
  - exists b, m. split; [exact Hcall|]. split; [exact Htrue|].
    intros Hc. destruct b; [reflexivity|]. now destruct (Hfalse eq_refl).
Qed.

End CycleSearch.

(** ** The check of references *)

Section ReferencesCheck.
Import Validator Validation ValidationSpec RoundTripAux.

Lemma max_bounds {A} (g : A -> nat) (x : A) (xs : list A) :
  In x xs -> g x <= fold_right (fun y m => Nat.max (g y) m) 0 xs.
Proof.
  induction xs as [|y xs IH]; simpl; [tauto|].
  intros [->|H]; [lia|]. specialize (IH H). lia.
Qed.

Lemma property_is_shallower (s : SchemaNode) (ps : JsMap.t PropertyDef)
      (kv : string * PropertyDef) :
  s_properties s = Some ps -> In kv ps ->
  edepth (pd_schema (snd kv)) < sdepth s.
Proof.
  destruct s; simpl. intros -> Hin.
  pose proof (max_bounds (fun kv : string * PropertyDef =>
                            edepth (pd_schema (snd kv))) kv ps Hin) as H.
  apply Nat.lt_succ_r. eapply Nat.le_trans; [exact H|]. apply Nat.le_max_l.
Qed.

Lemma items_are_shallower (s : SchemaNode) (e : SchemaOrRef) :
  s_items s = Some e -> edepth e < sdepth s.
Proof. destruct s; simpl. intros ->. unfold edepth. lia. Qed.

Lemma variant_is_shallower (s : SchemaNode) (es : list SchemaOrRef)
      (e : SchemaOrRef) :
  s_variants s = Some es -> In e es -> edepth e < sdepth s.
Proof.
  destruct s; simpl. intros -> Hin.
  pose proof (max_bounds edepth e es Hin) as H.
  apply Nat.lt_succ_r. eapply Nat.le_trans; [exact H|].
  eapply Nat.le_trans; [|apply Nat.le_max_r]. apply Nat.le_max_r.
Qed.

Lemma checkSchemaRefs_unfold (valid : list NodeId) (nodeId : NodeId)
      (schema : SchemaNode) (context : string) (out : Findings) :
  checkSchemaRefs valid nodeId schema context out =
  let out :=
    match s_properties schema with
    | Some properties =>
        fold_left
          (fun out entry =>
             checkRef valid (pd_schema (snd entry))
                      (context ++ "." ++ fst entry)%string nodeId out)
          properties out
    | None => out
    end in
  let out :=
    match s_items schema with
    | Some items => checkRef valid items (context ++ "[items]")%string nodeId out
    | None => out
    end in
  match s_variants schema with
  | Some variants =>
      fold_left
        (fun out variant =>
           checkRef valid variant (context ++ "[variant]")%string nodeId out)
        variants out
  | None => out
  end.
Proof. destruct schema. reflexivity. Qed.

Lemma schemaRefs_unfold (s : SchemaNode) :
  schemaRefs s =
  match s_properties s with
  | Some properties => flat_map (fun entry => edgeRefs (pd_schema (snd entry))) properties
  | None => []
  end ++
  match s_items s with Some items => edgeRefs items | None => [] end ++
  match s_variants s with Some variants => flat_map edgeRefs variants | None => [] end.
Proof. destruct s. reflexivity. Qed.

Lemma clean_pushError (e : ValidationError) (o : Findings) :
  clean (pushError e o) = false.
Proof. unfold clean, pushError. simpl. rewrite length_app. simpl. apply Nat.eqb_neq. lia. Qed.

Lemma clean_pushWarning (w : ValidationError) (o : Findings) :
  clean (pushWarning w o) = clean o.
Proof. reflexivity. Qed.

Lemma clean_if_pushError (c : bool) (e : ValidationError) (o : Findings) :
  clean (if c then pushError e o else o) = clean o && negb c.
Proof.
  destruct c; simpl; [|now rewrite andb_true_r].
  now rewrite clean_pushError, andb_false_r.
Qed.

Lemma clean_if_pushWarning (c : bool) (w : ValidationError) (o : Findings) :
  clean (if c then pushWarning w o else o) = clean o.
Proof. now destruct c. Qed.

Lemma forallb_flat_map {A B} (p : B -> bool) (f : A -> list B) (xs : list A) :
  forallb p (flat_map f xs) = forallb (fun x => forallb p (f x)) xs.
Proof.
  induction xs as [|x xs IH]; simpl; [reflexivity|].
  now rewrite forallb_app, IH.
Qed.

Lemma forallb_same {A} (p q : A -> bool) (xs : list A) :
  (forall x, p x = q x) -> forallb p xs = forallb q xs.
Proof.
  intros H. induction xs as [|x xs IH]; simpl; [reflexivity|].
  now rewrite H, IH.
Qed.

(** A loop that runs a check on each element. *)
Lemma clean_fold {A} (f : Findings -> A -> Findings) (ok : A -> bool)
      (xs : list A) :
  (forall o x, In x xs -> clean (f o x) = clean o && ok x) ->
  forall o, clean (fold_left f xs o) = clean o && forallb ok xs.
Proof.
  induction xs as [|x xs IH]; intros H o; simpl; [now rewrite andb_true_r|].
  rewrite IH by (intros; apply H; now right).
  rewrite H by now left. now rewrite andb_assoc.
Qed.

Section WithValid.
Variable valid : list NodeId.
Variable nodeId : NodeId.
Variables E W : list (string * ValidationSeverity).
Hypothesis broken_known : In ("BROKEN_REFERENCE", SevError) E.

Lemma emits_fold_in {A} (f : Findings -> A -> Findings) (xs : list A) :
  (forall o x, In x xs -> emits E W o (f o x)) ->
  forall out o, emits E W out o -> emits E W out (fold_left f xs o).
Proof.
  induction xs as [|x xs IH]; intros Hf out o H; simpl; [assumption|].
  apply IH; [intros; apply Hf; now right|].
  eapply emits_trans; [exact H|apply Hf; now left].
Qed.

Lemma checkSchemaRefs_facts (n : nat) : forall schema context out,
  sdepth schema <= n ->
  emits E W out (checkSchemaRefs valid nodeId schema context out) /\
  clean (checkSchemaRefs valid nodeId schema context out)
  = clean out && forallb (set_has valid) (schemaRefs schema).
Proof.
  induction n as [|n IH]; intros schema context out Hd;
    [destruct schema; simpl in Hd; lia|].
  assert (Hedge : forall e ctx o, edepth e < sdepth schema ->
            emits E W o (checkRef valid e ctx nodeId o) /\
            clean (checkRef valid e ctx nodeId o)
            = clean o && forallb (set_has valid) (edgeRefs e)).
  { intros [t|s] ctx o He; simpl.
    - split.
      + apply emits_if_pushError; [exact broken_known|apply emits_refl].
      + rewrite clean_if_pushError, negb_involutive. now rewrite andb_true_r.
    - apply IH. unfold edepth in He. lia. }
  rewrite checkSchemaRefs_unfold, schemaRefs_unfold. cbv zeta.
  rewrite !forallb_app. split.
  - (* what is pushed *)
    assert (H1 : emits E W out
              match s_properties schema with
              | Some properties =>
                  fold_left
                    (fun out entry =>
                       checkRef valid (pd_schema (snd entry))
                                (context ++ "." ++ fst entry)%string nodeId out)
                    properties out
              | None => out
              end).
    { destruct (s_properties schema) as [ps|] eqn:Ep; [|apply emits_refl].
      apply emits_fold_in; [|apply emits_refl].
      intros o x Hx. apply Hedge. exact (property_is_shallower schema ps x Ep Hx). }
    destruct (s_variants schema) as [vs|] eqn:Ev.
    + apply emits_fold_in.
      * intros o x Hx. apply Hedge. exact (variant_is_shallower schema vs x Ev Hx).
      * destruct (s_items schema) as [it|] eqn:Ei; [|exact H1].
        eapply emits_trans; [exact H1|]. apply Hedge. now apply items_are_shallower.
    + destruct (s_items schema) as [it|] eqn:Ei; [|exact H1].
      eapply emits_trans; [exact H1|]. apply Hedge. now apply items_are_shallower.
  - (* whether an error is pushed *)
    assert (H1 : forall o,
              clean match s_properties schema with
                    | Some properties =>
                        fold_left
                          (fun out entry =>
                             checkRef valid (pd_schema (snd entry))
                                      (context ++ "." ++ fst entry)%string nodeId out)
                          properties o
                    | None => o
                    end
              = clean o &&
                forallb (set_has valid)
                  match s_properties schema with
                  | Some properties =>
                      flat_map (fun entry => edgeRefs (pd_schema (snd entry))) properties
                  | None => []
                  end).
    { intros o. destruct (s_properties schema) as [ps|] eqn:Ep;
        [|simpl; now rewrite andb_true_r].
      rewrite forallb_flat_map. apply clean_fold.
      intros o' x Hx. apply Hedge. exact (property_is_shallower schema ps x Ep Hx). }
    assert (H2 : forall o,
              clean match s_items schema with
                    | Some items =>
                        checkRef valid items (context ++ "[items]")%string nodeId o
                    | None => o
                    end
              = clean o &&
                forallb (set_has valid)
                  match s_items schema with
                  | Some items => edgeRefs items
                  | None => []
                  end).
    { intros o. destruct (s_items schema) as [it|] eqn:Ei;
        [|simpl; now rewrite andb_true_r].
      apply Hedge. now apply items_are_shallower. }
    destruct (s_variants schema) as [vs|] eqn:Ev.
    + rewrite forallb_flat_map.
      rewrite (clean_fold _ (fun e => forallb (set_has valid) (edgeRefs e))).
      * rewrite H2, H1. now rewrite !andb_assoc.
      * intros o x Hx. apply Hedge. exact (variant_is_shallower schema vs x Ev Hx).
    + rewrite H2, H1. simpl. now rewrite andb_true_r, !andb_assoc.
Qed.

Lemma checkRef_facts (e : SchemaOrRef) (context : string) (out : Findings) :
  emits E W out (checkRef valid e context nodeId out) /\
  clean (checkRef valid e context nodeId out)
  = clean out && forallb (set_has valid) (edgeRefs e).
Proof.
  destruct e as [t|s]; simpl.
  - split.
    + apply emits_if_pushError; [exact broken_known|apply emits_refl].
    + rewrite clean_if_pushError, negb_involutive. now rewrite andb_true_r.
  - now apply (checkSchemaRefs_facts (sdepth s)).
Qed.

(** A loop that checks one edge per element. *)
Lemma checkRef_fold {A} (edge : A -> SchemaOrRef) (ctx : A -> string)
      (xs : list A) (out : Findings) :
  emits E W out
    (fold_left (fun out x => checkRef valid (edge x) (ctx x) nodeId out) xs out) /\
  clean (fold_left (fun out x => checkRef valid (edge x) (ctx x) nodeId out) xs out)
  = clean out && forallb (set_has valid) (flat_map (fun x => edgeRefs (edge x)) xs).
Proof.
  split.
  - apply emits_fold; [|apply emits_refl]. intros o x. apply checkRef_facts.
  - rewrite forallb_flat_map. apply clean_fold. intros o x _. apply checkRef_facts.
Qed.

End WithValid.

End ReferencesCheck.

(** ** The whole of [validateReferences] *)

Section ReferencesOfDocument.
Import Validator Validation ValidationSpec.

Variables E W : list (string * ValidationSeverity).
Hypothesis broken_known : In ("BROKEN_REFERENCE", SevError) E.

Lemma flat_map_map {A B C} (f : A -> B) (g : B -> list C) (xs : list A) :
  flat_map g (map f xs) = flat_map (fun x => g (f x)) xs.
Proof. induction xs as [|x xs IH]; simpl; [reflexivity|]. now rewrite IH. Qed.

(** The references of one route. *)
Lemma route_references (valid : list NodeId) (id : NodeId) (route : Route)
      (out : Findings) :
  let checked :=
    let out :=
      fold_left
        (fun out param =>
           checkRef valid (p_schema param)
                    (comboOf route ++ " param " ++ p_name param)%string id out)
        (r_parameters route) out in
    let out :=
      match r_requestBody route with
      | Some body =>
          fold_left
            (fun out (media : string * MediaType) =>
               checkRef valid (mt_schema (snd media))
                        (comboOf route ++ " request body")%string id out)
            (rb_content body) out
      | None => out
      end in
    fold_left
      (fun out (response : string * ResponseDef) =>
         match resp_content (snd response) with
         | Some content =>
             fold_left
               (fun out (media : string * MediaType) =>
                  checkRef valid (mt_schema (snd media))
                           (comboOf route ++ " response " ++ fst response)%string
                           id out)
               content out
         | None => out
         end)
      (r_responses route) out in
  emits E W out checked /\
  clean checked
  = clean out && forallb (set_has valid) (flat_map edgeRefs (UsageSpec.routeEdges route)).
Proof.
  cbv zeta.
  set (o1 := fold_left _ (r_parameters route) out).
  assert (H1 : emits E W out o1 /\
               clean o1 = clean out &&
                          forallb (set_has valid)
                                  (flat_map edgeRefs (map p_schema (r_parameters route)))).
  { rewrite flat_map_map. apply (checkRef_fold valid id E W broken_known). }
  set (o2 := match r_requestBody route with Some _ => _ | None => o1 end).
  assert (H2 : emits E W o1 o2 /\
               clean o2 = clean o1 &&
                          forallb (set_has valid)
                            (flat_map edgeRefs
                               match r_requestBody route with
                               | Some body => map mt_schema (JsMap.values (rb_content body))
                               | None => []
                               end)).
  { subst o2. destruct (r_requestBody route) as [body|].
    - unfold JsMap.values. rewrite !flat_map_map. apply (checkRef_fold valid id E W broken_known).
    - split; [apply emits_refl|simpl; now rewrite andb_true_r]. }
  assert (H3 : forall o,
             emits E W o
               (fold_left
                  (fun out (response : string * ResponseDef) =>
                     match resp_content (snd response) with
                     | Some content =>
                         fold_left
                           (fun out (media : string * MediaType) =>
                              checkRef valid (mt_schema (snd media))
                                       (comboOf route ++ " response " ++ fst response)%string
                                       id out)
                           content out
                     | None => out
                     end)
                  (r_responses route) o) /\
             clean
               (fold_left
                  (fun out (response : string * ResponseDef) =>
                     match resp_content (snd response) with
                     | Some content =>
                         fold_left
                           (fun out (media : string * MediaType) =>
                              checkRef valid (mt_schema (snd media))
                                       (comboOf route ++ " response " ++ fst response)%string
                                       id out)
                           content out
                     | None => out
                     end)
                  (r_responses route) o)
             = clean o &&
               forallb (set_has valid)
                 (flat_map edgeRefs
                    (flat_map (fun response =>
                                 match resp_content response with
                                 | Some content => map mt_schema (JsMap.values content)
                                 | None => []
                                 end)
                              (JsMap.values (r_responses route))))).
  { intros o. unfold JsMap.values. rewrite flat_map_map.
    assert (Hresp : forall o' (response : string * ResponseDef),
               emits E W o'
                 match resp_content (snd response) with
                 | Some content =>
                     fold_left
                       (fun out (media : string * MediaType) =>
                          checkRef valid (mt_schema (snd media))
                                   (comboOf route ++ " response " ++ fst response)%string
                                   id out)
                       content o'
                 | None => o'
                 end /\
               clean
                 match resp_content (snd response) with
                 | Some content =>
                     fold_left
                       (fun out (media : string * MediaType) =>
                          checkRef valid (mt_schema (snd media))
                                   (comboOf route ++ " response " ++ fst response)%string
                                   id out)
                       content o'
                 | None => o'
                 end
               = clean o' &&
                 forallb (set_has valid)
                   (flat_map edgeRefs
                      match resp_content (snd response) with
                      | Some content => map mt_schema (map snd content)
                      | None => []
                      end)).
    { intros o' response. destruct (resp_content (snd response)) as [content|].
      - rewrite !flat_map_map. apply (checkRef_fold valid id E W broken_known).
      - split; [apply emits_refl|simpl; now rewrite andb_true_r]. }
    split.
    - apply emits_fold; [|apply emits_refl]. intros o' x. apply Hresp.
    - rewrite forallb_flat_map, forallb_flat_map.
      rewrite (clean_fold _ (fun response : string * ResponseDef =>
                               forallb (set_has valid)
                                 (flat_map edgeRefs
                                    match resp_content (snd response) with
                                    | Some content => map mt_schema (map snd content)
                                    | None => []
                                    end))).
      + f_equal. apply forallb_same. intros x. now rewrite forallb_flat_map.
      + intros o' x _. apply Hresp. }
  destruct H1 as [He1 Hc1]. destruct H2 as [He2 Hc2].
  destruct (H3 o2) as [He3 Hc3]. split.
  - eapply emits_trans; [exact He1|]. eapply emits_trans; [exact He2|exact He3].
  - rewrite Hc3, Hc2, Hc1. unfold UsageSpec.routeEdges.
    rewrite !flat_map_app, !forallb_app. now rewrite !andb_assoc.
Qed.

Lemma checkReferences_facts (doc : ApiDocument) (out : Findings) :
  emits E W out (checkReferences doc out) /\
  clean (checkReferences doc out) = clean out && referencesOk doc.
Proof.
  unfold checkReferences, referencesOk, documentRefs. cbv zeta.
  set (valid := JsMap.keys (schemas doc)).
  assert (Hhas : forall l, forallb (fun target => JsMap.has target (schemas doc)) l
                           = forallb (set_has valid) l).
  { intros l. apply forallb_same. intros x. apply has_includes. }
  rewrite Hhas, forallb_app.
  set (o1 := fold_left
               (fun (out0 : Findings) (entry : NodeId * SchemaNode) =>
                  checkSchemaRefs valid (fst entry) (snd entry)
                                  (nameOrAnonymous (snd entry)) out0)
               (schemas doc) out).
  assert (H1 : emits E W out o1 /\
               clean o1 = clean out &&
                          forallb (set_has valid)
                                  (flat_map schemaRefs (JsMap.values (schemas doc)))).
  { subst o1. unfold JsMap.values. rewrite flat_map_map. split.
    - apply emits_fold; [|apply emits_refl]. intros o x.
      now apply (checkSchemaRefs_facts valid (fst x) E W broken_known
                   (RoundTripAux.sdepth (snd x))).
    - rewrite forallb_flat_map. apply clean_fold. intros o x _.
      now apply (checkSchemaRefs_facts valid (fst x) E W broken_known
                   (RoundTripAux.sdepth (snd x))). }
  destruct H1 as [He1 Hc1]. unfold JsMap.values in *.
  rewrite !flat_map_map, !forallb_flat_map in *.
  split.
  - eapply emits_trans; [exact He1|]. apply emits_fold; [|apply emits_refl].
    intros o [id route]. apply (route_references valid id route o).
  - rewrite (clean_fold _ (fun entry : NodeId * Route =>
                             forallb (set_has valid)
                                     (flat_map edgeRefs (UsageSpec.routeEdges (snd entry))))).
    + now rewrite Hc1, andb_assoc.
    + intros o [id route] _. apply (route_references valid id route o).
Qed.

End ReferencesOfDocument.

Section OrphansAndCycles.
Import Validator Validation ValidationSpec.

Lemma orphanWarnings_labelled (doc : ApiDocument) :
  Forall (fun w => code w = "ORPHANED_SCHEMA" /\ severity w = SevInfo)
         (orphanWarnings doc).
Proof.
  unfold orphanWarnings. apply Forall_flat_map, Forall_forall.
  intros entry _. destruct (negb _); repeat constructor.
Qed.

(** The loop of the cycle search over a part [l] of the schema map. *)
Lemma circular_fold (doc : ApiDocument) (l : list (NodeId * SchemaNode)) :
  forall acc,
  exists found,
    fold_left
      (fun (acc : option (list ValidationError)) (entry : NodeId * SchemaNode) =>
         match acc with
         | None => None
         | Some found =>
             match hasCycle (S (JsMap.size (schemas doc))) doc (fst entry)
                            (mkMarks [] []) with
             | Some (true, _) =>
                 Some (found ++
                       [mkValidationError "CIRCULAR_REFERENCE"
                          ("Schema " ++ quote ++ nameOrAnonymous (snd entry) ++ quote ++
                           " has a circular reference")%string
                          SevWarning (at_node (fst entry))])
             | Some (false, _) => Some found
             | None => None
             end
         end)
      l (Some acc) = Some (acc ++ found) /\
    Forall (fun w => code w = "CIRCULAR_REFERENCE" /\ severity w = SevWarning) found /\
    forall k, In (Some k) (reportedNodes found) <->
              In k (JsMap.keys l) /\ reachesCycle doc k.
Proof.
  induction l as [|[k0 s0] l IH]; intros acc; cbn [fold_left fst snd].
  - exists []. rewrite app_nil_r. split; [reflexivity|]. split; [constructor|].
    intros k. simpl. tauto.
  - destruct (hasCycle_decides doc k0) as (b & m & Hcall & Hb).
    rewrite Hcall. destruct b.
    + destruct (IH (acc ++ [mkValidationError "CIRCULAR_REFERENCE"
                              ("Schema " ++ quote ++ nameOrAnonymous s0 ++ quote ++
                               " has a circular reference")%string
                              SevWarning (at_node k0)]))
        as (found & Hfold & Hlab & Hin).
      eexists (_ :: found). rewrite Hfold, <- app_assoc. split; [reflexivity|].
      split; [constructor; [split; reflexivity|assumption]|].
      intros k. simpl. rewrite Hin. split.
      * intros [Hk|[Hk Hc]]; [|tauto]. injection Hk as <-. split; [now left|].
        now apply Hb.
      * intros [[<-|Hk] Hc]; [now left|right; tauto].
    + destruct (IH acc) as (found & Hfold & Hlab & Hin).
      exists found. split; [exact Hfold|]. split; [assumption|].
      intros k. rewrite Hin. simpl. split; [tauto|].
      intros [[<-|Hk] Hc]; [|tauto].
      apply Hb in Hc. discriminate.
Qed.

Lemma circularWarnings_spec (doc : ApiDocument) :
  exists found,
    circularWarnings doc = Some found /\
    Forall (fun w => code w = "CIRCULAR_REFERENCE" /\ severity w = SevWarning) found /\
    forall k, In (Some k) (reportedNodes found) <->
              In k (JsMap.keys (schemas doc)) /\ reachesCycle doc k.
Proof.
  destruct (circular_fold doc (schemas doc) []) as (found & Hfold & H).
  exists found. split; [exact Hfold|exact H].
Qed.

End OrphansAndCycles.

(** ** The schemas that are in use *)

Section UsedSchemas.
Import Validator Validation ValidationSpec RoundTripAux.

Lemma markUsedInSchema_unfold (schema : SchemaNode) (used : list NodeId) :
  markUsedInSchema schema used =
  let used :=
    match s_properties schema with
    | Some properties =>
        fold_left (fun used entry => markUsed used (pd_schema (snd entry)))
                  properties used
    | None => used
    end in
  let used :=
    match s_items schema with
    | Some items => markUsed used items
    | None => used
    end in
  match s_variants schema with
  | Some variants => fold_left markUsed variants used
  | None => used
  end.
Proof. destruct schema. reflexivity. Qed.

(** A loop that marks what each element refers to. *)
Lemma in_fold_marks {A} (f : list NodeId -> A -> list NodeId)
      (refs : A -> list NodeId) (xs : list A) :
  (forall used a, In a xs ->
                  forall x, In x (f used a) <-> In x used \/ In x (refs a)) ->
  forall used x,
    In x (fold_left f xs used) <-> In x used \/ In x (flat_map refs xs).
Proof.
  induction xs as [|a xs IH]; intros H used x; simpl; [tauto|].
  rewrite IH by (intros; apply H; now right).
  rewrite H by now left. rewrite in_app_iff. tauto.
Qed.

Lemma markUsedInSchema_in (n : nat) : forall schema used x,
  sdepth schema <= n ->
  In x (markUsedInSchema schema used) <-> In x used \/ In x (schemaRefs schema).
Proof.
  induction n as [|n IH]; intros schema used x Hd;
    [destruct schema; simpl in Hd; lia|].
  assert (Hedge : forall e u y, edepth e < sdepth schema ->
            In y (markUsed u e) <-> In y u \/ In y (edgeRefs e)).
  { intros [t|s] u y He; simpl.
    - rewrite in_set_add. intuition congruence.
    - apply IH. unfold edepth in He. lia. }
  rewrite markUsedInSchema_unfold, schemaRefs_unfold. cbv zeta.
  rewrite !in_app_iff.
  assert (H1 : forall y,
            In y match s_properties schema with
                 | Some properties =>
                     fold_left (fun used entry => markUsed used (pd_schema (snd entry)))
                               properties used
                 | None => used
                 end
            <-> In y used \/
                In y match s_properties schema with
                     | Some properties =>
                         flat_map (fun entry => edgeRefs (pd_schema (snd entry))) properties
                     | None => []
                     end).
  { intros y. destruct (s_properties schema) as [ps|] eqn:Ep; [|simpl; tauto].
    apply in_fold_marks. intros u a Ha z. apply Hedge.
    exact (property_is_shallower schema ps a Ep Ha). }
  assert (H2 : forall u y,
            In y match s_items schema with
                 | Some items => markUsed u items
                 | None => u
                 end
            <-> In y u \/
                In y match s_items schema with
                     | Some items => edgeRefs items
                     | None => []
                     end).
  { intros u y. destruct (s_items schema) as [it|] eqn:Ei; [|simpl; tauto].
    apply Hedge. now apply items_are_shallower. }
  destruct (s_variants schema) as [vs|] eqn:Ev.
  - rewrite (in_fold_marks markUsed edgeRefs).
    + rewrite H2, H1. tauto.
    + intros u a Ha z. apply Hedge. exact (variant_is_shallower schema vs a Ev Ha).
  - rewrite H2, H1. simpl. tauto.
Qed.

Lemma markUsed_in (e : SchemaOrRef) (used : list NodeId) (x : NodeId) :
  In x (markUsed used e) <-> In x used \/ In x (edgeRefs e).
Proof.
  destruct e as [t|s]; simpl.
  - rewrite in_set_add. intuition congruence.
  - now apply (markUsedInSchema_in (sdepth s)).
Qed.

Lemma markUsed_fold_in {A} (edge : A -> SchemaOrRef) (xs : list A)
      (used : list NodeId) (x : NodeId) :
  In x (fold_left (fun used a => markUsed used (edge a)) xs used)
  <-> In x used \/ In x (flat_map edgeRefs (map edge xs)).
Proof.
  rewrite flat_map_map. apply in_fold_marks. intros u a _ y. apply markUsed_in.
Qed.

(** What one route marks. *)
Lemma route_marks (route : Route) (used : list NodeId) (x : NodeId) :
  In x (let used :=
          fold_left (fun used param => markUsed used (p_schema param))
                    (r_parameters route) used in
        let used :=
          match r_requestBody route with
          | Some body =>
              fold_left (fun used media => markUsed used (mt_schema media))
                        (JsMap.values (rb_content body)) used
          | None => used
          end in
        fold_left
          (fun used response =>
             match resp_content response with
             | Some content =>
                 fold_left (fun used media => markUsed used (mt_schema media))
                           (JsMap.values content) used
             | None => used
             end)
          (JsMap.values (r_responses route)) used)
  <-> In x used \/ In x (flat_map edgeRefs (UsageSpec.routeEdges route)).
Proof.
  cbv zeta. unfold UsageSpec.routeEdges.
  rewrite !flat_map_app, !in_app_iff.
  rewrite (in_fold_marks _
             (fun response =>
                flat_map edgeRefs
                  match resp_content response with
                  | Some content => map mt_schema (JsMap.values content)
                  | None => []
                  end)).
  - assert (Hresp : In x (flat_map
                            (fun response =>
                               flat_map edgeRefs
                                 match resp_content response with
                                 | Some content => map mt_schema (JsMap.values content)
                                 | None => []
                                 end)
                            (JsMap.values (r_responses route)))
                    <-> In x (flat_map edgeRefs
                                (flat_map
                                   (fun response =>
                                      match resp_content response with
                                      | Some content => map mt_schema (JsMap.values content)
                                      | None => []
                                      end)
                                   (JsMap.values (r_responses route))))).
    { induction (JsMap.values (r_responses route)) as [|r rs IH]; simpl; [tauto|].
      rewrite flat_map_app, !in_app_iff, IH. tauto. }
    rewrite Hresp.
    destruct (r_requestBody route) as [body|].
    + rewrite !markUsed_fold_in. tauto.
    + rewrite markUsed_fold_in. simpl. tauto.
  - intros u response _ y. destruct (resp_content response) as [content|].
    + apply markUsed_fold_in.
    + simpl. tauto.
Qed.

(** The set [usedSchemaIds] holds the targets of the references of the
    document, at any depth, and nothing else. *)
Lemma usedSchemaIds_in (doc : ApiDocument) (x : NodeId) :
  In x (usedSchemaIds doc) <-> In x (documentRefs doc).
Proof.
  unfold usedSchemaIds, documentRefs. cbv zeta.
  rewrite in_app_iff.
  rewrite (in_fold_marks _ schemaRefs).
  - rewrite (in_fold_marks _ (fun r => flat_map edgeRefs (UsageSpec.routeEdges r))).
    + simpl. tauto.
    + intros u r _ y. apply route_marks.
  - intros u s _ y. now apply (markUsedInSchema_in (sdepth s)).
Qed.

End UsedSchemas.

(** ** What [validateDocument] returns *)

Section ValidationResults.
Import Validator Validation ValidationSpec.

(** The findings of the checks that come before the check of
    references. *)
Lemma early_findings (doc : ApiDocument) :
  exists es ws,
    earlyFindings doc = mkFindings es ws /\
    Forall (labelled earlyErrorCodes) es /\ Forall (labelled earlyWarningCodes) ws.
Proof.
  assert (H : emits earlyErrorCodes earlyWarningCodes (mkFindings [] [])
                    (earlyFindings doc)).
  { apply validateRoutes_emits, validateSchemas_emits, validateInfo_emits, emits_refl. }
  destruct H as (es & ws & Heq & He & Hw). exists es, ws. simpl in Heq. auto.
Qed.

(** The check of references pushes errors only, all of them
    BROKEN_REFERENCE. *)
Lemma checkReferences_pushes (doc : ApiDocument) (out : Findings) :
  exists bs,
    checkReferences doc out = mkFindings (errors out ++ bs) (warnings out) /\
    Forall (labelled referenceErrorCodes) bs.
Proof.
  destruct (proj1 (checkReferences_facts referenceErrorCodes []
                     ltac:(now left) doc out))
    as (bs & ws & Heq & Hb & Hw).
  exists bs. split; [|exact Hb].
  destruct ws as [|w ws]; [now rewrite app_nil_r in Heq|].
  inversion Hw as [|? ? Hin _]. destruct Hin.
Qed.

(** [validateDocument] returns: the search for cycles ends within the
    bound it is given. *)
Lemma validateDocument_returns (doc : ApiDocument) :
  exists es ws bs found,
    earlyFindings doc = mkFindings es ws /\
    checkReferences doc (earlyFindings doc) = mkFindings (es ++ bs) ws /\
    Forall (labelled earlyErrorCodes) es /\
    Forall (labelled earlyWarningCodes) ws /\
    Forall (labelled referenceErrorCodes) bs /\
    circularWarnings doc = Some found /\
    Forall (fun w => code w = "CIRCULAR_REFERENCE" /\ severity w = SevWarning) found /\
    (forall k, In (Some k) (reportedNodes found) <->
               In k (JsMap.keys (schemas doc)) /\ reachesCycle doc k) /\
    validateDocument doc
    = Some (mkValidationResult (length (es ++ bs) =? 0)%nat (es ++ bs)
                               ((ws ++ orphanWarnings doc) ++ found)).
Proof.
  destruct (early_findings doc) as (es & ws & Heq & He & Hw).
  destruct (checkReferences_pushes doc (earlyFindings doc)) as (bs & Hc & Hb).
  rewrite Heq in Hc. simpl in Hc.
  destruct (circularWarnings_spec doc) as (found & Hf & Hlab & Hin).
  exists es, ws, bs, found. repeat (split; [assumption|]).
  rewrite Heq. repeat (split; [assumption|]).
  unfold validateDocument, validateReferences. cbv zeta.
  fold (earlyFindings doc). rewrite Heq, Hc, Hf. reflexivity.
Qed.

Lemma labelled_weaken (L L' : list (string * ValidationSeverity))
      (l : list ValidationError) :
  incl L L' -> Forall (labelled L) l -> Forall (labelled L') l.
Proof.
  intros Hi. apply Forall_impl. intros e He. apply Hi, He.
Qed.

Lemma labelled_by_code (c : string) (s : ValidationSeverity)
      (L : list (string * ValidationSeverity)) (l : list ValidationError) :
  In (c, s) L -> Forall (fun w => code w = c /\ severity w = s) l ->
  Forall (labelled L) l.
Proof.
  intros Hin. apply Forall_impl. intros e [Hc Hs]. unfold labelled.
  now rewrite Hc, Hs.
Qed.

Lemma labelled_severity (L : list (string * ValidationSeverity))
      (P : ValidationSeverity -> Prop) (l : list ValidationError) :
  Forall (fun entry => P (snd entry)) L -> Forall (labelled L) l ->
  Forall (fun e => P (severity e)) l.
Proof.
  intros HL. apply Forall_impl. intros e He.
  rewrite Forall_forall in HL. exact (HL _ He).
Qed.

(** X10. The findings of the validator. [validateDocument] returns for
    every document; everything in [errors] carries one of the thirteen
    error codes and severity [error]; everything in [warnings] carries one
    of the thirteen warning codes and severity [warning] or [info]; and
    [valid] says that [errors] is empty. *)
Theorem validation_reports_known_codes (doc : ApiDocument) :
  exists r,
    validateDocument doc = Some r /\
    Forall (labelled errorCodes) (result_errors r) /\
    Forall (labelled warningCodes) (result_warnings r) /\
    Forall (fun e => severity e = SevError) (result_errors r) /\
    Forall (fun w => severity w <> SevError) (result_warnings r) /\
    (valid r = true <-> result_errors r = []).
Proof.
  destruct (validateDocument_returns doc)
    as (es & ws & bs & found & _ & _ & He & Hw & Hb & _ & Hlab & _ & Hv).
  eexists. split; [exact Hv|]. simpl.
  assert (Herr : Forall (labelled errorCodes) (es ++ bs)).
  { apply Forall_app; split.
    - apply (labelled_weaken earlyErrorCodes); [|exact He].
      unfold errorCodes. now apply incl_appl, incl_refl.
    - apply (labelled_weaken referenceErrorCodes); [|exact Hb].
      unfold errorCodes. now apply incl_appr, incl_refl. }
  assert (Hwarn : Forall (labelled warningCodes) ((ws ++ orphanWarnings doc) ++ found)).
  { apply Forall_app; split; [apply Forall_app; split|].
    - apply (labelled_weaken earlyWarningCodes); [|exact Hw].
      unfold warningCodes. now apply incl_appl, incl_refl.
    - apply (labelled_by_code "ORPHANED_SCHEMA" SevInfo);
        [unfold warningCodes; simpl; tauto|apply orphanWarnings_labelled].
    - apply (labelled_by_code "CIRCULAR_REFERENCE" SevWarning);
        [unfold warningCodes; simpl; tauto|exact Hlab]. }
  split; [exact Herr|]. split; [exact Hwarn|]. split; [|split].
  - apply (labelled_severity errorCodes (fun s => s = SevError)); [|exact Herr].
    unfold errorCodes, earlyErrorCodes, referenceErrorCodes. simpl.
    repeat constructor.
  - apply (labelled_severity warningCodes (fun s => s <> SevError)); [|exact Hwarn].
    unfold warningCodes, earlyWarningCodes. simpl.
    repeat constructor; simpl; discriminate.
  - destruct (es ++ bs); simpl; split; congruence.
Qed.

(** *** Findings by code *)

Lemma filter_foreign_code (L : list (string * ValidationSeverity)) (c : string)
      (l : list ValidationError) :
  forallb (fun entry => negb (String.eqb (fst entry) c)) L = true ->
  Forall (labelled L) l -> filter (has_code c) l = [].
Proof.
  intros HL. induction 1 as [|e l He Hl IH]; simpl; [reflexivity|].
  rewrite forallb_forall in HL. specialize (HL _ He). simpl in HL.
  unfold has_code at 1. apply negb_true_iff in HL. now rewrite HL.
Qed.

Lemma filter_own_code (c c' : string) (s : ValidationSeverity)
      (l : list ValidationError) :
  Forall (fun w => code w = c' /\ severity w = s) l ->
  filter (has_code c) l = if String.eqb c' c then l else [].
Proof.
  induction 1 as [|e l [He _] Hl IH]; simpl; [now destruct (String.eqb c' c)|].
  unfold has_code at 1. rewrite He, IH. now destruct (String.eqb c' c).
Qed.

(** The nodes the ORPHANED_SCHEMA warnings are about. *)
Lemma orphans_reported (doc : ApiDocument) (k : NodeId) :
  In (Some k) (reportedNodes (orphanWarnings doc)) <->
  In k (JsMap.keys (schemas doc)) /\ ~ In k (documentRefs doc).
Proof.
  unfold orphanWarnings. cbv zeta.
  assert (Hused : forall x, set_has (usedSchemaIds doc) x = false
                            <-> ~ In x (documentRefs doc)).
  { intros x. rewrite set_has_not_in, usedSchemaIds_in. reflexivity. }
  induction (schemas doc) as [|[k0 s0] l IH]; simpl; [tauto|].
  unfold reportedNodes in *. rewrite map_app, in_app_iff, IH.
  destruct (set_has (usedSchemaIds doc) k0) eqn:Eu; simpl.
  - split; [tauto|]. intros [[<-|Hk] Hn]; [|tauto].
    apply Hused in Hn. congruence.
  - apply Hused in Eu. split.
    + intros [[Hk|[]]|H]; [|tauto]. injection Hk as <-. tauto.
    + intros [[<-|Hk] Hn]; [left; now left|tauto].
Qed.

(** X11. Orphans. [validateDocument] reports ORPHANED_SCHEMA for exactly
    the keys of the schema map that no reference of the document targets:
    references of routes (parameters, request bodies, responses) and of
    schemas (properties, items, variants) count, at any depth of inline
    nesting, and so does a reference of a schema to itself. *)
Theorem orphans_are_the_unreferenced_schemas (doc : ApiDocument) :
  exists r,
    validateDocument doc = Some r /\
    forall k,
      In (Some k)
         (reportedNodes (filter (has_code "ORPHANED_SCHEMA") (result_warnings r)))
      <-> In k (JsMap.keys (schemas doc)) /\ ~ In k (documentRefs doc).
Proof.
  destruct (validateDocument_returns doc)
    as (es & ws & bs & found & _ & _ & _ & Hw & _ & _ & Hlab & _ & Hv).
  eexists. split; [exact Hv|]. intros k. simpl.
  rewrite !filter_app.
  rewrite (filter_foreign_code earlyWarningCodes "ORPHANED_SCHEMA" ws eq_refl Hw).
  rewrite (filter_own_code "ORPHANED_SCHEMA" _ _ _ (orphanWarnings_labelled doc)).
  rewrite (filter_own_code "ORPHANED_SCHEMA" _ _ _ Hlab). simpl. rewrite app_nil_r.
  apply orphans_reported.
Qed.

(** X12. Circular references. [validateDocument] reports
    CIRCULAR_REFERENCE for exactly the keys of the schema map from which a
    cycle can be reached along references that sit directly at top-level
    schemas (a property, the items, a variant that is a reference): the
    schemas on a cycle and those that lead into one. References inside
    inline schemas are not followed. The search always ends. *)
Theorem circular_references_are_reported (doc : ApiDocument) :
  exists r,
    validateDocument doc = Some r /\
    forall k,
      In (Some k)
         (reportedNodes (filter (has_code "CIRCULAR_REFERENCE") (result_warnings r)))
      <-> In k (JsMap.keys (schemas doc)) /\ reachesCycle doc k.
Proof.
  destruct (validateDocument_returns doc)
    as (es & ws & bs & found & _ & _ & _ & Hw & _ & _ & Hlab & Hin & Hv).
  eexists. split; [exact Hv|]. intros k. simpl.
  rewrite !filter_app.
  rewrite (filter_foreign_code earlyWarningCodes "CIRCULAR_REFERENCE" ws eq_refl Hw).
  rewrite (filter_own_code "CIRCULAR_REFERENCE" _ _ _ (orphanWarnings_labelled doc)).
  rewrite (filter_own_code "CIRCULAR_REFERENCE" _ _ _ Hlab). simpl.
  apply Hin.
Qed.

End ValidationResults.

(** ** When a document is valid *)

Section DuplicateDetection.
Import Validator Validation ValidationSpec StoreSpec3.

Lemma distinct_app_one (xs : list string) (x : string) :
  distinct (xs ++ [x]) = distinct xs && negb (includes xs x).
Proof.
  induction xs as [|a xs IH]; [reflexivity|].
  change (distinct ((a :: xs) ++ [x]))
    with (negb (includes (xs ++ [x]) a) && distinct (xs ++ [x])).
  change (distinct (a :: xs)) with (negb (includes xs a) && distinct xs).
  change (includes (a :: xs) x) with (String.eqb x a || includes xs x).
  rewrite IH, includes_app.
  change (includes [x] a) with (String.eqb a x || false).
  rewrite (String.eqb_sym x a).
  destruct (includes xs a), (String.eqb a x), (distinct xs), (includes xs x);
    reflexivity.
Qed.

Lemma includes_same (a b : list string) (n : string) :
  (forall y, In y a <-> In y b) -> includes a n = includes b n.
Proof.
  intros H. destruct (includes a n) eqn:Ea, (includes b n) eqn:Eb;
    try reflexivity.
  - apply includes_in, H, includes_in in Ea. congruence.
  - apply includes_in, H, includes_in in Eb. congruence.
Qed.

Lemma keysOf_snoc {A} (key : A -> option string) (xs : list A) (x : A) :
  keysOf key (xs ++ [x])
  = keysOf key xs ++ match key x with Some n => [n] | None => [] end.
Proof. unfold keysOf. rewrite flat_map_app. simpl. now rewrite app_nil_r. Qed.

Lemma keysOf_some {A} (g : A -> string) (xs : list A) :
  keysOf (fun x => Some (g x)) xs = map g xs.
Proof. induction xs as [|x xs IH]; simpl; [reflexivity|]. now rewrite <- IH. Qed.

Lemma keysOf_none {A} (xs : list A) : keysOf (fun _ : A => None) xs = [].
Proof. induction xs as [|x xs IH]; simpl; [reflexivity|exact IH]. Qed.

Lemma distinct_keys_snoc {A} (key : A -> option string) (xs : list A) (x : A)
      (seen : list string) :
  (forall y, In y seen <-> In y (keysOf key xs)) ->
  distinct (keysOf key (xs ++ [x]))
  = distinct (keysOf key xs) && fresh seen (key x).
Proof.
  intros H. rewrite keysOf_snoc. destruct (key x) as [n|]; simpl.
  - rewrite distinct_app_one. now rewrite (includes_same seen _ n H).
  - now rewrite app_nil_r, andb_true_r.
Qed.

Lemma in_keys_snoc {A} (key : A -> option string) (xs : list A) (x : A)
      (seen seen' : list string) :
  (forall y, In y seen <-> In y (keysOf key xs)) ->
  (forall y, In y seen' <-> In y seen \/ key x = Some y) ->
  forall y, In y seen' <-> In y (keysOf key (xs ++ [x])).
Proof.
  intros H H' y. rewrite H', H, keysOf_snoc, in_app_iff.
  destruct (key x) as [n|]; simpl; intuition congruence.
Qed.

(** A loop that keeps two sets of keys it has seen and pushes an error for
    a key it sees again. The state [S] of the loop shows the two sets as
    [v1] and [v2]. *)
Lemma duplicates_loop {S A} (v1 v2 : S -> list string)
      (f : S * Findings -> A -> S * Findings)
      (key1 key2 : A -> option string) (ok : A -> bool) :
  (forall s o x,
      (forall y, In y (v1 (fst (f (s, o) x))) <-> In y (v1 s) \/ key1 x = Some y) /\
      (forall y, In y (v2 (fst (f (s, o) x))) <-> In y (v2 s) \/ key2 x = Some y) /\
      clean (snd (f (s, o) x))
      = clean o && fresh (v1 s) (key1 x) && fresh (v2 s) (key2 x) && ok x) ->
  forall s0 out, v1 s0 = [] -> v2 s0 = [] ->
  forall xs,
    (forall y, In y (v1 (fst (fold_left f xs (s0, out)))) <-> In y (keysOf key1 xs)) /\
    (forall y, In y (v2 (fst (fold_left f xs (s0, out)))) <-> In y (keysOf key2 xs)) /\
    clean (snd (fold_left f xs (s0, out)))
    = clean out && distinct (keysOf key1 xs) && distinct (keysOf key2 xs) &&
      forallb ok xs.
Proof.
  intros Hf s0 out H1 H2 xs. induction xs as [|x xs IH] using rev_ind.
  - simpl. rewrite H1, H2. simpl. rewrite !andb_true_r. tauto.
  - rewrite fold_left_app. simpl.
    destruct (fold_left f xs (s0, out)) as [s o]. simpl in IH.
    destruct IH as (I1 & I2 & Ic).
    destruct (Hf s o x) as (F1 & F2 & Fc).
    split; [|split].
    + exact (in_keys_snoc key1 xs x _ _ I1 F1).
    + exact (in_keys_snoc key2 xs x _ _ I2 F2).
    + rewrite Fc, Ic, forallb_app.
      rewrite (distinct_keys_snoc key1 xs x (v1 s) I1).
      rewrite (distinct_keys_snoc key2 xs x (v2 s) I2).
      simpl. rewrite andb_true_r.
      destruct (clean out), (distinct (keysOf key1 xs)),
        (distinct (keysOf key2 xs)), (forallb ok xs), (fresh (v1 s) (key1 x)),
        (fresh (v2 s) (key2 x)), (ok x); reflexivity.
Qed.

(** The same with one set. *)
Lemma duplicates_loop_one {A}
      (f : list string * Findings -> A -> list string * Findings)
      (key : A -> option string) (ok : A -> bool) :
  (forall s o x,
      (forall y, In y (fst (f (s, o) x)) <-> In y s \/ key x = Some y) /\
      clean (snd (f (s, o) x)) = clean o && fresh s (key x) && ok x) ->
  forall out xs,
    clean (snd (fold_left f xs ([], out)))
    = clean out && distinct (keysOf key xs) && forallb ok xs.
Proof.
  intros Hf out xs.
  destruct (duplicates_loop (fun s : list string => s) (fun _ => [])
              f key (fun _ => None) ok) with (s0 := @nil string) (out := out)
                                              (xs := xs)
    as (_ & _ & Hc); try reflexivity.
  - intros s o x. destruct (Hf s o x) as [F1 Fc]. split; [exact F1|].
    split; [simpl; intuition discriminate|].
    rewrite Fc. simpl. now rewrite andb_true_r.
  - rewrite Hc, keysOf_none. simpl. now rewrite andb_true_r.
Qed.

Lemma in_set_add_key (n : string) (s : list string) (y : string) :
  In y (set_add n s) <-> In y s \/ Some n = Some y.
Proof. rewrite in_set_add. intuition congruence. Qed.

End DuplicateDetection.

Section ValidVerdict.
Import Validator Validation ValidationSpec StoreSpec3.

Lemma validateInfo_clean (doc : ApiDocument) (out : Findings) :
  clean (validateInfo doc out) = clean out && infoOk doc.
Proof.
  unfold validateInfo, infoOk. cbv zeta.
  rewrite !clean_if_pushWarning, !clean_if_pushError, !negb_involutive.
  now rewrite andb_assoc.
Qed.

Lemma validateObjectSchema_clean (schema : SchemaNode) (doc : ApiDocument)
      (out : Findings) :
  clean (validateObjectSchema schema doc out)
  = clean out &&
    match s_required schema, s_properties schema with
    | Some required, Some properties =>
        forallb (fun n => JsMap.has n properties) required
    | _, _ => true
    end.
Proof.
  unfold validateObjectSchema. cbv zeta.
  destruct (s_required schema) as [required|], (s_properties schema) as [properties|];
    rewrite ?clean_if_pushWarning, ?clean_pushWarning, ?andb_true_r; try reflexivity.
  rewrite (clean_fold _ (fun n => JsMap.has n properties)).
  - now rewrite clean_if_pushWarning.
  - intros o x _. now rewrite clean_if_pushError, negb_involutive.
Qed.

Lemma validateEnumSchema_clean (schema : SchemaNode) (out : Findings) :
  clean (validateEnumSchema schema out)
  = clean out &&
    match s_enumValues schema with
    | Some (v :: vs) => distinct (v :: vs)
    | _ => false
    end.
Proof.
  unfold validateEnumSchema. cbv zeta.
  destruct (s_enumValues schema) as [values|].
  - rewrite (duplicates_loop_one _ (fun v : string => Some v) (fun _ => true)).
    + rewrite clean_if_pushError, keysOf_some, map_id.
      assert (Hall : forallb (fun _ : string => true) values = true)
        by (apply forallb_forall; reflexivity).
      rewrite Hall, andb_true_r.
      destruct values as [|v vs]; simpl;
        [now rewrite !andb_false_r|now rewrite andb_true_r].
    + intros s o x. cbn beta iota zeta delta [fst snd fresh]. split; [apply in_set_add_key|].
      now rewrite clean_if_pushError, andb_true_r.
  - simpl. now rewrite clean_pushError, andb_false_r.
Qed.

Lemma validateArraySchema_clean (schema : SchemaNode) (doc : ApiDocument)
      (out : Findings) :
  clean (validateArraySchema schema doc out)
  = clean out && match s_items schema with Some _ => true | None => false end.
Proof.
  unfold validateArraySchema. destruct (s_items schema).
  - now rewrite andb_true_r.
  - now rewrite clean_pushError, andb_false_r.
Qed.

Lemma validateCompositionSchema_clean (schema : SchemaNode) (doc : ApiDocument)
      (out : Findings) :
  clean (validateCompositionSchema schema doc out)
  = clean out && match s_variants schema with Some (_ :: _) => true | _ => false end.
Proof.
  unfold validateCompositionSchema. cbv zeta.
  rewrite !clean_if_pushWarning, clean_if_pushError.
  destruct (s_variants schema) as [[|v vs]|]; reflexivity.
Qed.

(** The checks of one schema by its type. *)
Lemma schema_checks_clean (schema : SchemaNode) (doc : ApiDocument)
      (out : Findings) :
  clean match s_type schema with
        | TObject => validateObjectSchema schema doc out
        | TEnum => validateEnumSchema schema out
        | TArray => validateArraySchema schema doc out
        | TOneOf | TAnyOf | TAllOf => validateCompositionSchema schema doc out
        | _ => out
        end
  = clean out && schemaOk schema.
Proof.
  unfold schemaOk. destruct (s_type schema);
    rewrite ?validateObjectSchema_clean, ?validateEnumSchema_clean,
      ?validateArraySchema_clean, ?validateCompositionSchema_clean, ?andb_true_r;
    reflexivity.
Qed.

Lemma validateSchemas_clean (doc : ApiDocument) (out : Findings) :
  clean (validateSchemas doc out) = clean out && schemasOk doc.
Proof.
  unfold validateSchemas, schemasOk, schemaNamesOf.
  rewrite (duplicates_loop_one _ nameKey (fun entry => schemaOk (snd entry))).
  - now rewrite andb_assoc.
  - intros s o [id schema]. unfold nameKey. simpl.
    destruct (s_name schema) as [name|]; [destruct (nonempty name)|]; simpl.
    + split; [apply in_set_add_key|].
      rewrite schema_checks_clean, clean_if_pushWarning, clean_if_pushError.
      reflexivity.
    + split; [intuition discriminate|].
      now rewrite schema_checks_clean, andb_true_r.
    + split; [intuition discriminate|].
      now rewrite schema_checks_clean, andb_true_r.
Qed.

Lemma clean_success_body (c : bool) (found : option ResponseDef)
      (w : ValidationError) (o : Findings) :
  clean (if c then
           match found with
           | Some r =>
               match resp_content r with
               | None => pushWarning w o
               | Some _ => o
               end
           | None => o
           end
         else o) = clean o.
Proof.
  destruct c; [|reflexivity]. destruct found as [r|]; [|reflexivity].
  now destruct (resp_content r).
Qed.

Lemma validateRoute_seen (id : NodeId) (route : Route) (seen : Seen)
      (out : Findings) :
  fst (validateRoute id route (seen, out))
  = mkSeen
      (match operationKey (id, route) with
       | Some x => set_add x (operationIds seen)
       | None => operationIds seen
       end)
      (set_add (comboOf route) (pathMethodCombos seen)).
Proof.
  unfold validateRoute, operationKey, truthy_str. cbv zeta. simpl.
  destruct (r_operationId route) as [x|]; [destruct (nonempty x)|]; reflexivity.
Qed.

Lemma validateRoute_clean (id : NodeId) (route : Route) (seen : Seen)
      (out : Findings) :
  clean (snd (validateRoute id route (seen, out)))
  = clean out && fresh (pathMethodCombos seen) (Some (comboOf route)) &&
    fresh (operationIds seen) (operationKey (id, route)) && routeOk route.
Proof.
  unfold validateRoute, operationKey, truthy_str, routeOk, placeholdersDefined.
  cbv zeta. simpl.
  assert (Hparams : forall o,
             clean (fold_left
                      (fun out param =>
                         if negb (includes (definedPathParams route) param) then
                           pushError (mkValidationError "UNDEFINED_PATH_PARAM"
                                        ("Path parameter " ++ param ++ " is not defined")%string
                                        SevError (at_node id)) out
                         else out)
                      (RouteList.matchPlaceholders (r_path route)) o)
             = clean o && forallb (includes (definedPathParams route))
                                  (RouteList.matchPlaceholders (r_path route))).
  { intros o. apply clean_fold. intros o' x _.
    now rewrite clean_if_pushError, negb_involutive. }
  destruct (r_operationId route) as [x|]; [destruct (nonempty x)|]; simpl;
    rewrite clean_success_body, !clean_if_pushWarning, clean_if_pushError, Hparams;
    rewrite ?clean_if_pushWarning, ?clean_pushWarning, ?clean_if_pushError,
      ?negb_involutive, ?andb_true_r;
    unfold set_has; now rewrite !andb_assoc.
Qed.

Lemma validateRoutes_clean (doc : ApiDocument) (out : Findings) :
  clean (validateRoutes doc out) = clean out && routesOk doc.
Proof.
  unfold validateRoutes, routesOk, operationIdsOf, combosOf.
  destruct (duplicates_loop pathMethodCombos operationIds
              (fun acc (entry : NodeId * Route) =>
                 validateRoute (fst entry) (snd entry) acc)
              (fun entry => Some (comboOf (snd entry))) operationKey
              (fun entry => routeOk (snd entry)))
    with (s0 := mkSeen [] []) (out := out) (xs := routes doc)
    as (_ & _ & Hc); try reflexivity.
  - intros s o [id route]. cbn [fst snd]. rewrite validateRoute_seen. simpl.
    split; [apply in_set_add_key|]. split.
    + destruct (operationKey (id, route)) as [x|];
        [apply in_set_add_key|intuition discriminate].
    + apply validateRoute_clean.
  - rewrite Hc, keysOf_some. now rewrite !andb_assoc.
Qed.

(** The findings of the early checks have no error exactly when the four
    parts of the document are in order. *)
Lemma checked_findings_clean (doc : ApiDocument) :
  clean (checkReferences doc (earlyFindings doc))
  = infoOk doc && schemasOk doc && routesOk doc && referencesOk doc.
Proof.
  rewrite (proj2 (checkReferences_facts referenceErrorCodes []
                    ltac:(now left) doc _)).
  unfold earlyFindings.
  now rewrite validateRoutes_clean, validateSchemas_clean, validateInfo_clean.
Qed.


End ValidVerdict.

(** ** Routes made by the route list *)

Section CreatedRoutes.
Import Store RouteList Validator Validation ValidationSpec.

Lemma string_of_list_app (a b : list ascii) :
  string_of_list_ascii (a ++ b)
  = (string_of_list_ascii a ++ string_of_list_ascii b)%string.
Proof. induction a as [|c a IH]; simpl; [reflexivity|]. now rewrite IH. Qed.

Lemma length_string_of_list (a : list ascii) :
  String.length (string_of_list_ascii a) = length a.
Proof. induction a as [|c a IH]; simpl; [reflexivity|]. now rewrite IH. Qed.

Lemma substring_prefix (a b : string) :
  substring 0 (String.length a) (a ++ b) = a.
Proof. induction a as [|c a IH]; simpl; [now destruct b|]. now rewrite IH. Qed.

(** A placeholder is a brace, a body, a brace. *)
Lemma slice_of_braced (body : list ascii) :
  slice_1_m1 (string_of_list_ascii ("{"%char :: body ++ ["}"%char]))
  = string_of_list_ascii body.
Proof.
  unfold slice_1_m1. simpl.
  rewrite length_string_of_list, length_app. simpl.
  replace (length body + 1 - 1) with (length body) by lia.
  rewrite string_of_list_app, <- (length_string_of_list body).
  apply substring_prefix.
Qed.

Lemma braces_back (body : list ascii) :
  ("{" ++ slice_1_m1 (string_of_list_ascii ("{"%char :: body ++ ["}"%char])) ++ "}")%string
  = string_of_list_ascii ("{"%char :: body ++ ["}"%char]).
Proof.
  rewrite slice_of_braced. simpl. now rewrite string_of_list_app.
Qed.

(** Every match of the placeholder pattern is its own body in braces. *)
Lemma scanPlaceholders_braced (s : list ascii) : forall opened,
  Forall (fun p => ("{" ++ slice_1_m1 p ++ "}")%string = p)
         (scanPlaceholders s opened).
Proof.
  induction s as [|c s IH]; intros opened; simpl; [constructor|].
  destruct opened as [acc|].
  - destruct (Ascii.eqb c "}"); [|apply IH].
    destruct acc as [|a acc]; [apply IH|].
    constructor; [apply braces_back|apply IH].
  - destruct (Ascii.eqb c "{"); apply IH.
Qed.

Lemma mapi_path_parameters (uuid : nat -> NodeId) (ps : list string) : forall i,
  map (fun p => ("{" ++ p_name p ++ "}")%string)
      (filter is_path_parameter
         (mapi (fun i param =>
                  mkParameterDef (uuid (2 + 2 * i)) (slice_1_m1 param) InPath true
                    (SInline (createSchema (uuid (3 + 2 * i)) "" TString None))
                    None None)
               i ps))
  = map (fun param => ("{" ++ slice_1_m1 param ++ "}")%string) ps.
Proof.
  induction ps as [|p ps IH]; intros i; [reflexivity|].
  cbn [mapi filter is_path_parameter p_in map p_name]. now rewrite IH.
Qed.

Lemma forallb_includes_self (xs : list string) :
  forallb (includes xs) xs = true.
Proof.
  apply forallb_forall. intros x Hx. now apply includes_in.
Qed.

Lemma newRoute_shape (uuid : nat -> NodeId) (path method : string)
      (tags : list string) :
  r_path (newRoute uuid path method tags) = path /\
  r_method (newRoute uuid path method tags) = method /\
  r_operationId (newRoute uuid path method tags) = None /\
  r_responses (newRoute uuid path method tags)
  = [("200", mkResponseDef (uuid 1) "Successful response" None None)] /\
  definedPathParams (newRoute uuid path method tags) = matchPlaceholders path.
Proof.
  unfold newRoute. cbv zeta.
  destruct (matchPlaceholders path) as [|p ps] eqn:E;
    [repeat split; reflexivity|].
  repeat split; try reflexivity.
  unfold definedPathParams. cbn [withParameters r_parameters].
  rewrite mapi_path_parameters.
  pose proof (scanPlaceholders_braced (list_ascii_of_string path) None) as H.
  fold (matchPlaceholders path) in H. rewrite E in H.
  clear E. induction H as [|x xs Hx _ IH]; cbn [map]; [reflexivity|].
  now rewrite Hx, IH.
Qed.

(** X14. A route made by the route list. Whatever the path typed into the
    form, the route [handleCreateRoute] hands to the store declares a path
    parameter for every placeholder of its path and has a response: when
    the validator comes to it, the only error it can report for it is
    DUPLICATE_OPERATION, reported exactly when an earlier route has the
    same method and path. *)
Theorem created_route_fails_only_as_duplicate
        (uuid : nat -> NodeId) (path method : string) (tags : list string)
        (id : NodeId) (seen : Seen) (out : Findings) :
  routeOk (newRoute uuid path method tags) = true /\
  clean (snd (validateRoute id (newRoute uuid path method tags) (seen, out)))
  = clean out && negb (set_has (pathMethodCombos seen) (method ++ " " ++ path)%string).
Proof.
  destruct (newRoute_shape uuid path method tags) as (Hp & Hm & Ho & Hr & Hd).
  assert (Hok : routeOk (newRoute uuid path method tags) = true).
  { unfold routeOk, placeholdersDefined. rewrite Hd, Hp, Hr.
    now rewrite forallb_includes_self. }
  split; [exact Hok|].
  rewrite validateRoute_clean, Hok. unfold operationKey, comboOf. simpl.
  rewrite Ho, Hm, Hp. simpl. now rewrite !andb_true_r.
Qed.

End CreatedRoutes.

(** ** What the check of references pushes *)

Section UniformChecks.
Import Validator Validation ValidationSpec RoundTripAux.

Lemma uniform_same (f g : Findings -> Findings) :
  (forall o, f o = g o) -> uniform g -> uniform f.
Proof. intros E H out. now rewrite !E. Qed.

Lemma uniform_none : uniform (fun o => o).
Proof. intros [es ws]. simpl. now rewrite !app_nil_r. Qed.

Lemma uniform_if_pushError (c : bool) (e : ValidationError) :
  uniform (fun o => if c then pushError e o else o).
Proof.
  destruct c; [|apply uniform_none]. intros [es ws]. unfold pushError. simpl.
  now rewrite app_nil_r.
Qed.

Lemma uniform_then (f g : Findings -> Findings) :
  uniform f -> uniform g -> uniform (fun o => g (f o)).
Proof.
  intros Hf Hg out. rewrite (Hg (f out)), (Hf out), (Hg (f (mkFindings [] []))).
  simpl. now rewrite !app_assoc.
Qed.

Lemma uniform_fold {A} (f : Findings -> A -> Findings) (xs : list A) :
  (forall x, In x xs -> uniform (fun o => f o x)) ->
  uniform (fun o => fold_left f xs o).
Proof.
  induction xs as [|x xs IH]; intros Hf; simpl; [apply uniform_none|].
  apply (uniform_then (fun o => f o x) (fun o => fold_left f xs o)).
  - apply Hf. now left.
  - apply IH. intros y Hy. apply Hf. now right.
Qed.

Variable valid : list NodeId.
Variable nodeId : NodeId.

Lemma checkSchemaRefs_uniform (n : nat) : forall schema context,
  sdepth schema <= n ->
  uniform (checkSchemaRefs valid nodeId schema context).
Proof.
  induction n as [|n IH]; intros schema context Hd;
    [destruct schema; simpl in Hd; lia|].
  assert (Hedge : forall e ctx, edepth e < sdepth schema ->
                                uniform (checkRef valid e ctx nodeId)).
  { intros [t|s] ctx He.
    - apply (uniform_if_pushError (negb (set_has valid t))).
    - apply (IH s ctx). unfold edepth in He. lia. }
  apply (uniform_same _ _ (checkSchemaRefs_unfold valid nodeId schema context)).
  cbv zeta.
  apply (uniform_then
           (fun out =>
              match s_items schema with
              | Some items =>
                  checkRef valid items (context ++ "[items]")%string nodeId
                    match s_properties schema with
                    | Some properties =>
                        fold_left
                          (fun out entry =>
                             checkRef valid (pd_schema (snd entry))
                                      (context ++ "." ++ fst entry)%string nodeId out)
                          properties out
                    | None => out
                    end
              | None =>
                  match s_properties schema with
                  | Some properties =>
                      fold_left
                        (fun out entry =>
                           checkRef valid (pd_schema (snd entry))
                                    (context ++ "." ++ fst entry)%string nodeId out)
                        properties out
                  | None => out
                  end
              end)
           (fun out =>
              match s_variants schema with
              | Some variants =>
                  fold_left
                    (fun out variant =>
                       checkRef valid variant (context ++ "[variant]")%string nodeId out)
                    variants out
              | None => out
              end)).
  - apply (uniform_then
             (fun out =>
                match s_properties schema with
                | Some properties =>
                    fold_left
                      (fun out entry =>
                         checkRef valid (pd_schema (snd entry))
                                  (context ++ "." ++ fst entry)%string nodeId out)
                      properties out
                | None => out
                end)
             (fun out =>
                match s_items schema with
                | Some items =>
                    checkRef valid items (context ++ "[items]")%string nodeId out
                | None => out
                end)).
    + destruct (s_properties schema) as [ps|] eqn:Ep; [|apply uniform_none].
      apply uniform_fold. intros x Hx. apply Hedge.
      exact (property_is_shallower schema ps x Ep Hx).
    + destruct (s_items schema) as [it|] eqn:Ei; [|apply uniform_none].
      apply Hedge. now apply items_are_shallower.
  - destruct (s_variants schema) as [vs|] eqn:Ev; [|apply uniform_none].
    apply uniform_fold. intros x Hx. apply Hedge.
    exact (variant_is_shallower schema vs x Ev Hx).
Qed.

Lemma checkRef_uniform (e : SchemaOrRef) (context : string) :
  uniform (checkRef valid e context nodeId).
Proof.
  destruct e as [t|s].
  - apply (uniform_if_pushError (negb (set_has valid t))).
  - apply (checkSchemaRefs_uniform (sdepth s)). lia.
Qed.

End UniformChecks.

Section UniformDocument.
Import Validator Validation ValidationSpec RoundTripAux.

Lemma checkReferences_uniform (doc : ApiDocument) : uniform (checkReferences doc).
Proof.
  unfold checkReferences. cbv zeta.
  apply (uniform_then
           (fun out =>
              fold_left
                (fun out (entry : NodeId * SchemaNode) =>
                   checkSchemaRefs (JsMap.keys (schemas doc)) (fst entry) (snd entry)
                                   (nameOrAnonymous (snd entry)) out)
                (schemas doc) out)).
  - apply uniform_fold. intros x _.
    apply (checkSchemaRefs_uniform _ _ (sdepth (snd x))). lia.
  - apply uniform_fold. intros [id route] _.
    apply (uniform_then
             (fun out =>
                match r_requestBody route with
                | Some body =>
                    fold_left
                      (fun out (media : string * MediaType) =>
                         checkRef (JsMap.keys (schemas doc)) (mt_schema (snd media))
                                  (comboOf route ++ " request body")%string id out)
                      (rb_content body)
                      (fold_left
                         (fun out param =>
                            checkRef (JsMap.keys (schemas doc)) (p_schema param)
                                     (comboOf route ++ " param " ++ p_name param)%string
                                     id out)
                         (r_parameters route) out)
                | None =>
                    fold_left
                      (fun out param =>
                         checkRef (JsMap.keys (schemas doc)) (p_schema param)
                                  (comboOf route ++ " param " ++ p_name param)%string
                                  id out)
                      (r_parameters route) out
                end)).
    + apply (uniform_then
               (fun out =>
                  fold_left
                    (fun out param =>
                       checkRef (JsMap.keys (schemas doc)) (p_schema param)
                                (comboOf route ++ " param " ++ p_name param)%string
                                id out)
                    (r_parameters route) out)
               (fun out =>
                  match r_requestBody route with
                  | Some body =>
                      fold_left
                        (fun out (media : string * MediaType) =>
                           checkRef (JsMap.keys (schemas doc)) (mt_schema (snd media))
                                    (comboOf route ++ " request body")%string id out)
                        (rb_content body) out
                  | None => out
                  end)).
      * apply uniform_fold. intros x _. apply checkRef_uniform.
      * destruct (r_requestBody route) as [body|]; [|apply uniform_none].
        apply uniform_fold. intros x _. apply checkRef_uniform.
    + apply uniform_fold. intros response _.
      destruct (resp_content (snd response)) as [content|]; [|apply uniform_none].
      apply uniform_fold. intros x _. apply checkRef_uniform.
Qed.

(** The errors the check of references pushes: none exactly when every
    reference of the document targets a key of the schema map. *)
Lemma broken_references (doc : ApiDocument) :
  exists bs,
    (forall out, checkReferences doc out
                 = mkFindings (errors out ++ bs) (warnings out)) /\
    Forall (labelled referenceErrorCodes) bs /\
    (bs = [] <-> referencesOk doc = true).
Proof.
  destruct (checkReferences_facts referenceErrorCodes [] ltac:(now left) doc
              (mkFindings [] [])) as [(bs & ws & Heq & Hb & Hw) Hclean].
  assert (ws = []) as ->
      by (destruct ws as [|w ws]; [reflexivity|];
          inversion Hw as [|? ? Hin _]; destruct Hin).
  simpl in Heq. exists bs. split; [|split; [exact Hb|]].
  - intros out. rewrite (checkReferences_uniform doc out), Heq. simpl.
    now rewrite app_nil_r.
  - rewrite Heq in Hclean. unfold clean in Hclean. simpl in Hclean.
    rewrite <- Hclean. destruct bs; simpl; split; congruence.
Qed.

Lemma checkReferences_silent (doc : ApiDocument) (out : Findings) :
  referencesOk doc = true -> checkReferences doc out = out.
Proof.
  intros Hok. destruct (broken_references doc) as (bs & Heq & _ & Hbs).
  rewrite Heq, (proj2 Hbs Hok), app_nil_r. now destruct out.
Qed.

End UniformDocument.

(* ================================================================== *)
(** * The importer and the validator *)

(** ** Steps of the importer that leave the registered names alone *)

Section ImporterSteps.
Import Js Parser ImportSpec ValidationSpec.

Lemma yields_ret {A} (a : A) (P : JsMap.t NodeId -> A -> Prop) :
  (forall n, P n a) -> yields (ret a) P.
Proof. intros H st b st' E. injection E as <- <-. auto. Qed.

Lemma yields_throw {A} (err : string) (P : JsMap.t NodeId -> A -> Prop) :
  yields (throw err) P.
Proof. intros st a st' E. discriminate. Qed.

Lemma yields_untyped {A} (what : string) (P : JsMap.t NodeId -> A -> Prop) :
  yields (untyped what) P.
Proof. intros st a st' E. discriminate. Qed.

Lemma yields_out_of_fuel {A} (P : JsMap.t NodeId -> A -> Prop) :
  yields (@out_of_fuel A) P.
Proof. intros st a st' E. discriminate. Qed.

Lemma yields_weaken {A} (m : M A) (P Q : JsMap.t NodeId -> A -> Prop) :
  yields m P -> (forall n a, P n a -> Q n a) -> yields m Q.
Proof. intros H HPQ st a st' E. destruct (H st a st' E). auto. Qed.

Lemma bind_returns {A B} (m : M A) (k : A -> M B) (st : PState) (r : B * PState) :
  bind m k st = Ret r -> exists a st1, m st = Ret (a, st1) /\ k a st1 = Ret r.
Proof.
  unfold bind. destruct (m st) as [[a st1]| | |]; try discriminate.
  intros H. now exists a, st1.
Qed.

(** A step whose result matters for what follows. *)
Lemma yields_bind_keep {A B} (P : JsMap.t NodeId -> A -> Prop) (m : M A)
      (k : A -> M B) (Q : JsMap.t NodeId -> B -> Prop) :
  yields m P -> (forall a, yields (k a) (fun n b => P n a -> Q n b)) ->
  yields (bind m k) Q.
Proof.
  intros Hm Hk st b st' E. apply bind_returns in E.
  destruct E as (a & st1 & Em & Ek).
  destruct (Hm _ _ _ Em) as [Hn HP]. destruct (Hk a _ _ _ Ek) as [Hn' HQ].
  rewrite Hn in *. auto.
Qed.

(** A step whose result does not. *)
Lemma yields_bind_skip {A B} (m : M A) (k : A -> M B)
      (Q : JsMap.t NodeId -> B -> Prop) :
  yields m (fun _ _ => True) -> (forall a, yields (k a) Q) -> yields (bind m k) Q.
Proof.
  intros Hm Hk. apply (yields_bind_keep (fun _ _ => True)); [exact Hm|].
  intros a. apply (yields_weaken _ _ _ (Hk a)). auto.
Qed.

Lemma yields_mapM {A B} (f : A -> M B) (P : JsMap.t NodeId -> B -> Prop)
      (xs : list A) :
  (forall x, yields (f x) P) -> yields (mapM f xs) (fun n ys => Forall (P n) ys).
Proof.
  intros Hf. induction xs as [|x xs IH]; simpl.
  - apply yields_ret. constructor.
  - apply (yields_bind_keep P); [apply Hf|]. intros y.
    apply (yields_bind_keep (fun n ys => Forall (P n) ys)); [exact IH|].
    intros ys. apply yields_ret. intros n Hys Hy. now constructor.
Qed.

(** A loop, with what holds of the accumulator after each round; [pre]
    lists the elements the loop has been through. *)
Lemma yields_foldM_from {A B} (f : B -> A -> M B)
      (I : JsMap.t NodeId -> list A -> B -> Prop) (xs : list A) :
  (forall pre acc x,
      yields (f acc x) (fun n acc' => I n pre acc -> I n (pre ++ [x]) acc')) ->
  forall pre acc,
    yields (foldM f xs acc) (fun n r => I n pre acc -> I n (pre ++ xs) r).
Proof.
  intros Hf. induction xs as [|x xs IH]; intros pre acc; simpl.
  - apply yields_ret. intros n. now rewrite app_nil_r.
  - apply (yields_bind_keep (fun n acc' => I n pre acc -> I n (pre ++ [x]) acc'));
      [apply Hf|].
    intros acc'. apply (yields_weaken _ _ _ (IH (pre ++ [x]) acc')).
    intros n r H1 H2 H3. rewrite <- app_assoc in H1. auto.
Qed.

Lemma yields_foldM {A B} (f : B -> A -> M B)
      (I : JsMap.t NodeId -> B -> Prop) (xs : list A) :
  (forall acc x, yields (f acc x) (fun n acc' => I n acc -> I n acc')) ->
  forall acc, yields (foldM f xs acc) (fun n r => I n acc -> I n r).
Proof.
  intros Hf acc.
  exact (yields_foldM_from f (fun n _ b => I n b) xs (fun _ => Hf) [] acc).
Qed.

Lemma yields_foldM_any {A B} (f : B -> A -> M B) (xs : list A) (acc : B) :
  (forall acc x, yields (f acc x) (fun _ _ => True)) ->
  yields (foldM f xs acc) (fun _ _ => True).
Proof.
  intros Hf.
  apply (yields_weaken _ _ _ (yields_foldM f (fun _ _ => True) xs
                                 (fun a x => yields_weaken _ _ _ (Hf a x)
                                                           (fun _ _ _ _ => I))
                                 acc)).
  auto.
Qed.

Lemma yields_mapM_any {A B} (f : A -> M B) (xs : list A) :
  (forall x, yields (f x) (fun _ _ => True)) ->
  yields (mapM f xs) (fun _ _ => True).
Proof.
  intros Hf. apply (yields_weaken _ _ _ (yields_mapM f _ xs Hf)). auto.
Qed.

Lemma yields_pushError (e : ValidationError) :
  yields (pushError e) (fun _ _ => True).
Proof. intros st a st' E. injection E as <- <-. auto. Qed.

Lemma yields_getName (name : string) :
  yields (getName name) (fun n r => r = JsMap.get name n).
Proof. intros st a st' E. injection E as <- <-. auto. Qed.

Variable uuid : nat -> NodeId.

Lemma yields_generateId : yields (generateId uuid) (fun _ _ => True).
Proof. intros st a st' E. injection E as <- <-. auto. Qed.

(** Through a step that only reads the decoded value, draws identifiers
    and pushes diagnostics. *)
Ltac plain :=
  lazymatch goal with
  | |- yields (bind _ _) _ => apply yields_bind_skip; [plain|intros ?; plain]
  | |- yields (ret _) _ => apply yields_ret; intros; exact I
  | |- yields (throw _) _ => apply yields_throw
  | |- yields (untyped _) _ => apply yields_untyped
  | |- yields out_of_fuel _ => apply yields_out_of_fuel
  | |- yields (pushError _) _ => apply yields_pushError
  | |- yields (generateId _) _ => apply yields_generateId
  | |- yields (getName _) _ =>
      apply (yields_weaken _ _ _ (yields_getName _)); auto
  | |- yields (mapM _ _) _ => apply yields_mapM_any; intros ?; plain
  | |- yields (foldM _ _ _) _ => apply yields_foldM_any; intros ? ?; plain
  | |- yields (match ?x with _ => _ end) _ => destruct x; plain
  | |- yields (when _ _) _ => unfold when; plain
  | |- yields (prop _ _) _ => unfold prop; plain
  | |- yields (opt_prop _ _) _ => unfold opt_prop; plain
  | |- yields (as_string _ _) _ => unfold as_string; plain
  | |- yields (as_opt_string _ _) _ => unfold as_opt_string; plain
  | |- yields (as_string_array _ _) _ => unfold as_string_array; plain
  | |- yields (as_number _ _) _ => unfold as_number; plain
  | |- yields (string_or _ _ _) _ => unfold string_or; plain
  | |- yields (string_if_truthy _ _) _ => unfold string_if_truthy; plain
  | |- yields (number_if_defined _ _) _ => unfold number_if_defined; plain
  | |- yields (string_array_or_empty _ _) _ => unfold string_array_or_empty; plain
  | |- _ => idtac
  end.

Lemma yields_prop (k : string) (v : JValue) : yields (prop k v) (fun _ _ => True).
Proof. plain. Qed.

Lemma yields_parseInfo (info : JValue) :
  yields (parseInfo info) (fun _ _ => True).
Proof. unfold parseInfo. plain. Qed.

Lemma yields_parseSecurityScheme (name : string) (data : JValue) :
  yields (parseSecurityScheme uuid name data) (fun _ _ => True).
Proof. unfold parseSecurityScheme. plain. Qed.

(** *** References the importer writes *)

Lemma registered_get (name : string) (n : JsMap.t NodeId) (t : NodeId) :
  JsMap.get name n = Some t -> registered n t.
Proof. intros H. now exists name. Qed.

Lemma Forall_after_set {V} (Q : string * V -> Prop) (k : string) (v : V)
      (m : JsMap.t V) :
  Forall Q m -> Q (k, v) -> Forall Q (JsMap.set k v m).
Proof.
  intros Hm Hv. induction m as [|[k' v'] m IH]; simpl.
  - now constructor.
  - inversion Hm as [|? ? Hh Ht]; subst.
    destruct (String.eqb k k'); constructor; auto.
Qed.

Lemma allRegistered_set {V} (refs : V -> list NodeId) (n : JsMap.t NodeId)
      (k : string) (v : V) (m : JsMap.t V) :
  allRegistered n (flat_map (fun entry => refs (snd entry)) m) ->
  allRegistered n (refs v) ->
  allRegistered n (flat_map (fun entry => refs (snd entry)) (JsMap.set k v m)).
Proof.
  unfold allRegistered. rewrite !Forall_flat_map. intros Hm Hv.
  now apply Forall_after_set.
Qed.

Lemma yields_parseSchemaOrRef_with
      (parseSchema : JValue -> option string -> NodeId -> M SchemaNode)
      (data : JValue) :
  (forall d nm id,
      yields (parseSchema d nm id) (fun n s => allRegistered n (schemaRefs s))) ->
  yields (parseSchemaOrRef_with uuid parseSchema data)
         (fun n e => allRegistered n (edgeRefs e)).
Proof.
  intros Hs. unfold parseSchemaOrRef_with.
  apply yields_bind_skip; [plain|intros refV].
  apply (yields_bind_keep
           (fun n (r : option NodeId) =>
              match r with Some t => registered n t | None => True end)).
  - destruct refV as [[| | |refPath| |]|]; try (apply yields_ret; intros; exact I).
    destruct (nonempty refPath); [|apply yields_ret; intros; exact I].
    destruct (matchSchemaRef refPath) as [refName|];
      [|apply yields_ret; intros; exact I].
    apply (yields_bind_keep (fun n r => r = JsMap.get refName n));
      [apply yields_getName|].
    intros [t|].
    + destruct (nonempty t).
      * apply yields_ret. intros n H. symmetry in H. exact (registered_get _ _ _ H).
      * apply yields_bind_skip; [plain|intros _].
        apply yields_ret. intros; exact I.
    + apply yields_bind_skip; [plain|intros _].
      apply yields_ret. intros; exact I.
  - intros [t|].
    + apply yields_ret. intros n H. simpl. now repeat constructor.
    + apply yields_bind_skip; [plain|intros inlineId].
      apply (yields_bind_keep (fun n s => allRegistered n (schemaRefs s)));
        [apply Hs|].
      intros s. apply yields_ret. intros n H _. exact H.
Qed.

Lemma yields_parseSchema_body (parseSchemaOrRef : JValue -> M SchemaOrRef)
      (data : JValue) (name : option string) (id : NodeId) :
  (forall d, yields (parseSchemaOrRef d) (fun n e => allRegistered n (edgeRefs e))) ->
  yields (parseSchema_body parseSchemaOrRef data name id)
         (fun n s => allRegistered n (schemaRefs s)).
Proof.
  intros He. unfold parseSchema_body.
  do 5 (apply yields_bind_skip; [plain|intros ?]).
  cbv zeta.
  match goal with
  | |- context [SchemaType_eqb ?t TObject] => generalize t; intros type
  end.
  do 3 (apply yields_bind_skip; [plain|intros ?]).
  apply (yields_bind_keep
           (fun n (part : option (JsMap.t PropertyDef) * option (list string)) =>
              allRegistered n
                match fst part with
                | Some properties =>
                    flat_map (fun entry => edgeRefs (pd_schema (snd entry))) properties
                | None => []
                end)).
  { destruct (SchemaType_eqb type TObject && truthy_opt _);
      [|apply yields_ret; intros; constructor].
    do 2 (apply yields_bind_skip; [plain|intros ?]).
    apply (yields_bind_keep
             (fun n (properties : JsMap.t PropertyDef) =>
                allRegistered n
                  (flat_map (fun entry => edgeRefs (pd_schema (snd entry)))
                            properties))).
    - eapply yields_weaken;
        [apply (yields_foldM _ (fun n (properties : JsMap.t PropertyDef) =>
                  allRegistered n
                    (flat_map (fun entry => edgeRefs (pd_schema (snd entry)))
                              properties)))|].
      + intros acc [propName propData].
        apply (yields_bind_keep (fun n e => allRegistered n (edgeRefs e)));
          [apply He|].
        intros propSchema.
        do 2 (apply yields_bind_skip; [plain|intros ?]).
        apply yields_ret. intros n Hs Hacc.
        now apply (allRegistered_set (fun p => edgeRefs (pd_schema p))).
      + intros n r H. apply H. constructor.
    - intros properties. apply yields_ret. intros n H. exact H. }
  intros objectPart.
  apply yields_bind_skip; [plain|intros itemsV].
  apply (yields_bind_keep
           (fun n (items : option SchemaOrRef) =>
              allRegistered n
                match items with Some e => edgeRefs e | None => [] end)).
  { destruct itemsV as [itemsData|]; [|apply yields_ret; intros; constructor].
    destruct (SchemaType_eqb type TArray && truthy itemsData);
      [|apply yields_ret; intros; constructor].
    apply (yields_bind_keep (fun n e => allRegistered n (edgeRefs e)));
      [apply He|].
    intros e. apply yields_ret. intros n H. exact H. }
  intros items.
  apply yields_bind_skip; [plain|intros enumValues].
  apply (yields_bind_keep
           (fun n (part : option (list SchemaOrRef) * option Discriminator) =>
              allRegistered n
                match fst part with
                | Some variants => flat_map edgeRefs variants
                | None => []
                end)).
  { assert (Hvariants : forall variantsV : option JValue,
               yields
                 (variants <-
                    match variantsV with
                    | Some (JArr vs) => es <- mapM parseSchemaOrRef vs ;; ret (Some es)
                    | _ => ret None
                    end ;;
                  discV <- prop "discriminator" data ;;
                  discriminator <-
                    (if SchemaType_eqb type TOneOf && truthy_opt discV then
                       pnV <- opt_prop "propertyName" discV ;;
                       pn <- as_string "discriminator.propertyName" pnV ;;
                       ret (Some (mkDiscriminator pn None))
                     else ret None) ;;
                  ret (variants, discriminator))
                 (fun n (part : option (list SchemaOrRef) * option Discriminator) =>
                    allRegistered n
                      match fst part with
                      | Some variants => flat_map edgeRefs variants
                      | None => []
                      end)).
    { intros variantsV.
      apply (yields_bind_keep
               (fun n (variants : option (list SchemaOrRef)) =>
                  allRegistered n
                    match variants with
                    | Some vs => flat_map edgeRefs vs
                    | None => []
                    end)).
      - destruct variantsV as [[| | | |vs|]|];
          try (apply yields_ret; intros; constructor).
        apply (yields_bind_keep
                 (fun n es => Forall (fun e => allRegistered n (edgeRefs e)) es));
          [apply yields_mapM; apply He|].
        intros es. apply yields_ret. intros n H.
        unfold allRegistered. now apply Forall_flat_map.
      - intros variants.
        do 2 (apply yields_bind_skip; [plain|intros ?]).
        apply yields_ret. intros n H. exact H. }
    destruct type; try (apply yields_ret; intros; constructor); apply Hvariants. }
  intros compositionPart.
  do 14 (apply yields_bind_skip; [plain|intros ?]).
  apply yields_ret. intros n Hc Hi Ho.
  rewrite schemaRefs_unfold. cbn [s_properties s_items s_variants].
  unfold allRegistered in *. rewrite !Forall_app. auto.
Qed.

Lemma yields_parseSchema (fuel : nat) : forall data name id,
  yields (parseSchema uuid fuel data name id)
         (fun n s => allRegistered n (schemaRefs s)).
Proof.
  induction fuel as [|fuel IH]; intros data name id; simpl.
  - apply yields_out_of_fuel.
  - apply yields_parseSchema_body. intros d.
    apply yields_parseSchemaOrRef_with. exact IH.
Qed.

Lemma yields_parseSchemaOrRef (fuel : nat) (data : JValue) :
  yields (parseSchemaOrRef uuid fuel data)
         (fun n e => allRegistered n (edgeRefs e)).
Proof.
  apply yields_parseSchemaOrRef_with. apply yields_parseSchema.
Qed.

Variable fuel : nat.

Lemma yields_schemaOrDefault (schemaV : option JValue) (type : SchemaType) :
  yields (schemaOrDefault uuid fuel schemaV type)
         (fun n e => allRegistered n (edgeRefs e)).
Proof.
  unfold schemaOrDefault.
  destruct schemaV as [s|]; [destruct (truthy s)|];
    try apply yields_parseSchemaOrRef;
    (apply yields_bind_skip; [plain|intros id];
     apply yields_ret; intros; constructor).
Qed.

Lemma yields_parseParameter (data : JValue) :
  yields (parseParameter uuid fuel data)
         (fun n p => allRegistered n (edgeRefs (p_schema p))).
Proof.
  unfold parseParameter.
  do 8 (apply yields_bind_skip; [plain|intros ?]).
  apply (yields_bind_keep (fun n e => allRegistered n (edgeRefs e)));
    [apply yields_schemaOrDefault|].
  intros schema.
  do 3 (apply yields_bind_skip; [plain|intros ?]).
  apply yields_ret. intros n H. exact H.
Qed.

Lemma yields_parseContent (contentV : JValue) :
  yields (parseContent uuid fuel contentV)
         (fun n content =>
            allRegistered n
              (flat_map (fun entry => edgeRefs (mt_schema (snd entry))) content)).
Proof.
  unfold parseContent.
  eapply yields_weaken;
    [apply (yields_foldM _ (fun n (content : JsMap.t MediaType) =>
              allRegistered n
                (flat_map (fun entry => edgeRefs (mt_schema (snd entry))) content)))|].
  - intros acc [contentType media].
    apply yields_bind_skip; [plain|intros schemaV].
    apply (yields_bind_keep (fun n e => allRegistered n (edgeRefs e)));
      [apply yields_schemaOrDefault|].
    intros schema.
    apply yields_bind_skip; [plain|intros exampleV].
    apply yields_ret. intros n Hs Hacc.
    now apply (allRegistered_set (fun m => edgeRefs (mt_schema m))).
  - intros n r H. apply H. constructor.
Qed.

Lemma yields_parseRequestBody (data : JValue) :
  yields (parseRequestBody uuid fuel data)
         (fun n body =>
            allRegistered n
              (flat_map (fun entry => edgeRefs (mt_schema (snd entry)))
                        (rb_content body))).
Proof.
  unfold parseRequestBody.
  apply yields_bind_skip; [plain|intros contentV].
  apply (yields_bind_keep
           (fun n (content : JsMap.t MediaType) =>
              allRegistered n
                (flat_map (fun entry => edgeRefs (mt_schema (snd entry))) content))).
  - destruct contentV as [c|]; [destruct (truthy c && is_object c)|];
      try apply yields_parseContent; apply yields_ret; intros; constructor.
  - intros content.
    do 5 (apply yields_bind_skip; [plain|intros ?]).
    apply yields_ret. intros n H. exact H.
Qed.

Lemma yields_parseResponse (data : JValue) :
  yields (parseResponse uuid fuel data)
         (fun n response =>
            allRegistered n
              match resp_content response with
              | Some content =>
                  flat_map (fun entry => edgeRefs (mt_schema (snd entry))) content
              | None => []
              end).
Proof.
  unfold parseResponse.
  do 4 (apply yields_bind_skip; [plain|intros ?]).
  apply (yields_bind_keep
           (fun n (content : option (JsMap.t MediaType)) =>
              allRegistered n
                match content with
                | Some content =>
                    flat_map (fun entry => edgeRefs (mt_schema (snd entry))) content
                | None => []
                end)).
  - match goal with
    | |- yields (match ?v with _ => _ end) _ => destruct v as [c|]
    end; [destruct (truthy c && is_object c)|];
      try (apply yields_ret; intros; constructor).
    apply (yields_bind_keep _ _ _ _ (yields_parseContent c)).
    intros m. apply yields_ret. intros n H. exact H.
  - intros content. apply yields_ret. intros n H. exact H.
Qed.

(** The references of a route, part by part. *)
Lemma routeRefs_parts (n : JsMap.t NodeId) (r : Route) :
  Forall (fun p => allRegistered n (edgeRefs (p_schema p))) (r_parameters r) ->
  allRegistered n
    match r_requestBody r with
    | Some body =>
        flat_map (fun entry => edgeRefs (mt_schema (snd entry))) (rb_content body)
    | None => []
    end ->
  allRegistered n
    (flat_map (fun entry : string * ResponseDef =>
                 match resp_content (snd entry) with
                 | Some content =>
                     flat_map (fun entry => edgeRefs (mt_schema (snd entry))) content
                 | None => []
                 end)
              (r_responses r)) ->
  allRegistered n (routeRefs r).
Proof.
  unfold allRegistered, routeRefs, UsageSpec.routeEdges, JsMap.values.
  intros Hp Hb Hr. rewrite !flat_map_app, !Forall_app. split; [|split].
  - rewrite flat_map_map. now apply Forall_flat_map.
  - destruct (r_requestBody r) as [body|]; [|constructor].
    now rewrite !flat_map_map.
  - rewrite Forall_flat_map in Hr. apply Forall_flat_map, Forall_flat_map.
    rewrite Forall_map. revert Hr. apply Forall_impl. intros [k response] H.
    cbn [snd] in *. destruct (resp_content response) as [content|];
      [|constructor].
    apply Forall_flat_map. now rewrite !flat_map_map.
Qed.

Lemma yields_parseOperation (path method : string) (data : JValue)
      (doc : ApiDocument) :
  yields (parseOperation uuid fuel path method data doc)
         (fun n r => allRegistered n (routeRefs r)).
Proof.
  unfold parseOperation.
  do 10 (apply yields_bind_skip; [plain|intros ?]).
  cbv zeta.
  apply yields_bind_skip; [plain|intros parametersV].
  apply (yields_bind_keep
           (fun n ps => Forall (fun p => allRegistered n (edgeRefs (p_schema p))) ps)).
  { destruct parametersV as [[| | | |ps|]|];
      try (apply yields_ret; intros; constructor).
    apply yields_mapM. apply yields_parseParameter. }
  intros parameters.
  apply yields_bind_skip; [plain|intros requestBodyV].
  apply (yields_bind_keep
           (fun n (body : option RequestBody) =>
              allRegistered n
                match body with
                | Some body =>
                    flat_map (fun entry => edgeRefs (mt_schema (snd entry)))
                             (rb_content body)
                | None => []
                end)).
  { destruct requestBodyV as [b|]; [destruct (truthy b)|];
      try (apply yields_ret; intros; constructor).
    apply (yields_bind_keep _ _ _ _ (yields_parseRequestBody b)).
    intros rb. apply yields_ret. intros n H. exact H. }
  intros requestBody.
  apply yields_bind_skip; [plain|intros responsesV].
  apply (yields_bind_keep
           (fun n (responses : JsMap.t ResponseDef) =>
              allRegistered n
                (flat_map (fun entry : string * ResponseDef =>
                             match resp_content (snd entry) with
                             | Some content =>
                                 flat_map (fun entry => edgeRefs (mt_schema (snd entry)))
                                          content
                             | None => []
                             end)
                          responses))).
  { destruct responsesV as [rs|]; [destruct (truthy rs && is_object rs)|];
      try (apply yields_ret; intros; constructor).
    eapply yields_weaken;
      [apply (yields_foldM _ (fun n (responses : JsMap.t ResponseDef) =>
                allRegistered n
                  (flat_map (fun entry : string * ResponseDef =>
                               match resp_content (snd entry) with
                               | Some content =>
                                   flat_map
                                     (fun entry => edgeRefs (mt_schema (snd entry)))
                                     content
                               | None => []
                               end)
                            responses)))|].
    - intros acc [statusCode responseData].
      apply (yields_bind_keep _ _ _ _ (yields_parseResponse responseData)).
      intros response. apply yields_ret. intros n Hr Hacc.
      now apply (allRegistered_set
                   (fun response =>
                      match resp_content response with
                      | Some content =>
                          flat_map (fun entry => edgeRefs (mt_schema (snd entry)))
                                   content
                      | None => []
                      end)).
    - intros n r H. apply H. constructor. }
  intros responses.
  apply (yields_bind_keep
           (fun n (ensured : JsMap.t ResponseDef) =>
              allRegistered n
                (flat_map (fun entry : string * ResponseDef =>
                             match resp_content (snd entry) with
                             | Some content =>
                                 flat_map (fun entry => edgeRefs (mt_schema (snd entry)))
                                          content
                             | None => []
                             end)
                          responses) ->
              allRegistered n
                (flat_map (fun entry : string * ResponseDef =>
                             match resp_content (snd entry) with
                             | Some content =>
                                 flat_map (fun entry => edgeRefs (mt_schema (snd entry)))
                                          content
                             | None => []
                             end)
                          ensured))).
  { destruct (JsMap.size responses =? 0)%nat;
      [|apply yields_ret; intros n H; exact H].
    apply yields_bind_skip; [plain|intros respId].
    apply yields_ret. intros n H.
    apply (allRegistered_set
             (fun response =>
                match resp_content response with
                | Some content =>
                    flat_map (fun entry => edgeRefs (mt_schema (snd entry))) content
                | None => []
                end)); [exact H|constructor]. }
  intros ensured. apply yields_ret. intros n He Hr Hb Hp.
  apply routeRefs_parts; cbn [r_parameters r_requestBody r_responses]; auto.
Qed.

(** *** The two passes over the component schemas *)

Ltac plainer :=
  lazymatch goal with
  | |- yields (parseInfo _) _ => apply yields_parseInfo
  | |- yields (parseSecurityScheme _ _ _) _ => apply yields_parseSecurityScheme
  | |- yields (bind _ _) _ => apply yields_bind_skip; [plainer|intros ?; plainer]
  | |- yields (foldM _ _ _) _ => apply yields_foldM_any; intros ? ?; plainer
  | |- yields (match ?x with _ => _ end) _ => destruct x; plainer
  | |- _ => plain
  end.

Lemma kept {A} (m : M A) (st : PState) (a : A) (st' : PState) :
  yields m (fun _ _ => True) -> m st = Ret (a, st') ->
  schemaNameToId st' = schemaNameToId st.
Proof. intros H E. exact (proj1 (H _ _ _ E)). Qed.

Lemma keys_set_in {V} (k k' : string) (v : V) (m : JsMap.t V) :
  In k (JsMap.keys (JsMap.set k' v m)) -> k = k' \/ In k (JsMap.keys m).
Proof.
  induction m as [|[k0 v0] m IH]; simpl.
  - intros [<-|[]]. now left.
  - destruct (String.eqb k' k0) eqn:E; simpl.
    + apply String.eqb_eq in E. subst k0. intros [<-|H]; auto.
    + intros [<-|H]; [auto|]. destruct (IH H); auto.
Qed.

(** The first pass registers names of components only. *)
Lemma first_pass_registers (entries : list (string * JValue)) :
  forall st u st',
    foldM (fun (_ : unit) (entry : string * JValue) =>
             id <- generateId uuid ;; setName (fst entry) id)
          entries tt st = Ret (u, st') ->
    forall name, In name (JsMap.keys (schemaNameToId st')) ->
                 In name (JsMap.keys (schemaNameToId st)) \/
                 In name (map fst entries).
Proof.
  induction entries as [|[k v] entries IH]; intros st u st' E name Hin; simpl in E.
  - injection E as _ <-. now left.
  - apply bind_returns in E. destruct E as ([] & st1 & E1 & E2).
    apply bind_returns in E1. destruct E1 as (id & st0 & E0 & E1).
    injection E0 as <- <-. injection E1 as <-. simpl in *.
    destruct (IH _ _ _ E2 name Hin) as [H|H]; [|now right; right].
    simpl in H. apply keys_set_in in H. destruct H as [->|H]; auto.
Qed.

(** The second pass stores a schema under every identifier the first one
    registered, and every reference it writes is to such an identifier. *)
Lemma yields_second_pass (entries : list (string * JValue))
      (m0 : JsMap.t SchemaNode) :
  yields
    (foldM (fun (m : JsMap.t SchemaNode) (entry : string * JValue) =>
              let (name, schemaData) := entry in
              idV <- getName name ;;
              match idV with
              | Some id =>
                  schema <- parseSchema uuid fuel schemaData (Some name) id ;;
                  ret (JsMap.set id schema m)
              | None => untyped "schemaNameToId.get(name)!"
              end)
           entries m0)
    (fun n m =>
       allRegistered n (flat_map (fun entry => schemaRefs (snd entry)) m0) ->
       allRegistered n (flat_map (fun entry => schemaRefs (snd entry)) m) /\
       forall name, In name (map fst entries) ->
                    exists id, JsMap.get name n = Some id /\ JsMap.has id m = true).
Proof.
  refine (yields_weaken _ _ _
            (yields_foldM_from _
               (fun n (pre : list (string * JValue)) (m : JsMap.t SchemaNode) =>
                  allRegistered n (flat_map (fun entry => schemaRefs (snd entry)) m) /\
                  forall name, In name (map fst pre) ->
                               exists id, JsMap.get name n = Some id /\
                                          JsMap.has id m = true)
               entries _ [] m0) _).
  - intros pre acc [name schemaData].
    apply (yields_bind_keep (fun n r => r = JsMap.get name n));
      [apply yields_getName|].
    intros [id|]; [|apply yields_untyped].
    apply (yields_bind_keep (fun n s => allRegistered n (schemaRefs s)));
      [apply yields_parseSchema|].
    intros schema. apply yields_ret. intros n Hs Hid [Hrefs Hkeys]. split.
    + now apply (allRegistered_set schemaRefs).
    + intros name' Hin. rewrite map_app, in_app_iff in Hin.
      destruct Hin as [Hin|[<-|[]]].
      * destruct (Hkeys name' Hin) as (id' & Hg & Hh). exists id'.
        split; [exact Hg|]. rewrite has_set, Hh. apply orb_true_r.
      * exists id. split; [now symmetry|].
        rewrite has_set, String.eqb_refl. reflexivity.
  - intros n m H Hm0. apply H. split; [exact Hm0|]. intros name [].
Qed.

Lemma yields_routes_pass (pathsV : option JValue) (doc : ApiDocument) :
  routes doc = JsMap.empty ->
  yields
    match pathsV with
    | Some ps =>
        if truthy ps then
          foldM (fun (m : JsMap.t Route) (pathEntry : string * JValue) =>
                   let (path, pathItem) := pathEntry in
                   if negb (truthy pathItem) || negb (is_object pathItem) then ret m
                   else
                     foldM (fun (m : JsMap.t Route) (opEntry : string * JValue) =>
                              let (method, operationData) := opEntry in
                              if negb (isHttpMethod method) then ret m
                              else if negb (truthy operationData)
                                      || negb (is_object operationData) then ret m
                              else
                                route <- parseOperation uuid fuel path method
                                                        operationData doc ;;
                                ret (JsMap.set (r_id route) route m))
                           (object_entries pathItem) m)
                (object_entries ps) (routes doc)
        else ret (routes doc)
    | None => ret (routes doc)
    end
    (fun n m => allRegistered n (flat_map (fun entry => routeRefs (snd entry)) m)).
Proof.
  intros ->.
  destruct pathsV as [ps|]; [destruct (truthy ps)|];
    try (apply yields_ret; intros; constructor).
  eapply yields_weaken;
    [apply (yields_foldM _ (fun n (m : JsMap.t Route) =>
              allRegistered n (flat_map (fun entry => routeRefs (snd entry)) m)))|].
  - intros acc [path pathItem].
    destruct (negb (truthy pathItem) || negb (is_object pathItem));
      [apply yields_ret; intros n H; exact H|].
    apply (yields_foldM _ (fun n (m : JsMap.t Route) =>
             allRegistered n (flat_map (fun entry => routeRefs (snd entry)) m))).
    intros acc' [method operationData].
    destruct (negb (isHttpMethod method)); [apply yields_ret; intros n H; exact H|].
    destruct (negb (truthy operationData) || negb (is_object operationData));
      [apply yields_ret; intros n H; exact H|].
    apply (yields_bind_keep _ _ _ _
             (yields_parseOperation path method operationData doc)).
    intros route. apply yields_ret. intros n Hr Hacc.
    now apply (allRegistered_set routeRefs).
  - intros n m H. apply H. constructor.
Qed.

(** One step through [parseDocument] that leaves the names alone. *)
Ltac through H Hn :=
  let Hm := fresh "Hm" in
  apply bind_returns in H; destruct H as (? & ? & Hm & H);
  apply kept in Hm; [|solve [plainer]];
  rewrite Hn in Hm; clear Hn; rename Hm into Hn;
  cbv beta zeta in H.

Lemma parseDocument_references (parsed : JValue) (st st' : PState)
      (doc : ApiDocument) :
  schemaNameToId st = JsMap.empty ->
  parseDocument uuid fuel parsed st = Ret (doc, st') ->
  referencesOk doc = true.
Proof.
  intros Hn H. unfold parseDocument in H.
  do 11 through H Hn.
  match goal with
  | H : context [opt_prop "securitySchemes" ?c] |- _ => set (componentsV := c) in *
  end.
  match goal with
  | H : context [foldM _ (object_entries _) tt] |- _ =>
      match type of H with
      | bind (match ?v with _ => _ end) _ _ = _ => set (schemasV := v) in *
      end
  end.
  (* the first pass *)
  match type of Hn with schemaNameToId ?s = _ => rename s into st0 end.
  apply bind_returns in H. destruct H as ([] & st1 & H1 & H).
  assert (Hnames : forall name, In name (JsMap.keys (schemaNameToId st1)) ->
                                In name (map fst (schemaEntries schemasV))).
  { intros name Hin.
    assert (E : foldM (fun (_ : unit) (entry : string * JValue) =>
                         id <- generateId uuid ;; setName (fst entry) id)
                      (schemaEntries schemasV) tt st0 = Ret (tt, st1)).
    { rewrite <- H1. unfold schemaEntries.
      destruct schemasV as [ss|]; [destruct (truthy ss)|]; reflexivity. }
    destruct (first_pass_registers _ _ _ _ E name Hin) as [Hold|Hnew];
      [|exact Hnew].
    rewrite Hn in Hold. destruct Hold. }
  clear H1 Hn.
  (* the second pass *)
  apply bind_returns in H. destruct H as (parsedSchemas & st2 & H2 & H).
  assert (E2 : foldM (fun (m : JsMap.t SchemaNode) (entry : string * JValue) =>
                        let (name, schemaData) := entry in
                        idV <- getName name ;;
                        match idV with
                        | Some id =>
                            schema <- parseSchema uuid fuel schemaData (Some name) id ;;
                            ret (JsMap.set id schema m)
                        | None => untyped "schemaNameToId.get(name)!"
                        end)
                     (schemaEntries schemasV) JsMap.empty st1
               = Ret (parsedSchemas, st2)).
  { rewrite <- H2. unfold schemaEntries.
    destruct schemasV as [ss|]; [destruct (truthy ss)|]; reflexivity. }
  clear H2. destruct (yields_second_pass _ _ _ _ _ E2) as [Hn2 Hpass].
  destruct (Hpass ltac:(constructor)) as [Hrefs Hkeys]. clear Hpass E2.
  do 3 through H Hn2.
  (* the routes *)
  apply bind_returns in H. destruct H as (parsedRoutes & st3 & H3 & H).
  match type of H3 with
  | context [ret (routes ?d)] =>
      destruct (yields_routes_pass _ d eq_refl _ _ _ H3) as [_ Hroutes]
  end.
  rewrite Hn2 in Hroutes. clear H3.
  injection H as <- _.
  (* every reference is to a key of the schema map *)
  unfold referencesOk, documentRefs. cbn [schemas routes].
  apply forallb_forall. intros t Ht.
  assert (Hreg : registered (schemaNameToId st1) t).
  { unfold allRegistered in *. rewrite Forall_forall in Hrefs, Hroutes.
    apply in_app_iff in Ht. unfold JsMap.values in Ht.
    rewrite !flat_map_map in Ht. destruct Ht as [Ht|Ht]; auto. }
  destruct Hreg as (name & Hg).
  destruct (Hkeys name (Hnames name (get_key _ _ _ Hg))) as (id & Hg' & Hh).
  congruence.
Qed.

End ImporterSteps.

(** ** Broken references *)

Section BrokenReferences.
Import Store Validator Validation ValidationSpec.

Lemma referencesOk_spec (doc : ApiDocument) :
  referencesOk doc = true <->
  forall t, In t (documentRefs doc) -> In t (JsMap.keys (schemas doc)).
Proof.
  unfold referencesOk. rewrite forallb_forall. split; intros H t Ht.
  - apply includes_in. rewrite <- has_includes. now apply H.
  - rewrite has_includes. apply includes_in. now apply H.
Qed.

Lemma filter_reference_errors (bs : list ValidationError) :
  Forall (labelled referenceErrorCodes) bs ->
  filter (has_code "BROKEN_REFERENCE") bs = bs.
Proof.
  induction 1 as [|e bs He _ IH]; simpl; [reflexivity|].
  destruct He as [He|[]]. injection He as Hc _.
  unfold has_code at 1. rewrite <- Hc, String.eqb_refl. now rewrite IH.
Qed.

(** The BROKEN_REFERENCE errors of [validateDocument]. *)
Lemma broken_reported (doc : ApiDocument) :
  exists r,
    validateDocument doc = Some r /\
    (filter (has_code "BROKEN_REFERENCE") (result_errors r) = []
     <-> referencesOk doc = true) /\
    (valid r = true -> referencesOk doc = true).
Proof.
  destruct (validateDocument_returns doc)
    as (es & ws & bs & found & Heq & Hc & He & _ & Hb & _ & _ & _ & Hv).
  destruct (broken_references doc) as (bs' & Hall & _ & Hbs).
  rewrite Hall, Heq in Hc. injection Hc as Hc. apply app_inv_head in Hc.
  subst bs'.
  eexists. split; [exact Hv|]. cbn [result_errors valid].
  rewrite filter_app.
  rewrite (filter_foreign_code earlyErrorCodes "BROKEN_REFERENCE" es eq_refl He).
  rewrite (filter_reference_errors bs Hb). simpl.
  split; [exact Hbs|].
  intros Hvalid. apply Hbs. apply Nat.eqb_eq in Hvalid.
  rewrite length_app in Hvalid. destruct bs; [reflexivity|].
  simpl in Hvalid. lia.
Qed.

(** X15. Broken references. [validateDocument] reports no
    BROKEN_REFERENCE exactly when every reference of the document (of a
    schema or of a route, at any depth of inline nesting) targets a key of
    the schema map. *)
Theorem broken_reference_reported_iff_dangling (doc : ApiDocument) :
  exists r,
    validateDocument doc = Some r /\
    (filter (has_code "BROKEN_REFERENCE") (result_errors r) = [] <->
     forall t, In t (documentRefs doc) -> In t (JsMap.keys (schemas doc))).
Proof.
  destruct (broken_reported doc) as (r & Hv & Hiff & _).
  exists r. split; [exact Hv|]. now rewrite Hiff, referencesOk_spec.
Qed.

Lemma in_delete {V} (k k' : string) (v : V) (m : JsMap.t V) :
  k <> k' -> In (k, v) m -> In (k, v) (JsMap.delete k' m).
Proof.
  intros Hne. induction m as [|[k0 v0] m IH]; simpl; [tauto|].
  intros [E|Hin].
  - injection E as -> ->. destruct (String.eqb_spec k' k); [congruence|now left].
  - destruct (String.eqb k' k0); [auto|right; auto].
Qed.

Lemma deleteSchema_document (now : Z) (id : NodeId) (st : EditorState) :
  document (deleteSchema now id st)
  = withSchemas (document st) (JsMap.delete id (schemas (document st))).
Proof.
  unfold deleteSchema. cbv zeta. rewrite !cloneDocument_eq. reflexivity.
Qed.

(** X16. Deleting a schema that is in use. [deleteSchema] removes the
    schema and leaves every reference to it in place: when another schema
    or a route refers to the schema deleted, the document that results is
    not valid, and [validateDocument] reports BROKEN_REFERENCE for it. *)
Theorem deleting_a_referenced_schema_breaks_the_document
        (now : Z) (id : NodeId) (st : EditorState) :
  referencedElsewhere (document st) id ->
  exists r,
    validateDocument (document (deleteSchema now id st)) = Some r /\
    valid r = false /\
    filter (has_code "BROKEN_REFERENCE") (result_errors r) <> [].
Proof.
  intros Href.
  destruct (broken_reported (document (deleteSchema now id st)))
    as (r & Hv & Hiff & Hvalid).
  assert (Hbad : referencesOk (document (deleteSchema now id st)) <> true).
  { rewrite referencesOk_spec, deleteSchema_document. intros Hall.
    assert (Hin : In id (documentRefs
                           (withSchemas (document st)
                              (JsMap.delete id (schemas (document st)))))).
    { unfold documentRefs. cbn [withSchemas schemas routes]. apply in_app_iff.
      destruct Href as [(k & s & Hne & Hks & Hid)|(k & route & Hkr & Hid)].
      - left. apply in_flat_map. exists s. split; [|exact Hid].
        unfold JsMap.values. change s with (snd (k, s)). apply in_map.
        now apply in_delete.
      - right. apply in_flat_map. exists route. split; [|exact Hid].
        unfold JsMap.values. change route with (snd (k, route)).
        now apply in_map. }
    specialize (Hall id Hin). cbn [withSchemas schemas] in Hall.
    apply includes_in in Hall. rewrite <- has_includes in Hall.
    unfold JsMap.has in Hall. rewrite get_delete, String.eqb_refl in Hall.
    discriminate. }
  exists r. split; [exact Hv|]. split.
  - destruct (valid r); [|reflexivity]. now destruct Hbad; apply Hvalid.
  - intros Hnone. apply Hbad. now apply Hiff.
Qed.

Lemma deleting_a_referenced_schema_breaks_the_document_witness :
  let st := initializeDocument RoundTripExamples.petStore (initialState "doc-0") in
  referencedElsewhere (document st) "s-kind" /\
  exists r,
    validateDocument (document (deleteSchema 7 "s-kind" st)) = Some r /\
    valid r = false /\
    filter (has_code "BROKEN_REFERENCE") (result_errors r) <> [].
Proof.
  intros st.
  assert (Href : referencedElsewhere (document st) "s-kind").
  { left. exists "s-pet", RoundTripExamples.petSchema.
    split; [discriminate|]. split; [now left|]. simpl. now left. }
  split; [exact Href|].
  exact (deleting_a_referenced_schema_breaks_the_document 7 "s-kind" st Href).
Defined.

End BrokenReferences.

(** ** The importer ends *)

Section ImporterEnds.
Import Js Parser ImportSpec.

Lemma ends_ret {A} (a : A) (P : A -> Prop) : P a -> ends (ret a) P.
Proof. intros H st. exact H. Qed.

Lemma ends_throw {A} (err : string) (P : A -> Prop) : ends (throw err) P.
Proof. intros st. exact I. Qed.

Lemma ends_untyped {A} (what : string) (P : A -> Prop) : ends (untyped what) P.
Proof. intros st. exact I. Qed.

Lemma ends_weaken {A} (m : M A) (P Q : A -> Prop) :
  ends m P -> (forall a, P a -> Q a) -> ends m Q.
Proof.
  intros H HPQ st. specialize (H st).
  destruct (m st) as [[a st']| | |]; auto.
Qed.

Lemma ends_bind_keep {A B} (P : A -> Prop) (m : M A) (k : A -> M B)
      (Q : B -> Prop) :
  ends m P -> (forall a, P a -> ends (k a) Q) -> ends (bind m k) Q.
Proof.
  intros Hm Hk st. unfold bind. specialize (Hm st).
  destruct (m st) as [[a st']| | |]; try exact I; [|contradiction].
  exact (Hk a Hm st').
Qed.

Lemma ends_bind_skip {A B} (m : M A) (k : A -> M B) (Q : B -> Prop) :
  ends m (fun _ => True) -> (forall a, ends (k a) Q) -> ends (bind m k) Q.
Proof.
  intros Hm Hk. apply (ends_bind_keep (fun _ => True)); [exact Hm|].
  intros a _. apply Hk.
Qed.

Lemma ends_mapM {A B} (f : A -> M B) (xs : list A) :
  (forall x, In x xs -> ends (f x) (fun _ => True)) ->
  ends (mapM f xs) (fun _ => True).
Proof.
  induction xs as [|x xs IH]; intros Hf; simpl.
  - now apply ends_ret.
  - apply ends_bind_skip; [apply Hf; now left|]. intros y.
    apply ends_bind_skip; [apply IH; intros z Hz; apply Hf; now right|].
    intros ys. now apply ends_ret.
Qed.

Lemma ends_foldM {A B} (f : B -> A -> M B) (xs : list A) :
  (forall acc x, In x xs -> ends (f acc x) (fun _ => True)) ->
  forall acc, ends (foldM f xs acc) (fun _ => True).
Proof.
  induction xs as [|x xs IH]; intros Hf acc; simpl.
  - now apply ends_ret.
  - apply ends_bind_skip; [apply Hf; now left|]. intros acc'.
    apply IH. intros a z Hz. apply Hf. now right.
Qed.

Lemma ends_pushError (e : ValidationError) : ends (pushError e) (fun _ => True).
Proof. intros st. exact I. Qed.

Lemma ends_getName (name : string) : ends (getName name) (fun _ => True).
Proof. intros st. exact I. Qed.

Lemma ends_setName (name : string) (id : NodeId) :
  ends (setName name id) (fun _ => True).
Proof. intros st. exact I. Qed.

Variable uuid : nat -> NodeId.

Lemma ends_generateId : ends (generateId uuid) (fun _ => True).
Proof. intros st. exact I. Qed.

(** Through a step that calls no parser of schemas. *)
Ltac ending :=
  lazymatch goal with
  | |- ends (bind _ _) _ => apply ends_bind_skip; [ending|intros ?; ending]
  | |- ends (ret _) _ => apply ends_ret; exact I
  | |- ends (throw _) _ => apply ends_throw
  | |- ends (untyped _) _ => apply ends_untyped
  | |- ends (pushError _) _ => apply ends_pushError
  | |- ends (generateId _) _ => apply ends_generateId
  | |- ends (getName _) _ => apply ends_getName
  | |- ends (setName _ _) _ => apply ends_setName
  | |- ends (mapM _ _) _ => apply ends_mapM; intros ? _; ending
  | |- ends (foldM _ _ _) _ => apply ends_foldM; intros ? ? _; ending
  | |- ends (match ?x with _ => _ end) _ => destruct x; ending
  | |- ends (when _ _) _ => unfold when; ending
  | |- ends (prop _ _) _ => unfold prop; ending
  | |- ends (opt_prop _ _) _ => unfold opt_prop; ending
  | |- ends (as_string _ _) _ => unfold as_string; ending
  | |- ends (as_opt_string _ _) _ => unfold as_opt_string; ending
  | |- ends (as_string_array _ _) _ => unfold as_string_array; ending
  | |- ends (as_number _ _) _ => unfold as_number; ending
  | |- ends (string_or _ _ _) _ => unfold string_or; ending
  | |- ends (string_if_truthy _ _) _ => unfold string_if_truthy; ending
  | |- ends (number_if_defined _ _) _ => unfold number_if_defined; ending
  | |- ends (string_array_or_empty _ _) _ => unfold string_array_or_empty; ending
  | |- ends (parseInfo _) _ => unfold parseInfo; ending
  | |- ends (parseSecurityScheme _ _ _) _ => unfold parseSecurityScheme; ending
  | |- _ => idtac
  end.

(** *** Where the decoded value gets shallower *)

Lemma field_depth (k : string) (v x : JValue) :
  field k v = Some x -> depth x < depth v.
Proof.
  destruct v as [| | | | |es]; try discriminate. apply depth_get.
Qed.

Lemma indexed_depth (xs : list JValue) (d : nat) :
  (forall x, In x xs -> depth x <= d) ->
  forall i k x, In (k, x) (indexed i xs) -> depth x <= d.
Proof.
  induction xs as [|y xs IH]; intros H i k x; simpl; [tauto|].
  intros [E|Hin].
  - injection E as _ <-. apply H. now left.
  - apply (IH (fun z Hz => H z (or_intror Hz)) _ _ _ Hin).
Qed.

Lemma entries_depth (v : JValue) (k : string) (x : JValue) :
  In (k, x) (object_entries v) -> depth x <= depth v.
Proof.
  destruct v as [| | |s|xs|es]; cbn [object_entries];
    try (intros Hin; now destruct Hin).
  - apply indexed_depth. intros y Hy. unfold chars in Hy.
    apply in_map_iff in Hy. destruct Hy as (c & <- & _). simpl. lia.
  - apply indexed_depth. intros y Hy. apply depth_in_arr in Hy. lia.
  - intros Hin. apply depth_in_obj in Hin. lia.
Qed.

Lemma ends_prop (k : string) (v : JValue) :
  ends (prop k v) (fun r => forall x, r = Some x -> depth x < depth v).
Proof.
  unfold prop. destruct v; try apply ends_throw; apply ends_ret;
    intros x Hx; now apply (field_depth k).
Qed.

Lemma ends_parseSchemaOrRef_with
      (parseSchema : JValue -> option string -> NodeId -> M SchemaNode)
      (data : JValue) :
  (forall nm id, ends (parseSchema data nm id) (fun _ => True)) ->
  ends (parseSchemaOrRef_with uuid parseSchema data) (fun _ => True).
Proof.
  intros Hs. unfold parseSchemaOrRef_with.
  apply ends_bind_skip; [ending|intros refV].
  apply ends_bind_skip;
    [destruct refV as [[| | |refPath| |]|]; try (now apply ends_ret);
     destruct (nonempty refPath); [|now apply ends_ret];
     destruct (matchSchemaRef refPath); [|now apply ends_ret]; ending|].
  intros [t|]; [now apply ends_ret|].
  apply ends_bind_skip; [ending|intros inlineId].
  apply ends_bind_skip; [apply Hs|intros s]. now apply ends_ret.
Qed.

Lemma ends_parseSchema_body (parseSchemaOrRef : JValue -> M SchemaOrRef)
      (data : JValue) (name : option string) (id : NodeId) :
  (forall d, depth d < depth data -> ends (parseSchemaOrRef d) (fun _ => True)) ->
  ends (parseSchema_body parseSchemaOrRef data name id) (fun _ => True).
Proof.
  intros He. unfold parseSchema_body.
  apply (ends_bind_keep _ _ _ _ (ends_prop "oneOf" data)). intros oneOfV HoneOf.
  apply (ends_bind_keep _ _ _ _ (ends_prop "anyOf" data)). intros anyOfV HanyOf.
  apply (ends_bind_keep _ _ _ _ (ends_prop "allOf" data)). intros allOfV HallOf.
  do 2 (apply ends_bind_skip; [ending|intros ?]).
  cbv zeta.
  match goal with
  | |- context [SchemaType_eqb ?t TObject] => generalize t; intros type
  end.
  do 2 (apply ends_bind_skip; [ending|intros ?]).
  apply (ends_bind_keep _ _ _ _ (ends_prop "properties" data)).
  intros propertiesV Hproperties.
  apply ends_bind_skip.
  { destruct (SchemaType_eqb type TObject && truthy_opt propertiesV);
      [|now apply ends_ret].
    do 2 (apply ends_bind_skip; [ending|intros ?]).
    apply ends_bind_skip; [|intros ?; now apply ends_ret].
    apply ends_foldM. intros acc [propName propData] Hin.
    destruct propertiesV as [props|]; [|destruct Hin].
    apply ends_bind_skip; [|intros ?; ending].
    apply He. apply entries_depth in Hin.
    specialize (Hproperties props eq_refl). lia. }
  intros objectPart.
  apply (ends_bind_keep _ _ _ _ (ends_prop "items" data)). intros itemsV Hitems.
  apply ends_bind_skip.
  { destruct itemsV as [itemsData|]; [|now apply ends_ret].
    destruct (SchemaType_eqb type TArray && truthy itemsData);
      [|now apply ends_ret].
    apply ends_bind_skip; [|intros ?; now apply ends_ret].
    apply He. now apply Hitems. }
  intros items.
  apply ends_bind_skip; [ending|intros enumValues].
  apply ends_bind_skip.
  { assert (Hvariants : forall variantsV : option JValue,
               (forall x, variantsV = Some x -> depth x < depth data) ->
               ends
                 (variants <-
                    match variantsV with
                    | Some (JArr vs) => es <- mapM parseSchemaOrRef vs ;; ret (Some es)
                    | _ => ret None
                    end ;;
                  discV <- prop "discriminator" data ;;
                  discriminator <-
                    (if SchemaType_eqb type TOneOf && truthy_opt discV then
                       pnV <- opt_prop "propertyName" discV ;;
                       pn <- as_string "discriminator.propertyName" pnV ;;
                       ret (Some (mkDiscriminator pn None))
                     else ret None) ;;
                  ret (variants, discriminator))
                 (fun _ => True)).
    { intros variantsV Hv.
      apply ends_bind_skip; [|intros ?; ending].
      destruct variantsV as [[| | | |vs|]|]; try (now apply ends_ret).
      apply ends_bind_skip; [|intros ?; now apply ends_ret].
      apply ends_mapM. intros v Hin. apply He.
      apply depth_in_arr in Hin. specialize (Hv _ eq_refl). lia. }
    destruct type; try (now apply ends_ret); now apply Hvariants. }
  intros compositionPart. ending.
Qed.

Lemma ends_parseSchema (fuel : nat) : forall data name id,
  depth data < fuel ->
  ends (parseSchema uuid fuel data name id) (fun _ => True).
Proof.
  induction fuel as [|fuel IH]; intros data name id Hd; [lia|]. simpl.
  apply ends_parseSchema_body. intros d Hlt.
  apply ends_parseSchemaOrRef_with. intros nm id'. apply IH. lia.
Qed.

Variable fuel : nat.

Lemma ends_parseSchemaOrRef (data : JValue) :
  depth data < fuel -> ends (parseSchemaOrRef uuid fuel data) (fun _ => True).
Proof.
  intros Hd. apply ends_parseSchemaOrRef_with. intros nm id.
  now apply ends_parseSchema.
Qed.

Lemma ends_schemaOrDefault (schemaV : option JValue) (type : SchemaType) :
  (forall s, schemaV = Some s -> depth s < fuel) ->
  ends (schemaOrDefault uuid fuel schemaV type) (fun _ => True).
Proof.
  intros Hd. unfold schemaOrDefault.
  destruct schemaV as [s|]; [destruct (truthy s)|]; try ending.
  apply ends_parseSchemaOrRef. now apply Hd.
Qed.

Lemma ends_parseParameter (data : JValue) :
  depth data < fuel -> ends (parseParameter uuid fuel data) (fun _ => True).
Proof.
  intros Hd. unfold parseParameter.
  do 7 (apply ends_bind_skip; [ending|intros ?]).
  apply (ends_bind_keep _ _ _ _ (ends_prop "schema" data)). intros schemaV Hs.
  apply ends_bind_skip; [|intros ?; ending].
  apply ends_schemaOrDefault. intros s ->. specialize (Hs s eq_refl). lia.
Qed.

Lemma ends_parseContent (contentV : JValue) :
  depth contentV < fuel -> ends (parseContent uuid fuel contentV) (fun _ => True).
Proof.
  intros Hd. unfold parseContent. apply ends_foldM.
  intros acc [contentType media] Hin. apply entries_depth in Hin.
  apply (ends_bind_keep _ _ _ _ (ends_prop "schema" media)). intros schemaV Hs.
  apply ends_bind_skip; [|intros ?; ending].
  apply ends_schemaOrDefault. intros s ->. specialize (Hs s eq_refl). lia.
Qed.

Lemma ends_parseRequestBody (data : JValue) :
  depth data < fuel -> ends (parseRequestBody uuid fuel data) (fun _ => True).
Proof.
  intros Hd. unfold parseRequestBody.
  apply (ends_bind_keep _ _ _ _ (ends_prop "content" data)). intros contentV Hc.
  apply ends_bind_skip; [|intros ?; ending].
  destruct contentV as [c|]; [destruct (truthy c && is_object c)|];
    try (now apply ends_ret).
  apply ends_parseContent. specialize (Hc c eq_refl). lia.
Qed.

Lemma ends_parseResponse (data : JValue) :
  depth data < fuel -> ends (parseResponse uuid fuel data) (fun _ => True).
Proof.
  intros Hd. unfold parseResponse.
  do 3 (apply ends_bind_skip; [ending|intros ?]).
  apply (ends_bind_keep _ _ _ _ (ends_prop "content" data)). intros contentV Hc.
  apply ends_bind_skip; [|intros ?; ending].
  destruct contentV as [c|]; [destruct (truthy c && is_object c)|];
    try (now apply ends_ret).
  apply ends_bind_skip; [|intros ?; now apply ends_ret].
  apply ends_parseContent. specialize (Hc c eq_refl). lia.
Qed.

Lemma ends_parseOperation (path method : string) (data : JValue)
      (doc : ApiDocument) :
  depth data < fuel ->
  ends (parseOperation uuid fuel path method data doc) (fun _ => True).
Proof.
  intros Hd. unfold parseOperation.
  do 10 (apply ends_bind_skip; [ending|intros ?]).
  cbv zeta.
  apply (ends_bind_keep _ _ _ _ (ends_prop "parameters" data)).
  intros parametersV Hp.
  apply ends_bind_skip.
  { destruct parametersV as [[| | | |ps|]|]; try (now apply ends_ret).
    apply ends_mapM. intros p Hin. apply ends_parseParameter.
    apply depth_in_arr in Hin. specialize (Hp _ eq_refl). lia. }
  intros parameters.
  apply (ends_bind_keep _ _ _ _ (ends_prop "requestBody" data)).
  intros requestBodyV Hb.
  apply ends_bind_skip.
  { destruct requestBodyV as [b|]; [destruct (truthy b)|];
      try (now apply ends_ret).
    apply ends_bind_skip; [|intros ?; now apply ends_ret].
    apply ends_parseRequestBody. specialize (Hb b eq_refl). lia. }
  intros requestBody.
  apply (ends_bind_keep _ _ _ _ (ends_prop "responses" data)).
  intros responsesV Hr.
  apply ends_bind_skip.
  { destruct responsesV as [rs|]; [destruct (truthy rs && is_object rs)|];
      try (now apply ends_ret).
    apply ends_foldM. intros acc [statusCode responseData] Hin.
    apply entries_depth in Hin.
    apply ends_bind_skip; [|intros ?; now apply ends_ret].
    apply ends_parseResponse. specialize (Hr rs eq_refl). lia. }
  intros responses. ending.
Qed.

Lemma ends_opt_prop (k : string) (v : option JValue) (d : nat) :
  (forall p, v = Some p -> depth p < d) ->
  ends (opt_prop k v) (fun r => forall x, r = Some x -> depth x < d).
Proof.
  intros Hv. unfold opt_prop.
  destruct v as [p|]; [|apply ends_ret; discriminate].
  specialize (Hv p eq_refl).
  destruct p; apply ends_ret; try discriminate;
    intros x Hx; apply field_depth in Hx; simpl in *; lia.
Qed.

Lemma ends_parseDocument (parsed : JValue) :
  depth parsed < fuel -> ends (parseDocument uuid fuel parsed) (fun _ => True).
Proof.
  intros Hd. unfold parseDocument.
  do 3 (apply ends_bind_skip; [ending|intros ?]).
  cbv zeta.
  do 6 (apply ends_bind_skip; [ending|intros ?]).
  apply (ends_bind_keep _ _ _ _ (ends_prop "components" parsed)).
  intros componentsV Hc.
  apply (ends_bind_keep _ _ _ _ (ends_opt_prop "schemas" componentsV _ Hc)).
  intros schemasV Hs.
  apply ends_bind_skip; [ending|intros _].
  apply ends_bind_skip.
  { destruct schemasV as [ss|]; [destruct (truthy ss)|];
      try (now apply ends_ret).
    apply ends_foldM. intros acc [name schemaData] Hin.
    apply entries_depth in Hin.
    apply ends_bind_skip; [ending|intros [id|]]; [|apply ends_untyped].
    apply ends_bind_skip; [|intros ?; now apply ends_ret].
    apply ends_parseSchema. specialize (Hs ss eq_refl). lia. }
  intros parsedSchemas.
  do 2 (apply ends_bind_skip; [ending|intros ?]).
  apply (ends_bind_keep _ _ _ _ (ends_prop "paths" parsed)). intros pathsV Hp.
  apply ends_bind_skip; [|intros ?; now apply ends_ret].
  destruct pathsV as [ps|]; [destruct (truthy ps)|]; try (now apply ends_ret).
  apply ends_foldM. intros acc [path pathItem] Hin. apply entries_depth in Hin.
  destruct (negb (truthy pathItem) || negb (is_object pathItem));
    [now apply ends_ret|].
  apply ends_foldM. intros acc' [method operationData] Hin'.
  apply entries_depth in Hin'.
  destruct (negb (isHttpMethod method)); [now apply ends_ret|].
  destruct (negb (truthy operationData) || negb (is_object operationData));
    [now apply ends_ret|].
  apply ends_bind_skip; [|intros ?; now apply ends_ret].
  apply ends_parseOperation. specialize (Hp ps eq_refl). lia.
Qed.

End ImporterEnds.

Section ImportedDocuments.
Import Parser.
Import ImportSpec Validation ValidationSpec.

(** The recursion bound [parseYaml] is modelled with is enough for every
    decoded value. *)
Lemma parseYaml_ends (uuid : nat -> NodeId) (decoded : YamlResult) :
  parseYaml uuid decoded <> OutOfFuel.
Proof.
  unfold parseYaml. destruct decoded as [message|parsed]; [discriminate|].
  destruct (negb (Js.truthy parsed) || negb (Js.is_object parsed));
    [discriminate|].
  pose proof (ends_parseDocument uuid (S (depth parsed)) parsed
                (Nat.lt_succ_diag_r _) (mkPState [] 0 JsMap.empty)) as H.
  destruct (parseDocument uuid (S (depth parsed)) parsed
                          (mkPState [] 0 JsMap.empty))
    as [[d st']| | |]; try discriminate. destruct H.
Qed.

(** X17. Import, then validation. On every decoded YAML value the
    importer ends: it returns, throws, or stops at a cast that does not
    hold; the recursion of [parseSchema] and [parseSchemaOrRef] is bounded
    by the nesting of the value. When [parseYaml] returns a document,
    every reference in it (of a schema or of a route, at any depth) targets
    a key of its schema map: a [$ref] becomes a reference only when its
    name is among the component schemas, and each of those is stored under
    its identifier. So [validateDocument] reports no BROKEN_REFERENCE for a
    document just imported. *)
Theorem imported_document_has_no_broken_reference
        (uuid : nat -> NodeId) (decoded : YamlResult) :
  parseYaml uuid decoded <> OutOfFuel /\
  forall (doc : ApiDocument) (diagnostics : list ValidationError),
    parseYaml uuid decoded = Ret (mkParseResult (Some doc) diagnostics) ->
    referencesOk doc = true /\
    exists r,
      validateDocument doc = Some r /\
      filter (has_code "BROKEN_REFERENCE") (result_errors r) = [].
Proof.
  split; [apply parseYaml_ends|]. intros doc diagnostics H.
  assert (Hok : referencesOk doc = true).
  { unfold parseYaml in H. destruct decoded as [message|parsed]; [discriminate|].
    destruct (negb (Js.truthy parsed) || negb (Js.is_object parsed));
      [discriminate|].
    destruct (parseDocument uuid (S (depth parsed)) parsed
                            (mkPState [] 0 JsMap.empty))
      as [[d st']| | |] eqn:E; try discriminate.
    injection H as -> _.
    exact (parseDocument_references uuid _ parsed (mkPState [] 0 JsMap.empty)
                                    st' doc eq_refl E). }
  split; [exact Hok|].
  destruct (validateDocument_returns doc)
    as (es & ws & bs & found & Heq & Hc & He & _ & _ & _ & _ & _ & Hv).
  rewrite (checkReferences_silent doc _ Hok), Heq in Hc.
  injection Hc as Hes.
  eexists. split; [exact Hv|]. cbn [result_errors]. rewrite <- Hes.
  exact (filter_foreign_code earlyErrorCodes "BROKEN_REFERENCE" es eq_refl He).
Qed.

Lemma imported_document_has_no_broken_reference_witness :
  exists doc diagnostics,
    parseYaml Js.nat_to_string (YamlValue petsDecoded)
    = Ret (mkParseResult (Some doc) diagnostics) /\
    referencesOk doc = true /\
    exists r,
      validateDocument doc = Some r /\
      filter (has_code "BROKEN_REFERENCE") (result_errors r) = [].
Proof.
  eexists. eexists. split; [vm_compute; reflexivity|].
  eapply (proj2 (imported_document_has_no_broken_reference
                   Js.nat_to_string (YamlValue petsDecoded))).
  vm_compute. reflexivity.
Defined.

End ImportedDocuments.

(* ================================================================== *)
(** * The exporter on references to schemas without a name *)

Section AnonymousLoops.
Import Exporter ExportSpec.

Lemma map_opt_none {A B} (f : A -> option B) (xs : list A) (x : A) :
  In x xs -> f x = None -> map_opt f xs = None.
Proof.
  induction xs as [|y xs IH]; simpl; [tauto|].
  intros [->|Hin] Hx; [now rewrite Hx|].
  rewrite (IH Hin Hx). now destruct (f y).
Qed.

(** The loop over the properties does not come back once the writing of
    one edge does not. *)
Lemma properties_none (edge : SchemaOrRef -> option JRecord)
      (ps : list (string * PropertyDef)) (entry : string * PropertyDef) :
  In entry ps -> edge (pd_schema (snd entry)) = None ->
  forall acc,
    fold_left
      (fun (acc : option JRecord) (entry : string * PropertyDef) =>
         match acc, edge (pd_schema (snd entry)) with
         | Some props, Some propSchema =>
             Some (obj_set (fst entry)
                     (JObj (set_if_truthy "description"
                              (pd_description (snd entry)) propSchema))
                     props)
         | _, _ => None
         end)
      ps acc = None.
Proof.
  assert (Hnone : forall l : list (string * PropertyDef),
             fold_left
               (fun (acc : option JRecord) (entry : string * PropertyDef) =>
                  match acc, edge (pd_schema (snd entry)) with
                  | Some props, Some propSchema =>
                      Some (obj_set (fst entry)
                              (JObj (set_if_truthy "description"
                                       (pd_description (snd entry)) propSchema))
                              props)
                  | _, _ => None
                  end)
               l None = None)
    by (induction l as [|x l IH]; simpl; [reflexivity|exact IH]).
  induction ps as [|p ps IH]; simpl; [tauto|].
  intros [->|Hin] He acc.
  - rewrite He. destruct acc; apply Hnone.
  - apply IH; assumption.
Qed.

(** When the writing of an edge of a schema does not come back, the
    writing of the schema does not. *)
Lemma writes_none (fuel : nat) (doc : ApiDocument) (s : SchemaNode)
      (e : SchemaOrRef) :
  writes s e -> serializeSchemaOrRef fuel doc e = None ->
  serializeSchema fuel doc s = None.
Proof.
  induction 1 as [s vs e Hc Hv Hin|s e Ht Hi|s ps entry Ht Hp Hin
                 |s s' e _ IH1 _ IH2]; intros He.
  - rewrite serializeSchema_unfold. unfold serializeSchema_body.
    rewrite Hc, Hv. destruct vs as [|v vs]; [destruct Hin|].
    match goal with
    | |- context [map_opt ?f ?l] =>
        assert (Hm : map_opt f l = None) by exact (map_opt_none _ _ e Hin He);
        rewrite Hm
    end.
    reflexivity.
  - rewrite serializeSchema_unfold. unfold serializeSchema_body.
    rewrite Ht, Hi, He. reflexivity.
  - rewrite serializeSchema_unfold. unfold serializeSchema_body.
    rewrite Ht, Hp. cbn [is_composition].
    destruct ps as [|p ps]; [destruct Hin|].
    match goal with
    | |- context [fold_left ?f ?l ?a] =>
        assert (Hm : fold_left f l a = None)
          by exact (properties_none _ _ entry Hin He (Some []));
        rewrite Hm
    end.
    reflexivity.
  - apply IH1. unfold serializeSchemaOrRef, serializeEdge. now apply IH2.
Qed.

Lemma anonymous_loop_step (doc : ApiDocument) (ids : list NodeId) :
  anonymousLoop doc ids ->
  forall fuel id, In id ids -> serializeSchemaOrRef fuel doc (SRef id) = None.
Proof.
  intros Hloop. induction fuel as [|fuel IH]; intros id Hin;
    destruct (Hloop id Hin) as (s & id' & [Hget Hanon] & Hin' & Hw);
    unfold serializeSchemaOrRef, serializeEdge; rewrite Hget;
    unfold truthy_str in Hanon.
  - destruct (s_name s) as [name|]; [|reflexivity]. now rewrite Hanon.
  - assert (Hs : serializeSchema fuel doc s = None)
      by (apply (writes_none fuel doc s (SRef id') Hw); now apply IH).
    destruct (s_name s) as [name|]; [|exact Hs]. now rewrite Hanon.
Qed.

(** The loop of [serializeDocument] over the schemas does not come back
    once the writing of a schema with a name does not. *)
Lemma named_schemas_none (fuel : nat) (doc : ApiDocument)
      (l : list (NodeId * SchemaNode)) (entry : NodeId * SchemaNode) :
  In entry l -> truthy_str (s_name (snd entry)) = true ->
  serializeSchema fuel doc (snd entry) = None ->
  forall acc,
    fold_left
      (fun (acc : option JRecord) (entry : NodeId * SchemaNode) =>
         match acc with
         | None => None
         | Some schemas_ =>
             match s_name (snd entry) with
             | Some name =>
                 if nonempty name then
                   option_map (fun s => obj_set name (JObj s) schemas_)
                              (serializeSchema fuel doc (snd entry))
                 else Some schemas_
             | None => Some schemas_
             end
         end)
      l acc = None.
Proof.
  assert (Hnone : forall l' : list (NodeId * SchemaNode),
             fold_left
               (fun (acc : option JRecord) (entry : NodeId * SchemaNode) =>
                  match acc with
                  | None => None
                  | Some schemas_ =>
                      match s_name (snd entry) with
                      | Some name =>
                          if nonempty name then
                            option_map (fun s => obj_set name (JObj s) schemas_)
                                       (serializeSchema fuel doc (snd entry))
                          else Some schemas_
                      | None => Some schemas_
                      end
                  end)
               l' None = None)
    by (induction l' as [|x l' IH]; simpl; [reflexivity|exact IH]).
  induction l as [|x l IH]; simpl; [tauto|].
  intros [->|Hin] Hname Hs acc.
  - destruct acc as [schemas_|]; [|apply Hnone].
    unfold truthy_str in Hname. destruct (s_name (snd entry)) as [name|];
      [|discriminate].
    rewrite Hname, Hs. apply Hnone.
  - now apply IH.
Qed.

Lemma serializeDocument_none (fuel : nat) (doc : ApiDocument)
      (entry : NodeId * SchemaNode) :
  In entry (schemas doc) -> truthy_str (s_name (snd entry)) = true ->
  serializeSchema fuel doc (snd entry) = None ->
  serializeDocument fuel doc = None.
Proof.
  intros Hin Hname Hs. unfold serializeDocument. cbv zeta.
  match goal with
  | |- match fold_left ?f ?l ?a with _ => _ end = None =>
      assert (Hm : fold_left f l a = None)
        by exact (named_schemas_none fuel doc _ entry Hin Hname Hs (Some []));
      rewrite Hm
  end.
  reflexivity.
Qed.

(** X18. References among schemas without a name. A reference to a schema
    without a name is written by inlining the target. When schemas without
    a name refer to one another in a circle (each through its items, a
    variant or a property, possibly inside inline schemas), the exporter
    does not come back from a reference to any of them: whatever the
    recursion bound, it is reached. So [serializeDocument] does not come
    back for a document in which a schema with a name has a reference into
    such a circle. *)
Theorem anonymous_loop_never_exports
        (doc : ApiDocument) (ids : list NodeId) (id : NodeId)
        (k : NodeId) (named : SchemaNode) :
  anonymousLoop doc ids -> In id ids ->
  In (k, named) (schemas doc) -> truthy_str (s_name named) = true ->
  writes named (SRef id) ->
  forall fuel,
    serializeSchemaOrRef fuel doc (SRef id) = None /\
    serializeDocument fuel doc = None.
Proof.
  intros Hloop Hin Hk Hname Hw fuel.
  pose proof (anonymous_loop_step doc ids Hloop fuel id Hin) as Hid.
  split; [exact Hid|].
  apply (serializeDocument_none fuel doc (k, named) Hk Hname).
  exact (writes_none fuel doc named (SRef id) Hw Hid).
Qed.

Lemma anonymous_loop_never_exports_witness :
  anonymousLoop nestedListDoc ["s-nested"] /\
  forall fuel,
    serializeSchemaOrRef fuel nestedListDoc (SRef "s-nested") = None /\
    serializeDocument fuel nestedListDoc = None.
Proof.
  assert (Hloop : anonymousLoop nestedListDoc ["s-nested"]).
  { intros id [<-|[]]. exists nestedList, "s-nested".
    split; [split; reflexivity|]. split; [now left|].
    apply (@writes_nested nestedList childrenList).
    - apply (@writes_property nestedList [("children", childrenProperty)]
                              ("children", childrenProperty));
        [reflexivity|reflexivity|now left].
    - apply writes_items; reflexivity. }
  split; [exact Hloop|].
  apply (anonymous_loop_never_exports nestedListDoc ["s-nested"] "s-nested"
           "s-forest" forest Hloop);
    [now left|now left|reflexivity|apply writes_items; reflexivity].
Defined.

End AnonymousLoops.

(** ** The exporter returns when no reference is to a schema without a name *)

Section ExportReturns.
Import Exporter ExportSpec ValidationSpec RoundTripAux.

(** Writers that take the recursion bound [k] and return the same value
    whatever the bound, over a list. *)
Lemma map_opt_some {K A B} (f : K -> A -> option B) (xs : list A) :
  (forall x, In x xs -> exists y, forall k, f k x = Some y) ->
  exists ys, forall k, map_opt (f k) xs = Some ys.
Proof.
  induction xs as [|x xs IH]; intros H; [now exists []|].
  destruct (H x (or_introl eq_refl)) as (y & Hy).
  destruct (IH (fun z Hz => H z (or_intror Hz))) as (ys & Hys).
  exists (y :: ys). intros k. simpl. now rewrite Hy, Hys.
Qed.

Lemma fold_option_some {K A X} (f : K -> option A -> X -> option A) (xs : list X) :
  (forall x a, In x xs -> exists b, forall k, f k (Some a) x = Some b) ->
  forall a, exists r, forall k, fold_left (f k) xs (Some a) = Some r.
Proof.
  induction xs as [|x xs IH]; intros H a; [now exists a|].
  destruct (H x a (or_introl eq_refl)) as (b & Hb).
  destruct (IH (fun z c Hz => H z c (or_intror Hz)) b) as (r & Hr).
  exists r. intros k. simpl. now rewrite Hb, Hr.
Qed.

Variable doc : ApiDocument.

Lemma reference_returns (t : NodeId) :
  namedTarget doc t ->
  exists r, forall inlined nested,
      serializeEdge doc inlined nested (SRef t) = Some r.
Proof.
  intros Ht. unfold serializeEdge.
  destruct (JsMap.get t (schemas doc)) as [target|] eqn:Eg; [|now eexists].
  specialize (Ht target Eg). unfold truthy_str in Ht.
  destruct (s_name target) as [name|]; [|discriminate].
  rewrite Ht. now eexists.
Qed.

Lemma schema_returns (n : nat) : forall s,
  sdepth s <= n ->
  Forall (namedTarget doc) (schemaRefs s) ->
  exists r, forall fuel, serializeSchema fuel doc s = Some r.
Proof.
  induction n as [|n IH]; intros s Hd; [destruct s; simpl in Hd; lia|].
  intros Hrefs.
  assert (Hedge : forall e, edepth e < sdepth s ->
                            Forall (namedTarget doc) (edgeRefs e) ->
                            exists r, forall fuel,
                                serializeSchemaOrRef fuel doc e = Some r).
  { intros [t|s'] He Hsafe.
    - inversion Hsafe as [|? ? Ht _]; subst.
      destruct (reference_returns t Ht) as (r & Hr).
      exists r. intros fuel. apply Hr.
    - destruct (IH s') as (r & Hr); [unfold edepth in He; lia|exact Hsafe|].
      exists r. intros fuel. apply Hr. }
  rewrite schemaRefs_unfold in Hrefs.
  apply Forall_app in Hrefs. destruct Hrefs as [Hp Hrefs].
  apply Forall_app in Hrefs. destruct Hrefs as [Hi Hv].
  assert (Hbody : exists r, forall fuel,
               serializeSchema_body (serializeSchemaOrRef fuel doc) s = Some r).
  { unfold serializeSchema_body.
    destruct (is_composition (s_type s)) eqn:Ec.
    - destruct (s_variants s) as [[|v vs]|] eqn:Ev; try (now eexists).
      destruct (map_opt_some (fun fuel => serializeSchemaOrRef fuel doc) (v :: vs))
        as (es & Hes).
      { intros e Hin. apply Hedge.
        - exact (variant_is_shallower s (v :: vs) e Ev Hin).
        - rewrite Forall_flat_map, Forall_forall in Hv. now apply Hv. }
      eexists. intros fuel.
      match goal with
      | |- context [map_opt ?f ?l] =>
          assert (Hm : map_opt f l = Some es) by exact (Hes fuel); rewrite Hm
      end.
      reflexivity.
    - destruct (s_type s) eqn:Et; try discriminate; try (now eexists).
      + (* object *)
        destruct (s_properties s) as [[|p ps]|] eqn:Ep; try (now eexists).
        destruct (fold_option_some
                    (fun fuel (acc : option JRecord)
                         (entry : string * PropertyDef) =>
                       match acc, serializeSchemaOrRef fuel doc
                                    (pd_schema (snd entry)) with
                       | Some props, Some propSchema =>
                           Some (obj_set (fst entry)
                                   (JObj (set_if_truthy "description"
                                            (pd_description (snd entry))
                                            propSchema))
                                   props)
                       | _, _ => None
                       end)
                    (p :: ps)) with (a := @nil (string * JValue))
          as (props & Hprops).
        { intros entry a Hin.
          destruct (Hedge (pd_schema (snd entry))) as (r & Hr).
          - exact (property_is_shallower s (p :: ps) entry Ep Hin).
          - rewrite Forall_flat_map, Forall_forall in Hp. now apply Hp.
          - eexists. intros fuel. now rewrite Hr. }
        eexists. intros fuel.
        match goal with
        | |- context [fold_left ?f ?l ?a] =>
            assert (Hm : fold_left f l a = Some props) by exact (Hprops fuel);
            rewrite Hm
        end.
        reflexivity.
      + (* array *)
        destruct (s_items s) as [items|] eqn:Ei; [|now eexists].
        destruct (Hedge items (items_are_shallower s items Ei) Hi) as (j & Hj).
        eexists. intros fuel. rewrite Hj. reflexivity. }
  destruct Hbody as (r & Hr). exists r. intros fuel.
  rewrite serializeSchema_unfold. apply Hr.
Qed.

Lemma edge_returns (e : SchemaOrRef) :
  Forall (namedTarget doc) (edgeRefs e) ->
  exists r, forall fuel, serializeSchemaOrRef fuel doc e = Some r.
Proof.
  destruct e as [t|s]; intros Hsafe.
  - inversion Hsafe as [|? ? Ht _]; subst.
    destruct (reference_returns t Ht) as (r & Hr).
    exists r. intros fuel. apply Hr.
  - destruct (schema_returns (sdepth s) s (le_n _) Hsafe) as (r & Hr).
    exists r. intros fuel. apply Hr.
Qed.

Lemma content_returns (content : JsMap.t MediaType) :
  Forall (namedTarget doc)
         (flat_map edgeRefs (map mt_schema (JsMap.values content))) ->
  exists r, forall fuel, serializeContent fuel doc content = Some r.
Proof.
  intros Hsafe. unfold serializeContent.
  apply (fold_option_some
           (fun fuel (acc : option JRecord) (entry : string * MediaType) =>
              match acc, serializeSchemaOrRef fuel doc (mt_schema (snd entry)) with
              | Some content, Some schema =>
                  Some (obj_set (fst entry)
                          (JObj (set_if_defined "example" (mt_example (snd entry))
                                                [("schema", JObj schema)]))
                          content)
              | _, _ => None
              end)).
  intros entry a Hin.
  destruct (edge_returns (mt_schema (snd entry))) as (r & Hr).
  - unfold JsMap.values in Hsafe.
    rewrite !flat_map_map, Forall_flat_map, Forall_forall in Hsafe.
    now apply Hsafe.
  - eexists. intros fuel. now rewrite Hr.
Qed.

Lemma response_returns (response : ResponseDef) :
  Forall (namedTarget doc)
         (flat_map edgeRefs
            match resp_content response with
            | Some content => map mt_schema (JsMap.values content)
            | None => []
            end) ->
  exists r, forall fuel, serializeResponse fuel doc response = Some r.
Proof.
  intros Hsafe. unfold serializeResponse.
  destruct (resp_content response) as [[|c cs]|]; try (now eexists).
  destruct (content_returns (c :: cs) Hsafe) as (r & Hr).
  eexists. intros fuel. now rewrite Hr.
Qed.

Lemma operation_returns (route : Route) :
  Forall (namedTarget doc) (routeRefs route) ->
  exists r, forall fuel, serializeOperation fuel doc route = Some r.
Proof.
  unfold routeRefs, UsageSpec.routeEdges.
  rewrite !flat_map_app, !Forall_app. intros (Hp & Hb & Hr).
  unfold serializeOperation. cbv zeta.
  destruct (map_opt_some (fun fuel => serializeParameter fuel doc)
                         (r_parameters route)) as (ps & Hps).
  { intros p Hin. unfold serializeParameter.
    rewrite flat_map_map, Forall_flat_map, Forall_forall in Hp.
    destruct (edge_returns (p_schema p) (Hp p Hin)) as (j & Hj).
    eexists. intros fuel. cbv zeta. now rewrite Hj. }
  assert (Hbody : forall body, r_requestBody route = Some body ->
                               exists b, forall fuel,
                                   serializeRequestBody fuel doc body = Some b).
  { intros body Eb. rewrite Eb in Hb. unfold serializeRequestBody.
    destruct (content_returns (rb_content body) Hb) as (c & Hc).
    eexists. intros fuel. now rewrite Hc. }
  destruct (fold_option_some
              (fun fuel (acc : option JRecord) (entry : string * ResponseDef) =>
                 match acc, serializeResponse fuel doc (snd entry) with
                 | Some responses, Some r =>
                     Some (obj_set (fst entry) (JObj r) responses)
                 | _, _ => None
                 end)
              (r_responses route)) with (a := @nil (string * JValue))
    as (responses & Hresponses).
  { intros entry a Hin.
    destruct (response_returns (snd entry)) as (r & Hr').
    - unfold JsMap.values in Hr.
      rewrite flat_map_map, Forall_flat_map, Forall_flat_map, Forall_forall in Hr.
      apply Forall_flat_map. exact (Hr entry Hin).
    - eexists. intros fuel. now rewrite Hr'. }
  destruct (r_parameters route) as [|p0 params];
    (destruct (r_requestBody route) as [body|];
     [destruct (Hbody body eq_refl) as (b & Hbd)|]);
    eexists; intros fuel;
    repeat match goal with
      | |- context [fold_left ?f ?l ?a] =>
          assert (Hm : fold_left f l a = Some responses) by exact (Hresponses fuel);
          rewrite Hm; clear Hm
      | |- context [map_opt ?f ?l] =>
          assert (Hm : map_opt f l = Some ps) by exact (Hps fuel);
          rewrite Hm; clear Hm
      end;
    try rewrite Hbd; reflexivity.
Qed.

Lemma group_returns (p : string) :
  Forall (namedTarget doc)
         (flat_map routeRefs (JsMap.values (routes doc))) ->
  Forall (fun r => Forall (namedTarget doc) (routeRefs r))
         (match JsMap.get p (groupByPath (JsMap.values (routes doc))) with
          | Some l => l | None => [] end).
Proof.
  intros Hsafe.
  destruct (JsMap.get p (groupByPath (JsMap.values (routes doc)))) as [l|] eqn:E;
    [|constructor].
  pose proof (groupByPath_inv (fun r => Forall (namedTarget doc) (routeRefs r))
                (JsMap.values (routes doc)) JsMap.empty) as H.
  eapply Forall_impl; [|apply (H)].
  - intros r [_ Hr]. exact Hr.
  - intros r Hin. rewrite Forall_flat_map, Forall_forall in Hsafe.
    now apply Hsafe.
  - intros p' l' E'. discriminate.
  - exact E.
Qed.

End ExportReturns.

Section ExportedDocuments.
Import Exporter ExportSpec ValidationSpec RoundTripAux.

(** X19. Documents the exporter comes back for. When no reference of the
    document (in a schema or in a route, at any depth of inline schemas) is
    to a schema without a name, that is when each reference is to a schema
    with a name or to no schema at all, [serializeDocument] returns, and it
    returns the same value whatever the recursion bound: references among
    schemas with a name may go in a circle, they are written as [$ref] and
    never followed. *)
Theorem export_returns_without_anonymous_targets (doc : ApiDocument) :
  Forall (namedTarget doc) (documentRefs doc) ->
  exists written, forall fuel, serializeDocument fuel doc = Some written.
Proof.
  unfold documentRefs. rewrite Forall_app. intros [Hs Hr].
  destruct (fold_option_some
              (fun fuel (acc : option JRecord) (entry : NodeId * SchemaNode) =>
                 match acc with
                 | None => None
                 | Some schemas_ =>
                     match s_name (snd entry) with
                     | Some name =>
                         if nonempty name then
                           option_map (fun s => obj_set name (JObj s) schemas_)
                                      (serializeSchema fuel doc (snd entry))
                         else Some schemas_
                     | None => Some schemas_
                     end
                 end)
              (schemas doc)) with (a := @nil (string * JValue))
    as (schemas_ & Hschemas).
  { intros entry a Hin.
    destruct (s_name (snd entry)) as [name|]; [|now eexists].
    destruct (nonempty name); [|now eexists].
    destruct (schema_returns doc (sdepth (snd entry)) (snd entry) (le_n _))
      as (r & Hr').
    - unfold JsMap.values in Hs.
      rewrite flat_map_map, Forall_flat_map, Forall_forall in Hs.
      exact (Hs entry Hin).
    - eexists. intros fuel. now rewrite Hr'. }
  destruct (fold_option_some
              (fun fuel (acc : option JRecord) (path : string) =>
                 match acc with
                 | None => None
                 | Some paths =>
                     option_map
                       (fun item => obj_set path (JObj item) paths)
                       (fold_left
                          (fun (acc : option JRecord) (route : Route) =>
                             match acc, serializeOperation fuel doc route with
                             | Some item, Some op =>
                                 Some (obj_set (r_method route) (JObj op) item)
                             | _, _ => None
                             end)
                          match JsMap.get path
                                  (groupByPath (JsMap.values (routes doc))) with
                          | Some l => l | None => [] end
                          (Some []))
                 end)
              (sort (JsMap.keys (groupByPath (JsMap.values (routes doc))))))
    with (a := @nil (string * JValue)) as (paths & Hpaths).
  { intros path a _.
    pose proof (group_returns doc path Hr) as Hgroup.
    destruct (fold_option_some
                (fun fuel (acc : option JRecord) (route : Route) =>
                   match acc, serializeOperation fuel doc route with
                   | Some item, Some op =>
                       Some (obj_set (r_method route) (JObj op) item)
                   | _, _ => None
                   end)
                match JsMap.get path (groupByPath (JsMap.values (routes doc))) with
                | Some l => l | None => [] end)
      with (a := @nil (string * JValue)) as (item & Hitem).
    - intros route b Hin. rewrite Forall_forall in Hgroup.
      destruct (operation_returns doc route (Hgroup route Hin)) as (op & Hop).
      eexists. intros fuel. now rewrite Hop.
    - eexists. intros fuel. now rewrite Hitem. }
  eexists. intros fuel. unfold serializeDocument. cbv zeta.
  match goal with
  | |- match fold_left ?f ?l ?a with _ => _ end = _ =>
      assert (Hm : fold_left f l a = Some schemas_) by exact (Hschemas fuel);
      rewrite Hm; clear Hm
  end.
  match goal with
  | |- match fold_left ?f ?l ?a with _ => _ end = _ =>
      assert (Hm : fold_left f l a = Some paths) by exact (Hpaths fuel);
      rewrite Hm; clear Hm
  end.
  reflexivity.
Qed.

Lemma export_returns_without_anonymous_targets_witness :
  Forall (namedTarget treeDoc) (documentRefs treeDoc) /\
  exists written, forall fuel, serializeDocument fuel treeDoc = Some written.
Proof.
  assert (H : Forall (namedTarget treeDoc) (documentRefs treeDoc)).
  { repeat constructor. intros s E. vm_compute in E. now inversion E. }
  split; [exact H|].
  exact (export_returns_without_anonymous_targets treeDoc H).
Defined.

End ExportedDocuments.
